(** * CrosswordGen: the line algebra, the character set and the search driver

    A shallow embedding of
      - [pkg/primitives/char_set.go]       (module [CharSetGo]),
      - [pkg/primitives/line.go] and
        [pkg/primitives/possible_lines.go] (modules [Primitives] and
        [Shared]),
      - [WordGenLib/Gen.cs]                (modules [WordGenLib] and
        [GenHelper]),
    followed by the properties proved about them.

    Conventions of the embedding.
      - Go's [rune] (int32) and [int] are [Z]; every [int] that occurs is a
        slice length or an index compared against one.  [uint32] and [int64]
        results are reduced explicitly with [wrap32] and [wrap64].
      - A Go [string] is a [string]; [len] is the length in bytes and [s[i]]
        the byte at [i].  The dictionaries hold lowercase ASCII words, for
        which the conversion [[]rune(s)] yields one rune per byte.
      - A panic (index out of range, an explicit [panic]) is [None].
      - In [Primitives] a [PossibleLines] is a tree: no two nodes share a
        child.  A method that returns its receiver is told apart from one
        that returns a new value ([Same] and [New]), since the code compares
        pointers.  The one method that writes into a value it is called on
        is [Compound.RemoveWordOptions], which appends into the backing
        array of [possibilities]; module [Shared] keeps these arrays in a
        store and has the method for values that share them.
      - A C# iterator is the list of the values it yields, with how it ends;
        an exception is [None] or the status [Thrown].  [Random.Shared] is
        the sequence of the values that it returns. *)

From Stdlib Require Import ZArith List String Ascii Bool Lia Permutation.
Import ListNotations.
Local Open Scope Z_scope.
Set Warnings "-register-all".

Definition rune := Z.

(** The error monad used for code that can panic or throw. *)
Definition bind {A B : Type} (m : option A) (k : A -> option B) : option B :=
  match m with
  | Some a => k a
  | None => None
  end.

Declare Scope panic_scope.
Notation "x <- m ;; k" := (bind m (fun x => k))
  (at level 61, m at next level, right associativity) : panic_scope.
Notation "' pat <- m ;; k" := (bind m (fun x => match x with pat => k end))
  (at level 61, pat pattern, m at next level, right associativity) : panic_scope.
Local Open Scope panic_scope.

Definition wrap32 (z : Z) : Z := z mod 2 ^ 32.
Definition wrap64 (z : Z) : Z := (z + 2 ^ 63) mod 2 ^ 64 - 2 ^ 63.

(** ** char_set.go *)
Module CharSetGo.

Record CharSet := mkCharSet { bits : Z; count : Z }.

Definition minChar : rune := 96.   (* '`' *)
Definition maxChar : rune := 122.  (* 'z' *)
Definition numChars : Z := maxChar - minChar + 1.

(** [bits.OnesCount32]. *)
Definition OnesCount32 (x : Z) : Z :=
  fold_left (fun n i => if Z.testbit x (Z.of_nat i) then n + 1 else n) (seq 0 32) 0.

Definition NewCharSet : CharSet := mkCharSet 0 0.

(** [Add] updates the set in place and returns an error or nil; here it
    returns the set after the call and whether an error was returned. *)
Definition Add (c : CharSet) (r : rune) : CharSet * bool :=
  if (r <? minChar) || (r >? maxChar) then (c, true)
  else
    let bitPos := r - minChar in
    if Z.land (bits c) (wrap32 (Z.shiftl 1 bitPos)) =? 0 then
      let b := Z.lor (bits c) (wrap32 (Z.shiftl 1 bitPos)) in
      (mkCharSet b (OnesCount32 b), false)
    else (c, false).

Definition AddAll (c other : CharSet) : CharSet :=
  let b := Z.lor (bits c) (bits other) in
  if negb (b =? bits c) then mkCharSet b (OnesCount32 b) else mkCharSet b (count c).

Definition Contains (c : CharSet) (r : rune) : bool :=
  if (r <? minChar) || (r >? maxChar) then false
  else
    let bitPos := r - minChar in
    negb (Z.land (bits c) (wrap32 (Z.shiftl 1 bitPos)) =? 0).

Definition IsFull (c : CharSet) : bool := count c =? numChars.
Definition Capacity (c : CharSet) : Z := numChars.
Definition Count (c : CharSet) : Z := count c.

Definition DefaultCharSet : CharSet := mkCharSet 0 0.

(** [Clear], [Clone] and [Intersect]; [Clear] and [Intersect] update the
    set in place, and are given here as the set after the call. *)
Definition Clear (c : CharSet) : CharSet := mkCharSet 0 0.
Definition Clone (c : CharSet) : CharSet := mkCharSet (bits c) (count c).
Definition Intersect (c other : CharSet) : CharSet :=
  let b := Z.land (bits c) (bits other) in
  if negb (b =? bits c) then mkCharSet b (OnesCount32 b) else mkCharSet b (count c).

(** Modelled from the spec: [containsAll(other)] is listed among the
    operations of the character set but [ContainsAll], which
    [Words.FilterAny] calls, is not defined in char_set.go.  It holds when
    every character of [other] is in [c]. *)
Definition ContainsAll (c other : CharSet) : bool :=
  Z.land (bits c) (bits other) =? bits other.

End CharSetGo.

(** ** line.go and possible_lines.go *)
Module Primitives.
Import CharSetGo.

Definition kBlocked : rune := 96.  (* '`' *)

(** Strings: [len(s)], [s[i]] and [[]rune(s)]. *)
Definition len (s : string) : Z := Z.of_nat (String.length s).
Definition runeOf (a : ascii) : rune := Z.of_N (N_of_ascii a).
Definition byteAt (s : string) (i : Z) : option rune :=
  if i <? 0 then None
  else match String.get (Z.to_nat i) s with
       | Some a => Some (runeOf a)
       | None => None
       end.
Definition runes (s : string) : list rune := map runeOf (list_ascii_of_string s).

(** Slices: [l[i]], [len(l)], [slices.Contains], [slices.ContainsFunc]
    (which stops at the first element that satisfies the predicate). *)
Definition index {A : Type} (l : list A) (i : Z) : option A :=
  if i <? 0 then None else nth_error l (Z.to_nat i).
Definition slen {A : Type} (l : list A) : Z := Z.of_nat (List.length l).
Definition Contains (l : list string) (s : string) : bool := existsb (String.eqb s) l.
Fixpoint ContainsFunc {A : Type} (f : A -> option bool) (l : list A) : option bool :=
  match l with
  | [] => Some false
  | x :: l' => b <- f x ;; if (b : bool) then Some true else ContainsFunc f l'
  end.
Fixpoint mapM {A B : Type} (f : A -> option B) (l : list A) : option (list B) :=
  match l with
  | [] => Some []
  | x :: l' => y <- f x ;; ys <- mapM f l' ;; Some (y :: ys)
  end.

(** line.go *)
Module ConcreteLine.
Record t := mk { Line : list rune; Words : list string }.
Definition Length (l : t) : Z := slen (Line l).
End ConcreteLine.
Abbreviation ConcreteLine := ConcreteLine.t.

(** The variants of the interface [PossibleLines].  [letterMasks] is the
    cache that [Words.CharsAt] fills in; [None] is the nil slice. *)
Inductive PossibleLines : Type :=
| Impossible (numLetters : Z)
| Words (allWords : list string) (obscureIdx : Z) (letterMasks : option (list CharSet))
| BlockBefore (lines : PossibleLines)
| BlockAfter (lines : PossibleLines)
| BlockBetween (first second : PossibleLines)
| Compound (possibilities : list PossibleLines)
| Definite (line : ConcreteLine).

(** The methods that restrict a set return an interface value that the
    callers compare with the receiver by address ([p != f],
    [inner == b.lines]).  A result has the receiver's address exactly when
    the method returned its receiver: every other result is freshly
    allocated, is the memoised [Impossible] (returned as such only by
    receivers of another type), or is a proper part of the receiver.
    [Same] is the receiver itself, [New p] any other value. *)
Inductive Result : Type :=
| Same
| New (p : PossibleLines).

Definition value (receiver : PossibleLines) (r : Result) : PossibleLines :=
  match r with
  | Same => receiver
  | New p => p
  end.
Definition isNew (r : Result) : bool :=
  match r with
  | Same => false
  | New _ => true
  end.

Record ChoiceStep := mkChoiceStep { Choice : PossibleLines; Remaining : PossibleLines }.

Definition isImpossible (p : PossibleLines) : bool :=
  match p with
  | Impossible _ => true
  | _ => false
  end.
Definition isCompound (p : PossibleLines) : bool :=
  match p with
  | Compound _ => true
  | _ => false
  end.

(** [ic] has 25 entries; [MakeImpossible] indexes it. *)
Definition MakeImpossible (numLetters : Z) : option PossibleLines :=
  if (0 <=? numLetters) && (numLetters <? 25) then Some (Impossible numLetters) else None.

Definition MakeDefinite (line : ConcreteLine) : PossibleLines := Definite line.

Definition MakeWords (allWords : list string) (obscureIdx numLetters : Z)
  : option PossibleLines :=
  match allWords with
  | [] => MakeImpossible numLetters
  | [w] => Some (MakeDefinite (ConcreteLine.mk (runes w) [w]))
  | _ => Some (Words allWords obscureIdx None)
  end.

(** [MakeCompound] calls itself on the flattened list; the number of
    constructors in the list decreases with each call and serves as
    fuel. *)
Fixpoint weight (p : PossibleLines) : nat :=
  match p with
  | Impossible _ => 1
  | Words _ _ _ => 1
  | BlockBefore l => S (weight l)
  | BlockAfter l => S (weight l)
  | BlockBetween f s => S (weight f + weight s)
  | Compound ps => S (fold_right (fun q n => weight q + n) 0 ps)%nat
  | Definite _ => 1
  end.
Definition weights (ps : list PossibleLines) : nat :=
  fold_right (fun q n => weight q + n)%nat 0%nat ps.

Definition flatten (possibilities : list PossibleLines) : list PossibleLines :=
  flat_map (fun p => match p with
                     | Impossible _ => []
                     | Compound ps => ps
                     | _ => [p]
                     end) possibilities.

Fixpoint MakeCompound_fuel (fuel : nat) (possibilities : list PossibleLines)
         (numLetters : Z) : option PossibleLines :=
  match possibilities with
  | [] => MakeImpossible numLetters
  | [p] => Some p
  | _ =>
      if existsb (fun p => isImpossible p || isCompound p) possibilities then
        match fuel with
        | O => None
        | S fuel' => MakeCompound_fuel fuel' (flatten possibilities) numLetters
        end
      else Some (Compound possibilities)
  end.
Definition MakeCompound (possibilities : list PossibleLines) (numLetters : Z)
  : option PossibleLines :=
  MakeCompound_fuel (weights possibilities) possibilities numLetters.

Fixpoint NumLetters (p : PossibleLines) : option Z :=
  match p with
  | Impossible n => Some n
  | Words ws _ _ => match ws with
                    | [] => None
                    | w :: _ => Some (len w)
                    end
  | BlockBefore l => n <- NumLetters l ;; Some (1 + n)
  | BlockAfter l => n <- NumLetters l ;; Some (1 + n)
  | BlockBetween f s => nf <- NumLetters f ;; ns <- NumLetters s ;; Some (1 + nf + ns)
  | Compound ps => match ps with
                   | [] => None
                   | q :: _ => NumLetters q
                   end
  | Definite d => Some (slen (ConcreteLine.Line d))
  end.

Fixpoint MaxPossibilities (p : PossibleLines) : Z :=
  match p with
  | Impossible _ => 0
  | Words ws _ _ => wrap64 (slen ws)
  | BlockBefore l => MaxPossibilities l
  | BlockAfter l => MaxPossibilities l
  | BlockBetween f s => wrap64 (MaxPossibilities f * MaxPossibilities s)
  | Compound ps =>
      fold_left (fun sum m => wrap64 (sum + m)) (map MaxPossibilities ps) 0
  | Definite _ => 1
  end.

Fixpoint DefinitelyBlockedAt (p : PossibleLines) (idx : Z) : option bool :=
  match p with
  | Impossible _ => Some false
  | Words _ _ _ => Some false
  | BlockBefore l =>
      if idx =? 0 then Some true else DefinitelyBlockedAt l (idx - 1)
  | BlockAfter l =>
      n <- NumLetters l ;;
      if idx =? n then Some true else DefinitelyBlockedAt l idx
  | BlockBetween f s =>
      n <- NumLetters f ;;
      if idx =? n then Some true
      else if idx <? n then DefinitelyBlockedAt f idx
      else DefinitelyBlockedAt s (idx - n - 1)
  | Compound ps =>
      (fix loop (l : list PossibleLines) : option bool :=
         match l with
         | [] => Some true
         | q :: l' =>
             b <- DefinitelyBlockedAt q idx ;;
             if (b : bool) then loop l' else Some false
         end) ps
  | Definite d =>
      c <- index (ConcreteLine.Line d) idx ;; Some (c =? kBlocked)
  end.

(** [Iterate]: the lines in the order in which they are yielded. *)
Definition blockBefore (l : ConcreteLine) : ConcreteLine :=
  ConcreteLine.mk (kBlocked :: ConcreteLine.Line l) (ConcreteLine.Words l).
Definition blockAfter (l : ConcreteLine) : ConcreteLine :=
  ConcreteLine.mk (ConcreteLine.Line l ++ [kBlocked]) (ConcreteLine.Words l).
Definition blockBetween (f s : ConcreteLine) : ConcreteLine :=
  ConcreteLine.mk ((ConcreteLine.Line f ++ [kBlocked]) ++ ConcreteLine.Line s)
                  (ConcreteLine.Words f ++ ConcreteLine.Words s).
Definition wordLine (word : string) : ConcreteLine :=
  ConcreteLine.mk (runes word) [word].

Fixpoint Iterate (p : PossibleLines) : list ConcreteLine :=
  match p with
  | Impossible _ => []
  | Words ws _ _ => map wordLine ws
  | BlockBefore l => map blockBefore (Iterate l)
  | BlockAfter l => map blockAfter (Iterate l)
  | BlockBetween f s =>
      flat_map (fun first => map (fun second => blockBetween first second) (Iterate s))
               (Iterate f)
  | Compound ps => flat_map Iterate ps
  | Definite d => [d]
  end.

(** The loop shared by [Words.Filter], [Words.FilterAny] and
    [Words.RemoveWordOptions]: the words that satisfy [keep], in order,
    and how many of them lie below [obscureIdx]. *)
Fixpoint keepWords (keep : string -> option bool) (obscureIdx idx : Z)
         (ws : list string) : option (list string * Z) :=
  match ws with
  | [] => Some ([], 0)
  | word :: ws' =>
      b <- keep word ;;
      ' (filtered, n) <- keepWords keep obscureIdx (idx + 1) ws' ;;
      if (b : bool)
      then Some (word :: filtered, if idx <? obscureIdx then n + 1 else n)
      else Some (filtered, n)
  end.

Definition newImpossible (numLetters : option Z) : option Result :=
  n <- numLetters ;; r <- MakeImpossible n ;; Some (New r).

(** [build] of [BlockBefore], [BlockAfter] and [BlockBetween]. *)
Definition BlockBefore_build (lines : PossibleLines) (inner : Result) : option Result :=
  if isImpossible (value lines inner) then newImpossible (NumLetters (BlockBefore lines))
  else match inner with
       | Same => Some Same
       | New i => Some (New (BlockBefore i))
       end.
Definition BlockAfter_build (lines : PossibleLines) (inner : Result) : option Result :=
  if isImpossible (value lines inner) then newImpossible (NumLetters (BlockAfter lines))
  else match inner with
       | Same => Some Same
       | New i => Some (New (BlockAfter i))
       end.
Definition BlockBetween_build (first second : PossibleLines) (f s : Result)
  : option Result :=
  if isImpossible (value first f) || isImpossible (value second s)
  then newImpossible (NumLetters (BlockBetween first second))
  else if negb (isNew f) && negb (isNew s) then Some Same
       else Some (New (BlockBetween (value first f) (value second s))).

(** The loop of [Compound.Filter] over the children [p] paired with their
    results [f]; [seen] is [c.possibilities[:ip]]. *)
Fixpoint Compound_Filter_loop (seen : list PossibleLines)
         (todo : list (PossibleLines * Result))
         (filtered : list PossibleLines) (anyChangeInSubParts : bool)
  : list PossibleLines * bool :=
  match todo with
  | [] => (filtered, anyChangeInSubParts)
  | (p, f) :: todo' =>
      let '(filtered, any) :=
        if negb anyChangeInSubParts && isNew f then (filtered ++ seen, true)
        else (filtered, anyChangeInSubParts) in
      let filtered :=
        if isImpossible (value p f) then filtered
        else if any then filtered ++ [value p f] else filtered in
      Compound_Filter_loop (seen ++ [p]) todo' filtered any
  end.

Fixpoint Filter (p : PossibleLines) (constraint : rune) (idx : Z) : option Result :=
  match p with
  | Impossible _ => Some Same
  | Words ws obscureIdx _ =>
      if constraint =? kBlocked then newImpossible (NumLetters p)
      else
        anyMismatch <-
          (if 0 <? MaxPossibilities p
           then ContainsFunc (fun word => c <- byteAt word idx ;;
                                          Some (negb (c =? constraint))) ws
           else Some true) ;;
        if negb anyMismatch then Some Same
        else
          ' (filtered, newNumPreferred) <-
            keepWords (fun word => c <- byteAt word idx ;; Some (c =? constraint))
                      obscureIdx 0 ws ;;
          n <- NumLetters p ;;
          r <- MakeWords filtered newNumPreferred n ;;
          Some (New r)
  | BlockBefore l =>
      if idx =? 0 then
        if constraint =? kBlocked then Some Same else newImpossible (NumLetters p)
      else
        inner <- Filter l constraint (idx - 1) ;;
        BlockBefore_build l inner
  | BlockAfter l =>
      n <- NumLetters l ;;
      if idx =? n then
        if constraint =? kBlocked then Some Same else newImpossible (NumLetters p)
      else
        inner <- Filter l constraint idx ;;
        BlockAfter_build l inner
  | BlockBetween f s =>
      n <- NumLetters f ;;
      if idx =? n then
        if constraint =? kBlocked then Some Same else newImpossible (NumLetters p)
      else if idx <? n then
        f' <- Filter f constraint idx ;;
        BlockBetween_build f s f' Same
      else
        s' <- Filter s constraint (idx - n - 1) ;;
        BlockBetween_build f s Same s'
  | Compound ps =>
      fs <- mapM (fun q => Filter q constraint idx) ps ;;
      let '(filtered, anyChangeInSubParts) :=
        Compound_Filter_loop [] (combine ps fs) [] false in
      if negb anyChangeInSubParts then Some Same
      else
        n <- NumLetters p ;;
        r <- MakeCompound filtered n ;;
        Some (New r)
  | Definite d =>
      c <- index (ConcreteLine.Line d) idx ;;
      if constraint =? c then Some Same else newImpossible (NumLetters p)
  end.

(** The loop of [Compound.FilterAny]; a result that is itself a [Compound]
    is spliced in. *)
Fixpoint Compound_FilterAny_loop (seen : list PossibleLines)
         (todo : list (PossibleLines * Result))
         (filtered : list PossibleLines) (anyChangeInSubParts : bool)
  : list PossibleLines * bool :=
  match todo with
  | [] => (filtered, anyChangeInSubParts)
  | (p, f) :: todo' =>
      let '(filtered, any) :=
        if negb anyChangeInSubParts && isNew f then (filtered ++ seen, true)
        else (filtered, anyChangeInSubParts) in
      let filtered :=
        if isImpossible (value p f) then filtered
        else if negb any then filtered
        else match value p f with
             | Compound cs => filtered ++ cs
             | fv => filtered ++ [fv]
             end in
      Compound_FilterAny_loop (seen ++ [p]) todo' filtered any
  end.

Definition skipsFilter (constraint : CharSet) : bool :=
  IsFull constraint
  || (negb (CharSetGo.Contains constraint kBlocked)
      && (Count constraint + 1 =? Capacity constraint)).

Fixpoint FilterAny (p : PossibleLines) (constraint : CharSet) (idx : Z) : option Result :=
  match p with
  | Impossible _ => Some Same
  | Words ws obscureIdx letterMasks =>
      if skipsFilter constraint then Some Same
      else
        covered <-
          match letterMasks with
          | None => Some false
          | Some masks =>
              mask <- index masks idx ;;
              if negb (bits mask =? 0) then Some (ContainsAll constraint mask)
              else Some false
          end ;;
        if (covered : bool) then Some Same
        else
          anyMismatch <-
            ContainsFunc (fun word => c <- byteAt word idx ;;
                                      Some (negb (CharSetGo.Contains constraint c))) ws ;;
          if negb anyMismatch then Some Same
          else
            ' (filtered, newNumPreferred) <-
              keepWords (fun word => c <- byteAt word idx ;;
                                     Some (CharSetGo.Contains constraint c))
                        obscureIdx 0 ws ;;
            n <- NumLetters p ;;
            r <- MakeWords filtered newNumPreferred n ;;
            Some (New r)
  | BlockBefore l =>
      if IsFull constraint then Some Same
      else if idx =? 0 then
        if CharSetGo.Contains constraint kBlocked then Some Same
        else newImpossible (NumLetters p)
      else
        inner <- FilterAny l constraint (idx - 1) ;;
        BlockBefore_build l inner
  | BlockAfter l =>
      if IsFull constraint then Some Same
      else
        n <- NumLetters l ;;
        if idx =? n then
          if CharSetGo.Contains constraint kBlocked then Some Same
          else newImpossible (NumLetters p)
        else
          inner <- FilterAny l constraint idx ;;
          BlockAfter_build l inner
  | BlockBetween f s =>
      if IsFull constraint then Some Same
      else
        n <- NumLetters f ;;
        if idx =? n then
          if CharSetGo.Contains constraint kBlocked then Some Same
          else newImpossible (NumLetters p)
        else if idx <? n then
          f' <- FilterAny f constraint idx ;;
          BlockBetween_build f s f' Same
        else
          s' <- FilterAny s constraint (idx - n - 1) ;;
          BlockBetween_build f s Same s'
  | Compound ps =>
      if IsFull constraint then Some Same
      else
        fs <- mapM (fun q => FilterAny q constraint idx) ps ;;
        let '(filtered, anyChangeInSubParts) :=
          Compound_FilterAny_loop [] (combine ps fs) [] false in
        if negb anyChangeInSubParts then Some Same
        else
          match filtered with
          | [] => newImpossible (NumLetters p)
          | [q] => Some (New q)
          | _ => n <- NumLetters p ;; r <- MakeCompound filtered n ;; Some (New r)
          end
  | Definite d =>
      if IsFull constraint then Some Same
      else
        c <- index (ConcreteLine.Line d) idx ;;
        if CharSetGo.Contains constraint c then Some Same
        else newImpossible (NumLetters p)
  end.

(** The loop of [Compound.RemoveWordOptions] on a tree.  In the code
    [maybeFiltered] starts as the slice [c.possibilities[:i]] and is
    appended to: the elements written land in the backing array of the
    receiver, at indices that the loop has already read.  On a value that
    reaches no backing array twice the value returned is the one computed
    here ([SharedFacts.RemoveWordOptions_simulates]); on a value that
    shares an array it is not, and [Shared.RemoveWordOptions] is the
    method there. *)
Fixpoint Compound_Remove_loop (seen : list PossibleLines)
         (todo : list (PossibleLines * Result))
         (maybeFiltered : list PossibleLines) (anyChanged : bool)
  : list PossibleLines * bool :=
  match todo with
  | [] => (maybeFiltered, anyChanged)
  | (p, f) :: todo' =>
      if negb (isNew f) && negb anyChanged
      then Compound_Remove_loop (seen ++ [p]) todo' maybeFiltered anyChanged
      else
        let '(maybeFiltered, any) :=
          if isNew f && negb anyChanged then (seen, true)
          else (maybeFiltered, anyChanged) in
        let maybeFiltered :=
          if negb (isImpossible (value p f)) then maybeFiltered ++ [value p f]
          else maybeFiltered in
        Compound_Remove_loop (seen ++ [p]) todo' maybeFiltered any
  end.

Fixpoint RemoveWordOptions (p : PossibleLines) (words : list string) : option Result :=
  match p with
  | Impossible _ => Some Same
  | Words ws obscureIdx _ =>
      needsFiltering <-
        ContainsFunc (fun word => n <- NumLetters p ;;
                                  if negb (len word =? n) then Some false
                                  else Some (Contains ws word)) words ;;
      if negb needsFiltering then Some Same
      else
        ' (fp, fPreferred) <-
          keepWords (fun q => Some (negb (Contains words q))) obscureIdx 0 ws ;;
        n <- NumLetters p ;;
        r <- MakeWords fp fPreferred n ;;
        Some (New r)
  | BlockBefore l =>
      inner <- RemoveWordOptions l words ;;
      BlockBefore_build l inner
  | BlockAfter l =>
      inner <- RemoveWordOptions l words ;;
      BlockAfter_build l inner
  | BlockBetween f s =>
      f' <- RemoveWordOptions f words ;;
      s' <- RemoveWordOptions s words ;;
      BlockBetween_build f s f' s'
  | Compound ps =>
      fs <- mapM (fun q => RemoveWordOptions q words) ps ;;
      let '(maybeFiltered, anyChanged) :=
        Compound_Remove_loop [] (combine ps fs) [] false in
      if negb anyChanged then Some Same
      else
        n <- NumLetters p ;;
        r <- MakeCompound maybeFiltered n ;;
        Some (New r)
  | Definite d =>
      hit <-
        ContainsFunc (fun word => n <- NumLetters p ;;
                                  if negb (len word =? n) then Some false
                                  else Some (Contains (ConcreteLine.Words d) word)) words ;;
      if (hit : bool) then newImpossible (NumLetters p) else Some Same
  end.

(** [Words.MakeChoice]: the two halves and their boundaries. *)
Definition Words_MakeChoice (p : PossibleLines) (ws : list string) (obscureIdx : Z)
  : option ChoiceStep :=
  if MaxPossibilities p <=? 1 then None
  else
    let half := Z.to_nat (Z.quot (slen ws) 2) in
    let w1 := firstn half ws in
    let w2 := skipn half ws in
    let '(w1Idx, w2Idx) :=
      if obscureIdx <? slen w1 then (obscureIdx, 0)
      else (slen w1, obscureIdx - slen w1) in
    n <- NumLetters p ;;
    c <- MakeWords w1 w1Idx n ;;
    n' <- NumLetters p ;;
    r <- MakeWords w2 w2Idx n' ;;
    Some (mkChoiceStep c r).

(** The loop of [Compound.MakeChoice] that finds [splitIdx]; [ms] are the
    [MaxPossibilities] of the children from index [i] on. *)
Fixpoint splitLoop (half acc i n : Z) (ms : list Z) : Z :=
  match ms with
  | [] => 1
  | m :: ms' =>
      let acc := wrap64 (acc + m) in
      if (half <=? acc) && (i + 1 <? n) then i + 1
      else splitLoop half acc (i + 1) n ms'
  end.

Fixpoint MakeChoice (p : PossibleLines) : option ChoiceStep :=
  match p with
  | Impossible _ => None
  | Words ws obscureIdx _ => Words_MakeChoice p ws obscureIdx
  | BlockBefore l =>
      c <- MakeChoice l ;;
      Some (mkChoiceStep (BlockBefore (Choice c)) (BlockBefore (Remaining c)))
  | BlockAfter l =>
      c <- MakeChoice l ;;
      Some (mkChoiceStep (BlockAfter (Choice c)) (BlockAfter (Remaining c)))
  | BlockBetween f s =>
      if MaxPossibilities s <? MaxPossibilities f then
        firstChoice <- MakeChoice f ;;
        Some (mkChoiceStep (BlockBetween (Choice firstChoice) s)
                           (BlockBetween (Remaining firstChoice) s))
      else
        secondChoice <- MakeChoice s ;;
        Some (mkChoiceStep (BlockBetween f (Choice secondChoice))
                           (BlockBetween f (Remaining secondChoice)))
  | Compound ps =>
      if slen ps <=? 1 then None
      else if MaxPossibilities p <=? 1 then None
      else
        let ms := map MaxPossibilities ps in
        let total := fold_left (fun sum m => wrap64 (sum + m)) ms 0 in
        let half := Z.quot total 2 in
        let splitIdx := Z.to_nat (splitLoop half 0 0 (slen ps) ms) in
        n <- NumLetters p ;;
        c <- MakeCompound (firstn splitIdx ps) n ;;
        n' <- NumLetters p ;;
        r <- MakeCompound (skipn splitIdx ps) n' ;;
        Some (mkChoiceStep c r)
  | Definite _ => None
  end.

(** *** The constructors of the blocks and the remaining methods *)
Definition MakeWordsFromPreferredAndObscure (preferred obscure : list string)
           (numLetters : Z) : option PossibleLines :=
  match preferred, obscure with
  | [], [] => MakeImpossible numLetters
  | [w], [] => Some (MakeDefinite (ConcreteLine.mk (runes w) [w]))
  | [], [w] => Some (MakeDefinite (ConcreteLine.mk (runes w) [w]))
  | _, _ => Some (Words (preferred ++ obscure) (slen preferred) None)
  end.

Definition MakeBlockBefore (lines : PossibleLines) : option PossibleLines :=
  if isImpossible lines then n <- NumLetters lines ;; MakeImpossible (n + 1)
  else Some (BlockBefore lines).
Definition MakeBlockAfter (lines : PossibleLines) : option PossibleLines :=
  if isImpossible lines then n <- NumLetters lines ;; MakeImpossible (n + 1)
  else Some (BlockAfter lines).
Definition MakeBlockBetween (first second : PossibleLines) : option PossibleLines :=
  if isImpossible first || isImpossible second then
    nf <- NumLetters first ;; ns <- NumLetters second ;; MakeImpossible (nf + ns + 1)
  else Some (BlockBetween first second).

(** [FirstOrNull]; [None] is nil. *)
Fixpoint FirstOrNull (p : PossibleLines) : option ConcreteLine :=
  match p with
  | Impossible _ => None
  | Words ws _ _ => match ws with
                    | [] => None
                    | w :: _ => Some (wordLine w)
                    end
  | BlockBefore l => match FirstOrNull l with
                     | None => None
                     | Some c => Some (blockBefore c)
                     end
  | BlockAfter l => match FirstOrNull l with
                    | None => None
                    | Some c => Some (blockAfter c)
                    end
  | BlockBetween f s =>
      match FirstOrNull f, FirstOrNull s with
      | Some cf, Some cs => Some (blockBetween cf cs)
      | _, _ => None
      end
  | Compound ps =>
      (fix loop (l : list PossibleLines) : option ConcreteLine :=
         match l with
         | [] => None
         | q :: l' => match FirstOrNull q with
                      | Some f => Some f
                      | None => loop l'
                      end
         end) ps
  | Definite d => Some d
  end.

(** [DefiniteWords]; the nil slice is the empty list. *)
Fixpoint DefiniteWords (p : PossibleLines) : list string :=
  match p with
  | Impossible _ => []
  | Words ws _ _ => match ws with
                    | [w] => [w]
                    | _ => []
                    end
  | BlockBefore l => DefiniteWords l
  | BlockAfter l => DefiniteWords l
  | BlockBetween f s => DefiniteWords f ++ DefiniteWords s
  | Compound _ => []
  | Definite d => ConcreteLine.Words d
  end.

(** [l[i] = x]. *)
Fixpoint assign {A : Type} (l : list A) (i : nat) (x : A) : list A :=
  match l, i with
  | [], _ => []
  | _ :: l', O => x :: l'
  | y :: l', S i' => y :: assign l' i' x
  end.

(** The loop of [Words.CharsAt] that fills the mask of an index: the
    error of [Add] is dropped. *)
Fixpoint maskOf (mask : CharSet) (idx : Z) (ws : list string) : option CharSet :=
  match ws with
  | [] => Some mask
  | word :: ws' => r <- byteAt word idx ;; maskOf (fst (Add mask r)) idx ws'
  end.

(** [CharsAt] updates [accumulate] in place, and [Words.CharsAt] fills
    the mask cache of its receiver: the result is the receiver and
    [accumulate] after the call. *)
Fixpoint CharsAt (p : PossibleLines) (accumulate : CharSet) (idx : Z)
  : option (PossibleLines * CharSet) :=
  match p with
  | Impossible _ => Some (p, accumulate)
  | Words ws obscureIdx letterMasks =>
      if skipsFilter accumulate then Some (p, accumulate)
      else
        masks <- match letterMasks with
                 | None => n <- NumLetters p ;;
                           Some (repeat (mkCharSet 0 0) (Z.to_nat n))
                 | Some masks => Some masks
                 end ;;
        mask <- index masks idx ;;
        mask' <- (if bits mask =? 0 then maskOf (mkCharSet 0 0) idx ws else Some mask) ;;
        Some (Words ws obscureIdx (Some (assign masks (Z.to_nat idx) mask')),
              AddAll accumulate mask')
  | BlockBefore l =>
      if IsFull accumulate then Some (p, accumulate)
      else if idx =? 0 then Some (p, fst (Add accumulate kBlocked))
      else
        ' (l', acc) <- CharsAt l accumulate (idx - 1) ;;
        Some (BlockBefore l', acc)
  | BlockAfter l =>
      if IsFull accumulate then Some (p, accumulate)
      else
        n <- NumLetters l ;;
        if idx =? n then Some (p, fst (Add accumulate kBlocked))
        else
          ' (l', acc) <- CharsAt l accumulate idx ;;
          Some (BlockAfter l', acc)
  | BlockBetween f s =>
      if IsFull accumulate then Some (p, accumulate)
      else
        n <- NumLetters f ;;
        if idx =? n then Some (p, fst (Add accumulate kBlocked))
        else if idx <? n then
          ' (f', acc) <- CharsAt f accumulate idx ;;
          Some (BlockBetween f' s, acc)
        else
          n' <- NumLetters f ;;
          ' (s', acc) <- CharsAt s accumulate (idx - n' - 1) ;;
          Some (BlockBetween f s', acc)
  | Compound ps =>
      ' (ps', acc) <-
        (fix loop (l : list PossibleLines) (acc : CharSet)
           : option (list PossibleLines * CharSet) :=
           match l with
           | [] => Some ([], acc)
           | q :: l' =>
               ' (q', acc') <- CharsAt q acc idx ;;
               if IsFull acc' then Some (q' :: l', acc')
               else
                 ' (rest, acc'') <- loop l' acc' ;;
                 Some (q' :: rest, acc'')
           end) ps accumulate ;;
      Some (Compound ps', acc)
  | Definite d =>
      c <- index (ConcreteLine.Line d) idx ;;
      Some (p, fst (Add accumulate c))
  end.

(** *** Well-formed values

    The invariants of the data model: a line has at most 24 cells (the
    memo table of [Impossible] has 25 entries); [Words] holds at least two
    lowercase words of one length and a mask cache that is nil or has one
    mask per cell; a block wraps a non-empty set; [Compound] holds at least
    two children of one length, none of them [Impossible] or
    [Compound]. *)
Definition isLetter (c : rune) : bool := (97 <=? c) && (c <=? 122).
Definition wordOk (n : Z) (w : string) : bool :=
  (len w =? n) && forallb isLetter (runes w).
Definition fits (p : PossibleLines) : bool :=
  match NumLetters p with
  | Some n => (0 <=? n) && (n <? 25)
  | None => false
  end.
Definition sameLetters (p q : PossibleLines) : bool :=
  match NumLetters p, NumLetters q with
  | Some n, Some m => n =? m
  | _, _ => false
  end.

Fixpoint wellFormed (p : PossibleLines) : bool :=
  fits p
  && match p with
     | Impossible _ => true
     | Words ws _ masks =>
         (2 <=? slen ws)
         && match ws with
            | [] => false
            | w :: _ =>
                forallb (wordOk (len w)) ws
                && match masks with
                   | None => true
                   | Some ms => slen ms =? len w
                   end
            end
     | BlockBefore l => wellFormed l && negb (isImpossible l)
     | BlockAfter l => wellFormed l && negb (isImpossible l)
     | BlockBetween f s =>
         wellFormed f && wellFormed s
         && negb (isImpossible f) && negb (isImpossible s)
     | Compound ps =>
         (2 <=? slen ps)
         && forallb wellFormed ps
         && forallb (fun q => negb (isImpossible q) && negb (isCompound q)) ps
         && forallb (sameLetters p) ps
     | Definite _ => true
     end.

(** The cell of a line at an index, and the lines of a list that have a
    given character there. *)
Definition cell (l : ConcreteLine) (i : Z) : option rune := index (ConcreteLine.Line l) i.
Definition cellIs (ch : rune) (i : Z) (l : ConcreteLine) : bool :=
  match cell l i with
  | Some c => c =? ch
  | None => false
  end.

(** Induction over the variants, with the children of a [Compound]. *)
Section NestedInduction.
Variable P : PossibleLines -> Prop.
Hypothesis HImpossible : forall n, P (Impossible n).
Hypothesis HWords : forall ws oi masks, P (Words ws oi masks).
Hypothesis HBefore : forall l, P l -> P (BlockBefore l).
Hypothesis HAfter : forall l, P l -> P (BlockAfter l).
Hypothesis HBetween : forall f s, P f -> P s -> P (BlockBetween f s).
Hypothesis HCompound : forall ps, Forall P ps -> P (Compound ps).
Hypothesis HDefinite : forall d, P (Definite d).

Fixpoint lines_ind (p : PossibleLines) : P p :=
  match p with
  | Impossible n => HImpossible n
  | Words ws oi masks => HWords ws oi masks
  | BlockBefore l => HBefore l (lines_ind l)
  | BlockAfter l => HAfter l (lines_ind l)
  | BlockBetween f s => HBetween f s (lines_ind f) (lines_ind s)
  | Compound ps =>
      HCompound ps
        ((fix children (l : list PossibleLines) : Forall P l :=
            match l with
            | [] => Forall_nil P
            | q :: l' => Forall_cons q (lines_ind q) (children l')
            end) ps)
  | Definite d => HDefinite d
  end.
End NestedInduction.

End Primitives.

(** ** The backing array of [Compound.RemoveWordOptions] *)
Module Aliasing.
Import Primitives.

(** The same loop on the backing array of [c.possibilities].  A slice is
    nil or has an array of its own ([Fresh]), or is the view
    [c.possibilities[:n]] of the array [arr] of the receiver ([View]),
    whose capacity reaches to the end of [arr]; [append] to a view
    writes into [arr].  [remove] is [p.RemoveWordOptions(words)]. *)
Inductive Slice : Type :=
| Fresh (elements : list PossibleLines)
| View (n : nat).

Definition contents (arr : list PossibleLines) (s : Slice) : list PossibleLines :=
  match s with
  | Fresh elements => elements
  | View n => firstn n arr
  end.

Fixpoint writeAt (n : nat) (x : PossibleLines) (arr : list PossibleLines)
  : list PossibleLines :=
  match arr, n with
  | [], _ => []
  | _ :: arr', O => x :: arr'
  | y :: arr', S n' => y :: writeAt n' x arr'
  end.

Definition append (arr : list PossibleLines) (s : Slice) (x : PossibleLines)
  : list PossibleLines * Slice :=
  match s with
  | Fresh elements => (arr, Fresh (elements ++ [x]))
  | View n =>
      if (n <? List.length arr)%nat then (writeAt n x arr, View (S n))
      else (arr, Fresh (firstn n arr ++ [x]))
  end.

Fixpoint WriteThrough (remove : PossibleLines -> Result) (count i : nat)
         (arr : list PossibleLines) (maybeFiltered : Slice) (anyChanged : bool)
  : list PossibleLines * Slice * bool :=
  match count with
  | O => (arr, maybeFiltered, anyChanged)
  | S count' =>
      match nth_error arr i with
      | None => (arr, maybeFiltered, anyChanged)
      | Some p =>
          let f := remove p in
          if negb (isNew f) && negb anyChanged
          then WriteThrough remove count' (S i) arr maybeFiltered anyChanged
          else
            let '(maybeFiltered, any) :=
              if isNew f && negb anyChanged
              then ((if (0 <? i)%nat then View i else maybeFiltered), true)
              else (maybeFiltered, anyChanged) in
            let '(arr, maybeFiltered) :=
              if negb (isImpossible (value p f)) then append arr maybeFiltered (value p f)
              else (arr, maybeFiltered) in
            WriteThrough remove count' (S i) arr maybeFiltered any
      end
  end.
End Aliasing.

(** ** possible_lines.go on values that share backing arrays *)
Module Shared.
Import CharSetGo Primitives.

(** A slice header: the backing array (its number in the store), the
    index of the first element in it and the length; the capacity reaches
    to the end of the array. *)
Record Slice := mkSlice { array : nat; offset : nat; count : nat }.

(** The variants again.  A [Compound] holds the slice header of
    [possibilities]: the elements are in the store, and two values that
    hold slices of one array share them. *)
Inductive PossibleLines : Type :=
| Impossible (numLetters : Z)
| Words (allWords : list string) (obscureIdx : Z) (letterMasks : option (list CharSet))
| BlockBefore (lines : PossibleLines)
| BlockAfter (lines : PossibleLines)
| BlockBetween (first second : PossibleLines)
| Compound (possibilities : Slice)
| Definite (line : ConcreteLine).

Definition Store := list (list PossibleLines).

(** As in [Primitives]: what a method returns is its receiver ([Same]) or
    another value ([New]). *)
Inductive Result : Type :=
| Same
| New (p : PossibleLines).

Definition value (receiver : PossibleLines) (r : Result) : PossibleLines :=
  match r with
  | Same => receiver
  | New p => p
  end.
Definition isNew (r : Result) : bool :=
  match r with
  | Same => false
  | New _ => true
  end.

Definition isImpossible (p : PossibleLines) : bool :=
  match p with
  | Impossible _ => true
  | _ => false
  end.
Definition isCompound (p : PossibleLines) : bool :=
  match p with
  | Compound _ => true
  | _ => false
  end.

(** [s[i]] and the elements [s[0], ..., s[len(s) - 1]] of a slice. *)
Definition element (st : Store) (s : Slice) (i : nat) : option PossibleLines :=
  a <- nth_error st (array s) ;;
  if (i <? count s)%nat then nth_error a (offset s + i) else None.
Definition elements (st : Store) (s : Slice) : option (list PossibleLines) :=
  a <- nth_error st (array s) ;;
  if (offset s + count s <=? List.length a)%nat
  then Some (firstn (count s) (skipn (offset s) a))
  else None.

(** [array[i] = x] in the store. *)
Fixpoint writeAt (i : nat) (x : PossibleLines) (a : list PossibleLines)
  : list PossibleLines :=
  match a, i with
  | [], _ => []
  | _ :: a', O => x :: a'
  | y :: a', S i' => y :: writeAt i' x a'
  end.
Fixpoint write (st : Store) (array i : nat) (x : PossibleLines) : Store :=
  match st, array with
  | [], _ => []
  | a :: st', O => writeAt i x a :: st'
  | a :: st', S array' => a :: write st' array' i x
  end.

(** A slice in a local variable: nil or a slice of an array that no other
    value holds yet ([Fresh]), or a slice of an array of the store
    ([View]).  [append] to a view writes into the array while the
    capacity lasts.  An array that [append] or [make] allocates enters the
    store when a [Compound] is built on it, at the length of the slice:
    the room that Go may leave behind a slice is written to by no method,
    since the loop of [RemoveWordOptions] appends to a view at an index
    that it has read. *)
Inductive Local : Type :=
| Fresh (elements : list PossibleLines)
| View (s : Slice).

Definition contents (st : Store) (s : Local) : option (list PossibleLines) :=
  match s with
  | Fresh l => Some l
  | View v => elements st v
  end.

Definition append (st : Store) (s : Local) (x : PossibleLines) : option (Store * Local) :=
  match s with
  | Fresh l => Some (st, Fresh (l ++ [x]))
  | View v =>
      l <- elements st v ;;
      a <- nth_error st (array v) ;;
      if (offset v + count v <? List.length a)%nat
      then Some (write st (array v) (offset v + count v) x,
                 View (mkSlice (array v) (offset v) (S (count v))))
      else Some (st, Fresh (l ++ [x]))
  end.

Definition MakeImpossible (numLetters : Z) : option PossibleLines :=
  if (0 <=? numLetters) && (numLetters <? 25) then Some (Impossible numLetters) else None.

Definition MakeDefinite (line : ConcreteLine) : PossibleLines := Definite line.

Definition MakeWords (allWords : list string) (obscureIdx numLetters : Z)
  : option PossibleLines :=
  match allWords with
  | [] => MakeImpossible numLetters
  | [w] => Some (MakeDefinite (ConcreteLine.mk (runes w) [w]))
  | _ => Some (Words allWords obscureIdx None)
  end.

(** The methods follow the slices into the store; [fuel] bounds the depth
    of the calls. *)
Fixpoint NumLetters (fuel : nat) (st : Store) (p : PossibleLines) : option Z :=
  match fuel with
  | O => None
  | S fuel' =>
      match p with
      | Impossible n => Some n
      | Words ws _ _ => match ws with
                        | [] => None
                        | w :: _ => Some (len w)
                        end
      | BlockBefore l => n <- NumLetters fuel' st l ;; Some (1 + n)
      | BlockAfter l => n <- NumLetters fuel' st l ;; Some (1 + n)
      | BlockBetween f s =>
          nf <- NumLetters fuel' st f ;; ns <- NumLetters fuel' st s ;; Some (1 + nf + ns)
      | Compound c => q <- element st c 0 ;; NumLetters fuel' st q
      | Definite d => Some (slen (ConcreteLine.Line d))
      end
  end.

Fixpoint Iterate (fuel : nat) (st : Store) (p : PossibleLines) : option (list ConcreteLine) :=
  match fuel with
  | O => None
  | S fuel' =>
      match p with
      | Impossible _ => Some []
      | Words ws _ _ => Some (map wordLine ws)
      | BlockBefore l => ls <- Iterate fuel' st l ;; Some (map blockBefore ls)
      | BlockAfter l => ls <- Iterate fuel' st l ;; Some (map blockAfter ls)
      | BlockBetween f s =>
          fs <- Iterate fuel' st f ;;
          lss <- mapM (fun first => ss <- Iterate fuel' st s ;;
                                    Some (map (fun second => blockBetween first second) ss)) fs ;;
          Some (List.concat lss)
      | Compound c =>
          ps <- elements st c ;;
          lss <- mapM (Iterate fuel' st) ps ;;
          Some (List.concat lss)
      | Definite d => Some [d]
      end
  end.

(** [MakeCompound]: the flattened list is built in an array of its own;
    otherwise the [Compound] returned holds the slice it was given. *)
Fixpoint flatten (st : Store) (possibilities : list PossibleLines)
  : option (list PossibleLines) :=
  match possibilities with
  | [] => Some []
  | p :: ps =>
      match p with
      | Impossible _ => flatten st ps
      | Compound c => l <- elements st c ;; rest <- flatten st ps ;; Some (l ++ rest)
      | _ => rest <- flatten st ps ;; Some (p :: rest)
      end
  end.

Fixpoint MakeCompound (fuel : nat) (st : Store) (possibilities : Local) (numLetters : Z)
  : option (Store * PossibleLines) :=
  match fuel with
  | O => None
  | S fuel' =>
      ps <- contents st possibilities ;;
      match ps with
      | [] => r <- MakeImpossible numLetters ;; Some (st, r)
      | [p] => Some (st, p)
      | _ =>
          if existsb (fun p => isImpossible p || isCompound p) ps then
            filtered <- flatten st ps ;;
            MakeCompound fuel' st (Fresh filtered) numLetters
          else
            match possibilities with
            | View v => Some (st, Compound v)
            | Fresh l =>
                Some (st ++ [l], Compound (mkSlice (List.length st) 0 (List.length l)))
            end
      end
  end.

Definition newImpossible (numLetters : option Z) : option Result :=
  n <- numLetters ;; r <- MakeImpossible n ;; Some (New r).

(** [build] of [BlockBefore], [BlockAfter] and [BlockBetween]; [st] is the
    store after the calls on the parts. *)
Definition BlockBefore_build (fuel : nat) (st : Store) (lines : PossibleLines)
           (inner : Result) : option Result :=
  if isImpossible (value lines inner)
  then newImpossible (NumLetters fuel st (BlockBefore lines))
  else match inner with
       | Same => Some Same
       | New i => Some (New (BlockBefore i))
       end.
Definition BlockAfter_build (fuel : nat) (st : Store) (lines : PossibleLines)
           (inner : Result) : option Result :=
  if isImpossible (value lines inner)
  then newImpossible (NumLetters fuel st (BlockAfter lines))
  else match inner with
       | Same => Some Same
       | New i => Some (New (BlockAfter i))
       end.
Definition BlockBetween_build (fuel : nat) (st : Store) (first second : PossibleLines)
           (f s : Result) : option Result :=
  if isImpossible (value first f) || isImpossible (value second s)
  then newImpossible (NumLetters fuel st (BlockBetween first second))
  else if negb (isNew f) && negb (isNew s) then Some Same
       else Some (New (BlockBetween (value first f) (value second s))).

(** The loop of [Compound.RemoveWordOptions] over [c.possibilities], whose
    elements it reads from the store as it goes; [remove] is
    [p.RemoveWordOptions(words)].  [maybeFiltered] becomes the slice
    [c.possibilities[:i]] at the first change, and what is appended to it
    then lands in the array of the receiver. *)
Fixpoint Compound_Remove_loop (remove : Store -> PossibleLines -> option (Store * Result))
         (c : Slice) (todo i : nat) (st : Store) (maybeFiltered : Local)
         (anyChanged : bool) : option (Store * Local * bool) :=
  match todo with
  | O => Some (st, maybeFiltered, anyChanged)
  | S todo' =>
      p <- element st c i ;;
      ' (st, f) <- remove st p ;;
      if negb (isNew f) && negb anyChanged
      then Compound_Remove_loop remove c todo' (S i) st maybeFiltered anyChanged
      else
        let '(maybeFiltered, any) :=
          if isNew f && negb anyChanged
          then ((if (0 <? i)%nat then View (mkSlice (array c) (offset c) i)
                 else maybeFiltered), true)
          else (maybeFiltered, anyChanged) in
        ' (st, maybeFiltered) <-
          (if negb (isImpossible (value p f)) then append st maybeFiltered (value p f)
           else Some (st, maybeFiltered)) ;;
        Compound_Remove_loop remove c todo' (S i) st maybeFiltered any
  end.

Fixpoint RemoveWordOptions (fuel : nat) (st : Store) (p : PossibleLines)
         (words : list string) : option (Store * Result) :=
  match fuel with
  | O => None
  | S fuel' =>
      match p with
      | Impossible _ => Some (st, Same)
      | Words ws obscureIdx _ =>
          needsFiltering <-
            ContainsFunc (fun word => n <- NumLetters fuel st p ;;
                                      if negb (len word =? n) then Some false
                                      else Some (Contains ws word)) words ;;
          if negb needsFiltering then Some (st, Same)
          else
            ' (fp, fPreferred) <-
              keepWords (fun q => Some (negb (Contains words q))) obscureIdx 0 ws ;;
            n <- NumLetters fuel st p ;;
            r <- MakeWords fp fPreferred n ;;
            Some (st, New r)
      | BlockBefore l =>
          ' (st, inner) <- RemoveWordOptions fuel' st l words ;;
          r <- BlockBefore_build fuel' st l inner ;;
          Some (st, r)
      | BlockAfter l =>
          ' (st, inner) <- RemoveWordOptions fuel' st l words ;;
          r <- BlockAfter_build fuel' st l inner ;;
          Some (st, r)
      | BlockBetween f s =>
          ' (st, f') <- RemoveWordOptions fuel' st f words ;;
          ' (st, s') <- RemoveWordOptions fuel' st s words ;;
          r <- BlockBetween_build fuel' st f s f' s' ;;
          Some (st, r)
      | Compound c =>
          ' (st, maybeFiltered, anyChanged) <-
            Compound_Remove_loop (fun st q => RemoveWordOptions fuel' st q words)
                                 c (count c) 0 st (Fresh []) false ;;
          if negb anyChanged then Some (st, Same)
          else
            n <- NumLetters fuel' st p ;;
            ' (st, r) <- MakeCompound fuel' st maybeFiltered n ;;
            Some (st, New r)
      | Definite d =>
          hit <-
            ContainsFunc (fun word => n <- NumLetters fuel st p ;;
                                      if negb (len word =? n) then Some false
                                      else Some (Contains (ConcreteLine.Words d) word))
                         words ;;
          if (hit : bool)
          then r <- newImpossible (NumLetters fuel st p) ;; Some (st, r)
          else Some (st, Same)
      end
  end.
End Shared.

(** ** Gen.cs *)
Module WordGenLib.

(** *** Iterators

    An iterator method is followed as far as the fuel of the model
    reaches: [yielded] are the values produced so far, in order, and
    [status] tells whether the enumeration has ended ([Done]), has thrown
    an exception ([Thrown]), or goes on beyond the fuel ([Pending]). *)
Inductive Status : Type := Done | Thrown | Pending.
Record Enumeration (A : Type) : Type :=
  mkEnumeration { yielded : list A; status : Status }.
Arguments mkEnumeration {A} yielded status.
Arguments yielded {A} e.
Arguments status {A} e.

Definition yieldAll {A : Type} (l : list A) : Enumeration A := mkEnumeration l Done.
Definition yieldBreak {A : Type} : Enumeration A := mkEnumeration [] Done.
Definition thrown {A : Type} : Enumeration A := mkEnumeration [] Thrown.
Definition pending {A : Type} : Enumeration A := mkEnumeration [] Pending.

(** The statements of [e] followed by those of [rest]. *)
Definition andThen {A : Type} (e rest : Enumeration A) : Enumeration A :=
  match status e with
  | Done => mkEnumeration (yielded e ++ yielded rest) (status rest)
  | _ => e
  end.

(** [foreach (var x in e) body(x)]. *)
Fixpoint foreachIn {A B : Type} (items : list A) (last : Status)
         (body : A -> Enumeration B) : Enumeration B :=
  match items with
  | [] => mkEnumeration [] last
  | x :: items' => andThen (body x) (foreachIn items' last body)
  end.
Definition foreach {A B : Type} (e : Enumeration A) (body : A -> Enumeration B)
  : Enumeration B :=
  foreachIn (yielded e) (status e) body.

(** [for (int i = lo; i < hi; ++i) body(i)]. *)
Definition range (lo hi : Z) : list Z :=
  map (fun k => lo + Z.of_nat k) (seq 0 (Z.to_nat (hi - lo))).
Definition forRange {B : Type} (lo hi : Z) (body : Z -> Enumeration B) : Enumeration B :=
  foreach (yieldAll (range lo hi)) body.

(** *** The generator and its lines *)
Definition BLOCKED : ascii := "`"%char.

Definition Length (s : string) : Z := Z.of_nat (String.length s).

Record ScoredLine : Type :=
  mkScoredLine { Line : string; MaxLength : Z; NumLetters : Z;
                 NumLettersOfCommonWords : Z }.

Definition withLine (line : ScoredLine) (s : string) : ScoredLine :=
  mkScoredLine s (MaxLength line) (NumLetters line) (NumLettersOfCommonWords line).

(** C# [int] addition (unchecked). *)
Definition wrapInt (z : Z) : Z := (z + 2 ^ 31) mod 2 ^ 32 - 2 ^ 31.

(** The generator: the grid size and the word lists that the constructor
    keeps; [commonWordsByLength] and [obscureWordsByLength] are the
    dictionaries it builds with [GroupBy], which have a key for a length
    exactly when some word has that length. *)
Record Generator : Type :=
  mkGenerator { gridSize : Z; commonWords : list string; obscureWords : list string }.

Definition Generator_new (gridSize : Z) (commonWords obscureWords : list string)
  : Generator :=
  mkGenerator gridSize
              (filter (fun w => Length w <=? gridSize) commonWords)
              (filter (fun w => Length w <=? gridSize) obscureWords).

Definition byLength (words : list string) (key : Z) : option (list string) :=
  match filter (fun w => Length w =? key) words with
  | [] => None
  | group => Some group
  end.
Definition commonWordsByLength (g : Generator) : Z -> option (list string) :=
  byLength (commonWords g).
Definition obscureWordsByLength (g : Generator) : Z -> option (list string) :=
  byLength (obscureWords g).

Definition lookup {A B : Type} (found : option A) (body : A -> Enumeration B)
  : Enumeration B :=
  match found with
  | Some a => body a
  | None => thrown
  end.

(** The body of [AllPossibleLines]; [recurse] is the method itself. *)
Definition AllPossibleLines_body (g : Generator) (recurse : Z -> Enumeration ScoredLine)
           (maxLength : Z) : Enumeration ScoredLine :=
  if gridSize g <? maxLength then thrown
  else if maxLength <? 3 then yieldBreak
  else
    andThen
      (lookup (commonWordsByLength g maxLength) (fun words =>
         foreach (yieldAll words) (fun word =>
           yieldAll [mkScoredLine word maxLength maxLength maxLength])))
    (andThen
      (lookup (obscureWordsByLength g maxLength) (fun words =>
         foreach (yieldAll words) (fun word =>
           yieldAll [mkScoredLine word maxLength maxLength 0])))
    (andThen
      (foreach (recurse (maxLength - 1)) (fun line =>
         yieldAll [withLine line (String BLOCKED (Line line));
                   withLine line (Line line ++ String BLOCKED EmptyString)]))
      (forRange 3 (gridSize g - 3) (fun i =>
         let firstLength := i in
         let secondLength := gridSize g - (i + 1) in
         if secondLength <? 3 then thrown
         else
           foreach (recurse firstLength) (fun firstHalf =>
             foreach (recurse secondLength) (fun secondHalf =>
               yieldAll
                 [mkScoredLine
                    (Line firstHalf ++ String BLOCKED (Line secondHalf))
                    (Z.max (MaxLength firstHalf) (MaxLength secondHalf))
                    (wrapInt (NumLetters firstHalf + NumLetters secondHalf))
                    (wrapInt (NumLettersOfCommonWords firstHalf
                              + NumLettersOfCommonWords secondHalf))])))))).

Fixpoint AllPossibleLines (g : Generator) (fuel : nat) (maxLength : Z)
  : Enumeration ScoredLine :=
  match fuel with
  | O => pending
  | S fuel' => AllPossibleLines_body g (AllPossibleLines g fuel') maxLength
  end.

(** A line is produced when the enumeration reaches it. *)
Definition produces (g : Generator) (maxLength : Z) (line : ScoredLine) : Prop :=
  exists fuel, In line (yielded (AllPossibleLines g fuel maxLength)).

(** *** The character set and the grid dictionary of Gen.cs

    [CharSet] is an array of 27 flags indexed by [c - '`'];
    [GridDictionary<CharSet>] a square array of references that start
    null.  An index outside an array throws. *)
Definition CharSet : Type := list bool.
Definition CharSet_new : CharSet := repeat false 27.

Definition code (c : ascii) : Z := Z.of_N (N_of_ascii c).
Definition slot (s : CharSet) (c : ascii) : option nat :=
  let k := code c - code BLOCKED in
  if (0 <=? k) && (k <? Z.of_nat (List.length s)) then Some (Z.to_nat k) else None.

Fixpoint setNth {A : Type} (n : nat) (x : A) (l : list A) : list A :=
  match l, n with
  | [], _ => []
  | _ :: l', O => x :: l'
  | y :: l', S n' => y :: setNth n' x l'
  end.

Definition CharSet_Add (s : CharSet) (c : ascii) : option CharSet :=
  k <- slot s c ;; Some (setNth k true s).
Definition CharSet_Contains (s : CharSet) (c : ascii) : option bool :=
  k <- slot s c ;; nth_error s k.

Definition GridDictionary : Type := list (list (option CharSet)).
Definition GridDictionary_new (size : nat) : GridDictionary :=
  repeat (repeat None size) size.
Definition entry (d : GridDictionary) (x y : nat) : option (option CharSet) :=
  row <- nth_error d x ;; nth_error row y.
Definition store (d : GridDictionary) (x y : nat) (s : CharSet) : GridDictionary :=
  match nth_error d x with
  | Some row => setNth x (setNth y (Some s) row) d
  | None => d
  end.
(** [GetOrAddDefault]: the set at [(x, y)], a new one if there is none. *)
Definition GetOrAddDefault (d : GridDictionary) (x y : nat) : option CharSet :=
  e <- entry d x y ;;
  match e with
  | Some s => Some s
  | None => Some CharSet_new
  end.
(** The indexer: a null entry throws. *)
Definition item (d : GridDictionary) (x y : nat) : option CharSet :=
  e <- entry d x y ;; e.

(** *** The grid state and the propagator *)
Inductive Direction : Type := Horizontal | Vertical.

Record GridState : Type :=
  mkGridState { Down : list (list ScoredLine); Across : list (list ScoredLine) }.
Record FinalGrid : Type :=
  mkFinalGrid { FinalDown : list ScoredLine; FinalAcross : list ScoredLine }.

Definition isEmpty {A : Type} (l : list A) : bool :=
  match l with
  | [] => true
  | _ => false
  end.

Definition chars (s : string) : list ascii := list_ascii_of_string s.

(** The loops of [Prefilter] that fill [available]. *)
Fixpoint addChars (available : GridDictionary) (x y : nat) (arr : list ascii)
  : option GridDictionary :=
  match arr with
  | [] => Some available
  | c :: arr' =>
      set <- GetOrAddDefault available x y ;;
      set' <- CharSet_Add set c ;;
      addChars (store available x y set') x (S y) arr'
  end.
Fixpoint addLines (available : GridDictionary) (x : nat) (c : list ScoredLine)
  : option GridDictionary :=
  match c with
  | [] => Some available
  | line :: c' =>
      available' <- addChars available x 0 (chars (Line line)) ;;
      addLines available' x c'
  end.
Fixpoint addConstraint (available : GridDictionary) (x : nat)
         (constraint : list (list ScoredLine)) : option GridDictionary :=
  match constraint with
  | [] => Some available
  | c :: constraint' =>
      available' <- addLines available x c ;;
      addConstraint available' (S x) constraint'
  end.

(** The predicate of the [Where]: it returns at the first character that
    is not available. *)
Fixpoint allowed (available : GridDictionary) (y x : nat) (line : list ascii)
  : option bool :=
  match line with
  | [] => Some true
  | c :: line' =>
      set <- item available x y ;;
      b <- CharSet_Contains set c ;;
      if (b : bool) then allowed available y (S x) line' else Some false
  end.
Fixpoint whereM {A : Type} (f : A -> option bool) (l : list A) : option (list A) :=
  match l with
  | [] => Some []
  | a :: l' =>
      b <- f a ;;
      rest <- whereM f l' ;;
      Some (if (b : bool) then a :: rest else rest)
  end.
Fixpoint selectM {A B : Type} (f : A -> nat -> option B) (y : nat) (l : list A)
  : option (list B) :=
  match l with
  | [] => Some []
  | a :: l' => b <- f a y ;; rest <- selectM f (S y) l' ;; Some (b :: rest)
  end.

Definition Prefilter (state : GridState) (direction : Direction) : option GridState :=
  let toFilter := match direction with
                  | Horizontal => Across state
                  | Vertical => Down state
                  end in
  let constraint := match direction with
                    | Horizontal => Down state
                    | Vertical => Across state
                    end in
  if existsb isEmpty toFilter || existsb isEmpty constraint then Some state
  else
    available <- addConstraint (GridDictionary_new (List.length (Across state))) 0
                               constraint ;;
    filtered <- selectM (fun possibles y =>
                           whereM (fun line => allowed available y 0 (chars (Line line)))
                                  possibles) 0 toFilter ;;
    match direction with
    | Horizontal => Some (mkGridState (Down state) filtered)
    | Vertical => Some (mkGridState filtered (Across state))
    end.

(** The grid states that the generator builds: as many columns as rows,
    and in every entry lines of that length over ['`'..'z']. *)
Definition inAlphabet (c : ascii) : bool :=
  (code BLOCKED <=? code c) && (code c <=? code "z"%char).
Definition lineOk (n : nat) (line : ScoredLine) : bool :=
  (String.length (Line line) =? n)%nat && forallb inAlphabet (chars (Line line)).
Definition squareGrid (state : GridState) : bool :=
  let n := List.length (Across state) in
  (List.length (Down state) =? n)%nat
  && forallb (forallb (lineOk n)) (Down state)
  && forallb (forallb (lineOk n)) (Across state).

(** [Changed]: the loop runs over the indices of [before.Down]. *)
Fixpoint ChangedFrom (i : nat) (count : nat) (before after : GridState) : option bool :=
  match count with
  | O => Some false
  | S count' =>
      bd <- nth_error (Down before) i ;;
      ad <- nth_error (Down after) i ;;
      if negb (List.length bd =? List.length ad)%nat then Some true
      else
        ba <- nth_error (Across before) i ;;
        aa <- nth_error (Across after) i ;;
        if negb (List.length ba =? List.length aa)%nat then Some true
        else ChangedFrom (S i) count' before after
  end.
Definition Changed (before after : GridState) : option bool :=
  ChangedFrom 0 (List.length (Down before)) before after.

Definition flip (d : Direction) : Direction :=
  match d with
  | Vertical => Horizontal
  | Horizontal => Vertical
  end.

(** The [while (tries < 4)] loop of [AllPossibleGrids]; [passes] bounds
    the number of iterations, which the condition keeps at four. *)
Fixpoint propagateFrom (passes : nat) (tries : Z) (root : GridState)
         (direction : Direction) : option GridState :=
  match passes with
  | O => Some root
  | S passes' =>
      if tries <? 4 then
        let tries := tries + 1 in
        newState <- Prefilter root direction ;;
        changed <- Changed root newState ;;
        if negb changed && (1 <? tries) then Some root
        else propagateFrom passes' tries newState (flip direction)
      else Some root
  end.
Definition propagate (root : GridState) : option GridState :=
  propagateFrom 4 0 root Horizontal.

(** *** The search

    [Random.Shared] is the random source of the process: [draws k] is
    what its [k]-th call of [Next(2)] returns (true for 1), and the
    enumerations of the search carry the number of calls made so far. *)
Definition Draws : Type := nat -> bool.
Definition Search (A : Type) : Type := nat -> Enumeration A * nat.

Definition andThenS {A : Type} (first : Enumeration A * nat) (rest : Search A)
  : Enumeration A * nat :=
  match status (fst first) with
  | Done =>
      let next := rest (snd first) in
      (mkEnumeration (yielded (fst first) ++ yielded (fst next)) (status (fst next)),
       snd next)
  | _ => first
  end.
Fixpoint foreachS {A B : Type} (items : list A) (body : A -> Search B) : Search B :=
  fun pos =>
    match items with
    | [] => (yieldBreak, pos)
    | x :: items' => andThenS (body x pos) (foreachS items' body)
    end.

Definition Undecided (axis : list (list ScoredLine)) : list nat :=
  map snd (filter (fun oi => (1 <? List.length (fst oi))%nat)
                  (combine axis (seq 0 (List.length axis)))).

(** The loop that abandons a state in which a row and the column of the
    same index are decided and equal. *)
Fixpoint sameLineFrom (i : nat) (optionAxis oppositeAxis : list (list ScoredLine))
         (todo : list (list ScoredLine)) : option bool :=
  match todo with
  | [] => Some false
  | options :: todo' =>
      if (1 <? List.length options)%nat
      then sameLineFrom (S i) optionAxis oppositeAxis todo'
      else
        opposite <- nth_error oppositeAxis i ;;
        if (1 <? List.length opposite)%nat
        then sameLineFrom (S i) optionAxis oppositeAxis todo'
        else
          a <- nth_error options 0 ;;
          b <- nth_error opposite 0 ;;
          if String.eqb (Line a) (Line b) then Some true
          else sameLineFrom (S i) optionAxis oppositeAxis todo'
  end.

(** The loop over the characters of [attempt] that restricts the opposite
    axis. *)
Fixpoint restrictOpposite (index i : nat) (line : list ascii)
         (attemptOpposite : list (list ScoredLine)) : option (list (list ScoredLine)) :=
  match line with
  | [] => Some attemptOpposite
  | constriant :: line' =>
      options <- nth_error attemptOpposite i ;;
      kept <- whereM (fun option =>
                        c <- String.get index (Line option) ;;
                        Some (Ascii.eqb c constriant)) options ;;
      restrictOpposite index (S i) line' (setNth i kept attemptOpposite)
  end.

Definition replaceAt {A : Type} (index : nat) (x : A) (l : list A) : list A :=
  map (fun ri => if (snd ri =? index)%nat then x else fst ri)
      (combine l (seq 0 (List.length l))).

Definition attemptAt (recurse : GridState -> Search FinalGrid)
           (optionAxis oppositeAxis : list (list ScoredLine)) (dir : Direction)
           (index : nat) (attempt : ScoredLine) : Search FinalGrid :=
  fun pos =>
    match restrictOpposite index 0 (chars (Line attempt)) oppositeAxis with
    | None => (thrown, pos)
    | Some attemptOpposite =>
        if forallb (fun opts => negb (isEmpty opts)) attemptOpposite then
          let optionFinal := replaceAt index [attempt] optionAxis in
          let newRoot := match dir with
                         | Horizontal => mkGridState attemptOpposite optionFinal
                         | Vertical => mkGridState optionFinal attemptOpposite
                         end in
          recurse newRoot pos
        else (yieldBreak, pos)
    end.

Definition choicesAt (recurse : GridState -> Search FinalGrid)
           (optionAxis oppositeAxis : list (list ScoredLine)) (dir : Direction)
           (index : nat) : Search FinalGrid :=
  fun pos =>
    match nth_error optionAxis index with
    | None => (thrown, pos)
    | Some options =>
        if (List.length options =? 1)%nat then (yieldBreak, pos)
        else foreachS options (attemptAt recurse optionAxis oppositeAxis dir index) pos
    end.

(** [AllPossibleGrids(root, undecided, dir)]; [recurse] is
    [AllPossibleGrids(newRoot)]. *)
Definition AllPossibleGrids_in (recurse : GridState -> Search FinalGrid)
           (root : GridState) (undecided : list nat) (dir : Direction)
  : Search FinalGrid :=
  fun pos =>
    let optionAxis := match dir with
                      | Horizontal => Across root
                      | Vertical => Down root
                      end in
    let oppositeAxis := match dir with
                        | Horizontal => Down root
                        | Vertical => Across root
                        end in
    match sameLineFrom 0 optionAxis oppositeAxis optionAxis with
    | None => (thrown, pos)
    | Some true => (yieldBreak, pos)
    | Some false =>
        foreachS undecided (choicesAt recurse optionAxis oppositeAxis dir) pos
    end.

Definition firsts (axis : list (list ScoredLine)) : option (list ScoredLine) :=
  Primitives.mapM (fun options => nth_error options 0) axis.

Definition Next2 (draws : Draws) (pos : nat) : nat := if draws pos then 1%nat else 0%nat.
Definition dirs : list Direction := [Horizontal; Vertical].

(** The loop over the two directions: the first that has an undecided
    index is searched, and the method returns. *)
Fixpoint searchDirs (recurse : GridState -> Search FinalGrid) (root : GridState)
         (undecidedDown undecidedAcross : list nat) (parity : nat) (steps : list nat)
  : Search FinalGrid :=
  fun pos =>
    match steps with
    | [] => (yieldBreak, pos)
    | i :: steps' =>
        match nth_error dirs ((parity + i) mod 2) with
        | None => (thrown, pos)
        | Some dir =>
            let undecided := match dir with
                             | Horizontal => undecidedAcross
                             | Vertical => undecidedDown
                             end in
            if isEmpty undecided
            then searchDirs recurse root undecidedDown undecidedAcross parity steps' pos
            else AllPossibleGrids_in recurse root undecided dir pos
        end
    end.

Fixpoint AllPossibleGrids (draws : Draws) (fuel : nat) (root : GridState)
  : Search FinalGrid :=
  fun pos =>
    match fuel with
    | O => (pending, pos)
    | S fuel' =>
        if existsb isEmpty (Down root) then (yieldBreak, pos)
        else if existsb isEmpty (Across root) then (yieldBreak, pos)
        else
          match propagate root with
          | None => (thrown, pos)
          | Some root =>
              if existsb isEmpty (Down root) then (yieldBreak, pos)
              else if existsb isEmpty (Across root) then (yieldBreak, pos)
              else
                let undecidedDown := Undecided (Down root) in
                let undecidedAcross := Undecided (Across root) in
                if isEmpty undecidedDown && isEmpty undecidedAcross then
                  match firsts (Down root), firsts (Across root) with
                  | Some down, Some across => (yieldAll [mkFinalGrid down across], pos)
                  | _, _ => (thrown, pos)
                  end
                else
                  let parity := Next2 draws pos in
                  searchDirs (AllPossibleGrids draws fuel') root
                             undecidedDown undecidedAcross parity [0; 1]%nat (S pos)
          end
    end.

End WordGenLib.

(** ** Gen.cs: GenHelper and GridReader

    The static classes [GenHelper] and [GridReader], in the order in which
    their methods call one another.  A C# string is the list of its
    characters.  [char?[,]] is a list of
    rows of nullable characters, [grid[a, b]] the entry [b] of row [a];
    an index outside the array throws. *)
Module GenHelper.
Import WordGenLib.

Definition Text : Type := list ascii.
Definition Grid : Type := list (list (option ascii)).

Definition GetLength0 (grid : Grid) : Z := Z.of_nat (List.length grid).

Definition element {A : Type} (l : list A) (i : Z) : option A :=
  if i <? 0 then None else nth_error l (Z.to_nat i).
Definition get (grid : Grid) (a b : Z) : option (option ascii) :=
  row <- element grid a ;; element row b.
Definition set (grid : Grid) (a b : Z) (v : option ascii) : option Grid :=
  row <- element grid a ;;
  _ <- element row b ;;
  Some (setNth (Z.to_nat a) (setNth (Z.to_nat b) v row) grid).

Definition blank : ascii := " "%char.
(** [BLOCKED == c] for a nullable [c]. *)
Definition isBlocked (c : option ascii) : bool :=
  match c with
  | Some c => Ascii.eqb BLOCKED c
  | None => false
  end.

(** [WordsCompatible(string word, string template)]. *)
Fixpoint compatibleFrom (word template : Text) : bool :=
  match word, template with
  | [], _ => true
  | _ :: _, [] => false
  | w :: word', t :: template' =>
      if negb (Ascii.eqb t w) && negb (Ascii.eqb t blank) then false
      else compatibleFrom word' template'
  end.
Definition WordsCompatible (word template : Text) : bool :=
  if Z.of_nat (List.length template) <? Z.of_nat (List.length word) then false
  else compatibleFrom word template.

Definition AtPosition (grid : Grid) (rowOrCol position : Z) (dir : Direction)
  : option (option ascii) :=
  match dir with
  | Horizontal => get grid position rowOrCol
  | Vertical => get grid rowOrCol position
  end.

(** The loop of [Fill] from the cell [pos] on; [write] is the assignment
    of its branch. *)
Fixpoint fillLoop (write : Grid -> Z -> option ascii -> option Grid)
         (grid : Grid) (pos : Z) (word : Text) : option Grid :=
  match word with
  | [] => Some grid
  | c :: word' =>
      if Ascii.eqb c blank then fillLoop write grid (pos + 1) word'
      else
        grid' <- write grid pos (Some c) ;;
        fillLoop write grid' (pos + 1) word'
  end.
Definition Fill (grid : Grid) (rowOrCol : Z) (dir : Direction) (start : Z) (word : Text)
  : option Grid :=
  match dir with
  | Horizontal => fillLoop (fun g pos v => set g pos rowOrCol v) grid start word
  | Vertical => fillLoop (fun g pos v => set g rowOrCol pos v) grid start word
  end.

(** The loop of [ClearanceFromStart] over [count] cells from [pos] on. *)
Fixpoint clearanceLoop (grid : Grid) (rowOrCol : Z) (dir : Direction)
         (pos : Z) (count : nat) (room : Z) : option Z :=
  match count with
  | O => Some room
  | S count' =>
      c <- AtPosition grid rowOrCol pos dir ;;
      clearanceLoop grid rowOrCol dir (pos + 1) count'
                    (if isBlocked c then 0 else room + 1)
  end.
Definition ClearanceFromStart (grid : Grid) (rowOrCol posWithinLine : Z) (dir : Direction)
  : option Z :=
  clearanceLoop grid rowOrCol dir 0 (Z.to_nat posWithinLine) 0.

(** The loop of [ClearanceFromEnd]: the position at which it stops. *)
Fixpoint endLoop (grid : Grid) (rowOrCol : Z) (dir : Direction) (pos : Z) (count : nat)
  : option Z :=
  match count with
  | O => Some pos
  | S count' =>
      c <- AtPosition grid rowOrCol pos dir ;;
      if isBlocked c then Some pos else endLoop grid rowOrCol dir (pos + 1) count'
  end.
Definition ClearanceFromEnd (grid : Grid) (rowOrCol posWithinLine : Z) (dir : Direction)
  : option Z :=
  let gridSize := GetLength0 grid in
  pos <- endLoop grid rowOrCol dir posWithinLine (Z.to_nat (gridSize - posWithinLine)) ;;
  Some (pos - posWithinLine).

(** *** GridReader *)
(** [GetConstraints]: the cells from [start] on, up to [length] of them
    or to the first blocked one. *)
Fixpoint GetConstraints_loop (grid : Grid) (rowOrCol : Z) (dir : Direction)
         (pos : Z) (count : nat) : option (list (option ascii)) :=
  match count with
  | O => Some []
  | S count' =>
      c <- AtPosition grid rowOrCol pos dir ;;
      if isBlocked c then Some []
      else
        cs <- GetConstraints_loop grid rowOrCol dir (pos + 1) count' ;;
        Some (c :: cs)
  end.
Definition GetConstraints (grid : Grid) (rowOrCol start length : Z) (dir : Direction)
  : option (list (option ascii)) :=
  GetConstraints_loop grid rowOrCol dir start (Z.to_nat length).

(** [string.Split(char)] and [string.Join(char, string[])]. *)
Fixpoint Split (separator : ascii) (s : Text) : list Text :=
  match s with
  | [] => [[]]
  | c :: s' =>
      if Ascii.eqb c separator then [] :: Split separator s'
      else match Split separator s' with
           | segment :: rest => (c :: segment) :: rest
           | [] => [[c]]
           end
  end.
Fixpoint Join (separator : ascii) (values : list Text) : Text :=
  match values with
  | [] => []
  | [value] => value
  | value :: rest => value ++ separator :: Join separator rest
  end.

(** The loop that appends the cells of a line to the [StringBuilder]. *)
Fixpoint readLoop (read : Z -> option (option ascii)) (i : Z) (count : nat) : option Text :=
  match count with
  | O => Some []
  | S count' =>
      c <- read i ;;
      rest <- readLoop read (i + 1) count' ;;
      Some (match c with
            | None => blank
            | Some c => c
            end :: rest)
  end.
Definition ReadLine (grid : Grid) (rowOrCol : Z) (dir : Direction) : option (list Text) :=
  let gridSize := GetLength0 grid in
  line <- match dir with
          | Horizontal => readLoop (fun i => get grid i rowOrCol) 0 (Z.to_nat gridSize)
          | Vertical => readLoop (fun i => get grid rowOrCol i) 0 (Z.to_nat gridSize)
          end ;;
  Some (Split BLOCKED line).

(** *** The segment to fill *)
(** [FindStartPositionAndLength]; [next] is [Random.Shared.Next]: the
    value it returns for the bound it is called with. *)
Definition viable (segment : Text) : bool :=
  existsb (Ascii.eqb blank) segment && (2 <? Z.of_nat (List.length segment)).
Definition viableSegmentIndices (segments : list Text) : list Z :=
  map snd (filter (fun tuple => viable (fst tuple))
                  (combine segments (map Z.of_nat (seq 0 (List.length segments))))).
Definition template (word : Text) : list (option ascii) :=
  map (fun c => if Ascii.eqb c blank then None else Some c) word.
Fixpoint findLoop (segments : list Text) (i segmentStartsAt segmentIndex : Z)
  : option (Z * Z * list (option ascii)) :=
  match segments with
  | [] => None
  | word :: rest =>
      if i =? segmentIndex
      then Some (segmentStartsAt, Z.of_nat (List.length word), template word)
      else findLoop rest (i + 1) (segmentStartsAt + (1 + Z.of_nat (List.length word)))
                    segmentIndex
  end.
Definition FindStartPositionAndLength (next : Z -> Z) (grid : Grid) (rowOrCol : Z)
           (dir : Direction) : option (option (Z * Z * list (option ascii))) :=
  segments <- ReadLine grid rowOrCol dir ;;
  let viableSegmentIndices := viableSegmentIndices segments in
  if Z.of_nat (List.length viableSegmentIndices) =? 0 then Some None
  else
    segmentIndex <- element viableSegmentIndices
                            (next (Z.of_nat (List.length viableSegmentIndices))) ;;
    Some (findLoop segments 0 0 segmentIndex).
End GenHelper.

(** ** Values used as examples *)
Module LineExamples.
Import Primitives.
Local Open Scope string_scope.

(** Scenario S4 of the specification. *)
Definition catsAndDogs : PossibleLines :=
  Compound [Words ["cat"; "cot"; "car"] 3 None; Words ["dog"; "dot"] 2 None].

(** The [k]-th three-letter word in alphabetical order, and the [n] words
    that start there. *)
Definition letter (k : N) : ascii := ascii_of_N (97 + k mod 26).
Definition threeLetterWord (k : N) : string :=
  String (letter (k / 676)) (String (letter (k / 26)) (String (letter k) EmptyString)).
Fixpoint wordsFrom (k : N) (n : nat) : list string :=
  match n with
  | O => []
  | S n' => threeLetterWord k :: wordsFrom (N.succ k) n'
  end.
Definition firstWords (n : Z) : PossibleLines :=
  Words (wordsFrom 0 (Z.to_nat n)) n None.

(** A line of 23 cells made of six three-letter words, each drawn from
    a list of a few thousand words. *)
Definition sixWords : PossibleLines :=
  BlockBetween (firstWords 5)
    (BlockBetween (firstWords 3584)
       (BlockBetween (firstWords 8192)
          (BlockBetween (firstWords 8192)
             (BlockBetween (firstWords 8192) (firstWords 8192))))).
End LineExamples.

Module GridExamples.
Import WordGenLib.
Local Open Scope string_scope.

Definition smallZoo : Generator := Generator_new 7 ["cat"] ["dog"].
Definition zoo : Generator :=
  Generator_new 7 ["cat"; "lion"; "tiger"; "donkey"; "leopard"]
                ["dog"; "bear"; "mouse"; "ferret"; "buffalo"].

Definition twoLetters (s : string) : ScoredLine := mkScoredLine s 2 2 2.

(** The two-by-two grids over [a], [b], [c], [d] that read [ab]/[cd] or
    [cd]/[ab] across. *)
Definition twoByTwo : GridState :=
  mkGridState [[twoLetters "ca"; twoLetters "ac"]; [twoLetters "bd"; twoLetters "db"]]
              [[twoLetters "ab"; twoLetters "cd"]; [twoLetters "cd"; twoLetters "ab"]].

(** [twoByTwo] with a column option that no row allows. *)
Definition loose : GridState :=
  mkGridState [[twoLetters "ca"; twoLetters "ac"; twoLetters "zz"];
               [twoLetters "bd"; twoLetters "db"]]
              [[twoLetters "ab"; twoLetters "cd"]; [twoLetters "cd"; twoLetters "ab"]].
End GridExamples.

Module MoreExamples.
Import CharSetGo Primitives WordGenLib GenHelper.
Local Open Scope string_scope.

(** The set of [a] and [c], and the set of [o]. *)
Definition ac : CharSetGo.CharSet := fst (Add (fst (Add NewCharSet 99)) 97).
Definition justO : CharSetGo.CharSet := fst (Add NewCharSet 111).

Definition pigsAndHens : PossibleLines := Words ["pig"; "hen"] 2 None.
Definition cat : PossibleLines := Definite (wordLine "cat").

(** A generator for grids of side 5. *)
Definition pets : Generator :=
  Generator_new 5 ["cat"; "lion"; "mouse"] ["dog"; "bear"; "horse"].

(** A grid of side 5 whose row 0 reads [`a b ] across. *)
Definition sketch : Grid :=
  [[Some "`"%char; None; None; None; None];
   [Some "a"%char; None; None; None; None];
   [None; None; None; None; None];
   [Some "b"%char; None; None; None; None];
   [None; None; None; None; None]].
End MoreExamples.

Module SharedExamples.
Import Primitives.
Local Open Scope string_scope.

(** One array that holds the lines cat, dog and cow, a [Compound] of
    them, and a [BlockBetween] that has this [Compound] on both sides. *)
Definition single (word : string) : Shared.PossibleLines := Shared.Definite (wordLine word).
Definition pen : Shared.Store := [[single "cat"; single "dog"; single "cow"]].
Definition animals : Shared.PossibleLines := Shared.Compound (Shared.mkSlice 0 0 3).
Definition twice : Shared.PossibleLines := Shared.BlockBetween animals animals.

(** The same with an array for each side, and the tree that it is. *)
Definition pens : Shared.Store :=
  [[single "cat"; single "dog"; single "cow"]; [single "cat"; single "dog"; single "cow"]].
Definition apart : Shared.PossibleLines :=
  Shared.BlockBetween (Shared.Compound (Shared.mkSlice 0 0 3))
                      (Shared.Compound (Shared.mkSlice 1 0 3)).
Definition catDogCow : PossibleLines :=
  Compound [Definite (wordLine "cat"); Definite (wordLine "dog"); Definite (wordLine "cow")].

(** The line [first`second]. *)
Definition both (first second : string) : ConcreteLine :=
  blockBetween (wordLine first) (wordLine second).
End SharedExamples.

(** ** Predicates of the statements about the Go code *)
Module LinesSpec.
Import CharSetGo Primitives.

(** The runes from ['`'] to ['z']. *)
Definition inRange (r : rune) : bool := negb ((r <? minChar) || (r >? maxChar)).

(** The predicate of a [slices] filter that returned true on [w]. *)
Definition kept (keep : string -> option bool) (w : string) : bool :=
  match keep w with
  | Some true => true
  | _ => false
  end.

(** The value that a child and the result of a method called on it stand
    for. *)
Definition valueOf (pf : PossibleLines * Result) : PossibleLines := value (fst pf) (snd pf).

(** [sound n p r]: the result [r] of a method called on [p] is well formed,
    has [n] letters, and is a [Compound] only if [p] is one. *)
Definition sound (n : Z) (p : PossibleLines) (r : Result) : Prop :=
  wellFormed (value p r) = true
  /\ NumLetters (value p r) = Some n
  /\ (isCompound p = false -> isCompound (value p r) = false).

(** What [wellFormed] asks of a child of a [Compound] and of the words of
    a [Words]. *)
Definition child (n : Z) (q : PossibleLines) : Prop :=
  wellFormed q = true /\ isImpossible q = false
  /\ isCompound q = false /\ NumLetters q = Some n.

Definition wordsOf (n : Z) (ws : list string) : Prop :=
  Forall (fun x => len x = n /\ forallb isLetter (runes x) = true) ws.

(** The lines of a [BlockBetween] from the lines of its halves. *)
Definition product (fs ss : list ConcreteLine) : list ConcreteLine :=
  flat_map (fun first => map (fun second => blockBetween first second) ss) fs.

(** The sum of the weights, without wrap-around. *)
Definition total (ms : list Z) : Z := fold_right Z.add 0 ms.

(** A child that [MakeChoice] can be called on. *)
Definition choosable (n : Z) (q : PossibleLines) : Prop :=
  wellFormed q = true /\ isImpossible q = false /\ NumLetters q = Some n.

(** Every line of [p] has the blocked cell at [i]. *)
Definition allBlockedAt (p : PossibleLines) (i : Z) : Prop :=
  forall l, In l (Iterate p) -> cell l i = Some kBlocked.

(** What C4 says of one value: [MakeChoice] returns two sides that each
    report at least one possibility and that together yield the lines of
    [p]. *)
Definition splitsInTwo (p : PossibleLines) : Prop :=
  exists c, MakeChoice p = Some c
            /\ 1 <= MaxPossibilities (Choice c)
            /\ 1 <= MaxPossibilities (Remaining c)
            /\ Permutation (Iterate (Choice c) ++ Iterate (Remaining c)) (Iterate p).

(** What C8 says of one value and index. *)
Definition blockedIffAllBlocked (p : PossibleLines) (i : Z) : Prop :=
  exists b, DefinitelyBlockedAt p i = Some b /\ (b = true <-> allBlockedAt p i).
End LinesSpec.

(** ** Predicates of the statements about Gen.cs *)
Module GridSpec.
Import WordGenLib.

(** *** The propagator *)
(** [noLooser out inp]: the axes keep their lengths and every line of an
    entry of [out] is a line of the entry of [inp] at the same index. *)
Definition noLooser (out inp : GridState) : Prop :=
  Forall2 (@incl ScoredLine) (Down out) (Down inp)
  /\ Forall2 (@incl ScoredLine) (Across out) (Across inp).

(** The shape of the dictionary of available characters: [n] rows of [n]
    entries, each null or a set of 27 flags. *)
Definition setOk (e : option CharSet) : Prop := forall s, e = Some s -> List.length s = 27%nat.
Definition shaped (n : nat) (d : GridDictionary) : Prop :=
  List.length d = n /\ Forall (fun row => List.length row = n /\ Forall setOk row) d.
Definition filledAt (d : GridDictionary) (x y : nat) : Prop :=
  exists s, entry d x y = Some (Some s).

(** The parts of [squareGrid]. *)
Definition linesOk (n : nat) (c : list ScoredLine) : Prop :=
  Forall (fun line => lineOk n line = true) c.

Definition axisOk (n : nat) (axis : list (list ScoredLine)) : Prop :=
  List.length axis = n /\ Forall (linesOk n) axis.

(** *** The enumerations *)
(** [extends e e']: [e'] is [e] followed further; an enumeration that has
    ended or thrown cannot be followed further. *)
Definition extends {A : Type} (e e' : Enumeration A) : Prop :=
  match status e with
  | Pending => exists more, yielded e' = yielded e ++ more
  | _ => e' = e
  end.

(** *** The search *)

(** The axis that a direction chooses on and the axis that it restricts. *)
Definition optionAxisOf (root : GridState) (dir : Direction) : list (list ScoredLine) :=
  match dir with
  | Horizontal => Across root
  | Vertical => Down root
  end.
Definition oppositeAxisOf (root : GridState) (dir : Direction) : list (list ScoredLine) :=
  match dir with
  | Horizontal => Down root
  | Vertical => Across root
  end.

(** The two directions in the order in which [parity] visits them. *)
Definition firstDir (parity : nat) : Direction :=
  match (parity mod 2)%nat with
  | O => Horizontal
  | _ => Vertical
  end.

Definition undecidedOf (undecidedDown undecidedAcross : list nat) (dir : Direction)
  : list nat :=
  match dir with
  | Horizontal => undecidedAcross
  | Vertical => undecidedDown
  end.

(** [sameRun draws draws' s s']: the search [s] only moves forward in the
    sequence of draws, and [s'] does what [s] does when [draws'] agrees
    with [draws] on the draws that [s] makes. *)
Definition sameRun (draws draws' : Draws) {A : Type} (s s' : Search A) : Prop :=
  forall pos,
    (pos <= snd (s pos))%nat
    /\ ((forall k, (pos <= k < snd (s pos))%nat -> draws' k = draws k) -> s' pos = s pos).

(** The number of options of a grid state, which bounds the depth of the
    search: a choice leaves fewer options. *)
Fixpoint options (axis : list (list ScoredLine)) : nat :=
  match axis with
  | [] => 0%nat
  | entry :: axis' => (List.length entry + options axis')%nat
  end.
Definition size (root : GridState) : nat :=
  (options (Down root) + options (Across root))%nat.

Definition fewer (out inp : list (list ScoredLine)) : Prop :=
  Forall2 (fun o i => (List.length o <= List.length i)%nat) out inp.



(** What the rule "return once the first undecided index has yielded a
    grid" asks of [AllPossibleGrids(root, undecided, dir)]. *)
Definition returnsAfterFirstYield (recurse : GridState -> Search FinalGrid)
           (root : GridState) (undecided : list nat) (dir : Direction) (pos : nat) : Prop :=
  match undecided with
  | [] => True
  | index :: _ =>
      let first := choicesAt recurse (optionAxisOf root dir)
                             (oppositeAxisOf root dir) dir index pos in
      yielded (fst first) <> [] ->
      AllPossibleGrids_in recurse root undecided dir pos = first
  end.

(** The direction that [AllPossibleGrids(root)] searches: the first in
    the order of [parity] that has an undecided index. *)
Definition chosenDir (undecidedDown undecidedAcross : list nat) (parity : nat) : Direction :=
  if isEmpty (undecidedOf undecidedDown undecidedAcross (firstDir parity))
  then flip (firstDir parity)
  else firstDir parity.

(** The stream of a search is the same whatever [Random.Shared] returns. *)
Definition reproducible (fuel : nat) (root : GridState) : Prop :=
  forall draws draws' : Draws,
    yielded (fst (AllPossibleGrids draws fuel root 0%nat))
    = yielded (fst (AllPossibleGrids draws' fuel root 0%nat)).

(** [settled s s']: where the search [s] was followed to its end, [s']
    is the same. *)
Definition settled {A : Type} (s s' : Search A) : Prop :=
  forall pos, status (fst (s pos)) <> Pending -> s' pos = s pos.
End GridSpec.

(** ** What the further properties speak of *)
Module CharSetSpec.
Import CharSetGo.

(** The 27 runes from ['`'] to ['z']. *)
Definition alphabet : list rune := map (fun k => minChar + Z.of_nat k) (seq 0 27).

(** The sets that the operations of char_set.go build from the empty
    set. *)
Inductive built : CharSet -> Prop :=
| built_New : built NewCharSet
| built_Add (c : CharSet) (r : rune) : built c -> built (fst (Add c r))
| built_AddAll (c other : CharSet) : built c -> built other -> built (AddAll c other)
| built_Intersect (c other : CharSet) : built c -> built other -> built (Intersect c other)
| built_Clear (c : CharSet) : built (Clear c)
| built_Clone (c : CharSet) : built c -> built (Clone c).

(** The invariant of the representation: only the 27 low bits are used,
    and [count] is the number of bits set. *)
Definition valid (c : CharSet) : Prop :=
  0 <= bits c < 2 ^ 27 /\ count c = OnesCount32 (bits c).
End CharSetSpec.

Module LinesMoreSpec.
Import CharSetGo Primitives.

(** The [Definite] values that [MakeWords] builds: the line of one word.
    [singleWords p] holds when every [Definite] inside [p] is one. *)
Fixpoint sameRunes (a b : list rune) : bool :=
  match a, b with
  | [], [] => true
  | x :: a', y :: b' => (x =? y) && sameRunes a' b'
  | _, _ => false
  end.
Definition oneWordLine (d : ConcreteLine) : bool :=
  match ConcreteLine.Words d with
  | [w] => sameRunes (ConcreteLine.Line d) (runes w)
  | _ => false
  end.
Fixpoint singleWords (p : PossibleLines) : bool :=
  match p with
  | Impossible _ => true
  | Words _ _ _ => true
  | BlockBefore l => singleWords l
  | BlockAfter l => singleWords l
  | BlockBetween f s => singleWords f && singleWords s
  | Compound ps => forallb singleWords ps
  | Definite d => oneWordLine d
  end.

(** A line none of whose words is in [words]. *)
Definition unlisted (words : list string) (l : ConcreteLine) : bool :=
  negb (existsb (Contains words) (ConcreteLine.Words l)).
End LinesMoreSpec.

Module CacheSpec.
Import CharSetGo Primitives LinesSpec.

(** A cached mask is empty (not computed yet) or the mask that
    [Words.CharsAt] computes for its index. *)
Definition maskOk (ws : list string) (i : Z) (m : CharSet) : bool :=
  (bits m =? 0)
  || match maskOf (mkCharSet 0 0) i ws with
     | Some m' => (bits m' =? bits m) && (count m' =? count m)
     | None => false
     end.
Fixpoint masksOk (ws : list string) (i : Z) (ms : list CharSet) : bool :=
  match ms with
  | [] => true
  | m :: ms' => maskOk ws i m && masksOk ws (i + 1) ms'
  end.
Fixpoint cacheOk (p : PossibleLines) : bool :=
  match p with
  | Impossible _ => true
  | Words ws _ masks => match masks with
                        | None => true
                        | Some ms => masksOk ws 0 ms
                        end
  | BlockBefore l => cacheOk l
  | BlockAfter l => cacheOk l
  | BlockBetween f s => cacheOk f && cacheOk s
  | Compound ps => forallb cacheOk ps
  | Definite _ => true
  end.

(** The value without its mask caches. *)
Fixpoint forget (p : PossibleLines) : PossibleLines :=
  match p with
  | Impossible n => Impossible n
  | Words ws oi _ => Words ws oi None
  | BlockBefore l => BlockBefore (forget l)
  | BlockAfter l => BlockAfter (forget l)
  | BlockBetween f s => BlockBetween (forget f) (forget s)
  | Compound ps => Compound (map forget ps)
  | Definite d => Definite d
  end.

(** [same p p']: [p'] is [p] with other, valid, mask caches. *)
Definition same (p p' : PossibleLines) : Prop :=
  wellFormed p' = true /\ cacheOk p' = true /\ forget p' = forget p.

(** The word has [r] at the index. *)
Definition has (i : Z) (r : rune) (w : string) : bool :=
  match byteAt w i with
  | Some c => c =? r
  | None => false
  end.

(** [adds acc acc' i lines]: the runes of [acc'] are those of [acc] and
    the cells at [i] of [lines]. *)
Definition adds (acc acc' : CharSet) (i : Z) (lines : list ConcreteLine) : Prop :=
  forall r, inRange r = true ->
            CharSetGo.Contains acc' r
            = CharSetGo.Contains acc r || existsb (cellIs r i) lines.
End CacheSpec.

Module FilterAnySpec.
Import CharSetGo Primitives.

(** [allowedAt cs i l]: the cell of [l] at [i] is a rune of [cs]. *)
Definition allowedAt (cs : CharSet) (i : Z) (l : ConcreteLine) : bool :=
  match cell l i with
  | Some c => CharSetGo.Contains cs c
  | None => false
  end.
End FilterAnySpec.

Module CrossingSpec.
Import WordGenLib.

(** The character of a line at a cell. *)
Definition letterAt (line : ScoredLine) (k : nat) : option ascii :=
  nth_error (chars (Line line)) k.

(** Some line of [options] has [c] at cell [y]. *)
Definition offers (options : list ScoredLine) (y : nat) (c : ascii) : bool :=
  existsb (fun l => match letterAt l y with
                    | Some c' => Ascii.eqb c' c
                    | None => false
                    end) options.
Definition offeredAt (constraint : list (list ScoredLine)) (x y : nat) (c : ascii) : bool :=
  match nth_error constraint x with
  | Some options => offers options y c
  | None => false
  end.

(** Every character of the line is offered by the entry that crosses it. *)
Fixpoint crossesFrom (constraint : list (list ScoredLine)) (y x : nat) (line : list ascii)
  : bool :=
  match line with
  | [] => true
  | c :: line' => offeredAt constraint x y c && crossesFrom constraint y (S x) line'
  end.
Definition crosses (constraint : list (list ScoredLine)) (y : nat) (line : ScoredLine) : bool :=
  crossesFrom constraint y 0 (chars (Line line)).

Fixpoint filterFrom (constraint : list (list ScoredLine)) (y : nat)
         (toFilter : list (list ScoredLine)) : list (list ScoredLine) :=
  match toFilter with
  | [] => []
  | possibles :: rest =>
      filter (crosses constraint y) possibles :: filterFrom constraint (S y) rest
  end.

(** The state in which the lines of one axis that do not cross the other
    are dropped. *)
Definition tightened (state : GridState) (direction : Direction) : GridState :=
  match direction with
  | Horizontal => mkGridState (Down state) (filterFrom (Down state) 0 (Across state))
  | Vertical => mkGridState (filterFrom (Across state) 0 (Down state)) (Across state)
  end.

(** The set of the dictionary at [(x, y)] has [c]. *)
Definition holds (d : GridDictionary) (x y : nat) (c : ascii) : Prop :=
  exists s, entry d x y = Some (Some s) /\ CharSet_Contains s c = Some true.

(** The lines of a grid are options of the state, index by index. *)
Definition fromOptions (root : GridState) (g : FinalGrid) : Prop :=
  Forall2 (fun line options => In line options) (FinalDown g) (Down root)
  /\ Forall2 (fun line options => In line options) (FinalAcross g) (Across root).

(** The lines of the two axes agree where they cross. *)
Definition crossing (g : FinalGrid) : Prop :=
  forall x y d a,
    nth_error (FinalDown g) x = Some d -> nth_error (FinalAcross g) y = Some a ->
    letterAt d y = letterAt a x.
End CrossingSpec.

Module GenHelperSpec.
Import WordGenLib GenHelper.

(** A square array of side [n]. *)
Definition square (n : Z) (grid : Grid) : bool :=
  (GetLength0 grid =? n) && forallb (fun row => Z.of_nat (List.length row) =? n) grid.

(** The cell that [Fill] leaves at [(line, pos)]. *)
Definition filled (grid : Grid) (rowOrCol : Z) (dir : Direction) (start : Z) (word : Text)
           (line pos : Z) : option (option ascii) :=
  if line =? rowOrCol then
    match element word (pos - start) with
    | Some c => if Ascii.eqb c blank then AtPosition grid line pos dir else Some (Some c)
    | None => AtPosition grid line pos dir
    end
  else AtPosition grid line pos dir.

(** The cell at [pos] of a line is blocked. *)
Definition blockedAt (grid : Grid) (rowOrCol : Z) (dir : Direction) (pos : Z) : bool :=
  match AtPosition grid rowOrCol pos dir with
  | Some c => isBlocked c
  | None => false
  end.
(** The cells [lo .. hi-1] of a line are in the grid and none is blocked. *)
Definition clearBetween (grid : Grid) (rowOrCol : Z) (dir : Direction) (lo hi : Z) : Prop :=
  forall pos, lo <= pos < hi ->
    exists c, AtPosition grid rowOrCol pos dir = Some c /\ isBlocked c = false.

(** The character that [ReadLine] appends for a cell. *)
Definition shown (c : option ascii) : ascii :=
  match c with
  | None => blank
  | Some c => c
  end.
(** The entry of the template for a cell: a blank is an empty cell. *)
Definition emptied (c : option ascii) : option ascii :=
  match c with
  | None => None
  | Some c => if Ascii.eqb c blank then None else Some c
  end.
(** Where the segment [k] starts in the joined line. *)
Fixpoint offset (segments : list Text) (k : nat) : Z :=
  match k, segments with
  | S k', segment :: rest => 1 + Z.of_nat (List.length segment) + offset rest k'
  | _, _ => 0
  end.

(** [start] and [length] delimit a run of cells of the line between
    blocked cells or the ends of the line; [cells] are its cells, with
    blanks emptied. *)
Definition isRun (n : Z) (grid : Grid) (rowOrCol : Z) (dir : Direction)
           (start length : Z) (cells : list (option ascii)) : Prop :=
  0 <= start /\ start + length <= n
  /\ Z.of_nat (List.length cells) = length
  /\ (forall i, 0 <= i < length ->
        exists c, AtPosition grid rowOrCol (start + i) dir = Some c
                  /\ isBlocked c = false /\ element cells i = Some (emptied c))
  /\ (start = 0 \/ blockedAt grid rowOrCol dir (start - 1) = true)
  /\ (start + length = n \/ blockedAt grid rowOrCol dir (start + length) = true).
End GenHelperSpec.

Module SharedSpec.
Import Primitives.

(** No array is in both lists. *)
Definition disjoint (F G : list nat) : Prop := forall a, In a F -> ~ In a G.

(** [tree st h t F]: in the store [st] the value [h] is the tree [t]: it
    reaches the backing arrays [F], and none of them twice. *)
Inductive tree (st : Shared.Store)
  : Shared.PossibleLines -> PossibleLines -> list nat -> Prop :=
| tree_Impossible n : tree st (Shared.Impossible n) (Impossible n) []
| tree_Words ws oi masks : tree st (Shared.Words ws oi masks) (Words ws oi masks) []
| tree_Before h t F :
    tree st h t F -> tree st (Shared.BlockBefore h) (BlockBefore t) F
| tree_After h t F :
    tree st h t F -> tree st (Shared.BlockAfter h) (BlockAfter t) F
| tree_Between hf hs tf ts Ff Fs :
    tree st hf tf Ff -> tree st hs ts Fs -> disjoint Ff Fs ->
    tree st (Shared.BlockBetween hf hs) (BlockBetween tf ts) (Ff ++ Fs)
| tree_Compound c hs ts F :
    Shared.elements st c = Some hs -> trees st hs ts F -> ~ In (Shared.array c) F ->
    tree st (Shared.Compound c) (Compound ts) (Shared.array c :: F)
| tree_Definite d : tree st (Shared.Definite d) (Definite d) []
with trees (st : Shared.Store)
  : list Shared.PossibleLines -> list PossibleLines -> list nat -> Prop :=
| trees_nil : trees st [] [] []
| trees_cons h t F hs ts Fs :
    tree st h t F -> trees st hs ts Fs -> disjoint F Fs ->
    trees st (h :: hs) (t :: ts) (F ++ Fs).

(** The stores agree on the arrays [F]. *)
Definition agree (F : list nat) (st st' : Shared.Store) : Prop :=
  forall a, In a F -> nth_error st' a = nth_error st a.

(** [st'] is [st] with new arrays at the end and with changes in the
    arrays [F] only. *)
Definition changes (F : list nat) (st st' : Shared.Store) : Prop :=
  (List.length st <= List.length st')%nat
  /\ forall a, (a < List.length st)%nat -> ~ In a F -> nth_error st' a = nth_error st a.

(** The arrays [F] of [st] and those that [st'] has more. *)
Definition reach (F : list nat) (st st' : Shared.Store) (a : nat) : Prop :=
  In a F \/ (List.length st <= a < List.length st')%nat.

(** [h] has [n] letters in every store that is [st] on the arrays [D]. *)
Definition keeps (st : Shared.Store) (k : nat) (D : nat -> Prop)
           (h : Shared.PossibleLines) (n : Z) : Prop :=
  forall st' fuel,
    (forall a, D a -> nth_error st' a = nth_error st a) -> (k <= fuel)%nat ->
    Shared.NumLetters fuel st' h = Some n.

(** What a call [h.RemoveWordOptions(words)] in the store [st] does when
    [h] is the tree [t] and [rp] the result on [t]: it returns in a store
    [st'] a value that is the tree of [rp], the receiver itself exactly
    when [rp] is, and then without a change of the store. *)
Definition asOnTree (words : list string) (st : Shared.Store) (h : Shared.PossibleLines)
           (t : PossibleLines) (F : list nat) (rp : Result)
           (st' : Shared.Store) (r : Shared.Result) : Prop :=
  (forall fuel, (weight t < fuel)%nat ->
                Shared.RemoveWordOptions fuel st h words = Some (st', r))
  /\ Shared.isNew r = isNew rp
  /\ (isNew rp = false -> st' = st)
  /\ (exists F', tree st' (Shared.value h r) (value t rp) F'
                 /\ forall a, In a F' -> In a F \/ (List.length st <= a)%nat)
  /\ changes F st st'.

(** The same for every store and every value that is the tree [t] there;
    after the call the receiver still has its [n] letters. *)
Definition simulates (words : list string) (t : PossibleLines) : Prop :=
  forall st h F rp n,
    tree st h t F -> NumLetters t = Some n -> RemoveWordOptions t words = Some rp ->
    exists st' r, asOnTree words st h t F rp st' r
                  /\ keeps st' (weight t) (reach F st st') h n.

(** In the loop of [Compound.RemoveWordOptions] on the slice
    [array[off : off + m]], at index [i]: the local slice [mf] holds the
    trees [mfp]; when it is a view, it is one of the receiver's array that
    starts where the receiver starts and ends at or before [i]. *)
Definition held (st : Shared.Store) (array off i : nat) (mf : Shared.Local)
           (mfp : list PossibleLines) (Facc : list nat) : Prop :=
  (exists mhs, Shared.contents st mf = Some mhs /\ trees st mhs mfp Facc)
  /\ match mf with
     | Shared.Fresh _ => True
     | Shared.View v =>
         Shared.array v = array /\ Shared.offset v = off
         /\ (1 <= Shared.count v <= i)%nat
     end.

(** Before the first change the elements read so far are the trees
    [seen]; afterwards [maybeFiltered] holds the trees [mfp]. *)
Definition accumulated (st : Shared.Store) (array off i : nat)
           (arr : list Shared.PossibleLines) (mf : Shared.Local) (any : bool)
           (seen mfp : list PossibleLines) (Facc : list nat) : Prop :=
  if any then held st array off i mf mfp Facc
  else mf = Shared.Fresh [] /\ trees st (firstn i (skipn off arr)) seen Facc.
End SharedSpec.

(** * Properties *)

(** ** The character set *)
Module CharSetFacts.
Import CharSetGo LinesSpec.

Lemma wrap32_bit (k : Z) : 0 <= k < 32 -> wrap32 (Z.shiftl 1 k) = 2 ^ k.
Proof.
  intros Hk. unfold wrap32. rewrite Z.shiftl_1_l.
  apply Z.mod_small. split; [apply Z.pow_nonneg; lia|].
  apply Z.pow_lt_mono_r; lia.
Qed.

Lemma land_pow2_testbit (b k : Z) :
  0 <= k -> (Z.land b (2 ^ k) =? 0) = negb (Z.testbit b k).
Proof.
  intros Hk. destruct (Z.testbit b k) eqn:Hb; simpl.
  - apply Z.eqb_neq. intros H0.
    assert (Ht : Z.testbit (Z.land b (2 ^ k)) k = true)
      by (rewrite Z.land_spec, Hb, Z.pow2_bits_true; auto).
    rewrite H0, Z.bits_0 in Ht. discriminate.
  - apply Z.eqb_eq. apply Z.bits_inj'. intros n Hn.
    rewrite Z.land_spec, Z.bits_0.
    destruct (Z.eq_dec k n) as [->|Hne].
    + rewrite Hb. reflexivity.
    + rewrite Z.pow2_bits_false by assumption. apply andb_false_r.
Qed.

Lemma Contains_testbit (c : CharSet) (r : rune) :
  Contains c r = inRange r && Z.testbit (bits c) (r - minChar).
Proof.
  unfold Contains, inRange, minChar, maxChar.
  destruct ((r <? 96) || (r >? 122)) eqn:Hr; simpl; [reflexivity|].
  apply orb_false_elim in Hr. destruct Hr as [H1 H2].
  apply Z.ltb_ge in H1. rewrite Z.gtb_ltb in H2. apply Z.ltb_ge in H2.
  rewrite wrap32_bit by lia. rewrite land_pow2_testbit by lia.
  apply negb_involutive.
Qed.

(** C9.  [Add] returns an error exactly for the runes outside ['`'..'z'];
    on an error the set is left as it was; on success the rune is in the
    set afterwards and membership of every other rune is as before. *)
Theorem Add_error_iff_out_of_range (s : CharSet) (r : rune) :
  (snd (Add s r) = true <-> (r < minChar \/ maxChar < r))
  /\ (snd (Add s r) = true -> fst (Add s r) = s)
  /\ (snd (Add s r) = false ->
      Contains (fst (Add s r)) r = true
      /\ forall r', r' <> r -> Contains (fst (Add s r)) r' = Contains s r').
Proof.
  unfold Add.
  destruct ((r <? minChar) || (r >? maxChar)) eqn:Hr.
  - simpl. apply orb_true_iff in Hr.
    rewrite Z.ltb_lt, Z.gtb_ltb, Z.ltb_lt in Hr.
    repeat split; auto; discriminate.
  - assert (Hin : minChar <= r <= maxChar).
    { apply orb_false_elim in Hr. destruct Hr as [H1 H2].
      apply Z.ltb_ge in H1. rewrite Z.gtb_ltb in H2. apply Z.ltb_ge in H2. lia. }
    unfold minChar, maxChar in Hin.
    destruct (Z.land (bits s) (wrap32 (Z.shiftl 1 (r - minChar))) =? 0) eqn:Hbit;
      simpl; (split; [split; [discriminate | unfold minChar, maxChar; lia]|]);
      (split; [discriminate|]); intros _.
    + split.
      * rewrite Contains_testbit. unfold inRange. rewrite Hr. simpl.
        unfold minChar. rewrite wrap32_bit by lia.
        rewrite Z.lor_spec, Z.pow2_bits_true by lia. apply orb_true_r.
      * intros r' Hne. rewrite !Contains_testbit.
        destruct (inRange r') eqn:Hr'; simpl; [|reflexivity].
        unfold inRange, minChar, maxChar in Hr'.
        apply negb_true_iff, orb_false_elim in Hr'. destruct Hr' as [H1 H2].
        apply Z.ltb_ge in H1. rewrite Z.gtb_ltb in H2. apply Z.ltb_ge in H2.
        unfold minChar. rewrite wrap32_bit by lia.
        rewrite Z.lor_spec, Z.pow2_bits_false by lia. apply orb_false_r.
    + split; [|reflexivity].
      rewrite Contains_testbit. unfold inRange. rewrite Hr. simpl.
      unfold minChar in *. rewrite wrap32_bit in Hbit by lia.
      rewrite land_pow2_testbit in Hbit by lia.
      apply negb_false_iff in Hbit. exact Hbit.
Qed.

End CharSetFacts.

(** ** The line algebra *)
Module LinesFacts.
Import CharSetGo Primitives LinesSpec.

(** Inversion of a bind that succeeded. *)
Lemma bind_Some {A B : Type} (m : option A) (k : A -> option B) (b : B) :
  bind m k = Some b -> exists a, m = Some a /\ k a = Some b.
Proof. destruct m; simpl; [eauto | discriminate]. Qed.

Lemma Some_inj {A : Type} (a b : A) : Some a = Some b -> a = b.
Proof. congruence. Qed.

Ltac bind_inv H :=
  let a := fresh "a" in
  let Ha := fresh "Ha" in
  apply bind_Some in H; destruct H as (a & Ha & H).

(** Strings and slices. *)
Lemma slen_nonneg {A : Type} (l : list A) : 0 <= slen l.
Proof. unfold slen. lia. Qed.

Lemma length_runes (w : string) : slen (runes w) = len w.
Proof.
  unfold slen, runes, len. rewrite length_map. f_equal.
  induction w; simpl; congruence.
Qed.

Lemma index_runes (w : string) (i : Z) : index (runes w) i = byteAt w i.
Proof.
  unfold index, byteAt, runes. destruct (i <? 0); [reflexivity|].
  generalize (Z.to_nat i). intros n. revert n.
  induction w as [|a w IH]; intros [|n]; simpl; auto.
Qed.

Lemma index_Some {A : Type} (l : list A) (i : Z) :
  0 <= i < slen l -> exists x, index l i = Some x.
Proof.
  unfold index, slen. intros Hi.
  destruct (i <? 0) eqn:Hneg; [apply Z.ltb_lt in Hneg; lia|].
  destruct (nth_error l (Z.to_nat i)) eqn:Hn; [eauto|].
  apply nth_error_None in Hn. lia.
Qed.

Lemma index_In {A : Type} (l : list A) (i : Z) (x : A) : index l i = Some x -> In x l.
Proof.
  unfold index. destruct (i <? 0); [discriminate|]. apply nth_error_In.
Qed.

Lemma index_cons {A : Type} (x : A) (l : list A) (i : Z) :
  0 < i -> index (x :: l) i = index l (i - 1).
Proof.
  intros Hi. unfold index.
  destruct (i <? 0) eqn:H1; [apply Z.ltb_lt in H1; lia|].
  destruct (i - 1 <? 0) eqn:H2; [apply Z.ltb_lt in H2; lia|].
  replace (Z.to_nat i) with (S (Z.to_nat (i - 1))) by lia. reflexivity.
Qed.

Lemma index_app_l {A : Type} (l l' : list A) (i : Z) :
  i < slen l -> index (l ++ l') i = index l i.
Proof.
  unfold index, slen. intros Hi. destruct (i <? 0) eqn:H1; [reflexivity|].
  apply Z.ltb_ge in H1. apply nth_error_app1. lia.
Qed.

Lemma index_app_r {A : Type} (l l' : list A) (i : Z) :
  slen l <= i -> index (l ++ l') i = index l' (i - slen l).
Proof.
  unfold index, slen. intros Hi.
  destruct (i <? 0) eqn:H1; [apply Z.ltb_lt in H1; lia|].
  destruct (i - Z.of_nat (List.length l) <? 0) eqn:H2; [apply Z.ltb_lt in H2; lia|].
  rewrite nth_error_app2 by lia. f_equal. lia.
Qed.

Lemma index_out {A : Type} (l : list A) (i : Z) :
  i < 0 \/ slen l <= i -> index l i = None.
Proof.
  unfold index, slen. intros Hi. destruct (i <? 0) eqn:H1; [reflexivity|].
  apply Z.ltb_ge in H1. apply nth_error_None. lia.
Qed.

(** [NumLetters] of a well-formed value. *)
Lemma fits_NumLetters (p : PossibleLines) :
  fits p = true -> exists n, NumLetters p = Some n /\ 0 <= n < 25.
Proof.
  unfold fits. destruct (NumLetters p) as [n|]; [|discriminate].
  intros H. apply andb_true_iff in H. exists n. split; [reflexivity|]. lia.
Qed.

Lemma wellFormed_fits (p : PossibleLines) : wellFormed p = true -> fits p = true.
Proof. destruct p; simpl; intros H; apply andb_true_iff in H; apply H. Qed.

Lemma wellFormed_NumLetters (p : PossibleLines) :
  wellFormed p = true -> exists n, NumLetters p = Some n /\ 0 <= n < 25.
Proof. intros H. apply fits_NumLetters, wellFormed_fits, H. Qed.

Ltac split_andb H :=
  repeat match type of H with
         | (_ && _) = true =>
             let H' := fresh H in
             apply andb_true_iff in H; destruct H as [H H']
         end.

(** Induction over well-formed values: each case comes with the
    invariants of its variant. *)
Section WellFormedInduction.
Variable P : PossibleLines -> Prop.
Hypothesis HImpossible : forall n,
    wellFormed (Impossible n) = true -> 0 <= n < 25 -> P (Impossible n).
Hypothesis HWords : forall w ws oi masks,
    wellFormed (Words (w :: ws) oi masks) = true ->
    2 <= slen (w :: ws) -> len w < 25 ->
    Forall (fun x => len x = len w /\ forallb isLetter (runes x) = true) (w :: ws) ->
    (forall ms, masks = Some ms -> slen ms = len w) ->
    P (Words (w :: ws) oi masks).
Hypothesis HBefore : forall l n,
    wellFormed (BlockBefore l) = true ->
    wellFormed l = true -> isImpossible l = false ->
    NumLetters l = Some n -> 0 <= n -> 1 + n < 25 ->
    P l -> P (BlockBefore l).
Hypothesis HAfter : forall l n,
    wellFormed (BlockAfter l) = true ->
    wellFormed l = true -> isImpossible l = false ->
    NumLetters l = Some n -> 0 <= n -> 1 + n < 25 ->
    P l -> P (BlockAfter l).
Hypothesis HBetween : forall f s nf ns,
    wellFormed (BlockBetween f s) = true ->
    wellFormed f = true -> wellFormed s = true ->
    isImpossible f = false -> isImpossible s = false ->
    NumLetters f = Some nf -> NumLetters s = Some ns ->
    0 <= nf -> 0 <= ns -> 1 + nf + ns < 25 ->
    P f -> P s -> P (BlockBetween f s).
Hypothesis HCompound : forall ps n,
    wellFormed (Compound ps) = true ->
    2 <= slen ps -> 0 <= n < 25 ->
    Forall (fun q => wellFormed q = true /\ isImpossible q = false
                     /\ isCompound q = false /\ NumLetters q = Some n /\ P q) ps ->
    P (Compound ps).
Hypothesis HDefinite : forall d,
    wellFormed (Definite d) = true -> slen (ConcreteLine.Line d) < 25 -> P (Definite d).

Lemma wellFormed_ind (p : PossibleLines) : wellFormed p = true -> P p.
Proof.
  induction p as [n|ws oi masks|l IH|l IH|f s IHf IHs|ps IH|d] using lines_ind;
    intros Hwf; pose proof Hwf as Hnode;
    pose proof (wellFormed_NumLetters _ Hwf) as (m & Hm & Hrange);
    cbn [wellFormed] in Hwf; apply andb_true_iff in Hwf; destruct Hwf as [_ Hwf].
  - simpl in Hm. apply Some_inj in Hm; subst m. apply HImpossible; [assumption | lia].
  - destruct ws as [|w ws]; [rewrite andb_false_r in Hwf; discriminate|].
    simpl in Hm. apply Some_inj in Hm; subst m.
    apply andb_true_iff in Hwf as [Hlen Hwf].
    apply andb_true_iff in Hwf as [Hall Hmasks].
    apply HWords; try lia; try assumption.
    + rewrite forallb_forall in Hall. apply Forall_forall. intros x Hx.
      specialize (Hall x Hx). unfold wordOk in Hall.
      apply andb_true_iff in Hall as [Hl Hc]. split; [lia | assumption].
    + intros ms ->. lia.
  - apply andb_true_iff in Hwf as [Hwf Hni]. apply negb_true_iff in Hni.
    cbn [NumLetters] in Hm. bind_inv Hm. apply Some_inj in Hm; subst m.
    pose proof (wellFormed_NumLetters _ Hwf) as (m & Hm' & Hr').
    rewrite Ha in Hm'. apply Some_inj in Hm'; subst a.
    apply (HBefore l m); auto; lia.
  - apply andb_true_iff in Hwf as [Hwf Hni]. apply negb_true_iff in Hni.
    cbn [NumLetters] in Hm. bind_inv Hm. apply Some_inj in Hm; subst m.
    pose proof (wellFormed_NumLetters _ Hwf) as (m & Hm' & Hr').
    rewrite Ha in Hm'. apply Some_inj in Hm'; subst a.
    apply (HAfter l m); auto; lia.
  - apply andb_true_iff in Hwf as [Hwf Hns]. apply negb_true_iff in Hns.
    apply andb_true_iff in Hwf as [Hwf Hnf]. apply negb_true_iff in Hnf.
    apply andb_true_iff in Hwf as [Hwf Hws].
    cbn [NumLetters] in Hm. bind_inv Hm. bind_inv Hm. apply Some_inj in Hm; subst m.
    pose proof (wellFormed_NumLetters _ Hwf) as (m1 & Hm1 & Hr1).
    pose proof (wellFormed_NumLetters _ Hws) as (m2 & Hm2 & Hr2).
    rewrite Ha in Hm1. apply Some_inj in Hm1; subst a.
    rewrite Ha0 in Hm2. apply Some_inj in Hm2; subst a0.
    apply (HBetween f s m1 m2); auto; lia.
  - apply andb_true_iff in Hwf as [Hwf Hsame].
    apply andb_true_iff in Hwf as [Hwf Hkind].
    apply andb_true_iff in Hwf as [Hlen Hwf].
    apply (HCompound ps m); try lia; try assumption.
    rewrite forallb_forall in Hwf, Hkind, Hsame.
    rewrite Forall_forall in IH. apply Forall_forall. intros q Hq.
    specialize (Hwf q Hq). specialize (Hkind q Hq). specialize (Hsame q Hq).
    apply andb_true_iff in Hkind as [Hni Hnc]. apply negb_true_iff in Hni, Hnc.
    unfold sameLetters in Hsame. rewrite Hm in Hsame.
    destruct (NumLetters q) as [k|] eqn:Hk; [|discriminate].
    apply Z.eqb_eq in Hsame. subst k.
    repeat split; auto.
  - apply HDefinite; [assumption|]. simpl in Hm. apply Some_inj in Hm; subst m. lia.
Qed.
End WellFormedInduction.

Ltac wf_induction :=
  match goal with
  | |- forall p, wellFormed p = true -> @?Q p => apply (wellFormed_ind Q)
  end.

(** Lengths of slices. *)
Lemma slen_cons {A : Type} (x : A) (l : list A) : slen (x :: l) = 1 + slen l.
Proof. unfold slen. cbn [List.length]. rewrite Nat2Z.inj_succ. lia. Qed.

Lemma slen_app {A : Type} (l l' : list A) : slen (l ++ l') = slen l + slen l'.
Proof. unfold slen. rewrite length_app. lia. Qed.

Lemma slen_nil {A : Type} : slen (@nil A) = 0.
Proof. reflexivity. Qed.

(** Every line of a well-formed value has [NumLetters] cells. *)
Lemma Iterate_length (p : PossibleLines) :
  wellFormed p = true ->
  forall n, NumLetters p = Some n ->
  forall l, In l (Iterate p) -> slen (ConcreteLine.Line l) = n.
Proof.
  revert p. wf_induction.
  - intros n _ _ m _ l [].
  - intros w ws oi masks _ _ _ Hall _ n Hn l Hl.
    cbn [NumLetters] in Hn. apply Some_inj in Hn. subst n.
    cbn [Iterate] in Hl. apply in_map_iff in Hl as (x & <- & Hx).
    rewrite Forall_forall in Hall. destruct (Hall x Hx) as [Hlen _].
    cbn [wordLine ConcreteLine.Line]. rewrite length_runes. exact Hlen.
  - intros l n _ _ _ Hn _ _ IH m Hm x Hx.
    cbn [NumLetters] in Hm. rewrite Hn in Hm. apply Some_inj in Hm. subst m.
    cbn [Iterate] in Hx. apply in_map_iff in Hx as (y & <- & Hy).
    cbn [blockBefore ConcreteLine.Line]. rewrite slen_cons. rewrite (IH n Hn y Hy). reflexivity.
  - intros l n _ _ _ Hn _ _ IH m Hm x Hx.
    cbn [NumLetters] in Hm. rewrite Hn in Hm. apply Some_inj in Hm. subst m.
    cbn [Iterate] in Hx. apply in_map_iff in Hx as (y & <- & Hy).
    cbn [blockAfter ConcreteLine.Line]. rewrite slen_app, slen_cons, slen_nil. rewrite (IH n Hn y Hy). lia.
  - intros f s nf ns _ _ _ _ _ Hnf Hns _ _ _ IHf IHs m Hm x Hx.
    cbn [NumLetters] in Hm. rewrite Hnf, Hns in Hm. apply Some_inj in Hm. subst m.
    cbn [Iterate] in Hx. apply in_flat_map in Hx as (y & Hy & Hx).
    apply in_map_iff in Hx as (z & <- & Hz).
    cbn [blockBetween ConcreteLine.Line]. rewrite !slen_app, slen_cons, slen_nil.
    rewrite (IHf nf Hnf y Hy), (IHs ns Hns z Hz). lia.
  - intros ps n _ _ _ Hall m Hm x Hx.
    cbn [Iterate] in Hx. apply in_flat_map in Hx as (q & Hq & Hx).
    rewrite Forall_forall in Hall. destruct (Hall q Hq) as (_ & _ & _ & Hnq & IH).
    rewrite (IH n Hnq x Hx).
    destruct ps as [|q0 ps]; [destruct Hq|].
    cbn [NumLetters] in Hm. destruct (Hall q0 (or_introl eq_refl)) as (_ & _ & _ & Hn0 & _).
    congruence.
  - intros d _ _ n Hn l [<-|[]]. cbn [NumLetters] in Hn. congruence.
Qed.

(** A well-formed value other than [Impossible] yields a line. *)
Lemma Iterate_nonempty (p : PossibleLines) :
  wellFormed p = true -> isImpossible p = false -> 1 <= slen (Iterate p).
Proof.
  revert p. wf_induction.
  - discriminate.
  - intros w ws oi masks _ Hlen _ _ _ _. cbn [Iterate]. unfold slen in *.
    rewrite length_map. lia.
  - intros l n _ _ Hni _ _ _ IH _. cbn [Iterate]. unfold slen in *.
    rewrite length_map. auto.
  - intros l n _ _ Hni _ _ _ IH _. cbn [Iterate]. unfold slen in *.
    rewrite length_map. auto.
  - intros f s nf ns _ _ _ Hf Hs _ _ _ _ _ IHf IHs _. cbn [Iterate].
    specialize (IHf Hf). specialize (IHs Hs).
    destruct (Iterate f) as [|x xs]; [cbn in IHf; lia|].
    destruct (Iterate s) as [|y ys]; [cbn in IHs; lia|].
    cbn [flat_map map app]. rewrite slen_cons.
    match goal with |- 1 <= 1 + slen ?l => pose proof (slen_nonneg l); lia end.
  - intros ps n _ Hlen _ Hall _.
    destruct ps as [|q ps]; [cbn in Hlen; lia|].
    apply Forall_inv in Hall. destruct Hall as (_ & Hni & _ & _ & IH).
    cbn [Iterate flat_map]. rewrite slen_app.
    specialize (IH Hni). pose proof (slen_nonneg (flat_map Iterate ps)). lia.
  - intros d _ _ _. cbn. lia.
Qed.

(** [MakeCompound]: the fuel it is given is always enough. *)
Lemma weight_pos (p : PossibleLines) : (1 <= weight p)%nat.
Proof. destruct p; simpl; lia. Qed.

Lemma weights_app (l l' : list PossibleLines) :
  weights (l ++ l') = (weights l + weights l')%nat.
Proof. unfold weights. induction l; simpl; lia. Qed.

Lemma weights_cons (p : PossibleLines) (ps : list PossibleLines) :
  weights (p :: ps) = (weight p + weights ps)%nat.
Proof. reflexivity. Qed.

Lemma weight_Compound (cs : list PossibleLines) : weight (Compound cs) = S (weights cs).
Proof. reflexivity. Qed.

Lemma flatten_cons (p : PossibleLines) (ps : list PossibleLines) :
  flatten (p :: ps) = flatten [p] ++ flatten ps.
Proof. unfold flatten. cbn [flat_map]. rewrite app_nil_r. reflexivity. Qed.

Lemma weights_flatten (ps : list PossibleLines) :
  (weights (flatten ps) <= weights ps)%nat
  /\ (existsb (fun p => isImpossible p || isCompound p) ps = true ->
      weights (flatten ps) < weights ps)%nat.
Proof.
  induction ps as [|p ps [IH1 IH2]]; [split; [reflexivity | discriminate]|].
  rewrite flatten_cons, weights_app, weights_cons. cbn [existsb].
  pose proof (weight_pos p) as Hp.
  destruct p as [n|ws oi m|l|l|f s0|cs|d];
    cbn [isImpossible isCompound orb flatten flat_map app];
    rewrite ?weight_Compound, ?app_nil_r, ?weights_cons;
    change (weights []) with 0%nat;
    (split; [lia | intros H; try specialize (IH2 H); lia]).
Qed.

Lemma MakeCompound_fuel_irrelevant (n : Z) (fuel1 : nat) :
  forall fuel2 ps,
    (weights ps <= fuel1)%nat -> (weights ps <= fuel2)%nat ->
    MakeCompound_fuel fuel1 ps n = MakeCompound_fuel fuel2 ps n.
Proof.
  induction fuel1 as [|fuel1 IH]; intros fuel2 ps H1 H2.
  - destruct ps as [|p ps]; [destruct fuel2; reflexivity|].
    pose proof (weight_pos p). rewrite weights_cons in H1. lia.
  - destruct ps as [|p [|q ps]]; [destruct fuel2; reflexivity ..|].
    cbn [MakeCompound_fuel].
    destruct fuel2 as [|fuel2].
    { pose proof (weight_pos p). rewrite weights_cons in H2. lia. }
    cbn [MakeCompound_fuel].
    destruct (existsb _ (p :: q :: ps)) eqn:He; [|reflexivity].
    destruct (weights_flatten (p :: q :: ps)) as [_ Hlt]. specialize (Hlt He).
    apply IH; lia.
Qed.

(** The defining equation of [MakeCompound]. *)
Lemma MakeCompound_eq (ps : list PossibleLines) (n : Z) :
  MakeCompound ps n =
  match ps with
  | [] => MakeImpossible n
  | [p] => Some p
  | _ => if existsb (fun p => isImpossible p || isCompound p) ps
         then MakeCompound (flatten ps) n
         else Some (Compound ps)
  end.
Proof.
  unfold MakeCompound.
  destruct ps as [|p [|q ps]]; [reflexivity | destruct (weights [p]); reflexivity |].
  destruct (weights (p :: q :: ps)) as [|fuel] eqn:Hw.
  { pose proof (weight_pos p). rewrite weights_cons in Hw. lia. }
  cbn [MakeCompound_fuel].
  destruct (existsb _ (p :: q :: ps)) eqn:He; [|reflexivity].
  destruct (weights_flatten (p :: q :: ps)) as [_ Hlt]. specialize (Hlt He).
  apply MakeCompound_fuel_irrelevant; lia.
Qed.

Lemma MakeCompound_plain (ps : list PossibleLines) (n : Z) :
  Forall (fun q => isImpossible q = false /\ isCompound q = false) ps ->
  MakeCompound ps n =
  match ps with
  | [] => MakeImpossible n
  | [p] => Some p
  | _ => Some (Compound ps)
  end.
Proof.
  intros Hall. rewrite MakeCompound_eq.
  destruct ps as [|p [|q ps]]; try reflexivity.
  replace (existsb _ (p :: q :: ps)) with false; [reflexivity|].
  symmetry. apply not_true_is_false. intros He.
  apply existsb_exists in He as (x & Hx & Hk).
  rewrite Forall_forall in Hall. destruct (Hall x Hx) as [H1 H2].
  rewrite H1, H2 in Hk. discriminate.
Qed.

Lemma Iterate_flatten (ps : list PossibleLines) :
  flat_map Iterate (flatten ps) = flat_map Iterate ps.
Proof.
  induction ps as [|p ps IH]; [reflexivity|].
  rewrite flatten_cons, flat_map_app, IH. cbn [flat_map]. f_equal.
  destruct p; cbn [flatten flat_map app Iterate]; rewrite ?app_nil_r; reflexivity.
Qed.

Lemma MakeImpossible_Some (n : Z) (q : PossibleLines) :
  MakeImpossible n = Some q -> q = Impossible n /\ 0 <= n < 25.
Proof.
  unfold MakeImpossible. destruct ((0 <=? n) && (n <? 25)) eqn:H; [|discriminate].
  intros Hq. apply Some_inj in Hq. apply andb_true_iff in H. split; [auto | lia].
Qed.

Lemma MakeImpossible_ok (n : Z) : 0 <= n < 25 -> MakeImpossible n = Some (Impossible n).
Proof.
  intros H. unfold MakeImpossible.
  replace ((0 <=? n) && (n <? 25)) with true; [reflexivity|].
  symmetry. apply andb_true_iff. split; [apply Z.leb_le | apply Z.ltb_lt]; lia.
Qed.

Lemma Iterate_MakeCompound_fuel (n : Z) (fuel : nat) :
  forall ps q, MakeCompound_fuel fuel ps n = Some q -> Iterate q = flat_map Iterate ps.
Proof.
  induction fuel as [|fuel IH]; intros ps q Hq;
    destruct ps as [|p [|p' ps]]; cbn [MakeCompound_fuel] in Hq.
  1, 4: apply MakeImpossible_Some in Hq as [-> _]; reflexivity.
  1, 3: apply Some_inj in Hq; subst q; cbn [flat_map]; rewrite app_nil_r; reflexivity.
  - destruct (existsb _ _); [discriminate|]. apply Some_inj in Hq. subst q. reflexivity.
  - destruct (existsb _ _).
    + rewrite (IH _ _ Hq). apply Iterate_flatten.
    + apply Some_inj in Hq. subst q. reflexivity.
Qed.

Lemma Iterate_MakeCompound (ps : list PossibleLines) (n : Z) (q : PossibleLines) :
  MakeCompound ps n = Some q -> Iterate q = flat_map Iterate ps.
Proof. apply Iterate_MakeCompound_fuel. Qed.

(** [slices.ContainsFunc], the word loop and [mapM]. *)
Lemma ContainsFunc_total {A : Type} (f : A -> option bool) (l : list A) :
  Forall (fun x => exists b, f x = Some b) l -> exists b, ContainsFunc f l = Some b.
Proof.
  induction 1 as [|x l (b & Hb) _ (b' & IH)]; cbn [ContainsFunc]; [eauto|].
  rewrite Hb. cbn [bind]. destruct b; eauto.
Qed.

Lemma ContainsFunc_false {A : Type} (f : A -> option bool) (l : list A) :
  ContainsFunc f l = Some false -> Forall (fun x => f x = Some false) l.
Proof.
  induction l as [|x l IH]; cbn [ContainsFunc]; intros H; [constructor|].
  bind_inv H. destruct a; [discriminate|]. constructor; auto.
Qed.

Lemma ContainsFunc_true {A : Type} (f : A -> option bool) (l : list A) :
  ContainsFunc f l = Some true -> exists x, In x l /\ f x = Some true.
Proof.
  induction l as [|x l IH]; cbn [ContainsFunc]; intros H; [discriminate|].
  bind_inv H. destruct a.
  - exists x. split; [left; reflexivity | assumption].
  - destruct (IH H) as (y & Hy & Hfy). exists y. split; [right; assumption | assumption].
Qed.

Lemma ContainsFunc_none {A : Type} (f : A -> option bool) (l : list A) :
  Forall (fun x => f x = Some false) l -> ContainsFunc f l = Some false.
Proof.
  induction 1 as [|x l Hx _ IH]; cbn [ContainsFunc]; [reflexivity|].
  rewrite Hx. cbn [bind]. exact IH.
Qed.

Lemma keepWords_Some (keep : string -> option bool) (oi : Z) (ws : list string) :
  forall idx fl k,
    keepWords keep oi idx ws = Some (fl, k) -> fl = filter (kept keep) ws.
Proof.
  induction ws as [|w ws IH]; intros idx fl k H; cbn [keepWords] in H.
  - apply Some_inj in H. cbn [filter]. congruence.
  - bind_inv H. bind_inv H. destruct a0 as [fl' k'].
    cbn [filter]. unfold kept at 1. rewrite Ha.
    apply IH in Ha0. subst fl'.
    destruct a; apply Some_inj in H; congruence.
Qed.

Lemma keepWords_total (keep : string -> option bool) (oi : Z) (ws : list string) :
  Forall (fun w => exists b, keep w = Some b) ws ->
  forall idx, exists fl k, keepWords keep oi idx ws = Some (fl, k).
Proof.
  induction 1 as [|w ws (b & Hb) _ IH]; intros idx; cbn [keepWords]; [eauto|].
  rewrite Hb. cbn [bind]. destruct (IH (idx + 1)) as (fl & k & ->). cbn [bind].
  destruct b; eauto.
Qed.

Lemma mapM_Some {A B : Type} (f : A -> option B) (l : list A) :
  forall rs, mapM f l = Some rs -> Forall2 (fun x r => f x = Some r) l rs.
Proof.
  induction l as [|x l IH]; intros rs H; cbn [mapM] in H.
  - apply Some_inj in H. subst rs. constructor.
  - bind_inv H. bind_inv H. apply Some_inj in H. subst rs. constructor; auto.
Qed.

Lemma mapM_total {A B : Type} (f : A -> option B) (l : list A) :
  Forall (fun x => exists r, f x = Some r) l -> exists rs, mapM f l = Some rs.
Proof.
  induction 1 as [|x l (r & Hr) _ (rs & IH)]; cbn [mapM]; [eauto|].
  rewrite Hr, IH. cbn [bind]. eauto.
Qed.

Lemma Forall2_combine {A B : Type} (R : A -> B -> Prop) (l : list A) (rs : list B) :
  Forall2 R l rs -> Forall (fun pf => R (fst pf) (snd pf)) (combine l rs).
Proof. induction 1; cbn [combine]; constructor; auto. Qed.

Lemma Forall2_combine_fst {A B : Type} (R : A -> B -> Prop) (l : list A) (rs : list B) :
  Forall2 R l rs -> map fst (combine l rs) = l.
Proof. induction 1; cbn [combine map fst]; congruence. Qed.

Lemma isImpossible_Iterate (p : PossibleLines) : isImpossible p = true -> Iterate p = [].
Proof. destruct p; try discriminate. reflexivity. Qed.

(** The loop of [Compound.Filter]. *)
Lemma Filter_loop_Forall (P : PossibleLines -> Prop) (todo : list (PossibleLines * Result)) :
  forall seen filtered any,
    Forall P seen -> Forall P filtered ->
    Forall (fun pf => P (fst pf) /\ (isImpossible (valueOf pf) = false -> P (valueOf pf))) todo ->
    Forall P (fst (Compound_Filter_loop seen todo filtered any)).
Proof.
  induction todo as [|[p f] todo IH]; intros seen filtered any Hs Hf Ht;
    cbn [Compound_Filter_loop]; [assumption|].
  apply Forall_cons_iff in Ht as [[Hp Hv] Ht]. cbn [fst snd] in Hp. unfold valueOf in Hv. cbn [fst snd] in Hv.
  assert (Hsp : Forall P (seen ++ [p])) by (apply Forall_app; auto).
  destruct (negb any && isNew f); destruct (isImpossible (value p f)) eqn:Hi;
    try destruct any; apply IH; auto; repeat (apply Forall_app; split); auto.
Qed.

Lemma Filter_loop_unchanged (todo : list (PossibleLines * Result)) :
  forall seen filtered any,
    snd (Compound_Filter_loop seen todo filtered any) = false ->
    any = false /\ Forall (fun pf => snd pf = Same) todo.
Proof.
  induction todo as [|[p f] todo IH]; intros seen filtered any H;
    cbn [Compound_Filter_loop] in H; [auto|].
  destruct any; cbn [negb andb] in H.
  - destruct (isImpossible (value p f)); apply IH in H as [H _]; discriminate.
  - destruct f as [|q]; cbn [isNew] in H.
    + destruct (isImpossible (value p Same)); apply IH in H as [_ H]; auto.
    + destruct (isImpossible (value p (New q))); apply IH in H as [H _]; discriminate.
Qed.

Lemma Filter_loop_Iterate (todo : list (PossibleLines * Result)) :
  forall seen filtered any,
    snd (Compound_Filter_loop seen todo filtered any) = true ->
    (any = false -> filtered = []) ->
    flat_map Iterate (fst (Compound_Filter_loop seen todo filtered any)) =
    flat_map Iterate filtered
    ++ (if any then [] else flat_map Iterate seen)
    ++ flat_map (fun pf => Iterate (valueOf pf)) todo.
Proof.
  induction todo as [|[p f] todo IH]; intros seen filtered any H Hinit;
    cbn [Compound_Filter_loop] in *.
  - cbn [snd] in H. subst any. cbn [flat_map fst]. rewrite !app_nil_r. reflexivity.
  - cbn [flat_map]. unfold valueOf at 1. cbn [fst snd].
    destruct any; cbn [negb andb] in *.
    + destruct (isImpossible (value p f)) eqn:Hi.
      * rewrite (IH _ _ _ H) by discriminate.
        rewrite (isImpossible_Iterate _ Hi). reflexivity.
      * rewrite (IH _ _ _ H) by discriminate.
        rewrite flat_map_app. cbn [flat_map]. rewrite app_nil_r, <- !app_assoc. reflexivity.
    + rewrite (Hinit eq_refl) in *. cbn [app flat_map] in *.
      destruct f as [|q]; cbn [isNew value] in *.
      * destruct (isImpossible p);
          rewrite (IH _ _ _ H) by reflexivity;
          cbn [flat_map app]; rewrite flat_map_app; cbn [flat_map];
          rewrite app_nil_r, <- app_assoc; reflexivity.
      * destruct (isImpossible q) eqn:Hi.
        -- rewrite (IH _ _ _ H) by discriminate.
           rewrite (isImpossible_Iterate _ Hi). cbn [app]. reflexivity.
        -- rewrite (IH _ _ _ H) by discriminate.
           rewrite flat_map_app. cbn [flat_map app]. rewrite app_nil_r, <- !app_assoc.
           reflexivity.
Qed.

(** *** What the restricting methods preserve *)
Lemma sound_Same (p : PossibleLines) (n : Z) :
  wellFormed p = true -> NumLetters p = Some n -> sound n p Same.
Proof. intros Hwf Hn. repeat split; auto. Qed.

Lemma range_bool (n : Z) : 0 <= n < 25 -> (0 <=? n) && (n <? 25) = true.
Proof. intros H. apply andb_true_iff. split; [apply Z.leb_le | apply Z.ltb_lt]; lia. Qed.

Lemma wellFormed_Impossible (n : Z) : 0 <= n < 25 -> wellFormed (Impossible n) = true.
Proof. intros H. cbn [wellFormed]. unfold fits. cbn [NumLetters]. rewrite range_bool; auto. Qed.

Lemma newImpossible_Some (m : option Z) (r : Result) :
  newImpossible m = Some r -> exists n, m = Some n /\ r = New (Impossible n) /\ 0 <= n < 25.
Proof.
  unfold newImpossible. intros H. bind_inv H. bind_inv H.
  apply MakeImpossible_Some in Ha0 as [-> Hr]. apply Some_inj in H. eauto.
Qed.

Lemma newImpossible_ok (n : Z) :
  0 <= n < 25 -> newImpossible (Some n) = Some (New (Impossible n)).
Proof. intros H. unfold newImpossible. cbn [bind]. rewrite MakeImpossible_ok; auto. Qed.

Lemma newImpossible_sound (p : PossibleLines) (n : Z) (r : Result) :
  NumLetters p = Some n -> newImpossible (NumLetters p) = Some r -> sound n p r.
Proof.
  intros Hn H. apply newImpossible_Some in H as (m & Hm & -> & Hr).
  rewrite Hn in Hm. apply Some_inj in Hm. subst m.
  repeat split; cbn [value]; auto using wellFormed_Impossible.
Qed.

Lemma MakeWords_sound (fl : list string) (k n : Z) (q : PossibleLines) :
  wordsOf n fl -> n < 25 -> MakeWords fl k n = Some q ->
  wellFormed q = true /\ NumLetters q = Some n /\ isCompound q = false.
Proof.
  intros Hall Hn H. destruct fl as [|x [|y fl]]; cbn [MakeWords] in H.
  - apply MakeImpossible_Some in H as [-> Hr].
    repeat split; auto using wellFormed_Impossible.
  - apply Some_inj in H. subst q. apply Forall_inv in Hall as [Hx _].
    unfold MakeDefinite. cbn [wellFormed NumLetters ConcreteLine.Line isCompound].
    unfold fits. cbn [NumLetters ConcreteLine.Line]. rewrite length_runes, Hx.
    pose proof (slen_nonneg (runes x)) as H0. rewrite length_runes, Hx in H0.
    rewrite range_bool by lia. auto.
  - apply Some_inj in H. subst q.
    pose proof (Forall_inv Hall) as [Hx _].
    cbn [wellFormed NumLetters isCompound]. unfold fits. cbn [NumLetters]. rewrite Hx.
    assert (0 <= n) by (unfold len in Hx; lia).
    rewrite range_bool by lia.
    repeat split; auto. cbn [andb].
    apply andb_true_iff. split.
    + apply Z.leb_le. rewrite !slen_cons. pose proof (slen_nonneg fl). lia.
    + rewrite andb_true_r. apply forallb_forall. intros z Hz.
      unfold wordsOf in Hall. rewrite Forall_forall in Hall. destruct (Hall z Hz) as [Hl Hc].
      unfold wordOk. rewrite Hc, andb_true_r. apply Z.eqb_eq. exact Hl.
Qed.

Lemma wordsOf_filter (n : Z) (f : string -> bool) (ws : list string) :
  wordsOf n ws -> wordsOf n (filter f ws).
Proof.
  unfold wordsOf. rewrite !Forall_forall. intros H x Hx.
  apply filter_In in Hx as [Hx _]. auto.
Qed.

Lemma fits_of (p : PossibleLines) (n : Z) :
  NumLetters p = Some n -> 0 <= n < 25 -> fits p = true.
Proof. intros Hn Hr. unfold fits. rewrite Hn. apply range_bool, Hr. Qed.

Lemma BlockBefore_build_sound (l : PossibleLines) (n : Z) (inner r : Result) :
  wellFormed (BlockBefore l) = true -> NumLetters l = Some n -> 0 <= n -> 1 + n < 25 ->
  wellFormed (value l inner) = true -> NumLetters (value l inner) = Some n ->
  BlockBefore_build l inner = Some r ->
  sound (1 + n) (BlockBefore l) r.
Proof.
  intros Hwf Hn H0 H25 Hwi Hni H. unfold BlockBefore_build in H.
  assert (Hnode : NumLetters (BlockBefore l) = Some (1 + n))
    by (cbn [NumLetters]; rewrite Hn; reflexivity).
  destruct (isImpossible (value l inner)) eqn:Hi.
  - apply (newImpossible_sound _ _ _ Hnode H).
  - destruct inner as [|i0]; apply Some_inj in H; subst r.
    + apply sound_Same; auto.
    + cbn [value] in *. repeat split; cbn [value isCompound]; auto.
      * cbn [wellFormed]. rewrite Hwi, Hi. cbn [negb andb]. rewrite andb_true_r.
        apply (fits_of _ (1 + n)); [cbn [NumLetters]; rewrite Hni; reflexivity | lia].
      * cbn [NumLetters]. rewrite Hni. reflexivity.
Qed.

Lemma BlockAfter_build_sound (l : PossibleLines) (n : Z) (inner r : Result) :
  wellFormed (BlockAfter l) = true -> NumLetters l = Some n -> 0 <= n -> 1 + n < 25 ->
  wellFormed (value l inner) = true -> NumLetters (value l inner) = Some n ->
  BlockAfter_build l inner = Some r ->
  sound (1 + n) (BlockAfter l) r.
Proof.
  intros Hwf Hn H0 H25 Hwi Hni H. unfold BlockAfter_build in H.
  assert (Hnode : NumLetters (BlockAfter l) = Some (1 + n))
    by (cbn [NumLetters]; rewrite Hn; reflexivity).
  destruct (isImpossible (value l inner)) eqn:Hi.
  - apply (newImpossible_sound _ _ _ Hnode H).
  - destruct inner as [|i0]; apply Some_inj in H; subst r.
    + apply sound_Same; auto.
    + cbn [value] in *. repeat split; cbn [value isCompound]; auto.
      * cbn [wellFormed]. rewrite Hwi, Hi. cbn [negb andb]. rewrite andb_true_r.
        apply (fits_of _ (1 + n)); [cbn [NumLetters]; rewrite Hni; reflexivity | lia].
      * cbn [NumLetters]. rewrite Hni. reflexivity.
Qed.

Lemma BlockBetween_build_sound (f s : PossibleLines) (nf ns : Z) (rf rs r : Result) :
  wellFormed (BlockBetween f s) = true ->
  NumLetters f = Some nf -> NumLetters s = Some ns ->
  0 <= nf -> 0 <= ns -> 1 + nf + ns < 25 ->
  wellFormed (value f rf) = true -> NumLetters (value f rf) = Some nf ->
  wellFormed (value s rs) = true -> NumLetters (value s rs) = Some ns ->
  BlockBetween_build f s rf rs = Some r ->
  sound (1 + nf + ns) (BlockBetween f s) r.
Proof.
  intros Hwf Hnf Hns H0 H0' H25 Hwf' Hnf' Hws' Hns' H. unfold BlockBetween_build in H.
  assert (Hnode : NumLetters (BlockBetween f s) = Some (1 + nf + ns))
    by (cbn [NumLetters]; rewrite Hnf, Hns; reflexivity).
  destruct (isImpossible (value f rf) || isImpossible (value s rs)) eqn:Hi.
  - apply (newImpossible_sound _ _ _ Hnode H).
  - apply orb_false_elim in Hi as [Hi1 Hi2].
    destruct (negb (isNew rf) && negb (isNew rs)); apply Some_inj in H; subst r.
    + apply sound_Same; auto.
    + repeat split; cbn [value isCompound]; auto.
      * cbn [wellFormed]. rewrite Hwf', Hws', Hi1, Hi2. cbn [negb andb]. rewrite andb_true_r.
        apply (fits_of _ (1 + nf + ns)); [cbn [NumLetters]; rewrite Hnf', Hns'; reflexivity | lia].
      * cbn [NumLetters]. rewrite Hnf', Hns'. reflexivity.
Qed.

Lemma wellFormed_Compound (ps : list PossibleLines) (n : Z) :
  2 <= slen ps -> 0 <= n < 25 -> Forall (child n) ps -> wellFormed (Compound ps) = true.
Proof.
  intros Hlen Hn Hall.
  assert (Hnode : NumLetters (Compound ps) = Some n).
  { destruct ps as [|q ps]; [cbn in Hlen; lia|]. cbn [NumLetters].
    apply Forall_inv in Hall. apply Hall. }
  cbn [wellFormed]. rewrite (fits_of _ _ Hnode Hn). cbn [andb].
  rewrite Forall_forall in Hall.
  repeat (apply andb_true_iff; split).
  - apply Z.leb_le. exact Hlen.
  - apply forallb_forall. intros q Hq. apply (Hall q Hq).
  - apply forallb_forall. intros q Hq. destruct (Hall q Hq) as (_ & -> & -> & _). reflexivity.
  - apply forallb_forall. intros q Hq. destruct (Hall q Hq) as (_ & _ & _ & Hnq).
    unfold sameLetters. rewrite Hnode, Hnq. apply Z.eqb_refl.
Qed.

Lemma child_plain (n : Z) (ps : list PossibleLines) :
  Forall (child n) ps -> Forall (fun q => isImpossible q = false /\ isCompound q = false) ps.
Proof. apply Forall_impl. intros q (_ & H1 & H2 & _). auto. Qed.

Lemma MakeCompound_sound (ps : list PossibleLines) (n : Z) (q : PossibleLines) :
  Forall (child n) ps -> 0 <= n < 25 -> MakeCompound ps n = Some q ->
  wellFormed q = true /\ NumLetters q = Some n /\ (ps <> [] -> isImpossible q = false).
Proof.
  intros Hall Hn H. rewrite (MakeCompound_plain _ _ (child_plain _ _ Hall)) in H.
  destruct ps as [|p [|p' ps]].
  - apply MakeImpossible_Some in H as [-> _].
    repeat split; auto using wellFormed_Impossible. congruence.
  - apply Some_inj in H. subst q. apply Forall_inv in Hall as (H1 & H2 & _ & H4). auto.
  - apply Some_inj in H. subst q. repeat split; auto.
    + apply (wellFormed_Compound _ n); auto.
      rewrite !slen_cons. pose proof (slen_nonneg ps). lia.
    + cbn [NumLetters]. apply Forall_inv in Hall. apply Hall.
Qed.

Lemma MakeCompound_total (ps : list PossibleLines) (n : Z) :
  Forall (child n) ps -> 0 <= n < 25 -> exists q, MakeCompound ps n = Some q.
Proof.
  intros Hall Hn. rewrite (MakeCompound_plain _ _ (child_plain _ _ Hall)).
  destruct ps as [|p [|p' ps]]; eauto using MakeImpossible_ok.
Qed.

Lemma sound_child (n : Z) (q : PossibleLines) (f : Result) :
  child n q -> sound n q f ->
  child n q /\ (isImpossible (value q f) = false -> child n (value q f)).
Proof.
  intros Hc (Hw & Hn & Hk). split; [assumption|]. intros Hi.
  destruct Hc as (_ & _ & Hnc & _). repeat split; auto.
Qed.

Lemma Forall_child_sound (n : Z) (op : PossibleLines -> option Result)
      (ps : list PossibleLines) (fs : list Result) :
  Forall (fun q => wellFormed q = true /\ isImpossible q = false /\ isCompound q = false
                   /\ NumLetters q = Some n
                   /\ (forall r, op q = Some r -> sound n q r)) ps ->
  mapM op ps = Some fs ->
  Forall (fun pf => child n (fst pf)
                    /\ (isImpossible (valueOf pf) = false -> child n (valueOf pf)))
         (combine ps fs).
Proof.
  intros Hall Hfs. apply mapM_Some in Hfs.
  induction Hfs as [|q f ps fs Hq _ IH]; cbn [combine]; constructor.
  - apply Forall_inv in Hall as (H1 & H2 & H3 & H4 & H5).
    apply sound_child; [repeat split; auto | auto].
  - apply IH. apply Forall_inv_tail in Hall. exact Hall.
Qed.

(** [Filter] keeps a value well formed and of the same length. *)
Lemma Filter_sound (ch : rune) (p : PossibleLines) :
  wellFormed p = true ->
  forall n i r, NumLetters p = Some n -> Filter p ch i = Some r -> sound n p r.
Proof.
  revert p. wf_induction.
  - intros n Hwf _ m i r Hm H. apply Some_inj in H. subst r. apply sound_Same; auto.
  - intros w ws oi masks Hwf _ H25 Hall _ m i r Hm H.
    cbn [Filter] in H.
    destruct (ch =? kBlocked); [apply (newImpossible_sound _ _ _ Hm H)|].
    bind_inv H. destruct (negb a).
    { apply Some_inj in H. subst r. apply sound_Same; auto. }
    bind_inv H. destruct a0 as [fl k]. bind_inv H. bind_inv H.
    apply Some_inj in H. subst r.
    rewrite Hm in Ha1. apply Some_inj in Ha1. subst a0.
    cbn [NumLetters] in Hm. apply Some_inj in Hm. subst m.
    apply keepWords_Some in Ha0. subst fl.
    apply MakeWords_sound in Ha2; [|apply wordsOf_filter; exact Hall | exact H25].
    destruct Ha2 as (H1 & H2 & H3). repeat split; auto.
  - intros l n Hwf Hwl _ Hn H0 H25 IH m i r Hm H.
    assert (Hnode : m = 1 + n)
      by (cbn [NumLetters] in Hm; rewrite Hn in Hm; apply Some_inj in Hm; auto).
    subst m. cbn [Filter] in H.
    destruct (i =? 0).
    + destruct (ch =? kBlocked).
      * apply Some_inj in H. subst r. apply sound_Same; auto.
      * apply (newImpossible_sound _ _ _ Hm H).
    + bind_inv H. destruct (IH _ _ _ Hn Ha) as (H1 & H2 & _).
      apply (BlockBefore_build_sound l n a r); auto.
  - intros l n Hwf Hwl _ Hn H0 H25 IH m i r Hm H.
    assert (Hnode : m = 1 + n)
      by (cbn [NumLetters] in Hm; rewrite Hn in Hm; apply Some_inj in Hm; auto).
    subst m. cbn [Filter] in H. rewrite Hn in H. cbn [bind] in H.
    destruct (i =? n).
    + destruct (ch =? kBlocked).
      * apply Some_inj in H. subst r. apply sound_Same; auto.
      * apply (newImpossible_sound _ _ _ Hm H).
    + bind_inv H. destruct (IH _ _ _ Hn Ha) as (H1 & H2 & _).
      apply (BlockAfter_build_sound l n a r); auto.
  - intros f s nf ns Hwf Hwf1 Hwf2 _ _ Hnf Hns H0 H0' H25 IHf IHs m i r Hm H.
    assert (Hnode : m = 1 + nf + ns)
      by (cbn [NumLetters] in Hm; rewrite Hnf, Hns in Hm; apply Some_inj in Hm; auto).
    subst m. cbn [Filter] in H. rewrite Hnf in H. cbn [bind] in H.
    destruct (i =? nf).
    + destruct (ch =? kBlocked).
      * apply Some_inj in H. subst r. apply sound_Same; auto.
      * apply (newImpossible_sound _ _ _ Hm H).
    + destruct (i <? nf); bind_inv H.
      * destruct (IHf _ _ _ Hnf Ha) as (H1 & H2 & _).
        apply (BlockBetween_build_sound f s nf ns a Same r); auto.
      * destruct (IHs _ _ _ Hns Ha) as (H1 & H2 & _).
        apply (BlockBetween_build_sound f s nf ns Same a r); auto.
  - intros ps n Hwf Hlen Hn Hall m i r Hm H.
    assert (Hnode : m = n).
    { destruct ps as [|q ps]; [cbn in Hlen; lia|]. cbn [NumLetters] in Hm.
      apply Forall_inv in Hall as (_ & _ & _ & Hq & _). congruence. }
    subst m. cbn [Filter] in H. bind_inv H.
    destruct (Compound_Filter_loop [] (combine ps a) [] false) as [filtered any] eqn:Hloop.
    destruct (negb any).
    { apply Some_inj in H. subst r. apply sound_Same; auto. }
    bind_inv H. bind_inv H. apply Some_inj in H. subst r.
    rewrite Hm in Ha0. apply Some_inj in Ha0. subst a0.
    assert (Hfl : Forall (child n) filtered).
    { change filtered with (fst (filtered, any)). rewrite <- Hloop.
      apply Filter_loop_Forall; [constructor | constructor |].
      apply (Forall_child_sound n (fun q => Filter q ch i)); [|exact Ha].
      revert Hall. apply Forall_impl. intros q (H1 & H2 & H3 & H4 & H5).
      refine (conj H1 (conj H2 (conj H3 (conj H4 _)))). intros r Hr. eapply H5; eauto. }
    destruct (MakeCompound_sound _ _ _ Hfl Hn Ha1) as (H1 & H2 & _).
    repeat split; auto. discriminate.
  - intros d Hwf H25 m i r Hm H. cbn [Filter] in H. bind_inv H.
    destruct (ch =? a).
    + apply Some_inj in H. subst r. apply sound_Same; auto.
    + apply (newImpossible_sound _ _ _ Hm H).
Qed.

(** *** [Filter] returns in range *)
Lemma byteAt_Some (w : string) (i : Z) : 0 <= i < len w -> exists c, byteAt w i = Some c.
Proof.
  intros Hi. rewrite <- index_runes. apply index_Some. rewrite length_runes. exact Hi.
Qed.

Lemma MakeWords_total (fl : list string) (k n : Z) :
  0 <= n < 25 -> exists q, MakeWords fl k n = Some q.
Proof.
  intros Hn. destruct fl as [|x [|y fl]]; cbn [MakeWords]; eauto using MakeImpossible_ok.
Qed.

Lemma BlockBefore_build_total (l : PossibleLines) (n : Z) (inner : Result) :
  NumLetters l = Some n -> 0 <= n -> 1 + n < 25 ->
  exists r, BlockBefore_build l inner = Some r.
Proof.
  intros Hn H0 H25. unfold BlockBefore_build. cbn [NumLetters]. rewrite Hn. cbn [bind].
  destruct (isImpossible (value l inner)).
  - rewrite newImpossible_ok by lia. eauto.
  - destruct inner; eauto.
Qed.

Lemma BlockAfter_build_total (l : PossibleLines) (n : Z) (inner : Result) :
  NumLetters l = Some n -> 0 <= n -> 1 + n < 25 ->
  exists r, BlockAfter_build l inner = Some r.
Proof.
  intros Hn H0 H25. unfold BlockAfter_build. cbn [NumLetters]. rewrite Hn. cbn [bind].
  destruct (isImpossible (value l inner)).
  - rewrite newImpossible_ok by lia. eauto.
  - destruct inner; eauto.
Qed.

Lemma BlockBetween_build_total (f s : PossibleLines) (nf ns : Z) (rf rs : Result) :
  NumLetters f = Some nf -> NumLetters s = Some ns ->
  0 <= nf -> 0 <= ns -> 1 + nf + ns < 25 ->
  exists r, BlockBetween_build f s rf rs = Some r.
Proof.
  intros Hnf Hns H0 H0' H25. unfold BlockBetween_build. cbn [NumLetters].
  rewrite Hnf, Hns. cbn [bind].
  destruct (isImpossible (value f rf) || isImpossible (value s rs)).
  - rewrite newImpossible_ok by lia. eauto.
  - destruct (negb (isNew rf) && negb (isNew rs)); eauto.
Qed.

Lemma Zeqb_false_neq (a b : Z) : (a =? b) = false -> a <> b.
Proof. apply Z.eqb_neq. Qed.

Lemma Filter_children_sound (ch : rune) (i n : Z) (ps : list PossibleLines) (fs : list Result) :
  Forall (child n) ps ->
  mapM (fun q => Filter q ch i) ps = Some fs ->
  Forall (child n) (fst (Compound_Filter_loop [] (combine ps fs) [] false)).
Proof.
  intros Hall Hfs.
  apply Filter_loop_Forall; [constructor | constructor |].
  apply (Forall_child_sound n (fun q => Filter q ch i)); [|exact Hfs].
  revert Hall. apply Forall_impl. intros q (H1 & H2 & H3 & H4).
  refine (conj H1 (conj H2 (conj H3 (conj H4 _)))). intros r Hr.
  apply (Filter_sound ch q H1 n i r H4 Hr).
Qed.

Lemma Filter_total (ch : rune) (p : PossibleLines) :
  wellFormed p = true ->
  forall n i, NumLetters p = Some n -> 0 <= i < n -> exists r, Filter p ch i = Some r.
Proof.
  revert p. wf_induction.
  - intros n _ _ m i _ _. cbn [Filter]. eauto.
  - intros w ws oi masks Hwf Hlen H25 Hall _ m i Hm Hi.
    cbn [NumLetters] in Hm. apply Some_inj in Hm. subst m.
    cbn [Filter NumLetters].
    destruct (ch =? kBlocked); [rewrite newImpossible_ok by lia; eauto|].
    assert (Hbytes : Forall (fun x => exists c, byteAt x i = Some c) (w :: ws)).
    { revert Hall. apply Forall_impl. intros x [Hx _]. apply byteAt_Some. lia. }
    assert (Hany : exists a,
               (if 0 <? MaxPossibilities (Words (w :: ws) oi masks)
                then ContainsFunc (fun word => c <- byteAt word i ;; Some (negb (c =? ch)))
                                  (w :: ws)
                else Some true) = Some a).
    { destruct (0 <? _); [|eauto]. apply ContainsFunc_total.
      revert Hbytes. apply Forall_impl. intros x (c & ->). cbn [bind]. eauto. }
    destruct Hany as (a & ->). cbn [bind].
    destruct (negb a); [eauto|].
    destruct (keepWords_total (fun word => c <- byteAt word i ;; Some (c =? ch)) oi (w :: ws))
      with (idx := 0) as (fl & k & ->).
    { revert Hbytes. apply Forall_impl. intros x (c & ->). cbn [bind]. eauto. }
    cbn [bind].
    destruct (MakeWords_total fl k (len w)) as (q & ->); [unfold len in *; lia|].
    cbn [bind]. eauto.
  - intros l n _ _ _ Hn H0 H25 IH m i Hm Hi.
    cbn [NumLetters] in Hm. rewrite Hn in Hm. apply Some_inj in Hm. subst m.
    cbn [Filter NumLetters]. rewrite Hn. cbn [bind].
    destruct (i =? 0) eqn:Hi0.
    + destruct (ch =? kBlocked); [eauto | rewrite newImpossible_ok by lia; eauto].
    + apply Zeqb_false_neq in Hi0.
      destruct (IH n (i - 1) Hn) as (inner & ->); [lia|]. cbn [bind].
      apply (BlockBefore_build_total l n); auto.
  - intros l n _ _ _ Hn H0 H25 IH m i Hm Hi.
    cbn [NumLetters] in Hm. rewrite Hn in Hm. apply Some_inj in Hm. subst m.
    cbn [Filter NumLetters]. rewrite Hn. cbn [bind].
    destruct (i =? n) eqn:Hin.
    + destruct (ch =? kBlocked); [eauto | rewrite newImpossible_ok by lia; eauto].
    + apply Zeqb_false_neq in Hin.
      destruct (IH n i Hn) as (inner & ->); [lia|]. cbn [bind].
      apply (BlockAfter_build_total l n); auto.
  - intros f s nf ns _ _ _ _ _ Hnf Hns H0 H0' H25 IHf IHs m i Hm Hi.
    cbn [NumLetters] in Hm. rewrite Hnf, Hns in Hm. apply Some_inj in Hm. subst m.
    cbn [Filter NumLetters]. rewrite Hnf, Hns. cbn [bind].
    destruct (i =? nf) eqn:Hin.
    + destruct (ch =? kBlocked); [eauto | rewrite newImpossible_ok by lia; eauto].
    + apply Zeqb_false_neq in Hin. destruct (i <? nf) eqn:Hlt.
      * apply Z.ltb_lt in Hlt.
        destruct (IHf nf i Hnf) as (r & ->); [lia|]. cbn [bind].
        apply (BlockBetween_build_total f s nf ns); auto.
      * apply Z.ltb_ge in Hlt.
        destruct (IHs ns (i - nf - 1) Hns) as (r & ->); [lia|]. cbn [bind].
        apply (BlockBetween_build_total f s nf ns); auto.
  - intros ps n Hwf Hlen Hn Hall m i Hm Hi.
    assert (Hnode : m = n).
    { destruct ps as [|q ps]; [cbn in Hlen; lia|]. cbn [NumLetters] in Hm.
      apply Forall_inv in Hall as (_ & _ & _ & Hq & _). congruence. }
    subst m. cbn [Filter].
    destruct (mapM_total (fun q => Filter q ch i) ps) as (fs & Hfs).
    { revert Hall. apply Forall_impl. intros q (_ & _ & _ & Hq & IH). apply (IH n i Hq Hi). }
    rewrite Hfs. cbn [bind].
    assert (Hfl : Forall (child n) (fst (Compound_Filter_loop [] (combine ps fs) [] false))).
    { apply (Filter_children_sound ch i n ps fs); [|exact Hfs].
      revert Hall. apply Forall_impl. intros q (H1 & H2 & H3 & H4 & _). repeat split; auto. }
    destruct (Compound_Filter_loop [] (combine ps fs) [] false) as [filtered any].
    cbn [fst] in Hfl. destruct (negb any); [eauto|].
    rewrite Hm. cbn [bind].
    destruct (MakeCompound_total filtered n Hfl Hn) as (q & ->). cbn [bind]. eauto.
  - intros d _ H25 m i Hm Hi. cbn [NumLetters] in Hm. apply Some_inj in Hm. subst m.
    cbn [Filter NumLetters]. destruct (index_Some _ _ Hi) as (c & ->). cbn [bind].
    destruct (ch =? c); [eauto|].
    rewrite newImpossible_ok; [eauto|]. pose proof (slen_nonneg (ConcreteLine.Line d)). lia.
Qed.

(** *** The lines that [Filter] keeps *)
Lemma filter_map_comm {A B : Type} (f : B -> bool) (g : A -> B) (l : list A) :
  filter f (map g l) = map g (filter (fun x => f (g x)) l).
Proof.
  induction l as [|x l IH]; cbn [map filter]; [reflexivity|].
  destruct (f (g x)); cbn [map]; congruence.
Qed.

Lemma filter_all {A : Type} (f : A -> bool) (l : list A) :
  (forall x, In x l -> f x = true) -> filter f l = l.
Proof.
  induction l as [|x l IH]; intros H; cbn [filter]; [reflexivity|].
  rewrite (H x (or_introl eq_refl)). f_equal. apply IH. intros y Hy. apply H. right. exact Hy.
Qed.

Lemma filter_none {A : Type} (f : A -> bool) (l : list A) :
  (forall x, In x l -> f x = false) -> filter f l = [].
Proof.
  induction l as [|x l IH]; intros H; cbn [filter]; [reflexivity|].
  rewrite (H x (or_introl eq_refl)). apply IH. intros y Hy. apply H. right. exact Hy.
Qed.

Lemma filter_flat_map {A B : Type} (f : B -> bool) (g : A -> list B) (l : list A) :
  filter f (flat_map g l) = flat_map (fun x => filter f (g x)) l.
Proof.
  induction l as [|x l IH]; cbn [flat_map]; [reflexivity|].
  rewrite filter_app, IH. reflexivity.
Qed.

Lemma flat_map_ext_in {A B : Type} (g h : A -> list B) (l : list A) :
  (forall x, In x l -> g x = h x) -> flat_map g l = flat_map h l.
Proof.
  induction l as [|x l IH]; intros H; cbn [flat_map]; [reflexivity|].
  rewrite (H x (or_introl eq_refl)). f_equal. apply IH. intros y Hy. apply H. right. exact Hy.
Qed.

Lemma flat_map_nil {A B : Type} (l : list A) : flat_map (fun _ : A => @nil B) l = [].
Proof. induction l; cbn [flat_map app]; auto. Qed.

Lemma isLetter_not_blocked (c : rune) : isLetter c = true -> (c =? kBlocked) = false.
Proof.
  unfold isLetter, kBlocked. intros H. apply andb_true_iff in H as [H _].
  apply Z.leb_le in H. apply Z.eqb_neq. lia.
Qed.

Lemma cellIs_wordLine (ch : rune) (i : Z) (x : string) :
  cellIs ch i (wordLine x) =
  kept (fun word => c <- byteAt word i ;; Some (c =? ch)) x.
Proof.
  unfold cellIs, cell, kept, wordLine. cbn [ConcreteLine.Line]. rewrite index_runes.
  destruct (byteAt x i) as [c|]; cbn [bind]; [|reflexivity].
  destruct (c =? ch); reflexivity.
Qed.

Lemma words_never_blocked (n i : Z) (ws : list string) :
  wordsOf n ws -> filter (cellIs kBlocked i) (map wordLine ws) = [].
Proof.
  intros Hall. apply filter_none. intros l Hl.
  apply in_map_iff in Hl as (x & <- & Hx).
  unfold wordsOf in Hall. rewrite Forall_forall in Hall. destruct (Hall x Hx) as [_ Hc].
  unfold cellIs, cell, wordLine. cbn [ConcreteLine.Line].
  destruct (index (runes x) i) as [c|] eqn:Hi; [|reflexivity].
  apply index_In in Hi. rewrite forallb_forall in Hc.
  apply isLetter_not_blocked. auto.
Qed.

Lemma Iterate_MakeWords (fl : list string) (k n : Z) (q : PossibleLines) :
  MakeWords fl k n = Some q -> Iterate q = map wordLine fl.
Proof.
  destruct fl as [|x [|y fl]]; cbn [MakeWords]; intros H.
  - apply MakeImpossible_Some in H as [-> _]. reflexivity.
  - apply Some_inj in H. subst q. reflexivity.
  - apply Some_inj in H. subst q. reflexivity.
Qed.

Lemma cellIs_blockBefore_0 (ch : rune) (l : ConcreteLine) :
  cellIs ch 0 (blockBefore l) = (kBlocked =? ch).
Proof. reflexivity. Qed.

Lemma cellIs_blockBefore (ch : rune) (i : Z) (l : ConcreteLine) :
  i <> 0 -> cellIs ch i (blockBefore l) = cellIs ch (i - 1) l.
Proof.
  intros Hi. unfold cellIs, cell, blockBefore. cbn [ConcreteLine.Line].
  destruct (Z.lt_ge_cases 0 i) as [Hpos|Hneg].
  - rewrite index_cons by assumption. reflexivity.
  - rewrite !index_out by (left; lia). reflexivity.
Qed.

Lemma cellIs_blockAfter_end (ch : rune) (l : ConcreteLine) :
  cellIs ch (slen (ConcreteLine.Line l)) (blockAfter l) = (kBlocked =? ch).
Proof.
  unfold cellIs, cell, blockAfter. cbn [ConcreteLine.Line].
  rewrite index_app_r by lia. rewrite Z.sub_diag. reflexivity.
Qed.

Lemma cellIs_blockAfter (ch : rune) (i : Z) (l : ConcreteLine) :
  i <> slen (ConcreteLine.Line l) -> cellIs ch i (blockAfter l) = cellIs ch i l.
Proof.
  intros Hi. unfold cellIs, cell, blockAfter. cbn [ConcreteLine.Line].
  destruct (Z.lt_ge_cases i (slen (ConcreteLine.Line l))) as [Hlt|Hge].
  - rewrite index_app_l by assumption. reflexivity.
  - rewrite !index_out; [reflexivity | right; lia |].
    right. rewrite slen_app, slen_cons, slen_nil. lia.
Qed.

Lemma cellIs_blockBetween_mid (ch : rune) (f s : ConcreteLine) :
  cellIs ch (slen (ConcreteLine.Line f)) (blockBetween f s) = (kBlocked =? ch).
Proof.
  unfold cellIs, cell, blockBetween. cbn [ConcreteLine.Line].
  rewrite index_app_l by (rewrite slen_app, slen_cons, slen_nil; lia).
  rewrite index_app_r by lia. rewrite Z.sub_diag. reflexivity.
Qed.

Lemma cellIs_blockBetween_first (ch : rune) (i : Z) (f s : ConcreteLine) :
  i < slen (ConcreteLine.Line f) -> cellIs ch i (blockBetween f s) = cellIs ch i f.
Proof.
  intros Hi. unfold cellIs, cell, blockBetween. cbn [ConcreteLine.Line].
  rewrite index_app_l by (rewrite slen_app, slen_cons, slen_nil; lia).
  rewrite index_app_l by assumption. reflexivity.
Qed.

Lemma cellIs_blockBetween_second (ch : rune) (i : Z) (f s : ConcreteLine) :
  slen (ConcreteLine.Line f) < i ->
  cellIs ch i (blockBetween f s) = cellIs ch (i - slen (ConcreteLine.Line f) - 1) s.
Proof.
  intros Hi. unfold cellIs, cell, blockBetween. cbn [ConcreteLine.Line].
  rewrite index_app_r by (rewrite slen_app, slen_cons, slen_nil; lia).
  rewrite slen_app, slen_cons, slen_nil.
  replace (i - (slen (ConcreteLine.Line f) + (1 + 0)))
    with (i - slen (ConcreteLine.Line f) - 1) by lia.
  reflexivity.
Qed.

(** The lines of the values that [build] returns. *)
Lemma Iterate_BlockBefore_build (l : PossibleLines) (inner r : Result) :
  BlockBefore_build l inner = Some r ->
  Iterate (value (BlockBefore l) r) = map blockBefore (Iterate (value l inner)).
Proof.
  unfold BlockBefore_build. destruct (isImpossible (value l inner)) eqn:Hi; intros H.
  - apply newImpossible_Some in H as (n & _ & -> & _).
    rewrite (isImpossible_Iterate _ Hi). reflexivity.
  - destruct inner; apply Some_inj in H; subst r; reflexivity.
Qed.

Lemma Iterate_BlockAfter_build (l : PossibleLines) (inner r : Result) :
  BlockAfter_build l inner = Some r ->
  Iterate (value (BlockAfter l) r) = map blockAfter (Iterate (value l inner)).
Proof.
  unfold BlockAfter_build. destruct (isImpossible (value l inner)) eqn:Hi; intros H.
  - apply newImpossible_Some in H as (n & _ & -> & _).
    rewrite (isImpossible_Iterate _ Hi). reflexivity.
  - destruct inner; apply Some_inj in H; subst r; reflexivity.
Qed.

Lemma product_nil_r (fs : list ConcreteLine) : product fs [] = [].
Proof. unfold product. cbn [map]. apply flat_map_nil. Qed.

Lemma Iterate_BlockBetween_build (f s : PossibleLines) (rf rs r : Result) :
  BlockBetween_build f s rf rs = Some r ->
  Iterate (value (BlockBetween f s) r)
  = product (Iterate (value f rf)) (Iterate (value s rs)).
Proof.
  unfold BlockBetween_build.
  destruct (isImpossible (value f rf)) eqn:Hf; cbn [orb]; intros H.
  - apply newImpossible_Some in H as (n & _ & -> & _).
    rewrite (isImpossible_Iterate _ Hf). reflexivity.
  - destruct (isImpossible (value s rs)) eqn:Hs.
    + apply newImpossible_Some in H as (n & _ & -> & _).
      rewrite (isImpossible_Iterate _ Hs), product_nil_r. reflexivity.
    + destruct rf, rs; cbn [isNew negb andb] in H; apply Some_inj in H; subst r; reflexivity.
Qed.

Lemma filter_product_first (P P1 : ConcreteLine -> bool) (fs ss : list ConcreteLine) :
  (forall x y, In x fs -> In y ss -> P (blockBetween x y) = P1 x) ->
  filter P (product fs ss) = product (filter P1 fs) ss.
Proof.
  intros H. unfold product. induction fs as [|x fs IH]; cbn [flat_map filter]; [reflexivity|].
  rewrite filter_app, IH by (intros; apply H; [right|]; assumption).
  rewrite filter_map_comm.
  destruct (P1 x) eqn:Hx; cbn [flat_map].
  - f_equal. f_equal. apply filter_all. intros y Hy. rewrite H; auto. left. reflexivity.
  - replace (filter (fun y => P (blockBetween x y)) ss) with (@nil ConcreteLine); [reflexivity|].
    symmetry. apply filter_none. intros y Hy. rewrite H; auto. left. reflexivity.
Qed.

Lemma filter_product_second (P P2 : ConcreteLine -> bool) (fs ss : list ConcreteLine) :
  (forall x y, In x fs -> In y ss -> P (blockBetween x y) = P2 y) ->
  filter P (product fs ss) = product fs (filter P2 ss).
Proof.
  intros H. unfold product. rewrite filter_flat_map. apply flat_map_ext_in. intros x Hx.
  rewrite !filter_map_comm. f_equal. apply filter_ext_in. intros y Hy. apply H; assumption.
Qed.

Lemma Filter_Iterate (ch : rune) (p : PossibleLines) :
  wellFormed p = true ->
  forall n i r, NumLetters p = Some n -> Filter p ch i = Some r ->
  Iterate (value p r) = filter (cellIs ch i) (Iterate p).
Proof.
  revert p. wf_induction.
  - intros n _ _ m i r _ H. apply Some_inj in H. subst r. reflexivity.
  - intros w ws oi masks Hwf _ H25 Hall _ m i r Hm H.
    cbn [Filter] in H. cbn [Iterate].
    destruct (ch =? kBlocked) eqn:Hch.
    { apply Z.eqb_eq in Hch. subst ch.
      apply newImpossible_Some in H as (k & _ & -> & _).
      rewrite (words_never_blocked _ _ _ Hall). reflexivity. }
    bind_inv H. destruct a; cbn [negb] in H.
    + bind_inv H. destruct a as [fl k]. bind_inv H. bind_inv H.
      apply Some_inj in H. subst r. cbn [value].
      rewrite (Iterate_MakeWords _ _ _ _ Ha2).
      apply keepWords_Some in Ha0. subst fl.
      rewrite filter_map_comm. f_equal. apply filter_ext. intros x.
      symmetry. apply cellIs_wordLine.
    + apply Some_inj in H. subst r. cbn [value Iterate].
      destruct (0 <? MaxPossibilities (Words (w :: ws) oi masks)); [|discriminate].
      apply ContainsFunc_false in Ha. rewrite Forall_forall in Ha.
      symmetry. apply filter_all. intros l Hl.
      apply in_map_iff in Hl as (x & <- & Hx). specialize (Ha x Hx).
      rewrite cellIs_wordLine. unfold kept.
      destruct (byteAt x i) as [c|]; cbn [bind] in *; [|discriminate].
      apply Some_inj in Ha. apply negb_false_iff in Ha. rewrite Ha. reflexivity.
  - intros l n Hwf Hwl _ Hn H0 H25 IH m i r Hm H.
    cbn [Filter] in H. cbn [Iterate].
    destruct (i =? 0) eqn:Hi0.
    + apply Z.eqb_eq in Hi0. subst i.
      destruct (ch =? kBlocked) eqn:Hch.
      * apply Some_inj in H. subst r. cbn [value Iterate].
        symmetry. apply filter_all. intros x Hx.
        apply in_map_iff in Hx as (y & <- & _). rewrite cellIs_blockBefore_0.
        rewrite Z.eqb_sym. exact Hch.
      * apply newImpossible_Some in H as (k & _ & -> & _). cbn [value Iterate].
        symmetry. apply filter_none. intros x Hx.
        apply in_map_iff in Hx as (y & <- & _). rewrite cellIs_blockBefore_0.
        rewrite Z.eqb_sym. exact Hch.
    + apply Zeqb_false_neq in Hi0. bind_inv H.
      rewrite (Iterate_BlockBefore_build _ _ _ H), (IH _ _ _ Hn Ha).
      rewrite filter_map_comm. f_equal. apply filter_ext. intros x.
      symmetry. apply cellIs_blockBefore. exact Hi0.
  - intros l n Hwf Hwl _ Hn H0 H25 IH m i r Hm H.
    cbn [Filter] in H. rewrite Hn in H. cbn [bind] in H. cbn [Iterate].
    pose proof (Iterate_length l Hwl n Hn) as Hlen.
    destruct (i =? n) eqn:Hin.
    + apply Z.eqb_eq in Hin. subst i.
      destruct (ch =? kBlocked) eqn:Hch.
      * apply Some_inj in H. subst r. cbn [value Iterate].
        symmetry. apply filter_all. intros x Hx.
        apply in_map_iff in Hx as (y & <- & Hy). rewrite <- (Hlen y Hy).
        rewrite cellIs_blockAfter_end, Z.eqb_sym. exact Hch.
      * apply newImpossible_Some in H as (k & _ & -> & _). cbn [value Iterate].
        symmetry. apply filter_none. intros x Hx.
        apply in_map_iff in Hx as (y & <- & Hy). rewrite <- (Hlen y Hy).
        rewrite cellIs_blockAfter_end, Z.eqb_sym. exact Hch.
    + apply Zeqb_false_neq in Hin. bind_inv H.
      rewrite (Iterate_BlockAfter_build _ _ _ H), (IH _ _ _ Hn Ha).
      rewrite filter_map_comm. f_equal. apply filter_ext_in. intros x Hx.
      symmetry. apply cellIs_blockAfter. rewrite (Hlen x Hx). exact Hin.
  - intros f s nf ns Hwf Hwf1 Hwf2 _ _ Hnf Hns H0 H0' H25 IHf IHs m i r Hm H.
    cbn [Filter] in H. rewrite Hnf in H. cbn [bind] in H. cbn [Iterate].
    fold (product (Iterate f) (Iterate s)).
    pose proof (Iterate_length f Hwf1 nf Hnf) as Hlen.
    destruct (i =? nf) eqn:Hin.
    + apply Z.eqb_eq in Hin. subst i.
      destruct (ch =? kBlocked) eqn:Hch.
      * apply Some_inj in H. subst r. cbn [value Iterate].
        fold (product (Iterate f) (Iterate s)).
        symmetry. apply filter_all. intros x Hx.
        apply in_flat_map in Hx as (y & Hy & Hx). apply in_map_iff in Hx as (z & <- & Hz).
        rewrite <- (Hlen y Hy). rewrite cellIs_blockBetween_mid, Z.eqb_sym. exact Hch.
      * apply newImpossible_Some in H as (k & _ & -> & _). cbn [value Iterate].
        symmetry. apply filter_none. intros x Hx.
        apply in_flat_map in Hx as (y & Hy & Hx). apply in_map_iff in Hx as (z & <- & Hz).
        rewrite <- (Hlen y Hy). rewrite cellIs_blockBetween_mid, Z.eqb_sym. exact Hch.
    + apply Zeqb_false_neq in Hin. destruct (i <? nf) eqn:Hlt; bind_inv H.
      * apply Z.ltb_lt in Hlt.
        rewrite (Iterate_BlockBetween_build _ _ _ _ _ H), (IHf _ _ _ Hnf Ha). cbn [value].
        symmetry. apply filter_product_first. intros x y Hx Hy.
        apply cellIs_blockBetween_first. rewrite (Hlen x Hx). exact Hlt.
      * apply Z.ltb_ge in Hlt.
        rewrite (Iterate_BlockBetween_build _ _ _ _ _ H), (IHs _ _ _ Hns Ha). cbn [value].
        symmetry. apply filter_product_second. intros x y Hx Hy.
        rewrite cellIs_blockBetween_second by (rewrite (Hlen x Hx); lia).
        rewrite (Hlen x Hx). reflexivity.
  - intros ps n Hwf Hlen Hn Hall m i r Hm H.
    cbn [Filter] in H. bind_inv H. cbn [Iterate]. rewrite filter_flat_map.
    pose proof (mapM_Some _ _ _ Ha) as Hfs.
    assert (Hvals : flat_map (fun pf => Iterate (valueOf pf)) (combine ps a)
                    = flat_map (fun q => filter (cellIs ch i) (Iterate q)) ps).
    { clear - Hall Hfs. induction Hfs as [|q f ps fs Hq _ IH]; [reflexivity|].
      cbn [combine flat_map]. unfold valueOf at 1. cbn [fst snd].
      pose proof (Forall_inv Hall) as (_ & _ & _ & Hnq & IHq).
      rewrite (IHq _ _ _ Hnq Hq). f_equal. apply IH. apply (Forall_inv_tail Hall). }
    destruct (Compound_Filter_loop [] (combine ps a) [] false) as [filtered any] eqn:Hloop.
    destruct any; cbn [negb] in H.
    + bind_inv H. bind_inv H. apply Some_inj in H. subst r. cbn [value].
      rewrite (Iterate_MakeCompound _ _ _ Ha1).
      change filtered with (fst (filtered, true)). rewrite <- Hloop.
      rewrite Filter_loop_Iterate; [exact Hvals | rewrite Hloop; reflexivity | reflexivity].
    + apply Some_inj in H. subst r. cbn [value Iterate]. rewrite <- Hvals.
      assert (Hsame : Forall (fun pf => snd pf = Same) (combine ps a)).
      { apply (Filter_loop_unchanged (combine ps a) [] [] false). rewrite Hloop. reflexivity. }
      clear - Hsame Hfs. induction Hfs as [|q f ps fs _ _ IH]; [reflexivity|].
      cbn [combine flat_map]. unfold valueOf at 1. cbn [fst snd].
      pose proof (Forall_inv Hsame) as Hf. cbn [snd] in Hf. subst f. cbn [value].
      f_equal. apply IH. apply (Forall_inv_tail Hsame).
  - intros d Hwf H25 m i r Hm H. cbn [Filter] in H. bind_inv H. cbn [Iterate filter].
    unfold cellIs, cell. rewrite Ha. rewrite Z.eqb_sym.
    destruct (ch =? a).
    + apply Some_inj in H. subst r. reflexivity.
    + apply newImpossible_Some in H as (k & _ & -> & _). reflexivity.
Qed.

(** *** [FilterAny] *)
Lemma FilterAny_loop_Forall (P : PossibleLines -> Prop) (todo : list (PossibleLines * Result)) :
  (forall q, P q -> isCompound q = false) ->
  forall seen filtered any,
    Forall P seen -> Forall P filtered ->
    Forall (fun pf => P (fst pf) /\ (isImpossible (valueOf pf) = false -> P (valueOf pf))) todo ->
    Forall P (fst (Compound_FilterAny_loop seen todo filtered any)).
Proof.
  intros Hplain.
  induction todo as [|[p f] todo IH]; intros seen filtered any Hs Hf Ht;
    cbn [Compound_FilterAny_loop]; [assumption|].
  apply Forall_cons_iff in Ht as [[Hp Hv] Ht]. cbn [fst snd] in Hp.
  unfold valueOf in Hv. cbn [fst snd] in Hv.
  assert (Hsp : Forall P (seen ++ [p])) by (apply Forall_app; auto).
  destruct (isImpossible (value p f)) eqn:Hi.
  - destruct (negb any && isNew f); apply IH; auto; apply Forall_app; auto.
  - specialize (Hv eq_refl). pose proof (Hplain _ Hv) as Hnc.
    destruct (negb any && isNew f); [cbn [negb] | destruct any; cbn [negb]];
      try (apply IH; auto; fail);
      (destruct (value p f) eqn:Hval; try discriminate Hnc;
       apply IH; auto; repeat (apply Forall_app; split); auto).
Qed.

Lemma child_not_Compound (n : Z) (q : PossibleLines) : child n q -> isCompound q = false.
Proof. intros (_ & _ & H & _). exact H. Qed.

Lemma FilterAny_sound (cs : CharSet) (p : PossibleLines) :
  wellFormed p = true ->
  forall n i r, NumLetters p = Some n -> FilterAny p cs i = Some r -> sound n p r.
Proof.
  revert p. wf_induction.
  - intros n Hwf _ m i r Hm H. apply Some_inj in H. subst r. apply sound_Same; auto.
  - intros w ws oi masks Hwf _ H25 Hall _ m i r Hm H.
    cbn [FilterAny] in H.
    destruct (skipsFilter cs).
    { apply Some_inj in H. subst r. apply sound_Same; auto. }
    bind_inv H. destruct a.
    { apply Some_inj in H. subst r. apply sound_Same; auto. }
    bind_inv H. destruct (negb a).
    { apply Some_inj in H. subst r. apply sound_Same; auto. }
    bind_inv H. destruct a0 as [fl k]. bind_inv H. bind_inv H.
    apply Some_inj in H. subst r.
    rewrite Hm in Ha2. apply Some_inj in Ha2. subst a0.
    cbn [NumLetters] in Hm. apply Some_inj in Hm. subst m.
    apply keepWords_Some in Ha1. subst fl.
    apply MakeWords_sound in Ha3; [|apply wordsOf_filter; exact Hall | exact H25].
    destruct Ha3 as (H1 & H2 & H3). repeat split; auto.
  - intros l n Hwf Hwl _ Hn H0 H25 IH m i r Hm H.
    assert (Hnode : m = 1 + n)
      by (cbn [NumLetters] in Hm; rewrite Hn in Hm; apply Some_inj in Hm; auto).
    subst m. cbn [FilterAny] in H.
    destruct (IsFull cs).
    { apply Some_inj in H. subst r. apply sound_Same; auto. }
    destruct (i =? 0).
    + destruct (CharSetGo.Contains cs kBlocked).
      * apply Some_inj in H. subst r. apply sound_Same; auto.
      * apply (newImpossible_sound _ _ _ Hm H).
    + bind_inv H. destruct (IH _ _ _ Hn Ha) as (H1 & H2 & _).
      apply (BlockBefore_build_sound l n a r); auto.
  - intros l n Hwf Hwl _ Hn H0 H25 IH m i r Hm H.
    assert (Hnode : m = 1 + n)
      by (cbn [NumLetters] in Hm; rewrite Hn in Hm; apply Some_inj in Hm; auto).
    subst m. cbn [FilterAny] in H.
    destruct (IsFull cs).
    { apply Some_inj in H. subst r. apply sound_Same; auto. }
    rewrite Hn in H. cbn [bind] in H.
    destruct (i =? n).
    + destruct (CharSetGo.Contains cs kBlocked).
      * apply Some_inj in H. subst r. apply sound_Same; auto.
      * apply (newImpossible_sound _ _ _ Hm H).
    + bind_inv H. destruct (IH _ _ _ Hn Ha) as (H1 & H2 & _).
      apply (BlockAfter_build_sound l n a r); auto.
  - intros f s nf ns Hwf Hwf1 Hwf2 _ _ Hnf Hns H0 H0' H25 IHf IHs m i r Hm H.
    assert (Hnode : m = 1 + nf + ns)
      by (cbn [NumLetters] in Hm; rewrite Hnf, Hns in Hm; apply Some_inj in Hm; auto).
    subst m. cbn [FilterAny] in H.
    destruct (IsFull cs).
    { apply Some_inj in H. subst r. apply sound_Same; auto. }
    rewrite Hnf in H. cbn [bind] in H.
    destruct (i =? nf).
    + destruct (CharSetGo.Contains cs kBlocked).
      * apply Some_inj in H. subst r. apply sound_Same; auto.
      * apply (newImpossible_sound _ _ _ Hm H).
    + destruct (i <? nf); bind_inv H.
      * destruct (IHf _ _ _ Hnf Ha) as (H1 & H2 & _).
        apply (BlockBetween_build_sound f s nf ns a Same r); auto.
      * destruct (IHs _ _ _ Hns Ha) as (H1 & H2 & _).
        apply (BlockBetween_build_sound f s nf ns Same a r); auto.
  - intros ps n Hwf Hlen Hn Hall m i r Hm H.
    assert (Hnode : m = n).
    { destruct ps as [|q ps]; [cbn in Hlen; lia|]. cbn [NumLetters] in Hm.
      apply Forall_inv in Hall as (_ & _ & _ & Hq & _). congruence. }
    subst m. cbn [FilterAny] in H.
    destruct (IsFull cs).
    { apply Some_inj in H. subst r. apply sound_Same; auto. }
    bind_inv H.
    destruct (Compound_FilterAny_loop [] (combine ps a) [] false) as [filtered any] eqn:Hloop.
    destruct (negb any).
    { apply Some_inj in H. subst r. apply sound_Same; auto. }
    assert (Hfl : Forall (child n) filtered).
    { change filtered with (fst (filtered, any)). rewrite <- Hloop.
      apply FilterAny_loop_Forall;
        [apply child_not_Compound | constructor | constructor |].
      apply (Forall_child_sound n (fun q => FilterAny q cs i)); [|exact Ha].
      revert Hall. apply Forall_impl. intros q (H1 & H2 & H3 & H4 & H5).
      refine (conj H1 (conj H2 (conj H3 (conj H4 _)))). intros r' Hr. eapply H5; eauto. }
    destruct filtered as [|q [|q' filtered]].
    + apply (newImpossible_sound _ _ _ Hm H).
    + apply Some_inj in H. subst r. apply Forall_inv in Hfl as (H1 & _ & _ & H4).
      repeat split; auto. discriminate.
    + bind_inv H. bind_inv H. apply Some_inj in H. subst r.
      rewrite Hm in Ha0. apply Some_inj in Ha0. subst a0.
      destruct (MakeCompound_sound _ _ _ Hfl Hn Ha1) as (H1 & H2 & _).
      repeat split; auto. discriminate.
  - intros d Hwf H25 m i r Hm H. cbn [FilterAny] in H.
    destruct (IsFull cs).
    { apply Some_inj in H. subst r. apply sound_Same; auto. }
    bind_inv H. destruct (CharSetGo.Contains cs a).
    + apply Some_inj in H. subst r. apply sound_Same; auto.
    + apply (newImpossible_sound _ _ _ Hm H).
Qed.

Lemma FilterAny_children_sound (cs : CharSet) (i n : Z)
      (ps : list PossibleLines) (fs : list Result) :
  Forall (child n) ps ->
  mapM (fun q => FilterAny q cs i) ps = Some fs ->
  Forall (child n) (fst (Compound_FilterAny_loop [] (combine ps fs) [] false)).
Proof.
  intros Hall Hfs.
  apply FilterAny_loop_Forall; [apply child_not_Compound | constructor | constructor |].
  apply (Forall_child_sound n (fun q => FilterAny q cs i)); [|exact Hfs].
  revert Hall. apply Forall_impl. intros q (H1 & H2 & H3 & H4).
  refine (conj H1 (conj H2 (conj H3 (conj H4 _)))). intros r Hr.
  apply (FilterAny_sound cs q H1 n i r H4 Hr).
Qed.

Lemma FilterAny_total (cs : CharSet) (p : PossibleLines) :
  wellFormed p = true ->
  forall n i, NumLetters p = Some n -> 0 <= i < n -> exists r, FilterAny p cs i = Some r.
Proof.
  revert p. wf_induction.
  - intros n _ _ m i _ _. cbn [FilterAny]. eauto.
  - intros w ws oi masks Hwf Hlen H25 Hall Hmasks m i Hm Hi.
    cbn [NumLetters] in Hm. apply Some_inj in Hm. subst m.
    cbn [FilterAny NumLetters].
    destruct (skipsFilter cs); [eauto|].
    assert (Hcov : exists a,
               match masks with
               | None => Some false
               | Some ms =>
                   mask <- index ms i ;;
                   if negb (bits mask =? 0) then Some (ContainsAll cs mask) else Some false
               end = Some a).
    { destruct masks as [ms|]; [|eauto].
      destruct (index_Some ms i) as (mask & ->); [rewrite (Hmasks ms eq_refl); exact Hi|].
      cbn [bind]. destruct (negb (bits mask =? 0)); eauto. }
    destruct Hcov as (a & ->). cbn [bind]. destruct a; [eauto|].
    assert (Hbytes : Forall (fun x => exists c, byteAt x i = Some c) (w :: ws)).
    { revert Hall. apply Forall_impl. intros x [Hx _]. apply byteAt_Some. lia. }
    destruct (ContainsFunc_total
                (fun word => c <- byteAt word i ;; Some (negb (CharSetGo.Contains cs c)))
                (w :: ws)) as (a & ->).
    { revert Hbytes. apply Forall_impl. intros x (c & ->). cbn [bind]. eauto. }
    cbn [bind]. destruct (negb a); [eauto|].
    destruct (keepWords_total
                (fun word => c <- byteAt word i ;; Some (CharSetGo.Contains cs c))
                oi (w :: ws)) with (idx := 0) as (fl & k & ->).
    { revert Hbytes. apply Forall_impl. intros x (c & ->). cbn [bind]. eauto. }
    cbn [bind].
    destruct (MakeWords_total fl k (len w)) as (q & ->); [unfold len in *; lia|].
    cbn [bind]. eauto.
  - intros l n _ _ _ Hn H0 H25 IH m i Hm Hi.
    cbn [NumLetters] in Hm. rewrite Hn in Hm. apply Some_inj in Hm. subst m.
    cbn [FilterAny NumLetters]. rewrite Hn. cbn [bind].
    destruct (IsFull cs); [eauto|].
    destruct (i =? 0) eqn:Hi0.
    + destruct (CharSetGo.Contains cs kBlocked); [eauto | rewrite newImpossible_ok by lia; eauto].
    + apply Zeqb_false_neq in Hi0.
      destruct (IH n (i - 1) Hn) as (inner & ->); [lia|]. cbn [bind].
      apply (BlockBefore_build_total l n); auto.
  - intros l n _ _ _ Hn H0 H25 IH m i Hm Hi.
    cbn [NumLetters] in Hm. rewrite Hn in Hm. apply Some_inj in Hm. subst m.
    cbn [FilterAny NumLetters]. rewrite Hn. cbn [bind].
    destruct (IsFull cs); [eauto|].
    destruct (i =? n) eqn:Hin.
    + destruct (CharSetGo.Contains cs kBlocked); [eauto | rewrite newImpossible_ok by lia; eauto].
    + apply Zeqb_false_neq in Hin.
      destruct (IH n i Hn) as (inner & ->); [lia|]. cbn [bind].
      apply (BlockAfter_build_total l n); auto.
  - intros f s nf ns _ _ _ _ _ Hnf Hns H0 H0' H25 IHf IHs m i Hm Hi.
    cbn [NumLetters] in Hm. rewrite Hnf, Hns in Hm. apply Some_inj in Hm. subst m.
    cbn [FilterAny NumLetters]. rewrite Hnf, Hns. cbn [bind].
    destruct (IsFull cs); [eauto|].
    destruct (i =? nf) eqn:Hin.
    + destruct (CharSetGo.Contains cs kBlocked); [eauto | rewrite newImpossible_ok by lia; eauto].
    + apply Zeqb_false_neq in Hin. destruct (i <? nf) eqn:Hlt.
      * apply Z.ltb_lt in Hlt.
        destruct (IHf nf i Hnf) as (r & ->); [lia|]. cbn [bind].
        apply (BlockBetween_build_total f s nf ns); auto.
      * apply Z.ltb_ge in Hlt.
        destruct (IHs ns (i - nf - 1) Hns) as (r & ->); [lia|]. cbn [bind].
        apply (BlockBetween_build_total f s nf ns); auto.
  - intros ps n Hwf Hlen Hn Hall m i Hm Hi.
    assert (Hnode : m = n).
    { destruct ps as [|q ps]; [cbn in Hlen; lia|]. cbn [NumLetters] in Hm.
      apply Forall_inv in Hall as (_ & _ & _ & Hq & _). congruence. }
    subst m. cbn [FilterAny].
    destruct (IsFull cs); [eauto|].
    destruct (mapM_total (fun q => FilterAny q cs i) ps) as (fs & Hfs).
    { revert Hall. apply Forall_impl. intros q (_ & _ & _ & Hq & IH). apply (IH n i Hq Hi). }
    rewrite Hfs. cbn [bind].
    assert (Hfl : Forall (child n) (fst (Compound_FilterAny_loop [] (combine ps fs) [] false))).
    { apply (FilterAny_children_sound cs i n ps fs); [|exact Hfs].
      revert Hall. apply Forall_impl. intros q (H1 & H2 & H3 & H4 & _). repeat split; auto. }
    destruct (Compound_FilterAny_loop [] (combine ps fs) [] false) as [filtered any].
    cbn [fst] in Hfl. destruct (negb any); [eauto|].
    rewrite Hm.
    destruct filtered as [|q [|q' filtered]]; [rewrite newImpossible_ok by lia; eauto | eauto |].
    cbn [bind].
    destruct (MakeCompound_total _ n Hfl Hn) as (q0 & ->). cbn [bind]. eauto.
  - intros d _ H25 m i Hm Hi. cbn [NumLetters] in Hm. apply Some_inj in Hm. subst m.
    cbn [FilterAny NumLetters]. destruct (IsFull cs); [eauto|].
    destruct (index_Some _ _ Hi) as (c & ->). cbn [bind].
    destruct (CharSetGo.Contains cs c); [eauto|].
    rewrite newImpossible_ok; [eauto|]. pose proof (slen_nonneg (ConcreteLine.Line d)). lia.
Qed.

(** *** [RemoveWordOptions] *)
Lemma Contains_In (l : list string) (x : string) : Contains l x = true <-> In x l.
Proof.
  unfold Contains. rewrite existsb_exists. split.
  - intros (y & Hy & He). apply String.eqb_eq in He. subst y. exact Hy.
  - intros Hx. exists x. split; [exact Hx | apply String.eqb_refl].
Qed.

Lemma no_word_to_remove (l words : list string) (n : option Z) (k : Z) :
  n = Some k ->
  (forall x, In x l -> Contains words x = false) ->
  ContainsFunc (fun word => m <- n ;;
                            if negb (len word =? m) then Some false
                            else Some (Contains l word)) words = Some false.
Proof.
  intros -> Hfree. apply ContainsFunc_none. apply Forall_forall. intros word Hword.
  cbn [bind]. destruct (negb (len word =? k)); [reflexivity|].
  destruct (Contains l word) eqn:Hc; [|reflexivity].
  apply Contains_In in Hc. specialize (Hfree word Hc).
  apply Contains_In in Hword. congruence.
Qed.

Lemma Remove_loop_Forall (P : PossibleLines -> Prop) (todo : list (PossibleLines * Result)) :
  forall seen maybeFiltered any,
    (any = false -> Forall P seen) -> Forall P maybeFiltered ->
    Forall (fun pf => (snd pf = Same -> P (fst pf))
                      /\ (isImpossible (valueOf pf) = false -> P (valueOf pf))) todo ->
    Forall P (fst (Compound_Remove_loop seen todo maybeFiltered any)).
Proof.
  induction todo as [|[p f] todo IH]; intros seen mf any Hs Hf Ht;
    cbn [Compound_Remove_loop]; [assumption|].
  apply Forall_cons_iff in Ht as [[Hp Hv] Ht]. cbn [fst snd] in Hp.
  unfold valueOf in Hv. cbn [fst snd] in Hv.
  destruct f as [|q]; cbn [isNew negb andb].
  - destruct any; cbn [negb].
    + destruct (isImpossible (value p Same)); cbn [negb].
      * apply IH; auto. discriminate.
      * apply IH; auto; [discriminate | apply Forall_app; auto].
    + apply IH; auto. intros _. apply Forall_app. auto.
  - destruct any; cbn [negb].
    + destruct (isImpossible (value p (New q))); cbn [negb].
      * apply IH; auto. discriminate.
      * apply IH; auto; [discriminate | apply Forall_app; auto].
    + destruct (isImpossible (value p (New q))); cbn [negb].
      * apply IH; auto. discriminate.
      * apply IH; auto; [discriminate | apply Forall_app; auto].
Qed.

Lemma Remove_loop_unchanged (todo : list (PossibleLines * Result)) :
  forall seen maybeFiltered any,
    snd (Compound_Remove_loop seen todo maybeFiltered any) = false ->
    any = false /\ Forall (fun pf => snd pf = Same) todo.
Proof.
  induction todo as [|[p f] todo IH]; intros seen mf any H;
    cbn [Compound_Remove_loop] in H; [auto|].
  destruct f as [|q]; cbn [isNew negb andb] in H.
  - destruct any; cbn [negb] in H.
    + destruct (isImpossible (value p Same)); apply IH in H as [H _]; discriminate.
    + apply IH in H as [_ H]. auto.
  - destruct any; cbn [negb] in H;
      destruct (isImpossible (value p (New q))); apply IH in H as [H _]; discriminate.
Qed.

Lemma Remove_loop_all_Same (ps : list PossibleLines) :
  forall seen maybeFiltered,
    Compound_Remove_loop seen (combine ps (map (fun _ => Same) ps)) maybeFiltered false
    = (maybeFiltered, false).
Proof.
  induction ps as [|p ps IH]; intros seen mf; cbn [map combine Compound_Remove_loop];
    [reflexivity|].
  cbn [isNew negb andb]. apply IH.
Qed.

Lemma mapM_const {A B : Type} (f : A -> option B) (b : B) (l : list A) :
  Forall (fun x => f x = Some b) l -> mapM f l = Some (map (fun _ => b) l).
Proof.
  induction 1 as [|x l Hx _ IH]; cbn [mapM map]; [reflexivity|].
  rewrite Hx, IH. reflexivity.
Qed.

Lemma Compound_stable (words : list string) (ps : list PossibleLines) :
  Forall (fun q => RemoveWordOptions q words = Some Same) ps ->
  RemoveWordOptions (Compound ps) words = Some Same.
Proof.
  intros Hall. cbn [RemoveWordOptions].
  rewrite (mapM_const _ Same ps Hall). cbn [bind].
  rewrite Remove_loop_all_Same. reflexivity.
Qed.

Lemma MakeWords_stable (words fp : list string) (k n : Z) (q : PossibleLines) :
  (forall x, In x fp -> Contains words x = false) ->
  MakeWords fp k n = Some q ->
  RemoveWordOptions q words = Some Same.
Proof.
  intros Hfree H. destruct fp as [|x [|y fp]]; cbn [MakeWords] in H.
  - apply MakeImpossible_Some in H as [-> _]. reflexivity.
  - apply Some_inj in H. subst q. unfold MakeDefinite. cbn [RemoveWordOptions ConcreteLine.Words].
    erewrite no_word_to_remove; [reflexivity | reflexivity | exact Hfree].
  - apply Some_inj in H. subst q. cbn [RemoveWordOptions].
    erewrite no_word_to_remove; [reflexivity | reflexivity | exact Hfree].
Qed.

Lemma build_stable_Before (words : list string) (i0 : PossibleLines) :
  isImpossible i0 = false -> RemoveWordOptions i0 words = Some Same ->
  RemoveWordOptions (BlockBefore i0) words = Some Same.
Proof.
  intros Hi Hs. cbn [RemoveWordOptions]. rewrite Hs. cbn [bind].
  unfold BlockBefore_build. cbn [value]. rewrite Hi. reflexivity.
Qed.

Lemma build_stable_After (words : list string) (i0 : PossibleLines) :
  isImpossible i0 = false -> RemoveWordOptions i0 words = Some Same ->
  RemoveWordOptions (BlockAfter i0) words = Some Same.
Proof.
  intros Hi Hs. cbn [RemoveWordOptions]. rewrite Hs. cbn [bind].
  unfold BlockAfter_build. cbn [value]. rewrite Hi. reflexivity.
Qed.

Lemma build_stable_Between (words : list string) (f s : PossibleLines) :
  isImpossible f = false -> isImpossible s = false ->
  RemoveWordOptions f words = Some Same -> RemoveWordOptions s words = Some Same ->
  RemoveWordOptions (BlockBetween f s) words = Some Same.
Proof.
  intros Hf Hs Hsf Hss. cbn [RemoveWordOptions]. rewrite Hsf, Hss. cbn [bind].
  unfold BlockBetween_build. cbn [value isNew negb andb]. rewrite Hf, Hs. reflexivity.
Qed.

Lemma BlockBefore_build_stable (words : list string) (l : PossibleLines) (inner r : Result) :
  RemoveWordOptions (BlockBefore l) words = Some r ->
  RemoveWordOptions (value l inner) words = Some Same ->
  BlockBefore_build l inner = Some r ->
  RemoveWordOptions (value (BlockBefore l) r) words = Some Same.
Proof.
  intros Hcall Hs H. unfold BlockBefore_build in H.
  destruct (isImpossible (value l inner)) eqn:Hi.
  - apply newImpossible_Some in H as (n & _ & -> & _). reflexivity.
  - destruct inner as [|i0]; apply Some_inj in H; subst r; [exact Hcall|].
    apply build_stable_Before; assumption.
Qed.

Lemma BlockAfter_build_stable (words : list string) (l : PossibleLines) (inner r : Result) :
  RemoveWordOptions (BlockAfter l) words = Some r ->
  RemoveWordOptions (value l inner) words = Some Same ->
  BlockAfter_build l inner = Some r ->
  RemoveWordOptions (value (BlockAfter l) r) words = Some Same.
Proof.
  intros Hcall Hs H. unfold BlockAfter_build in H.
  destruct (isImpossible (value l inner)) eqn:Hi.
  - apply newImpossible_Some in H as (n & _ & -> & _). reflexivity.
  - destruct inner as [|i0]; apply Some_inj in H; subst r; [exact Hcall|].
    apply build_stable_After; assumption.
Qed.

Lemma BlockBetween_build_stable (words : list string) (f s : PossibleLines)
      (rf rs r : Result) :
  RemoveWordOptions (BlockBetween f s) words = Some r ->
  RemoveWordOptions (value f rf) words = Some Same ->
  RemoveWordOptions (value s rs) words = Some Same ->
  BlockBetween_build f s rf rs = Some r ->
  RemoveWordOptions (value (BlockBetween f s) r) words = Some Same.
Proof.
  intros Hcall Hsf Hss H. unfold BlockBetween_build in H.
  destruct (isImpossible (value f rf) || isImpossible (value s rs)) eqn:Hi.
  - apply newImpossible_Some in H as (n & _ & -> & _). reflexivity.
  - apply orb_false_elim in Hi as [Hi1 Hi2].
    destruct (negb (isNew rf) && negb (isNew rs)); apply Some_inj in H; subst r;
      [exact Hcall|].
    apply build_stable_Between; assumption.
Qed.

(** A result of [RemoveWordOptions] is well formed, of the same length,
    and is returned as it is by a second call with the same words. *)
Lemma RemoveWordOptions_sound (words : list string) (p : PossibleLines) :
  wellFormed p = true ->
  forall n r, NumLetters p = Some n -> RemoveWordOptions p words = Some r ->
  sound n p r /\ RemoveWordOptions (value p r) words = Some Same.
Proof.
  revert p. wf_induction.
  - intros n Hwf _ m r Hm H. apply Some_inj in H. subst r.
    split; [apply sound_Same; auto | reflexivity].
  - intros w ws oi masks Hwf _ H25 Hall _ m r Hm H.
    pose proof H as Hcall. cbn [RemoveWordOptions] in H.
    bind_inv H. destruct (negb a).
    { apply Some_inj in H. subst r. split; [apply sound_Same; auto | exact Hcall]. }
    bind_inv H. destruct a0 as [fp k]. bind_inv H. bind_inv H.
    apply Some_inj in H. subst r.
    rewrite Hm in Ha1. apply Some_inj in Ha1. subst a0.
    cbn [NumLetters] in Hm. apply Some_inj in Hm. subst m.
    apply keepWords_Some in Ha0. subst fp. cbn [value]. split.
    + apply MakeWords_sound in Ha2; [|apply wordsOf_filter; exact Hall | exact H25].
      destruct Ha2 as (H1 & H2 & H3). repeat split; auto.
    + eapply MakeWords_stable; [|exact Ha2].
      intros x Hx. apply filter_In in Hx as [_ Hk]. unfold kept in Hk.
      destruct (Contains words x); [discriminate | reflexivity].
  - intros l n Hwf Hwl _ Hn H0 H25 IH m r Hm H.
    assert (Hnode : m = 1 + n)
      by (cbn [NumLetters] in Hm; rewrite Hn in Hm; apply Some_inj in Hm; auto).
    subst m. pose proof H as Hcall. cbn [RemoveWordOptions] in H. bind_inv H.
    destruct (IH _ _ Hn Ha) as ((H1 & H2 & _) & Hs). split.
    + apply (BlockBefore_build_sound l n a r); auto.
    + apply (BlockBefore_build_stable words l a r); auto.
  - intros l n Hwf Hwl _ Hn H0 H25 IH m r Hm H.
    assert (Hnode : m = 1 + n)
      by (cbn [NumLetters] in Hm; rewrite Hn in Hm; apply Some_inj in Hm; auto).
    subst m. pose proof H as Hcall. cbn [RemoveWordOptions] in H. bind_inv H.
    destruct (IH _ _ Hn Ha) as ((H1 & H2 & _) & Hs). split.
    + apply (BlockAfter_build_sound l n a r); auto.
    + apply (BlockAfter_build_stable words l a r); auto.
  - intros f s nf ns Hwf Hwf1 Hwf2 _ _ Hnf Hns H0 H0' H25 IHf IHs m r Hm H.
    assert (Hnode : m = 1 + nf + ns)
      by (cbn [NumLetters] in Hm; rewrite Hnf, Hns in Hm; apply Some_inj in Hm; auto).
    subst m. pose proof H as Hcall. cbn [RemoveWordOptions] in H. bind_inv H. bind_inv H.
    destruct (IHf _ _ Hnf Ha) as ((H1 & H2 & _) & Hsf).
    destruct (IHs _ _ Hns Ha0) as ((H3 & H4 & _) & Hss). split.
    + apply (BlockBetween_build_sound f s nf ns a a0 r); auto.
    + apply (BlockBetween_build_stable words f s a a0 r); auto.
  - intros ps n Hwf Hlen Hn Hall m r Hm H.
    assert (Hnode : m = n).
    { destruct ps as [|q ps]; [cbn in Hlen; lia|]. cbn [NumLetters] in Hm.
      apply Forall_inv in Hall as (_ & _ & _ & Hq & _). congruence. }
    subst m. pose proof H as Hcall. cbn [RemoveWordOptions] in H. bind_inv H.
    destruct (Compound_Remove_loop [] (combine ps a) [] false) as [mf any] eqn:Hloop.
    destruct (negb any).
    { apply Some_inj in H. subst r. split; [apply sound_Same; auto | exact Hcall]. }
    bind_inv H. bind_inv H. apply Some_inj in H. subst r.
    rewrite Hm in Ha0. apply Some_inj in Ha0. subst a0.
    assert (Hfl : Forall (fun q => child n q /\ RemoveWordOptions q words = Some Same) mf).
    { change mf with (fst (mf, any)). rewrite <- Hloop.
      apply Remove_loop_Forall; [constructor | constructor |].
      apply mapM_Some in Ha. clear - Hall Ha.
      induction Ha as [|q f ps fs Hq _ IH]; cbn [combine]; constructor.
      - pose proof (Forall_inv Hall) as (H1 & H2 & H3 & H4 & H5).
        destruct (H5 _ _ H4 Hq) as (Hsound & Hstable).
        unfold valueOf. cbn [fst snd]. split.
        + intros ->. split; [repeat split; auto | exact Hq].
        + intros Hi. split; [|exact Hstable].
          destruct Hsound as (Hw & Hnv & Hk). repeat split; auto.
      - apply IH. apply (Forall_inv_tail Hall). }
    assert (Hchildren : Forall (child n) mf)
      by (revert Hfl; apply Forall_impl; intros q [Hq _]; exact Hq).
    assert (Hstable : Forall (fun q => RemoveWordOptions q words = Some Same) mf)
      by (revert Hfl; apply Forall_impl; intros q [_ Hq]; exact Hq).
    cbn [value]. split.
    + destruct (MakeCompound_sound _ _ _ Hchildren Hn Ha1) as (H1 & H2 & _).
      repeat split; auto. discriminate.
    + rewrite (MakeCompound_plain _ _ (child_plain _ _ Hchildren)) in Ha1.
      destruct mf as [|x [|y mf]].
      * apply MakeImpossible_Some in Ha1 as [-> _]. reflexivity.
      * apply Some_inj in Ha1. subst a1. apply (Forall_inv Hstable).
      * apply Some_inj in Ha1. subst a1. apply Compound_stable. exact Hstable.
  - intros d Hwf H25 m r Hm H. pose proof H as Hcall.
    cbn [RemoveWordOptions] in H. bind_inv H. destruct a.
    + split; [apply (newImpossible_sound _ _ _ Hm H)|].
      apply newImpossible_Some in H as (k & _ & -> & _). reflexivity.
    + apply Some_inj in H. subst r. split; [apply sound_Same; auto | exact Hcall].
Qed.

Lemma RemoveWordOptions_children_sound (words : list string) (n : Z)
      (ps : list PossibleLines) (fs : list Result) :
  Forall (child n) ps ->
  mapM (fun q => RemoveWordOptions q words) ps = Some fs ->
  Forall (child n) (fst (Compound_Remove_loop [] (combine ps fs) [] false)).
Proof.
  intros Hall Hfs.
  apply Remove_loop_Forall; [constructor | constructor |].
  apply mapM_Some in Hfs.
  induction Hfs as [|q f ps fs Hq _ IH]; cbn [combine]; constructor.
  - pose proof (Forall_inv Hall) as Hc. pose proof Hc as (H1 & H2 & H3 & H4).
    destruct (RemoveWordOptions_sound words q H1 n f H4 Hq) as ((Hw & Hnv & Hk) & _).
    unfold valueOf. cbn [fst snd]. split; [intros _; exact Hc|].
    intros Hi. repeat split; auto.
  - apply IH. apply (Forall_inv_tail Hall).
Qed.

Lemma RemoveWordOptions_total (words : list string) (p : PossibleLines) :
  wellFormed p = true -> exists r, RemoveWordOptions p words = Some r.
Proof.
  revert p. wf_induction.
  - intros n _ _. cbn [RemoveWordOptions]. eauto.
  - intros w ws oi masks Hwf Hlen H25 Hall _. cbn [RemoveWordOptions NumLetters].
    destruct (ContainsFunc_total
                (fun word => n <- Some (len w) ;;
                             if negb (len word =? n) then Some false
                             else Some (Contains (w :: ws) word)) words) as (a & ->).
    { apply Forall_forall. intros x _. cbn [bind].
      destruct (negb (len x =? len w)); eauto. }
    cbn [bind]. destruct (negb a); [eauto|].
    destruct (keepWords_total (fun q => Some (negb (Contains words q))) oi (w :: ws))
      with (idx := 0) as (fp & k & ->).
    { apply Forall_forall. intros x _. eauto. }
    cbn [bind].
    destruct (MakeWords_total fp k (len w)) as (q & ->); [unfold len in *; lia|].
    cbn [bind]. eauto.
  - intros l n _ _ _ Hn H0 H25 (inner & IH). cbn [RemoveWordOptions]. rewrite IH.
    cbn [bind]. apply (BlockBefore_build_total l n); auto.
  - intros l n _ _ _ Hn H0 H25 (inner & IH). cbn [RemoveWordOptions]. rewrite IH.
    cbn [bind]. apply (BlockAfter_build_total l n); auto.
  - intros f s nf ns _ _ _ _ _ Hnf Hns H0 H0' H25 (rf & IHf) (rs & IHs).
    cbn [RemoveWordOptions]. rewrite IHf, IHs. cbn [bind].
    apply (BlockBetween_build_total f s nf ns); auto.
  - intros ps n Hwf Hlen Hn Hall.
    assert (Hm : NumLetters (Compound ps) = Some n).
    { destruct ps as [|q ps]; [cbn in Hlen; lia|]. cbn [NumLetters].
      apply Forall_inv in Hall as (_ & _ & _ & Hq & _). exact Hq. }
    cbn [RemoveWordOptions].
    destruct (mapM_total (fun q => RemoveWordOptions q words) ps) as (fs & Hfs).
    { revert Hall. apply Forall_impl. intros q (_ & _ & _ & _ & IH). exact IH. }
    rewrite Hfs. cbn [bind].
    assert (Hfl : Forall (child n) (fst (Compound_Remove_loop [] (combine ps fs) [] false))).
    { apply (RemoveWordOptions_children_sound words n ps fs); [|exact Hfs].
      revert Hall. apply Forall_impl. intros q (H1 & H2 & H3 & H4 & _). repeat split; auto. }
    destruct (Compound_Remove_loop [] (combine ps fs) [] false) as [mf any].
    cbn [fst] in Hfl. destruct (negb any); [eauto|].
    rewrite Hm. cbn [bind].
    destruct (MakeCompound_total mf n Hfl Hn) as (q & ->). cbn [bind]. eauto.
  - intros d _ H25. cbn [RemoveWordOptions NumLetters].
    destruct (ContainsFunc_total
                (fun word => n <- Some (slen (ConcreteLine.Line d)) ;;
                             if negb (len word =? n) then Some false
                             else Some (Contains (ConcreteLine.Words d) word)) words)
      as (a & ->).
    { apply Forall_forall. intros x _. cbn [bind].
      destruct (negb (len x =? slen (ConcreteLine.Line d))); eauto. }
    cbn [bind]. destruct a; [|eauto].
    rewrite newImpossible_ok; [eauto|]. pose proof (slen_nonneg (ConcreteLine.Line d)). lia.
Qed.

(** *** [MaxPossibilities] and [MakeChoice] *)
Lemma wrap64_small (z : Z) : - 2 ^ 63 <= z < 2 ^ 63 -> wrap64 z = z.
Proof. intros H. unfold wrap64. rewrite Z.mod_small; lia. Qed.

Lemma fold_left_wrap64 (ms : list Z) :
  Forall (fun m => 0 <= m) ms ->
  forall acc, 0 <= acc -> acc + total ms < 2 ^ 63 ->
  fold_left (fun sum m => wrap64 (sum + m)) ms acc = acc + total ms.
Proof.
  induction 1 as [|m ms Hm Hms IH]; intros acc H0 Hlt; cbn [fold_left total fold_right] in *.
  - lia.
  - fold (total ms) in *.
    assert (0 <= total ms).
    { clear - Hms. induction Hms; cbn [total fold_right]; [lia|]. fold (total l). lia. }
    rewrite wrap64_small by lia. rewrite IH by lia. lia.
Qed.

Lemma slen_map {A B : Type} (f : A -> B) (l : list A) : slen (map f l) = slen l.
Proof. unfold slen. rewrite length_map. reflexivity. Qed.

Lemma slen_flat_map {A B : Type} (g : A -> list B) (l : list A) :
  slen (flat_map g l) = total (map (fun x => slen (g x)) l).
Proof.
  induction l as [|x l IH]; cbn [flat_map map total fold_right]; [reflexivity|].
  fold (total (map (fun x => slen (g x)) l)). rewrite slen_app, IH. reflexivity.
Qed.

Lemma slen_product (fs ss : list ConcreteLine) :
  slen (product fs ss) = slen fs * slen ss.
Proof.
  unfold product. induction fs as [|x fs IH]; cbn [flat_map]; [reflexivity|].
  rewrite slen_app, slen_map, IH, slen_cons. lia.
Qed.

Lemma total_bound (ms : list Z) (m : Z) :
  Forall (fun k => 0 <= k) ms -> In m ms -> 0 <= m <= total ms.
Proof.
  induction 1 as [|k ms Hk Hms IH]; intros Hin; [destruct Hin|].
  cbn [total fold_right]. fold (total ms).
  assert (0 <= total ms).
  { clear - Hms. induction Hms; cbn [total fold_right]; [lia|]. fold (total l). lia. }
  destruct Hin as [->|Hin]; [lia|]. specialize (IH Hin). lia.
Qed.

(** As long as the number of lines fits in an [int64],
    [MaxPossibilities] is that number. *)
Lemma MaxPossibilities_exact (p : PossibleLines) :
  wellFormed p = true -> slen (Iterate p) < 2 ^ 63 ->
  MaxPossibilities p = slen (Iterate p).
Proof.
  revert p. wf_induction.
  - intros n _ _ _. reflexivity.
  - intros w ws oi masks _ _ _ _ _ Hlt. cbn [MaxPossibilities Iterate] in *.
    rewrite slen_map in *. apply wrap64_small.
    pose proof (slen_nonneg (w :: ws)). lia.
  - intros l n _ _ _ _ _ _ IH Hlt. cbn [MaxPossibilities Iterate] in *.
    rewrite slen_map in *. auto.
  - intros l n _ _ _ _ _ _ IH Hlt. cbn [MaxPossibilities Iterate] in *.
    rewrite slen_map in *. auto.
  - intros f s nf ns _ Hwf Hws Hf Hs _ _ _ _ _ IHf IHs Hlt.
    cbn [MaxPossibilities Iterate] in *. fold (product (Iterate f) (Iterate s)) in *.
    rewrite slen_product in *.
    pose proof (Iterate_nonempty f Hwf Hf). pose proof (Iterate_nonempty s Hws Hs).
    rewrite IHf, IHs by nia. apply wrap64_small. nia.
  - intros ps n _ _ _ Hall Hlt. cbn [MaxPossibilities Iterate] in *.
    rewrite slen_flat_map in *.
    assert (Hnonneg : Forall (fun k => 0 <= k) (map (fun q => slen (Iterate q)) ps)).
    { apply Forall_forall. intros k Hk. apply in_map_iff in Hk as (q & <- & _).
      apply slen_nonneg. }
    replace (map MaxPossibilities ps) with (map (fun q => slen (Iterate q)) ps).
    + rewrite fold_left_wrap64; auto; lia.
    + apply map_ext_in. intros q Hq. rewrite Forall_forall in Hall.
      destruct (Hall q Hq) as (_ & _ & _ & _ & IH). symmetry. apply IH.
      pose proof (total_bound _ (slen (Iterate q)) Hnonneg) as Hb.
      assert (In (slen (Iterate q)) (map (fun q => slen (Iterate q)) ps))
        by (apply in_map_iff; eauto).
      specialize (Hb H). lia.
  - intros d _ _ _. reflexivity.
Qed.

Lemma splitLoop_range (half : Z) (ms : list Z) :
  forall acc i n, 0 <= i -> 2 <= n -> 1 <= splitLoop half acc i n ms <= n - 1.
Proof.
  induction ms as [|m ms IH]; intros acc i n Hi Hn; cbn [splitLoop]; [lia|].
  destruct ((half <=? wrap64 (acc + m)) && (i + 1 <? n)) eqn:Hc.
  - apply andb_true_iff in Hc as [_ Hc]. apply Z.ltb_lt in Hc. lia.
  - apply IH; lia.
Qed.

Lemma Permutation_product_l (fs fs' ss : list ConcreteLine) :
  Permutation fs fs' -> Permutation (product fs ss) (product fs' ss).
Proof. intros H. unfold product. apply Permutation_flat_map. exact H. Qed.

Lemma product_app_l (fs fs' ss : list ConcreteLine) :
  product (fs ++ fs') ss = product fs ss ++ product fs' ss.
Proof. unfold product. apply flat_map_app. Qed.

Lemma Permutation_product_app_r (fs ss ss' : list ConcreteLine) :
  Permutation (product fs ss ++ product fs ss') (product fs (ss ++ ss')).
Proof.
  unfold product. induction fs as [|x fs IH]; cbn [flat_map app]; [constructor|].
  rewrite map_app.
  rewrite <- !app_assoc. apply Permutation_app_head.
  rewrite <- IH. rewrite !app_assoc. apply Permutation_app_tail.
  apply Permutation_app_comm.
Qed.

Lemma Permutation_product_r (fs ss ss' : list ConcreteLine) :
  Permutation ss ss' -> Permutation (product fs ss) (product fs ss').
Proof.
  intros H. unfold product. induction fs as [|x fs IH]; cbn [flat_map]; [constructor|].
  apply Permutation_app; [apply Permutation_map; exact H | exact IH].
Qed.

Lemma In_firstn {A : Type} (k : nat) (l : list A) (x : A) : In x (firstn k l) -> In x l.
Proof. intros H. rewrite <- (firstn_skipn k l). apply in_or_app. left. exact H. Qed.

Lemma In_skipn {A : Type} (k : nat) (l : list A) (x : A) : In x (skipn k l) -> In x l.
Proof. intros H. rewrite <- (firstn_skipn k l). apply in_or_app. right. exact H. Qed.

Lemma firstn_nonempty {A : Type} (k : nat) (l : list A) :
  (1 <= k)%nat -> l <> [] -> firstn k l <> [].
Proof. destruct k; [lia|]. destruct l; [congruence|]. discriminate. Qed.

Lemma skipn_nonempty {A : Type} (k : nat) (l : list A) :
  (k < List.length l)%nat -> skipn k l <> [].
Proof.
  intros Hk H. pose proof (length_skipn k l) as Hl. rewrite H in Hl. cbn in Hl. lia.
Qed.

Lemma MakeWords_choosable (fl : list string) (k n : Z) :
  wordsOf n fl -> 0 <= n < 25 -> fl <> [] ->
  exists q, MakeWords fl k n = Some q /\ choosable n q /\ Iterate q = map wordLine fl.
Proof.
  intros Hall Hn Hne. destruct (MakeWords_total fl k n Hn) as (q & Hq).
  exists q. split; [exact Hq|]. split; [|apply (Iterate_MakeWords _ _ _ _ Hq)].
  destruct (MakeWords_sound _ _ _ _ Hall (proj2 Hn) Hq) as (H1 & H2 & _).
  repeat split; auto.
  destruct fl as [|x [|y fl]]; [congruence | |]; cbn [MakeWords] in Hq;
    apply Some_inj in Hq; subst q; reflexivity.
Qed.

Lemma MakeCompound_choosable (ps : list PossibleLines) (n : Z) :
  Forall (child n) ps -> 0 <= n < 25 -> ps <> [] ->
  exists q, MakeCompound ps n = Some q /\ choosable n q
            /\ Iterate q = flat_map Iterate ps.
Proof.
  intros Hall Hn Hne. destruct (MakeCompound_total ps n Hall Hn) as (q & Hq).
  exists q. split; [exact Hq|]. split; [|apply (Iterate_MakeCompound _ _ _ Hq)].
  destruct (MakeCompound_sound _ _ _ Hall Hn Hq) as (H1 & H2 & H3).
  repeat split; auto.
Qed.

Lemma choosable_Before (n : Z) (q : PossibleLines) :
  choosable n q -> 0 <= n -> 1 + n < 25 -> choosable (1 + n) (BlockBefore q).
Proof.
  intros (Hw & Hi & Hn) H0 H25.
  assert (Hnode : NumLetters (BlockBefore q) = Some (1 + n))
    by (cbn [NumLetters]; rewrite Hn; reflexivity).
  repeat split; auto. cbn [wellFormed].
  rewrite (fits_of _ _ Hnode), Hw, Hi by lia. reflexivity.
Qed.

Lemma choosable_After (n : Z) (q : PossibleLines) :
  choosable n q -> 0 <= n -> 1 + n < 25 -> choosable (1 + n) (BlockAfter q).
Proof.
  intros (Hw & Hi & Hn) H0 H25.
  assert (Hnode : NumLetters (BlockAfter q) = Some (1 + n))
    by (cbn [NumLetters]; rewrite Hn; reflexivity).
  repeat split; auto. cbn [wellFormed].
  rewrite (fits_of _ _ Hnode), Hw, Hi by lia. reflexivity.
Qed.

Lemma choosable_Between (nf ns : Z) (f s : PossibleLines) :
  choosable nf f -> choosable ns s -> 0 <= nf -> 0 <= ns -> 1 + nf + ns < 25 ->
  choosable (1 + nf + ns) (BlockBetween f s).
Proof.
  intros (Hwf & Hif & Hnf) (Hws & His & Hns) H0 H0' H25.
  assert (Hnode : NumLetters (BlockBetween f s) = Some (1 + nf + ns))
    by (cbn [NumLetters]; rewrite Hnf, Hns; reflexivity).
  repeat split; auto. cbn [wellFormed].
  rewrite (fits_of _ _ Hnode), Hwf, Hws, Hif, His by lia. reflexivity.
Qed.

(** [MakeChoice] on a well-formed value with more than one possibility,
    counted without overflow. *)
Lemma MakeChoice_spec (p : PossibleLines) :
  wellFormed p = true ->
  slen (Iterate p) < 2 ^ 63 -> 1 < MaxPossibilities p ->
  forall n, NumLetters p = Some n ->
  exists c, MakeChoice p = Some c
            /\ choosable n (Choice c) /\ choosable n (Remaining c)
            /\ Permutation (Iterate (Choice c) ++ Iterate (Remaining c)) (Iterate p).
Proof.
  revert p. wf_induction.
  - intros n _ _ _ Hmax. cbn [MaxPossibilities] in Hmax. lia.
  - intros w ws oi masks Hwf Hlen H25 Hall _ Hfit Hmax m Hm.
    cbn [NumLetters] in Hm. apply Some_inj in Hm. subst m.
    cbn [MakeChoice]. unfold Words_MakeChoice.
    destruct (MaxPossibilities (Words (w :: ws) oi masks) <=? 1) eqn:Hle;
      [apply Z.leb_le in Hle; lia|].
    cbn [NumLetters bind].
    set (all := w :: ws) in *.
    set (half := Z.to_nat (Z.quot (slen all) 2)).
    assert (Hhalf : (1 <= half < List.length all)%nat).
    { unfold half. rewrite Z.quot_div_nonneg by lia.
      pose proof (Z.div_mod (slen all) 2 ltac:(lia)).
      pose proof (Z.mod_pos_bound (slen all) 2 ltac:(lia)).
      unfold slen in *. lia. }
    assert (Hn : 0 <= len w < 25) by (unfold len in *; lia).
    destruct (if oi <? slen (firstn half all)
              then (oi, 0)
              else (slen (firstn half all), oi - slen (firstn half all))) as [w1Idx w2Idx].
    destruct (MakeWords_choosable (firstn half all) w1Idx (len w)) as (c & -> & Hc & Hic).
    { unfold wordsOf in *. rewrite Forall_forall in *. intros x Hx.
      apply Hall. apply (In_firstn _ _ _ Hx). }
    { exact Hn. }
    { apply firstn_nonempty; [lia | discriminate]. }
    destruct (MakeWords_choosable (skipn half all) w2Idx (len w)) as (r & -> & Hr & Hir).
    { unfold wordsOf in *. rewrite Forall_forall in *. intros x Hx.
      apply Hall. apply (In_skipn _ _ _ Hx). }
    { exact Hn. }
    { apply skipn_nonempty. lia. }
    cbn [bind]. eexists. split; [reflexivity|]. cbn [Choice Remaining].
    split; [exact Hc|]. split; [exact Hr|].
    rewrite Hic, Hir, <- map_app, firstn_skipn. cbn [Iterate]. reflexivity.
  - intros l n _ Hwl Hil Hn H0 H25 IH Hfit Hmax m Hm.
    cbn [NumLetters] in Hm. rewrite Hn in Hm. apply Some_inj in Hm. subst m.
    cbn [MaxPossibilities Iterate] in *. rewrite slen_map in Hfit.
    destruct (IH Hfit Hmax n Hn) as (c & Hc & Hcc & Hcr & Hperm).
    cbn [MakeChoice]. rewrite Hc. cbn [bind]. eexists. split; [reflexivity|].
    cbn [Choice Remaining Iterate].
    split; [apply choosable_Before; assumption|].
    split; [apply choosable_Before; assumption|].
    rewrite <- map_app. apply Permutation_map. exact Hperm.
  - intros l n _ Hwl Hil Hn H0 H25 IH Hfit Hmax m Hm.
    cbn [NumLetters] in Hm. rewrite Hn in Hm. apply Some_inj in Hm. subst m.
    cbn [MaxPossibilities Iterate] in *. rewrite slen_map in Hfit.
    destruct (IH Hfit Hmax n Hn) as (c & Hc & Hcc & Hcr & Hperm).
    cbn [MakeChoice]. rewrite Hc. cbn [bind]. eexists. split; [reflexivity|].
    cbn [Choice Remaining Iterate].
    split; [apply choosable_After; assumption|].
    split; [apply choosable_After; assumption|].
    rewrite <- map_app. apply Permutation_map. exact Hperm.
  - intros f s nf ns _ Hwf Hws Hf Hs Hnf Hns H0 H0' H25 IHf IHs Hfit Hmax m Hm.
    cbn [NumLetters] in Hm. rewrite Hnf, Hns in Hm. apply Some_inj in Hm. subst m.
    cbn [MaxPossibilities Iterate] in *. fold (product (Iterate f) (Iterate s)) in *.
    rewrite slen_product in Hfit.
    pose proof (Iterate_nonempty f Hwf Hf) as Hf1.
    pose proof (Iterate_nonempty s Hws Hs) as Hs1.
    assert (Hff : slen (Iterate f) < 2 ^ 63) by nia.
    assert (Hfs : slen (Iterate s) < 2 ^ 63) by nia.
    pose proof (MaxPossibilities_exact f Hwf Hff) as Hmf.
    pose proof (MaxPossibilities_exact s Hws Hfs) as Hms.
    rewrite Hmf, Hms in Hmax. rewrite wrap64_small in Hmax by nia.
    assert (Hcf : choosable nf f) by (repeat split; auto).
    assert (Hcs : choosable ns s) by (repeat split; auto).
    cbn [MakeChoice]. rewrite Hmf, Hms.
    destruct (slen (Iterate s) <? slen (Iterate f)) eqn:Hcmp.
    + apply Z.ltb_lt in Hcmp.
      destruct (IHf Hff ltac:(lia) nf Hnf) as (c & Hc & Hcc & Hcr & Hperm).
      rewrite Hc. cbn [bind]. eexists. split; [reflexivity|].
      cbn [Choice Remaining Iterate].
      split; [apply choosable_Between; assumption|].
    split; [apply choosable_Between; assumption|].
      fold (product (Iterate (Choice c)) (Iterate s)).
      fold (product (Iterate (Remaining c)) (Iterate s)).
      rewrite <- product_app_l. apply Permutation_product_l. exact Hperm.
    + apply Z.ltb_ge in Hcmp.
      destruct (IHs Hfs ltac:(nia) ns Hns) as (c & Hc & Hcc & Hcr & Hperm).
      rewrite Hc. cbn [bind]. eexists. split; [reflexivity|].
      cbn [Choice Remaining Iterate].
      split; [apply choosable_Between; assumption|].
    split; [apply choosable_Between; assumption|].
      fold (product (Iterate f) (Iterate (Choice c))).
      fold (product (Iterate f) (Iterate (Remaining c))).
      rewrite Permutation_product_app_r. apply Permutation_product_r. exact Hperm.
  - intros ps n Hwf Hlen Hn Hall Hfit Hmax m Hm.
    assert (Hnode : m = n).
    { destruct ps as [|q ps]; [cbn in Hlen; lia|]. cbn [NumLetters] in Hm.
      apply Forall_inv in Hall as (_ & _ & _ & Hq & _). congruence. }
    subst m. cbn [MakeChoice].
    destruct (slen ps <=? 1) eqn:Hle; [apply Z.leb_le in Hle; lia|].
    destruct (MaxPossibilities (Compound ps) <=? 1) eqn:Hle';
      [apply Z.leb_le in Hle'; lia|].
    rewrite Hm. cbn [bind].
    set (k := Z.to_nat (splitLoop _ 0 0 (slen ps) (map MaxPossibilities ps))).
    assert (Hk : (1 <= k < List.length ps)%nat).
    { unfold k.
      match goal with
      | |- context [splitLoop ?h 0 0 (slen ps) ?ms] =>
          pose proof (splitLoop_range h ms 0 0 (slen ps) ltac:(lia) Hlen)
      end.
      unfold slen in *. lia. }
    assert (Hchildren : Forall (child n) ps).
    { revert Hall. apply Forall_impl. intros q (H1 & H2 & H3 & H4 & _). repeat split; auto. }
    destruct (MakeCompound_choosable (firstn k ps) n) as (c & -> & Hc & Hic).
    { rewrite Forall_forall in *. intros x Hx. apply Hchildren, (In_firstn _ _ _ Hx). }
    { exact Hn. }
    { apply firstn_nonempty; [lia|]. destruct ps; [cbn in Hlen; lia | discriminate]. }
    destruct (MakeCompound_choosable (skipn k ps) n) as (r & -> & Hr & Hir).
    { rewrite Forall_forall in *. intros x Hx. apply Hchildren, (In_skipn _ _ _ Hx). }
    { exact Hn. }
    { apply skipn_nonempty. lia. }
    cbn [bind]. eexists. split; [reflexivity|]. cbn [Choice Remaining].
    split; [exact Hc|]. split; [exact Hr|].
    rewrite Hic, Hir, <- flat_map_app, firstn_skipn. cbn [Iterate]. reflexivity.
  - intros d _ _ _ Hmax. cbn [MaxPossibilities] in Hmax. lia.
Qed.

(** *** [DefinitelyBlockedAt] *)
Lemma cell_blockBefore_0 (l : ConcreteLine) : cell (blockBefore l) 0 = Some kBlocked.
Proof. reflexivity. Qed.

Lemma cell_blockBefore (i : Z) (l : ConcreteLine) :
  0 < i -> cell (blockBefore l) i = cell l (i - 1).
Proof. intros Hi. unfold cell, blockBefore. cbn [ConcreteLine.Line]. apply index_cons, Hi. Qed.

Lemma cell_blockAfter_end (l : ConcreteLine) :
  cell (blockAfter l) (slen (ConcreteLine.Line l)) = Some kBlocked.
Proof.
  unfold cell, blockAfter. cbn [ConcreteLine.Line].
  rewrite index_app_r by lia. rewrite Z.sub_diag. reflexivity.
Qed.

Lemma cell_blockAfter (i : Z) (l : ConcreteLine) :
  i < slen (ConcreteLine.Line l) -> cell (blockAfter l) i = cell l i.
Proof. intros Hi. unfold cell, blockAfter. cbn [ConcreteLine.Line]. apply index_app_l, Hi. Qed.

Lemma cell_blockBetween_mid (f s : ConcreteLine) :
  cell (blockBetween f s) (slen (ConcreteLine.Line f)) = Some kBlocked.
Proof.
  unfold cell, blockBetween. cbn [ConcreteLine.Line].
  rewrite index_app_l by (rewrite slen_app, slen_cons, slen_nil; lia).
  rewrite index_app_r by lia. rewrite Z.sub_diag. reflexivity.
Qed.

Lemma cell_blockBetween_first (i : Z) (f s : ConcreteLine) :
  i < slen (ConcreteLine.Line f) -> cell (blockBetween f s) i = cell f i.
Proof.
  intros Hi. unfold cell, blockBetween. cbn [ConcreteLine.Line].
  rewrite index_app_l by (rewrite slen_app, slen_cons, slen_nil; lia).
  apply index_app_l, Hi.
Qed.

Lemma cell_blockBetween_second (i : Z) (f s : ConcreteLine) :
  slen (ConcreteLine.Line f) < i ->
  cell (blockBetween f s) i = cell s (i - slen (ConcreteLine.Line f) - 1).
Proof.
  intros Hi. unfold cell, blockBetween. cbn [ConcreteLine.Line].
  rewrite index_app_r by (rewrite slen_app, slen_cons, slen_nil; lia).
  rewrite slen_app, slen_cons, slen_nil. f_equal. lia.
Qed.

Lemma DefinitelyBlockedAt_Compound_cons (q : PossibleLines) (ps : list PossibleLines)
      (i : Z) :
  DefinitelyBlockedAt (Compound (q :: ps)) i =
  (b <- DefinitelyBlockedAt q i ;;
   if (b : bool) then DefinitelyBlockedAt (Compound ps) i else Some false).
Proof. reflexivity. Qed.

Lemma nonempty_In {A : Type} (l : list A) : 1 <= slen l -> exists x, In x l.
Proof. destruct l as [|x l]; [cbn; lia|]. intros _. exists x. left. reflexivity. Qed.

Lemma DefinitelyBlockedAt_spec (p : PossibleLines) :
  wellFormed p = true ->
  forall n i, NumLetters p = Some n -> 0 <= i < n -> isImpossible p = false ->
  exists b, DefinitelyBlockedAt p i = Some b /\ (b = true <-> allBlockedAt p i).
Proof.
  revert p. wf_induction.
  - intros n _ _ m i _ _ H. discriminate.
  - intros w ws oi masks _ _ _ Hall _ m i Hm Hi _.
    cbn [NumLetters] in Hm. apply Some_inj in Hm. subst m.
    exists false. split; [reflexivity|]. split; [discriminate|].
    intros Hblocked. specialize (Hblocked (wordLine w) (or_introl eq_refl)).
    unfold cell, wordLine in Hblocked. cbn [ConcreteLine.Line] in Hblocked.
    apply Forall_inv in Hall as [_ Hc]. rewrite forallb_forall in Hc.
    pose proof (index_In _ _ _ Hblocked) as Hin.
    apply Hc, isLetter_not_blocked in Hin. rewrite Z.eqb_refl in Hin. discriminate.
  - intros l n _ Hwl Hil Hn H0 H25 IH m i Hm Hi _.
    cbn [NumLetters] in Hm. rewrite Hn in Hm. apply Some_inj in Hm. subst m.
    cbn [DefinitelyBlockedAt]. destruct (i =? 0) eqn:Hi0.
    + apply Z.eqb_eq in Hi0. subst i. exists true. split; [reflexivity|].
      split; [|reflexivity]. intros _ x Hx. cbn [Iterate] in Hx.
      apply in_map_iff in Hx as (y & <- & _). apply cell_blockBefore_0.
    + apply Zeqb_false_neq in Hi0.
      destruct (IH n (i - 1) Hn ltac:(lia) Hil) as (b & -> & Hb).
      exists b. split; [reflexivity|]. rewrite Hb. unfold allBlockedAt. cbn [Iterate].
      split.
      * intros H x Hx. apply in_map_iff in Hx as (y & <- & Hy).
        rewrite cell_blockBefore by lia. auto.
      * intros H y Hy. rewrite <- cell_blockBefore by lia.
        apply H. apply in_map. exact Hy.
  - intros l n _ Hwl Hil Hn H0 H25 IH m i Hm Hi _.
    cbn [NumLetters] in Hm. rewrite Hn in Hm. apply Some_inj in Hm. subst m.
    pose proof (Iterate_length l Hwl n Hn) as Hlen.
    cbn [DefinitelyBlockedAt]. rewrite Hn. cbn [bind]. destruct (i =? n) eqn:Hin.
    + apply Z.eqb_eq in Hin. subst i. exists true. split; [reflexivity|].
      split; [|reflexivity]. intros _ x Hx. cbn [Iterate] in Hx.
      apply in_map_iff in Hx as (y & <- & Hy). rewrite <- (Hlen y Hy).
      apply cell_blockAfter_end.
    + apply Zeqb_false_neq in Hin.
      destruct (IH n i Hn ltac:(lia) Hil) as (b & -> & Hb).
      exists b. split; [reflexivity|]. rewrite Hb. unfold allBlockedAt. cbn [Iterate].
      split.
      * intros H x Hx. apply in_map_iff in Hx as (y & <- & Hy).
        rewrite cell_blockAfter by (rewrite (Hlen y Hy); lia). auto.
      * intros H y Hy. rewrite <- (cell_blockAfter i y) by (rewrite (Hlen y Hy); lia).
        apply H. apply in_map. exact Hy.
  - intros f s nf ns _ Hwf Hws Hf Hs Hnf Hns H0 H0' H25 IHf IHs m i Hm Hi _.
    cbn [NumLetters] in Hm. rewrite Hnf, Hns in Hm. apply Some_inj in Hm. subst m.
    pose proof (Iterate_length f Hwf nf Hnf) as Hlen.
    destruct (nonempty_In _ (Iterate_nonempty f Hwf Hf)) as (x0 & Hx0).
    destruct (nonempty_In _ (Iterate_nonempty s Hws Hs)) as (y0 & Hy0).
    assert (Hprod : forall x y, In x (Iterate f) -> In y (Iterate s) ->
                                In (blockBetween x y) (Iterate (BlockBetween f s))).
    { intros x y Hx Hy. cbn [Iterate]. apply in_flat_map. exists x. split; [exact Hx|].
      apply in_map. exact Hy. }
    cbn [DefinitelyBlockedAt]. rewrite Hnf. cbn [bind]. destruct (i =? nf) eqn:Hin.
    + apply Z.eqb_eq in Hin. subst i. exists true. split; [reflexivity|].
      split; [|reflexivity]. intros _ x Hx. cbn [Iterate] in Hx.
      apply in_flat_map in Hx as (y & Hy & Hx). apply in_map_iff in Hx as (z & <- & Hz).
      rewrite <- (Hlen y Hy). apply cell_blockBetween_mid.
    + apply Zeqb_false_neq in Hin. destruct (i <? nf) eqn:Hlt.
      * apply Z.ltb_lt in Hlt.
        destruct (IHf nf i Hnf ltac:(lia) Hf) as (b & -> & Hb).
        exists b. split; [reflexivity|]. rewrite Hb. unfold allBlockedAt. split.
        -- intros H x Hx. cbn [Iterate] in Hx.
           apply in_flat_map in Hx as (y & Hy & Hx). apply in_map_iff in Hx as (z & <- & Hz).
           rewrite cell_blockBetween_first by (rewrite (Hlen y Hy); lia). auto.
        -- intros H x Hx.
           rewrite <- (cell_blockBetween_first i x y0) by (rewrite (Hlen x Hx); lia).
           apply H, Hprod; assumption.
      * apply Z.ltb_ge in Hlt.
        destruct (IHs ns (i - nf - 1) Hns ltac:(lia) Hs) as (b & -> & Hb).
        exists b. split; [reflexivity|]. rewrite Hb. unfold allBlockedAt. split.
        -- intros H x Hx. cbn [Iterate] in Hx.
           apply in_flat_map in Hx as (y & Hy & Hx). apply in_map_iff in Hx as (z & <- & Hz).
           rewrite cell_blockBetween_second by (rewrite (Hlen y Hy); lia).
           rewrite (Hlen y Hy). auto.
        -- intros H y Hy. specialize (H _ (Hprod x0 y Hx0 Hy)).
           rewrite cell_blockBetween_second in H by (rewrite (Hlen x0 Hx0); lia).
           rewrite (Hlen x0 Hx0) in H. exact H.
  - intros ps n _ _ _ Hall m i Hm Hi _.
    assert (Hnode : ps <> [] -> m = n).
    { destruct ps as [|q ps]; [congruence|]. intros _. cbn [NumLetters] in Hm.
      apply Forall_inv in Hall as (_ & _ & _ & Hq & _). congruence. }
    clear Hm. induction ps as [|q ps IHps].
    + exists true. split; [reflexivity|]. split; [|reflexivity]. intros _ l [].
    + specialize (Hnode ltac:(discriminate)). subst m.
      pose proof (Forall_inv Hall) as (_ & Hiq & _ & Hnq & IHq).
      destruct (IHq n i Hnq Hi Hiq) as (b & Hb & Hbq).
      rewrite DefinitelyBlockedAt_Compound_cons, Hb. cbn [bind].
      destruct b.
      * destruct IHps as (b' & Hb' & Hbps); [apply (Forall_inv_tail Hall) | auto |].
        exists b'. split; [exact Hb'|]. rewrite Hbps. unfold allBlockedAt. cbn [Iterate flat_map].
        split.
        -- intros H l Hl. apply in_app_or in Hl as [Hl|Hl]; [apply Hbq; auto | apply H; exact Hl].
        -- intros H l Hl. apply H. apply in_or_app. right. exact Hl.
      * exists false. split; [reflexivity|]. split; [discriminate|].
        intros H. apply Hbq. intros l Hl. apply H. cbn [Iterate flat_map].
        apply in_or_app. left. exact Hl.
  - intros d _ H25 m i Hm Hi _. cbn [NumLetters] in Hm. apply Some_inj in Hm. subst m.
    cbn [DefinitelyBlockedAt]. destruct (index_Some _ _ Hi) as (c & Hc). rewrite Hc.
    cbn [bind]. exists (c =? kBlocked). split; [reflexivity|].
    unfold allBlockedAt. cbn [Iterate]. split.
    + intros Hb l [<-|[]]. apply Z.eqb_eq in Hb. subst c. exact Hc.
    + intros H. specialize (H d (or_introl eq_refl)). unfold cell in H.
      rewrite Hc in H. apply Some_inj in H. subst c. apply Z.eqb_refl.
Qed.
End LinesFacts.

(** ** The loop of [Compound.RemoveWordOptions] on its array *)
Module AliasingFacts.
Import Primitives Aliasing LinesFacts.
Local Open Scope nat_scope.

Lemma length_writeAt (n : nat) (x : PossibleLines) (arr : list PossibleLines) :
  List.length (writeAt n x arr) = List.length arr.
Proof. revert n. induction arr as [|y arr IH]; intros [|n]; cbn [writeAt List.length]; auto. Qed.

Lemma writeAt_app (n : nat) (x : PossibleLines) (pre todo : list PossibleLines) :
  n < List.length pre -> writeAt n x (pre ++ todo) = writeAt n x pre ++ todo.
Proof.
  revert n. induction pre as [|y pre IH]; intros n Hn; cbn [List.length] in Hn; [lia|].
  destruct n as [|n]; cbn [writeAt app]; [reflexivity|]. rewrite IH by lia. reflexivity.
Qed.

Lemma firstn_writeAt (n : nat) (x : PossibleLines) (arr : list PossibleLines) :
  n < List.length arr -> firstn (S n) (writeAt n x arr) = firstn n arr ++ [x].
Proof.
  revert n. induction arr as [|y arr IH]; intros n Hn; cbn [List.length] in Hn; [lia|].
  destruct n as [|n]; [reflexivity|]. cbn [writeAt].
  rewrite (firstn_cons (S n)), (firstn_cons n), IH by lia. reflexivity.
Qed.

(** The state of the two loops after the same iterations: the array is
    the original from the index of the loop on, the slice holds the list
    of the loop on values, and a view ends at or before that index. *)
Ltac lengths := rewrite ?length_app in *; cbn [List.length] in *; lia.

(** An [append] in the loop: the slice holds one more element, and the
    array is still the original from the next index on. *)
Lemma append_step (pre todo : list PossibleLines) (p x : PossibleLines) (s : Slice) :
  (forall n, s = View n -> n <= List.length pre) ->
  exists pre' s',
    append (pre ++ p :: todo) s x = (pre' ++ todo, s')
    /\ List.length pre' = S (List.length pre)
    /\ contents (pre' ++ todo) s' = contents (pre ++ p :: todo) s ++ [x]
    /\ (forall n, s' = View n -> n <= List.length pre').
Proof.
  intros Hview.
  assert (Hshift : pre ++ p :: todo = (pre ++ [p]) ++ todo)
    by (rewrite <- app_assoc; reflexivity).
  destruct s as [elements|n]; cbn [append contents].
  - exists (pre ++ [p]), (Fresh (elements ++ [x])). rewrite Hshift.
    split; [reflexivity|]. split; [lengths|]. split; [reflexivity | discriminate].
  - specialize (Hview n eq_refl).
    destruct (Nat.ltb_spec n (List.length (pre ++ p :: todo))); [|lengths].
    exists (writeAt n x (pre ++ [p])), (View (S n)).
    rewrite Hshift at 1. rewrite writeAt_app by lengths.
    split; [reflexivity|]. split; [rewrite length_writeAt; lengths|]. split.
    + cbn [contents]. rewrite <- writeAt_app by lengths.
      rewrite firstn_writeAt by lengths. rewrite <- Hshift. reflexivity.
    + intros m Hm. injection Hm as <-. rewrite length_writeAt. lengths.
Qed.

(** The state of the two loops after the same iterations: the array is
    the original from the index of the loop on, the slice holds the list
    of the loop on values, and a view ends at or before that index. *)
Lemma WriteThrough_loop (remove : PossibleLines -> Result) (todo : list PossibleLines) :
  forall seen pre s maybeFiltered anyChanged,
    List.length pre = List.length seen ->
    contents (pre ++ todo) s = maybeFiltered ->
    (forall n, s = View n -> n <= List.length pre) ->
    (anyChanged = false -> pre = seen /\ s = Fresh []) ->
    let '(arr, s', any) :=
      WriteThrough remove (List.length todo) (List.length pre) (pre ++ todo) s anyChanged in
    (contents arr s', any)
    = Compound_Remove_loop seen (combine todo (map remove todo)) maybeFiltered anyChanged.
Proof.
  induction todo as [|p todo IH]; intros seen pre s maybeFiltered anyChanged Hlen Hc Hview Hnone.
  - cbn [List.length WriteThrough map combine Compound_Remove_loop]. rewrite Hc. reflexivity.
  - cbn [List.length WriteThrough map combine Compound_Remove_loop].
    rewrite nth_error_app2 by lia. rewrite Nat.sub_diag. cbn [nth_error].
    assert (Hshift : pre ++ p :: todo = (pre ++ [p]) ++ todo)
      by (rewrite <- app_assoc; reflexivity).
    assert (Hpre1 : List.length (pre ++ [p]) = S (List.length pre)) by lengths.
    assert (Hseen1 : List.length (seen ++ [p]) = S (List.length pre)) by lengths.
    (* the slice that the appends of this iteration start from *)
    set (start := if isNew (remove p) && negb anyChanged
                  then if 0 <? List.length pre then View (List.length pre) else s
                  else s).
    assert (Hstart : contents (pre ++ p :: todo) start
                     = (if isNew (remove p) && negb anyChanged then seen else maybeFiltered)
                       /\ forall n, start = View n -> n <= List.length pre).
    { unfold start. destruct (isNew (remove p) && negb anyChanged) eqn:Hfirst;
        [|split; [exact Hc | exact Hview]].
      apply andb_true_iff in Hfirst as [_ Hany]. apply negb_true_iff in Hany.
      destruct (Hnone Hany) as [-> ->].
      destruct seen as [|q seen]; [split; [reflexivity | discriminate]|].
      cbn [List.length Nat.ltb Nat.leb contents]. split.
      - change (S (List.length seen)) with (List.length (q :: seen)).
        rewrite firstn_app, firstn_all, Nat.sub_diag. cbn [firstn]. apply app_nil_r.
      - intros n Hn. injection Hn as <-. cbn [List.length]. lia. }
    destruct Hstart as [Hcontents Hends].
    destruct (negb (isNew (remove p)) && negb anyChanged) eqn:Hskip.
    + (* nothing has changed *)
      apply andb_true_iff in Hskip as [Hsame Hany]. apply negb_true_iff in Hany.
      destruct (Hnone Hany) as [-> ->]. subst anyChanged.
      rewrite Hshift, <- Hpre1. apply IH; [lengths | exact Hc | discriminate | auto].
    + assert (Hany : (if isNew (remove p) && negb anyChanged then true else anyChanged) = true).
      { destruct (isNew (remove p)), anyChanged; cbn [negb andb] in *; congruence. }
      replace (if isNew (remove p) && negb anyChanged
               then (if 0 <? List.length pre then View (List.length pre) else s, true)
               else (s, anyChanged))
        with (start, true)
        by (unfold start; destruct (isNew (remove p) && negb anyChanged); congruence).
      replace (if isNew (remove p) && negb anyChanged then (seen, true)
               else (maybeFiltered, anyChanged))
        with (if isNew (remove p) && negb anyChanged then seen else maybeFiltered, true)
        by (destruct (isNew (remove p) && negb anyChanged); congruence).
      destruct (isImpossible (value p (remove p))); cbn [negb].
      * rewrite Hshift, <- Hpre1.
        apply IH; [lengths | rewrite <- Hshift; exact Hcontents | | discriminate].
        intros n Hn. specialize (Hends n Hn). lengths.
      * destruct (append_step pre todo p (value p (remove p)) start Hends)
          as (pre' & s' & -> & Hlen' & Hc' & Hends').
        rewrite <- Hlen'.
        apply IH; [lengths | rewrite Hc', Hcontents; reflexivity | exact Hends' | discriminate].
Qed.

(** X29.  The loop of [Compound.RemoveWordOptions] followed on the backing
    array of the receiver, where [append] writes into that array, builds
    the list and the flag that the loop on values builds. *)
Lemma WriteThrough_builds_the_same (remove : PossibleLines -> Result)
      (possibilities : list PossibleLines) :
  let '(arr, maybeFiltered, anyChanged) :=
    WriteThrough remove (List.length possibilities) 0 possibilities (Fresh []) false in
  (contents arr maybeFiltered, anyChanged)
  = Compound_Remove_loop [] (combine possibilities (map remove possibilities)) [] false.
Proof.
  apply (WriteThrough_loop remove possibilities [] [] (Fresh []) [] false);
    [reflexivity | reflexivity | discriminate | auto].
Qed.

(** It writes into the array of the receiver: after the removal of [dog]
    the receiver holds [cow] twice. *)
Lemma WriteThrough_writes_the_receiver :
  let cat := Words ["cat"%string] 1 None in
  let dog := Words ["dog"%string] 1 None in
  let cow := Words ["cow"%string] 1 None in
  let remove p := match RemoveWordOptions p ["dog"%string] with
                  | Some f => f
                  | None => Same
                  end in
  WriteThrough remove 3 0 [cat; dog; cow] (Fresh []) false = ([cat; cow; cow], View 2, true).
Proof. vm_compute. reflexivity. Qed.
End AliasingFacts.

(** ** The claims about the line algebra *)
Module LineClaims.
Import CharSetGo Primitives LinesSpec LinesFacts LineExamples.

(** C2.  For a well-formed [p] and an index [i] below [NumLetters p],
    [Filter p ch i] returns, and the lines of its result are, as a
    multiset, the lines of [p] whose [i]-th cell is [ch]. *)
Theorem Filter_yields_matching_lines (p : PossibleLines) (ch : rune) (n i : Z) :
  wellFormed p = true -> NumLetters p = Some n -> 0 <= i < n ->
  exists r, Filter p ch i = Some r
            /\ Permutation (Iterate (value p r)) (filter (cellIs ch i) (Iterate p)).
Proof.
  intros Hwf Hn Hi. destruct (Filter_total ch p Hwf n i Hn Hi) as (r & Hr).
  exists r. split; [exact Hr|].
  rewrite (Filter_Iterate ch p Hwf n i r Hn Hr). apply Permutation_refl.
Qed.

Lemma Filter_yields_matching_lines_witness :
  wellFormed catsAndDogs = true /\ NumLetters catsAndDogs = Some 3 /\ 0 <= 1 < 3
  /\ exists r, Filter catsAndDogs 111 1 = Some r
               /\ Permutation (Iterate (value catsAndDogs r))
                              (filter (cellIs 111 1) (Iterate catsAndDogs)).
Proof.
  split; [reflexivity|]. split; [reflexivity|]. split; [lia|].
  apply (Filter_yields_matching_lines catsAndDogs 111 3 1); [reflexivity | reflexivity | lia].
Defined.

Lemma length_wordsFrom (k : N) (n : nat) : List.length (wordsFrom k n) = n.
Proof.
  revert k. induction n as [|n IH]; intros k; cbn [wordsFrom List.length];
    [|rewrite IH]; reflexivity.
Qed.

Lemma slen_firstWords (n : Z) : 0 <= n -> slen (Iterate (firstWords n)) = n.
Proof.
  intros Hn. unfold firstWords. cbn [Iterate]. rewrite slen_map. unfold slen.
  rewrite length_wordsFrom. lia.
Qed.

Lemma slen_between (f s : PossibleLines) :
  slen (Iterate (BlockBetween f s)) = slen (Iterate f) * slen (Iterate s).
Proof. cbn [Iterate]. fold (product (Iterate f) (Iterate s)). apply slen_product. Qed.

(** C4.  [MaxPossibilities] multiplies [int64] counts, and the product
    wraps around.  The well-formed line [sixWords] has [5 * 7 * 2^61]
    lines and reports [3 * 2^61] possibilities: fewer than it has lines,
    where the interface promises an upper bound on their number.  It
    reports more than one possibility, and yet [MakeChoice] does not
    split it into two sides of at least one possibility each: the choice
    reports [- 2^62]. *)
Theorem MakeChoice_overflow :
  wellFormed sixWords = true
  /\ slen (Iterate sixWords) = 5 * 7 * 2 ^ 61
  /\ MaxPossibilities sixWords = 3 * 2 ^ 61
  /\ 1 < MaxPossibilities sixWords
  /\ ~ splitsInTwo sixWords.
Proof.
  split; [vm_compute; reflexivity|].
  split.
  { unfold sixWords. rewrite !slen_between, !slen_firstWords by lia. reflexivity. }
  split; [vm_compute; reflexivity|]. split; [vm_compute; reflexivity|].
  intros (c & Hc & Hchoice & _).
  assert (Hmax : option_map (fun c => MaxPossibilities (Choice c)) (MakeChoice sixWords)
                 = Some (- 2 ^ 62)) by (vm_compute; reflexivity).
  rewrite Hc in Hmax. cbn [option_map] in Hmax. apply Some_inj in Hmax. lia.
Qed.

(** Where the counts do not wrap around the split is as wanted: for a
    well-formed [p] whose number of lines fits in an [int64] and with
    [MaxPossibilities p > 1], [MakeChoice] returns two sides with at least
    one possibility each, whose lines are together the lines of [p] as a
    multiset. *)
Lemma MakeChoice_splits (p : PossibleLines) :
  wellFormed p = true -> slen (Iterate p) < 2 ^ 63 -> 1 < MaxPossibilities p ->
  splitsInTwo p.
Proof.
  intros Hwf Hfit Hmax. destruct (wellFormed_NumLetters p Hwf) as (n & Hn & _).
  destruct (MakeChoice_spec p Hwf Hfit Hmax n Hn) as (c & Hc & Hcc & Hcr & Hperm).
  exists c. split; [exact Hc|].
  pose proof (Permutation_length Hperm) as Hlen. rewrite length_app in Hlen.
  destruct Hcc as (Hw1 & Hi1 & _). destruct Hcr as (Hw2 & Hi2 & _).
  pose proof (Iterate_nonempty _ Hw1 Hi1). pose proof (Iterate_nonempty _ Hw2 Hi2).
  assert (slen (Iterate (Choice c)) < 2 ^ 63) by (unfold slen in *; lia).
  assert (slen (Iterate (Remaining c)) < 2 ^ 63) by (unfold slen in *; lia).
  rewrite !MaxPossibilities_exact by assumption. auto.
Qed.

Lemma MakeChoice_splits_witness :
  wellFormed catsAndDogs = true /\ slen (Iterate catsAndDogs) < 2 ^ 63
  /\ 1 < MaxPossibilities catsAndDogs /\ splitsInTwo catsAndDogs.
Proof.
  split; [reflexivity|]. split; [vm_compute; reflexivity|]. split; [vm_compute; reflexivity|].
  apply (MakeChoice_splits catsAndDogs); [reflexivity | vm_compute; reflexivity ..].
Defined.

(** C7.  For a well-formed [p], [RemoveWordOptions] returns, and a second
    call with the same words on its result returns that result itself (so
    it denotes the same lines). *)
Theorem RemoveWordOptions_idempotent (p : PossibleLines) (words : list string) :
  wellFormed p = true ->
  exists r, RemoveWordOptions p words = Some r
            /\ RemoveWordOptions (value p r) words = Some Same
            /\ forall r', RemoveWordOptions (value p r) words = Some r' ->
                          Iterate (value (value p r) r') = Iterate (value p r).
Proof.
  intros Hwf. destruct (wellFormed_NumLetters p Hwf) as (n & Hn & _).
  destruct (RemoveWordOptions_total words p Hwf) as (r & Hr).
  destruct (RemoveWordOptions_sound words p Hwf n r Hn Hr) as (_ & Hstable).
  exists r. split; [exact Hr|]. split; [exact Hstable|].
  intros r' Hr'. rewrite Hstable in Hr'. apply Some_inj in Hr'. subst r'. reflexivity.
Qed.

Lemma RemoveWordOptions_idempotent_witness :
  wellFormed catsAndDogs = true
  /\ exists r, RemoveWordOptions catsAndDogs ["cat"; "dog"]%string = Some r
               /\ RemoveWordOptions (value catsAndDogs r) ["cat"; "dog"]%string = Some Same
               /\ forall r', RemoveWordOptions (value catsAndDogs r) ["cat"; "dog"]%string
                             = Some r' ->
                             Iterate (value (value catsAndDogs r) r')
                             = Iterate (value catsAndDogs r).
Proof.
  split; [reflexivity|].
  apply (RemoveWordOptions_idempotent catsAndDogs ["cat"; "dog"]%string). reflexivity.
Defined.

(** C8, as stated, fails in the vacuous case: [Impossible] yields no line,
    so every line it yields is blocked at [0], and it answers [false]. *)
Lemma Impossible_not_blocked :
  wellFormed (Impossible 3) = true /\ NumLetters (Impossible 3) = Some 3 /\ 0 <= 0 < 3
  /\ ~ blockedIffAllBlocked (Impossible 3) 0.
Proof.
  split; [reflexivity|]. split; [reflexivity|]. split; [lia|].
  intros (b & Hb & Hiff). cbn [DefinitelyBlockedAt] in Hb. apply Some_inj in Hb. subst b.
  assert (H : false = true) by (apply Hiff; intros l []). discriminate.
Qed.

(** C8, amended.  For a well-formed [p] that yields at least one line and
    an index [i] below [NumLetters p], [DefinitelyBlockedAt p i] is true
    exactly when every line of [p] has the blocked cell at [i]. *)
Theorem DefinitelyBlockedAt_iff (p : PossibleLines) (n i : Z) :
  wellFormed p = true -> NumLetters p = Some n -> 0 <= i < n -> Iterate p <> [] ->
  blockedIffAllBlocked p i.
Proof.
  intros Hwf Hn Hi Hne. apply (DefinitelyBlockedAt_spec p Hwf n i Hn Hi).
  destruct p; try reflexivity. contradiction Hne. reflexivity.
Qed.

Lemma DefinitelyBlockedAt_iff_witness :
  wellFormed (BlockBefore catsAndDogs) = true
  /\ NumLetters (BlockBefore catsAndDogs) = Some 4 /\ 0 <= 0 < 4
  /\ Iterate (BlockBefore catsAndDogs) <> []
  /\ blockedIffAllBlocked (BlockBefore catsAndDogs) 0.
Proof.
  split; [reflexivity|]. split; [reflexivity|]. split; [lia|]. split; [discriminate|].
  apply (DefinitelyBlockedAt_iff (BlockBefore catsAndDogs) 4 0);
    [reflexivity | reflexivity | lia | discriminate].
Defined.

(** C10.  For a well-formed [p], whatever [Filter], [FilterAny] and
    [RemoveWordOptions] return has [NumLetters] equal to that of [p];
    [RemoveWordOptions] always returns, and so do [Filter] and [FilterAny]
    at the indices below [NumLetters p]. *)
Theorem restrictions_preserve_NumLetters (p : PossibleLines) :
  wellFormed p = true ->
  (forall ch i r, Filter p ch i = Some r -> NumLetters (value p r) = NumLetters p)
  /\ (forall cs i r, FilterAny p cs i = Some r -> NumLetters (value p r) = NumLetters p)
  /\ (forall words, exists r, RemoveWordOptions p words = Some r
                              /\ NumLetters (value p r) = NumLetters p)
  /\ (forall ch cs i n, NumLetters p = Some n -> 0 <= i < n ->
                        (exists r, Filter p ch i = Some r)
                        /\ (exists r, FilterAny p cs i = Some r)).
Proof.
  intros Hwf. destruct (wellFormed_NumLetters p Hwf) as (n & Hn & _). rewrite Hn.
  split; [|split; [|split]].
  - intros ch i r Hr. apply (Filter_sound ch p Hwf n i r Hn Hr).
  - intros cs i r Hr. apply (FilterAny_sound cs p Hwf n i r Hn Hr).
  - intros words. destruct (RemoveWordOptions_total words p Hwf) as (r & Hr).
    exists r. split; [exact Hr|].
    apply (RemoveWordOptions_sound words p Hwf n r Hn Hr).
  - intros ch cs i m Hm Hi. apply Some_inj in Hm. subst m. split.
    + apply (Filter_total ch p Hwf n i Hn Hi).
    + apply (FilterAny_total cs p Hwf n i Hn Hi).
Qed.

Lemma restrictions_preserve_NumLetters_witness :
  wellFormed catsAndDogs = true
  /\ (forall ch i r, Filter catsAndDogs ch i = Some r ->
                     NumLetters (value catsAndDogs r) = NumLetters catsAndDogs)
  /\ (forall cs i r, FilterAny catsAndDogs cs i = Some r ->
                     NumLetters (value catsAndDogs r) = NumLetters catsAndDogs)
  /\ (forall words, exists r, RemoveWordOptions catsAndDogs words = Some r
                              /\ NumLetters (value catsAndDogs r) = NumLetters catsAndDogs)
  /\ (forall ch cs i n, NumLetters catsAndDogs = Some n -> 0 <= i < n ->
                        (exists r, Filter catsAndDogs ch i = Some r)
                        /\ (exists r, FilterAny catsAndDogs cs i = Some r)).
Proof.
  split; [reflexivity|]. apply (restrictions_preserve_NumLetters catsAndDogs). reflexivity.
Defined.
End LineClaims.

(** ** The propagator *)
Module PropagatorFacts.
Import WordGenLib GridSpec.
Import LinesFacts.

Lemma Forall2_incl_refl (axis : list (list ScoredLine)) : Forall2 (@incl ScoredLine) axis axis.
Proof. induction axis; constructor; auto using incl_refl. Qed.

Lemma Forall2_incl_trans (a b c : list (list ScoredLine)) :
  Forall2 (@incl ScoredLine) a b -> Forall2 (@incl ScoredLine) b c ->
  Forall2 (@incl ScoredLine) a c.
Proof.
  intros Hab. revert c. induction Hab as [|x y a b Hxy _ IH]; intros c Hbc.
  - inversion Hbc. constructor.
  - inversion Hbc as [|y' z b' c' Hyz Hbc']; subst. constructor.
    + eapply incl_tran; eauto.
    + apply IH. assumption.
Qed.

Lemma noLooser_refl (s : GridState) : noLooser s s.
Proof. split; apply Forall2_incl_refl. Qed.

Lemma noLooser_trans (a b c : GridState) : noLooser a b -> noLooser b c -> noLooser a c.
Proof. intros [H1 H2] [H3 H4]. split; eapply Forall2_incl_trans; eauto. Qed.

Lemma whereM_incl {A : Type} (f : A -> option bool) (l : list A) :
  forall kept, whereM f l = Some kept -> incl kept l.
Proof.
  induction l as [|a l IH]; intros kept H; cbn [whereM] in H.
  - apply Some_inj in H. subst kept. apply incl_refl.
  - bind_inv H. bind_inv H. apply Some_inj in H. subst kept.
    specialize (IH _ Ha0). destruct a0.
    + apply incl_cons; [left; reflexivity | apply incl_tl, IH].
    + apply incl_tl, IH.
Qed.

Lemma selectM_Forall2 {A B : Type} (R : B -> A -> Prop) (f : A -> nat -> option B)
      (l : list A) :
  (forall a y b, f a y = Some b -> R b a) ->
  forall y out, selectM f y l = Some out -> Forall2 R out l.
Proof.
  intros Hf. induction l as [|a l IH]; intros y out H; cbn [selectM] in H.
  - apply Some_inj in H. subst out. constructor.
  - bind_inv H. bind_inv H. apply Some_inj in H. subst out. constructor; eauto.
Qed.

(** A tightening pass that returns, returns a state that is no looser. *)
Lemma Prefilter_noLooser (state : GridState) (direction : Direction) (out : GridState) :
  Prefilter state direction = Some out -> noLooser out state.
Proof.
  unfold Prefilter. intros H.
  destruct (existsb isEmpty _ || existsb isEmpty _).
  { apply Some_inj in H. subst out. apply noLooser_refl. }
  bind_inv H. bind_inv H.
  apply selectM_Forall2 with (R := @incl ScoredLine) in Ha0;
    [|intros possibles y kept Hk; apply (whereM_incl _ _ _ Hk)].
  destruct direction; apply Some_inj in H; subst out; split; cbn [Down Across];
    auto using Forall2_incl_refl.
Qed.

Lemma propagateFrom_noLooser (passes : nat) :
  forall tries root direction out,
    propagateFrom passes tries root direction = Some out -> noLooser out root.
Proof.
  induction passes as [|passes IH]; intros tries root direction out H;
    cbn [propagateFrom] in H.
  - apply Some_inj in H. subst out. apply noLooser_refl.
  - destruct (tries <? 4); [|apply Some_inj in H; subst out; apply noLooser_refl].
    bind_inv H. bind_inv H.
    destruct (negb a0 && (1 <? tries + 1)).
    + apply Some_inj in H. subst out. apply noLooser_refl.
    + apply (noLooser_trans _ a); [apply (IH _ _ _ _ H) | apply (Prefilter_noLooser _ _ _ Ha)].
Qed.

(** *** A pass on a square grid returns *)
Lemma length_setNth {A : Type} (k : nat) (x : A) (l : list A) :
  List.length (setNth k x l) = List.length l.
Proof. revert k. induction l as [|y l IH]; intros [|k]; cbn [setNth List.length]; auto. Qed.

Lemma nth_error_setNth_eq {A : Type} (k : nat) (x : A) (l : list A) :
  (k < List.length l)%nat -> nth_error (setNth k x l) k = Some x.
Proof.
  revert k. induction l as [|y l IH]; intros [|k] Hk; cbn [setNth nth_error List.length] in *;
    try lia; auto. apply IH. lia.
Qed.

Lemma nth_error_setNth_neq {A : Type} (k k' : nat) (x : A) (l : list A) :
  k <> k' -> nth_error (setNth k x l) k' = nth_error l k'.
Proof.
  revert k k'. induction l as [|y l IH]; intros [|k] [|k'] Hk; cbn [setNth nth_error];
    try congruence; auto.
Qed.

Lemma In_setNth {A : Type} (k : nat) (x z : A) (l : list A) :
  In z (setNth k x l) -> z = x \/ In z l.
Proof.
  revert k. induction l as [|y l IH]; intros [|k] H; cbn [setNth] in H; auto.
  - destruct H as [<-|H]; [left; reflexivity | right; right; exact H].
  - destruct H as [<-|H]; [right; left; reflexivity|].
    destruct (IH _ H); [left | right; right]; assumption.
Qed.

Lemma shaped_new (n : nat) : shaped n (GridDictionary_new n).
Proof.
  unfold GridDictionary_new. split; [apply repeat_length|].
  apply Forall_forall. intros row Hrow. apply repeat_spec in Hrow. subst row.
  split; [apply repeat_length|]. apply Forall_forall. intros e He.
  apply repeat_spec in He. subst e. intros s Hs. discriminate.
Qed.

Lemma shaped_row (n : nat) (d : GridDictionary) (x : nat) :
  shaped n d -> (x < n)%nat ->
  exists row, nth_error d x = Some row /\ List.length row = n /\ Forall setOk row.
Proof.
  intros [Hlen Hrows] Hx. destruct (nth_error d x) as [row|] eqn:Hrow.
  - exists row. split; [reflexivity|]. rewrite Forall_forall in Hrows.
    apply Hrows. apply (nth_error_In _ _ Hrow).
  - apply nth_error_None in Hrow. lia.
Qed.

Lemma shaped_entry (n : nat) (d : GridDictionary) (x y : nat) :
  shaped n d -> (x < n)%nat -> (y < n)%nat ->
  exists e, entry d x y = Some e /\ setOk e.
Proof.
  intros Hd Hx Hy. destruct (shaped_row n d x Hd Hx) as (row & Hrow & Hlen & Hok).
  unfold entry. rewrite Hrow. cbn [bind].
  destruct (nth_error row y) as [e|] eqn:He.
  - exists e. split; [reflexivity|]. rewrite Forall_forall in Hok.
    apply Hok. apply (nth_error_In _ _ He).
  - apply nth_error_None in He. lia.
Qed.

Lemma shaped_store (n : nat) (d : GridDictionary) (x y : nat) (s : CharSet) :
  shaped n d -> List.length s = 27%nat -> shaped n (store d x y s).
Proof.
  intros [Hlen Hrows] Hs. unfold store. destruct (nth_error d x) as [row|] eqn:Hrow;
    [|split; assumption].
  split; [rewrite length_setNth; exact Hlen|].
  rewrite Forall_forall in *. intros r Hr. apply In_setNth in Hr as [->|Hr]; [|auto].
  destruct (Hrows row (nth_error_In _ _ Hrow)) as [Hl Hok].
  split; [rewrite length_setNth; exact Hl|].
  rewrite Forall_forall in *. intros e He. apply In_setNth in He as [->|He]; [|auto].
  intros s' Hs'. apply Some_inj in Hs'. subst s'. exact Hs.
Qed.

Lemma entry_store_eq (n : nat) (d : GridDictionary) (x y : nat) (s : CharSet) :
  shaped n d -> (x < n)%nat -> (y < n)%nat -> entry (store d x y s) x y = Some (Some s).
Proof.
  intros Hd Hx Hy. destruct (shaped_row n d x Hd Hx) as (row & Hrow & Hlen & _).
  unfold store, entry. rewrite Hrow.
  rewrite nth_error_setNth_eq by (destruct Hd; lia). cbn [bind].
  apply nth_error_setNth_eq. lia.
Qed.

Lemma entry_store_other (d : GridDictionary) (x y x' y' : nat) (s : CharSet) :
  x' <> x \/ y' <> y -> entry (store d x y s) x' y' = entry d x' y'.
Proof.
  intros Hne. unfold store, entry. destruct (nth_error d x) as [row|] eqn:Hrow; [|reflexivity].
  destruct (Nat.eq_dec x x') as [<-|Hx].
  - assert (Hlt : (x < List.length d)%nat) by (apply nth_error_Some; congruence).
    rewrite nth_error_setNth_eq by exact Hlt. rewrite Hrow. cbn [bind].
    apply nth_error_setNth_neq. destruct Hne; congruence.
  - rewrite nth_error_setNth_neq by exact Hx. reflexivity.
Qed.

Lemma filledAt_store (n : nat) (d : GridDictionary) (x y x' y' : nat) (s : CharSet) :
  shaped n d -> (x < n)%nat -> (y < n)%nat ->
  filledAt d x' y' -> filledAt (store d x y s) x' y'.
Proof.
  intros Hd Hx Hy Hf. destruct (Nat.eq_dec x' x) as [->|Hnx].
  - destruct (Nat.eq_dec y' y) as [->|Hny].
    + exists s. apply (entry_store_eq n); assumption.
    + destruct Hf as (s' & Hs'). exists s'. rewrite entry_store_other by auto. exact Hs'.
  - destruct Hf as (s' & Hs'). exists s'. rewrite entry_store_other by auto. exact Hs'.
Qed.

Lemma slot_ok (s : CharSet) (c : ascii) :
  List.length s = 27%nat -> inAlphabet c = true ->
  exists k, slot s c = Some k /\ (k < List.length s)%nat.
Proof.
  intros Hs Hc. unfold inAlphabet in Hc. apply andb_true_iff in Hc as [H1 H2].
  apply Z.leb_le in H1, H2. unfold slot. rewrite Hs.
  change (code "z") with 122 in H2. change (code BLOCKED) with 96 in *.
  replace ((0 <=? code c - 96) && (code c - 96 <? Z.of_nat 27)) with true.
  - eexists. split; [reflexivity|]. lia.
  - symmetry. apply andb_true_iff. split; [apply Z.leb_le | apply Z.ltb_lt]; lia.
Qed.

Lemma CharSet_Add_ok (s : CharSet) (c : ascii) :
  List.length s = 27%nat -> inAlphabet c = true ->
  exists s', CharSet_Add s c = Some s' /\ List.length s' = 27%nat.
Proof.
  intros Hs Hc. destruct (slot_ok s c Hs Hc) as (k & Hk & _).
  unfold CharSet_Add. rewrite Hk. cbn [bind]. eexists. split; [reflexivity|].
  rewrite length_setNth. exact Hs.
Qed.

Lemma CharSet_Contains_ok (s : CharSet) (c : ascii) :
  List.length s = 27%nat -> inAlphabet c = true -> exists b, CharSet_Contains s c = Some b.
Proof.
  intros Hs Hc. destruct (slot_ok s c Hs Hc) as (k & Hk & Hlt).
  unfold CharSet_Contains. rewrite Hk. cbn [bind].
  destruct (nth_error s k) as [b|] eqn:Hb; [eauto|]. apply nth_error_None in Hb. lia.
Qed.

Lemma length_CharSet_new : List.length CharSet_new = 27%nat.
Proof. reflexivity. Qed.

Lemma addChars_ok (n x : nat) (arr : list ascii) :
  (x < n)%nat -> forallb inAlphabet arr = true ->
  forall d y, shaped n d -> (y + List.length arr <= n)%nat ->
  exists d', addChars d x y arr = Some d' /\ shaped n d'
             /\ (forall x' y', filledAt d x' y' -> filledAt d' x' y')
             /\ (forall y', (y <= y' < y + List.length arr)%nat -> filledAt d' x y').
Proof.
  intros Hx. induction arr as [|c arr IH]; intros Hc d y Hd Hy; cbn [addChars].
  - exists d. split; [reflexivity|]. split; [exact Hd|]. split; [auto|].
    intros y' Hy'. cbn [List.length] in Hy'. lia.
  - cbn [forallb List.length] in *. apply andb_true_iff in Hc as [Hc Harr].
    destruct (shaped_entry n d x y Hd Hx ltac:(lia)) as (e & He & Hok).
    unfold GetOrAddDefault. rewrite He. cbn [bind].
    assert (Hset : exists set, match e with Some s => Some s | None => Some CharSet_new end
                               = Some set /\ List.length set = 27%nat).
    { destruct e as [s|]; eexists; split; try reflexivity; auto using length_CharSet_new. }
    destruct Hset as (set & -> & Hlen). cbn [bind].
    destruct (CharSet_Add_ok set c Hlen Hc) as (set' & -> & Hlen'). cbn [bind].
    destruct (IH Harr (store d x y set') (S y)) as (d' & Hd' & Hs' & Hkeep & Hnew);
      [apply shaped_store; assumption | lia|].
    exists d'. split; [exact Hd'|]. split; [exact Hs'|]. split.
    + intros x' y' Hf. apply Hkeep. apply (filledAt_store n); auto. lia.
    + intros y' Hy'. destruct (Nat.eq_dec y' y) as [->|Hne].
      * apply Hkeep. exists set'. apply (entry_store_eq n); auto. lia.
      * apply Hnew. lia.
Qed.

Lemma lineOk_chars (n : nat) (line : ScoredLine) :
  lineOk n line = true ->
  List.length (chars (Line line)) = n /\ forallb inAlphabet (chars (Line line)) = true.
Proof.
  unfold lineOk. intros H. apply andb_true_iff in H as [H1 H2]. apply Nat.eqb_eq in H1.
  split; [|exact H2]. unfold chars. rewrite <- H1.
  generalize (Line line). intros s. induction s; cbn; congruence.
Qed.

Lemma addLines_ok (n x : nat) (c : list ScoredLine) :
  (x < n)%nat -> linesOk n c ->
  forall d, shaped n d ->
  exists d', addLines d x c = Some d' /\ shaped n d'
             /\ (forall x' y', filledAt d x' y' -> filledAt d' x' y')
             /\ (c <> [] -> forall y', (y' < n)%nat -> filledAt d' x y').
Proof.
  intros Hx. induction 1 as [|line c Hline _ IH]; intros d Hd; cbn [addLines].
  - exists d. split; [reflexivity|]. split; [exact Hd|]. split; [auto|]. congruence.
  - destruct (lineOk_chars n line Hline) as [Hlen Hc].
    destruct (addChars_ok n x (chars (Line line)) Hx Hc d 0%nat Hd ltac:(lia))
      as (d1 & -> & Hd1 & Hkeep1 & Hnew1). cbn [bind].
    destruct (IH d1 Hd1) as (d' & Hd' & Hs' & Hkeep & _).
    exists d'. split; [exact Hd'|]. split; [exact Hs'|]. split; [auto|].
    intros _ y' Hy'. apply Hkeep, Hnew1. lia.
Qed.

Lemma addConstraint_ok (n : nat) (constraint : list (list ScoredLine)) :
  Forall (fun c => linesOk n c /\ isEmpty c = false) constraint ->
  forall d x, shaped n d -> (x + List.length constraint <= n)%nat ->
  exists d', addConstraint d x constraint = Some d' /\ shaped n d'
             /\ (forall x' y', filledAt d x' y' -> filledAt d' x' y')
             /\ (forall x' y', (x <= x' < x + List.length constraint)%nat -> (y' < n)%nat ->
                                filledAt d' x' y').
Proof.
  induction 1 as [|c constraint [Hc Hne] _ IH]; intros d x Hd Hx; cbn [addConstraint].
  - exists d. split; [reflexivity|]. split; [exact Hd|]. split; [auto|].
    intros x' y' Hx'. cbn [List.length] in Hx'. lia.
  - cbn [List.length] in Hx.
    destruct (addLines_ok n x c ltac:(lia) Hc d Hd) as (d1 & -> & Hd1 & Hkeep1 & Hnew1).
    cbn [bind].
    destruct (IH d1 (S x) Hd1 ltac:(lia)) as (d' & Hd' & Hs' & Hkeep & Hnew).
    exists d'. split; [exact Hd'|]. split; [exact Hs'|]. split; [auto|].
    intros x' y' Hx' Hy'. cbn [List.length] in Hx'.
    destruct (Nat.eq_dec x' x) as [->|Hnx].
    + apply Hkeep, Hnew1; [|exact Hy']. destruct c; [discriminate | congruence].
    + apply Hnew; [lia | exact Hy'].
Qed.

Lemma allowed_ok (n : nat) (d : GridDictionary) (y : nat) (line : list ascii) :
  shaped n d -> (forall x' y', (x' < n)%nat -> (y' < n)%nat -> filledAt d x' y') ->
  (y < n)%nat -> forallb inAlphabet line = true ->
  forall x, (x + List.length line <= n)%nat -> exists b, allowed d y x line = Some b.
Proof.
  intros Hd Hfull Hy. induction line as [|c line IH]; intros Hc x Hx; cbn [allowed]; [eauto|].
  cbn [forallb List.length] in *. apply andb_true_iff in Hc as [Hc Hline].
  destruct (Hfull x y ltac:(lia) Hy) as (s & Hs).
  destruct (shaped_entry n d x y Hd ltac:(lia) Hy) as (e & He & Hok).
  rewrite Hs in He. apply Some_inj in He. subst e.
  unfold item. rewrite Hs. cbn [bind].
  destruct (CharSet_Contains_ok s c (Hok s eq_refl) Hc) as (b & ->). cbn [bind].
  destruct b; [apply IH; [assumption | lia] | eauto].
Qed.

Lemma whereM_total {A : Type} (f : A -> option bool) (l : list A) :
  Forall (fun a => exists b, f a = Some b) l -> exists kept, whereM f l = Some kept.
Proof.
  induction 1 as [|a l (b & Hb) _ (kept & IH)]; cbn [whereM]; [eauto|].
  rewrite Hb, IH. cbn [bind]. eauto.
Qed.

Lemma selectM_total {A B : Type} (f : A -> nat -> option B) (n : nat) (l : list A) :
  forall y, (y + List.length l <= n)%nat ->
  Forall (fun a => forall y', (y' < n)%nat -> exists b, f a y' = Some b) l ->
  exists out, selectM f y l = Some out.
Proof.
  induction l as [|a l IH]; intros y Hy Hall; cbn [selectM]; [eauto|].
  cbn [List.length] in Hy.
  destruct (Forall_inv Hall y ltac:(lia)) as (b & ->). cbn [bind].
  destruct (IH (S y) ltac:(lia) (Forall_inv_tail Hall)) as (out & ->). cbn [bind]. eauto.
Qed.

Lemma selectM_length {A B : Type} (f : A -> nat -> option B) (l : list A) :
  forall y out, selectM f y l = Some out -> List.length out = List.length l.
Proof.
  induction l as [|a l IH]; intros y out H; cbn [selectM] in H.
  - apply Some_inj in H. subst out. reflexivity.
  - bind_inv H. bind_inv H. apply Some_inj in H. subst out. cbn [List.length]. eauto.
Qed.

Lemma squareGrid_axes (state : GridState) :
  squareGrid state = true <->
  axisOk (List.length (Across state)) (Down state)
  /\ axisOk (List.length (Across state)) (Across state).
Proof.
  unfold squareGrid, axisOk, linesOk. cbv zeta.
  rewrite !andb_true_iff, Nat.eqb_eq, !forallb_forall, !Forall_forall.
  split.
  - intros [[H1 H2] H3]. repeat split; auto; intros c Hc; apply Forall_forall;
      [specialize (H2 c Hc) | specialize (H3 c Hc)];
      rewrite forallb_forall in *; auto.
  - intros [[H1 H2] [_ H3]]. repeat split; auto; intros c Hc;
      [specialize (H2 c Hc) | specialize (H3 c Hc)];
      rewrite Forall_forall in *; apply forallb_forall; auto.
Qed.

Lemma axisOk_tighter (n : nat) (out axis : list (list ScoredLine)) :
  Forall2 (@incl ScoredLine) out axis -> axisOk n axis -> axisOk n out.
Proof.
  intros H [Hlen Hall]. split; [rewrite (Forall2_length H); exact Hlen|].
  clear Hlen. induction H as [|o a out axis Hoa _ IH]; constructor.
  - apply Forall_inv in Hall. unfold linesOk in *. rewrite Forall_forall in *. auto.
  - apply IH. apply (Forall_inv_tail Hall).
Qed.

Lemma noLooser_squareGrid (out state : GridState) :
  noLooser out state -> squareGrid state = true -> squareGrid out = true.
Proof.
  intros [Hd Ha] Hsq. apply squareGrid_axes in Hsq as [H1 H2].
  apply squareGrid_axes. rewrite (Forall2_length Ha).
  split; eapply axisOk_tighter; eauto.
Qed.

Lemma existsb_isEmpty_false (axis : list (list ScoredLine)) :
  existsb isEmpty axis = false -> Forall (fun c => isEmpty c = false) axis.
Proof.
  intros H. apply Forall_forall. intros c Hc.
  destruct (isEmpty c) eqn:He; [|reflexivity].
  assert (existsb isEmpty axis = true) by (apply existsb_exists; eauto). congruence.
Qed.

Lemma Prefilter_total (state : GridState) (direction : Direction) :
  squareGrid state = true -> exists out, Prefilter state direction = Some out.
Proof.
  intros Hsq. apply squareGrid_axes in Hsq as [[HlenD HD] [_ HA]].
  set (n := List.length (Across state)) in *.
  unfold Prefilter.
  set (toFilter := match direction with Horizontal => Across state | Vertical => Down state end).
  set (constraint := match direction with Horizontal => Down state | Vertical => Across state end).
  assert (Hto : axisOk n toFilter) by (destruct direction; split; auto).
  assert (Hco : axisOk n constraint) by (destruct direction; split; auto).
  destruct (existsb isEmpty toFilter) eqn:He1; cbn [orb]; [eauto|].
  destruct (existsb isEmpty constraint) eqn:He2; [eauto|].
  destruct Hto as [HlenT HT]. destruct Hco as [HlenC HC].
  destruct (addConstraint_ok n constraint) with (d := GridDictionary_new n) (x := 0%nat)
    as (available & Hav & Hshape & _ & Hfull).
  { apply existsb_isEmpty_false in He2. rewrite Forall_forall in *. auto. }
  { apply shaped_new. }
  { lia. }
  fold n. rewrite Hav. cbn [bind].
  destruct (selectM_total
              (fun possibles y =>
                 whereM (fun line => allowed available y 0 (chars (Line line))) possibles)
              n toFilter 0%nat) as (filtered & ->).
  { lia. }
  { revert HT. apply Forall_impl. intros possibles Hp y Hy.
    apply whereM_total. revert Hp. apply Forall_impl. intros line Hline.
    destruct (lineOk_chars n line Hline) as [Hlen Hc].
    apply (allowed_ok n); auto; [intros; apply Hfull; lia | lia]. }
  cbn [bind]. destruct direction; eauto.
Qed.

Lemma ChangedFrom_total (before after : GridState) (count : nat) :
  forall i,
    (i + count <= List.length (Down before))%nat ->
    (i + count <= List.length (Down after))%nat ->
    (i + count <= List.length (Across before))%nat ->
    (i + count <= List.length (Across after))%nat ->
    exists b, ChangedFrom i count before after = Some b.
Proof.
  induction count as [|count IH]; intros i H1 H2 H3 H4; cbn [ChangedFrom]; [eauto|].
  destruct (nth_error (Down before) i) eqn:E1; [|apply nth_error_None in E1; lia].
  destruct (nth_error (Down after) i) eqn:E2; [|apply nth_error_None in E2; lia].
  destruct (nth_error (Across before) i) eqn:E3; [|apply nth_error_None in E3; lia].
  destruct (nth_error (Across after) i) eqn:E4; [|apply nth_error_None in E4; lia].
  cbn [bind]. destruct (negb _); [eauto|]. cbn [bind]. destruct (negb _); [eauto|].
  apply IH; lia.
Qed.

Lemma Changed_total (before after : GridState) :
  squareGrid before = true -> noLooser after before ->
  exists b, Changed before after = Some b.
Proof.
  intros Hsq [Hd Ha]. apply squareGrid_axes in Hsq as [[HlenD _] _].
  apply Forall2_length in Hd, Ha. unfold Changed. apply ChangedFrom_total; lia.
Qed.

Lemma propagateFrom_total (passes : nat) :
  forall tries root direction,
    squareGrid root = true -> exists out, propagateFrom passes tries root direction = Some out.
Proof.
  induction passes as [|passes IH]; intros tries root direction Hsq;
    cbn [propagateFrom]; [eauto|].
  destruct (tries <? 4); [|eauto].
  destruct (Prefilter_total root direction Hsq) as (newState & Hnew). rewrite Hnew.
  cbn [bind]. pose proof (Prefilter_noLooser _ _ _ Hnew) as Hle.
  destruct (Changed_total root newState Hsq Hle) as (changed & ->). cbn [bind].
  destruct (negb changed && (1 <? tries + 1)); [eauto|].
  apply IH. apply (noLooser_squareGrid _ _ Hle Hsq).
Qed.

(** The loop makes at most four passes: more iterations than [propagate]
  allows for change nothing. *)
Lemma propagateFrom_passes (passes : nat) :
forall extra tries root direction,
  4 <= tries + Z.of_nat passes ->
  propagateFrom (passes + extra) tries root direction
  = propagateFrom passes tries root direction.
Proof.
induction passes as [|passes IH]; intros extra tries root direction Hfour.
- cbn [Nat.add propagateFrom]. destruct extra as [|extra]; [reflexivity|].
  cbn [propagateFrom]. destruct (Z.ltb_spec tries 4); [lia | reflexivity].
- cbn [Nat.add propagateFrom]. destruct (tries <? 4); [|reflexivity].
  destruct (Prefilter root direction) as [newState|]; [|reflexivity]. cbn [bind].
  destruct (Changed root newState) as [changed|]; [|reflexivity]. cbn [bind].
  destruct (negb changed && (1 <? tries + 1)); [reflexivity|]. apply IH. lia.
Qed.

Lemma propagate_passes (extra : nat) (root : GridState) :
propagateFrom (4 + extra) 0 root Horizontal = propagate root.
Proof. apply propagateFrom_passes. lia. Qed.
End PropagatorFacts.

(** ** The pattern enumerator *)
Module EnumeratorFacts.
Import WordGenLib GridSpec.
Import LinesFacts.

Lemma extends_refl {A : Type} (e : Enumeration A) : extends e e.
Proof. unfold extends. destruct (status e); auto. exists []. symmetry. apply app_nil_r. Qed.

Lemma extends_trans {A : Type} (e1 e2 e3 : Enumeration A) :
  extends e1 e2 -> extends e2 e3 -> extends e1 e3.
Proof.
  unfold extends. intros H12 H23. destruct (status e1) eqn:H1.
  - subst e2. rewrite H1 in H23. exact H23.
  - subst e2. rewrite H1 in H23. exact H23.
  - destruct H12 as (more & Hm). destruct (status e2).
    + subst e3. eauto.
    + subst e3. eauto.
    + destruct H23 as (more' & Hm'). exists (more ++ more').
      rewrite Hm', Hm, app_assoc. reflexivity.
Qed.

Lemma extends_pending {A : Type} (e : Enumeration A) : extends pending e.
Proof. exists (yielded e). reflexivity. Qed.

Lemma extends_In {A : Type} (e e' : Enumeration A) (x : A) :
  extends e e' -> In x (yielded e) -> In x (yielded e').
Proof.
  unfold extends. intros H Hx. destruct (status e); try (subst e'; exact Hx).
  destruct H as (more & ->). apply in_or_app. left. exact Hx.
Qed.

Lemma andThen_extends {A : Type} (e1 e1' e2 e2' : Enumeration A) :
  extends e1 e1' -> extends e2 e2' -> extends (andThen e1 e2) (andThen e1' e2').
Proof.
  unfold extends, andThen. intros H1 H2. destruct (status e1) eqn:Hs1.
  - subst e1'. rewrite Hs1. cbn [status yielded]. destruct (status e2) eqn:Hs2.
    + subst e2'. rewrite Hs2. reflexivity.
    + subst e2'. rewrite Hs2. reflexivity.
    + destruct H2 as (more & ->). exists more. apply app_assoc.
  - subst e1'. rewrite ?Hs1. reflexivity.
  - rewrite Hs1. destruct H1 as (more & Hm). destruct (status e1').
    + cbn [yielded]. rewrite Hm, <- app_assoc. eauto.
    + eauto.
    + eauto.
Qed.

Lemma foreachIn_extends {A B : Type} (body body' : A -> Enumeration B)
      (items : list A) (last : Status) :
  (forall x, extends (body x) (body' x)) ->
  forall items' last',
    match last with
    | Pending => exists more, items' = items ++ more
    | _ => items' = items /\ last' = last
    end ->
    extends (foreachIn items last body) (foreachIn items' last' body').
Proof.
  intros Hbody. induction items as [|x items IH]; intros items' last' Hitems.
  - cbn [foreachIn]. unfold extends. cbn [status yielded]. destruct last.
    + destruct Hitems as [-> ->]. reflexivity.
    + destruct Hitems as [-> ->]. reflexivity.
    + eexists. reflexivity.
  - assert (Hcons : exists rest, items' = x :: rest
                                 /\ match last with
                                    | Pending => exists more, rest = items ++ more
                                    | _ => rest = items /\ last' = last
                                    end).
    { destruct last; try (destruct Hitems as [-> ->]; eauto).
      destruct Hitems as (more & ->). exists (items ++ more). eauto. }
    destruct Hcons as (rest & -> & Hrest). cbn [foreachIn].
    apply andThen_extends; [apply Hbody | apply IH; exact Hrest].
Qed.

Lemma foreach_extends {A B : Type} (e e' : Enumeration A) (body body' : A -> Enumeration B) :
  extends e e' -> (forall x, extends (body x) (body' x)) ->
  extends (foreach e body) (foreach e' body').
Proof.
  intros He Hbody. unfold foreach. apply foreachIn_extends; [exact Hbody|].
  unfold extends in He. destruct (status e) eqn:Hs; try (subst e'; rewrite Hs; auto).
  exact He.
Qed.

Lemma AllPossibleLines_body_extends (g : Generator)
      (recurse recurse' : Z -> Enumeration ScoredLine) (maxLength : Z) :
  (forall n, extends (recurse n) (recurse' n)) ->
  extends (AllPossibleLines_body g recurse maxLength)
          (AllPossibleLines_body g recurse' maxLength).
Proof.
  intros IH. unfold AllPossibleLines_body.
  destruct (gridSize g <? maxLength); [apply extends_refl|].
  destruct (maxLength <? 3); [apply extends_refl|].
  apply andThen_extends; [apply extends_refl|].
  apply andThen_extends; [apply extends_refl|].
  apply andThen_extends.
  - apply foreach_extends; [apply IH | intros line; apply extends_refl].
  - unfold forRange. apply foreach_extends; [apply extends_refl|]. intros i. cbv zeta.
    destruct (gridSize g - (i + 1) <? 3); [apply extends_refl|].
    apply foreach_extends; [apply IH|]. intros firstHalf.
    apply foreach_extends; [apply IH|]. intros secondHalf. apply extends_refl.
Qed.

(** More fuel follows the enumeration further. *)
Lemma AllPossibleLines_step (g : Generator) (fuel : nat) :
  forall maxLength,
    extends (AllPossibleLines g fuel maxLength) (AllPossibleLines g (S fuel) maxLength).
Proof.
  induction fuel as [|fuel IH]; intros maxLength; [apply extends_pending|].
  change (extends (AllPossibleLines_body g (AllPossibleLines g fuel) maxLength)
                  (AllPossibleLines_body g (AllPossibleLines g (S fuel)) maxLength)).
  apply AllPossibleLines_body_extends, IH.
Qed.

Lemma AllPossibleLines_more (g : Generator) (maxLength : Z) (fuel more : nat) :
  extends (AllPossibleLines g fuel maxLength) (AllPossibleLines g (more + fuel) maxLength).
Proof.
  induction more as [|more IH]; [apply extends_refl|].
  eapply extends_trans; [exact IH | apply AllPossibleLines_step].
Qed.

(** A line yielded with some fuel is yielded with any larger fuel. *)
Lemma produces_stable (g : Generator) (maxLength : Z) (line : ScoredLine) (fuel fuel' : nat) :
  (fuel <= fuel')%nat ->
  In line (yielded (AllPossibleLines g fuel maxLength)) ->
  In line (yielded (AllPossibleLines g fuel' maxLength)).
Proof.
  intros Hle. replace fuel' with ((fuel' - fuel) + fuel)%nat by lia.
  apply extends_In, AllPossibleLines_more.
Qed.

(** *** Where the enumeration of lines ends *)
Lemma andThen_Done {A : Type} (e1 e2 : Enumeration A) :
  status (andThen e1 e2) = Done -> status e1 = Done /\ status e2 = Done.
Proof.
  unfold andThen. destruct (status e1) eqn:H1; cbn [status]; intros H; [auto | |];
    rewrite H in H1; discriminate.
Qed.

Lemma foreachIn_Done {A B : Type} (items : list A) (last : Status) (body : A -> Enumeration B) :
  status (foreachIn items last body) = Done -> last = Done.
Proof.
  induction items as [|x items IH]; cbn [foreachIn status]; [auto|].
  intros H. apply andThen_Done in H as [_ H]. auto.
Qed.

Lemma andThen_ends {A : Type} (e1 e2 : Enumeration A) :
  status e1 <> Pending -> status e2 <> Pending -> status (andThen e1 e2) <> Pending.
Proof. unfold andThen. destruct (status e1) eqn:H1; cbn [status]; congruence. Qed.

Lemma foreachIn_ends {A B : Type} (items : list A) (last : Status) (body : A -> Enumeration B) :
  last <> Pending -> (forall x, status (body x) <> Pending) ->
  status (foreachIn items last body) <> Pending.
Proof.
  intros Hlast Hbody. induction items as [|x items IH]; cbn [foreachIn status]; [auto|].
  apply andThen_ends; auto.
Qed.

Lemma range_empty (lo hi : Z) : hi <= lo -> range lo hi = [].
Proof.
  intros H. unfold range. replace (Z.to_nat (hi - lo)) with 0%nat by lia. reflexivity.
Qed.

Lemma range_cons (lo hi : Z) : lo < hi -> range lo hi = lo :: range (lo + 1) hi.
Proof.
  intros H. unfold range. replace (Z.to_nat (hi - lo)) with (S (Z.to_nat (hi - (lo + 1)))) by lia.
  cbn [seq map]. f_equal; [lia|]. rewrite <- seq_shift, map_map. apply map_ext.
  intros k. lia.
Qed.

(** X21.  On a grid of size 7 or more the enumeration of the lines of a
    length from 3 on never ends: [AllPossibleLines(3)] enumerates
    [AllPossibleLines(3)]. *)
Lemma AllPossibleLines_never_ends (g : Generator) (fuel : nat) :
  7 <= gridSize g ->
  forall maxLength, 3 <= maxLength -> status (AllPossibleLines g fuel maxLength) <> Done.
Proof.
  intros Hbig. induction fuel as [|fuel IH]; intros maxLength Hlen; [discriminate|].
  cbn [AllPossibleLines]. unfold AllPossibleLines_body.
  destruct (gridSize g <? maxLength); [discriminate|].
  destruct (maxLength <? 3) eqn:Hshort; [apply Z.ltb_lt in Hshort; lia|].
  intros H. apply andThen_Done in H as [_ H]. apply andThen_Done in H as [_ H].
  apply andThen_Done in H as [_ H]. unfold forRange, foreach in H.
  cbn [yieldAll yielded status] in H. rewrite range_cons in H by lia.
  cbn [foreachIn] in H. apply andThen_Done in H as [H _]. cbv zeta in H.
  destruct (gridSize g - (3 + 1) <? 3); [discriminate|].
  unfold foreach in H. apply foreachIn_Done in H. apply (IH 3); [lia | exact H].
Qed.

(** X22.  On a grid of size at most 6 the enumeration ends, or throws for
    want of a word of some length, once the fuel exceeds [maxLength]. *)
Lemma AllPossibleLines_small_grid_ends (g : Generator) (fuel : nat) :
  gridSize g <= 6 ->
  forall maxLength, (0 < fuel)%nat -> maxLength - 2 < Z.of_nat fuel ->
    status (AllPossibleLines g fuel maxLength) <> Pending.
Proof.
  intros Hsmall. induction fuel as [|fuel IH]; intros maxLength Hpos Hfuel; [lia|].
  cbn [AllPossibleLines]. unfold AllPossibleLines_body.
  destruct (gridSize g <? maxLength); [discriminate|].
  destruct (maxLength <? 3) eqn:Hshort; [discriminate|]. apply Z.ltb_ge in Hshort.
  assert (Hwords : forall (found : option (list string)) (common : Z),
             status (lookup found (fun words =>
                       foreach (yieldAll words) (fun word =>
                         yieldAll [mkScoredLine word maxLength maxLength common])))
             <> Pending).
  { intros [words|] common; cbn [lookup]; [|discriminate].
    apply foreachIn_ends; [discriminate | intros word; discriminate]. }
  apply andThen_ends; [apply Hwords|].
  apply andThen_ends; [apply Hwords|].
  apply andThen_ends.
  - apply foreachIn_ends; [apply IH; lia | intros line; discriminate].
  - unfold forRange, foreach. cbn [yieldAll yielded status].
    rewrite range_empty by lia. discriminate.
Qed.
End EnumeratorFacts.

(** ** The search driver *)
Module SearchFacts.
Import WordGenLib GridSpec.
Import LinesFacts PropagatorFacts.

Lemma andThenS_yieldBreak {A : Type} (rest : Search A) (pos : nat) :
  andThenS (yieldBreak, pos) rest = rest pos.
Proof.
  unfold andThenS. cbn [fst snd status yielded yieldBreak app].
  destruct (rest pos) as [[ys st] p]. reflexivity.
Qed.

Lemma andThenS_assoc {A : Type} (first : Enumeration A * nat) (f g : Search A) :
  andThenS (andThenS first f) g = andThenS first (fun p => andThenS (f p) g).
Proof.
  unfold andThenS. destruct first as [[ys st] p]. cbn [fst snd status yielded].
  destruct st; cbn [fst snd status yielded]; try reflexivity.
  destruct (f p) as [[ys' st'] p']. cbn [fst snd status yielded].
  destruct st'; cbn [fst snd status yielded]; try reflexivity.
  rewrite app_assoc. reflexivity.
Qed.

Lemma andThenS_ext {A : Type} (first : Enumeration A * nat) (f g : Search A) :
  (forall p, f p = g p) -> andThenS first f = andThenS first g.
Proof. intros Hfg. unfold andThenS. rewrite Hfg. reflexivity. Qed.

Lemma foreachS_app {A B : Type} (body : A -> Search B) (l1 l2 : list A) (pos : nat) :
  foreachS (l1 ++ l2) body pos = andThenS (foreachS l1 body pos) (foreachS l2 body).
Proof.
  revert pos. induction l1 as [|x l1 IH]; intros pos; cbn [app foreachS].
  - symmetry. apply andThenS_yieldBreak.
  - rewrite andThenS_assoc. apply andThenS_ext. exact IH.
Qed.

Lemma In_andThenS_l {A : Type} (first : Enumeration A * nat) (rest : Search A) (x : A) :
  In x (yielded (fst first)) -> In x (yielded (fst (andThenS first rest))).
Proof.
  intros Hx. unfold andThenS. destruct (status (fst first)); try exact Hx.
  cbn [fst yielded]. apply in_or_app. left. exact Hx.
Qed.

Lemma In_andThenS_r {A : Type} (first : Enumeration A * nat) (rest : Search A) (x : A) :
  status (fst first) = Done -> In x (yielded (fst (rest (snd first)))) ->
  In x (yielded (fst (andThenS first rest))).
Proof.
  intros Hs Hx. unfold andThenS. rewrite Hs. cbn [fst yielded]. apply in_or_app.
  right. exact Hx.
Qed.

(** Along the chosen axis, choices are made at every undecided index:
    the grids found at an index are yielded whenever the indices before it
    have been enumerated to their end. *)
Lemma AllPossibleGrids_in_every_index (recurse : GridState -> Search FinalGrid)
      (root : GridState) (dir : Direction) (before after : list nat) (index pos : nat)
      (grid : FinalGrid) :
  let choices := choicesAt recurse (optionAxisOf root dir) (oppositeAxisOf root dir) dir in
  sameLineFrom 0 (optionAxisOf root dir) (oppositeAxisOf root dir) (optionAxisOf root dir)
  = Some false ->
  status (fst (foreachS before choices pos)) = Done ->
  In grid (yielded (fst (choices index (snd (foreachS before choices pos))))) ->
  In grid (yielded (fst (AllPossibleGrids_in recurse root (before ++ index :: after) dir pos))).
Proof.
  intros choices Hsame Hdone Hin. unfold AllPossibleGrids_in.
  fold (optionAxisOf root dir). fold (oppositeAxisOf root dir). rewrite Hsame.
  fold choices. rewrite foreachS_app. apply In_andThenS_r; [exact Hdone|].
  cbn [foreachS]. apply In_andThenS_l. exact Hin.
Qed.

Lemma searchDirs_one_direction (recurse : GridState -> Search FinalGrid) (root : GridState)
      (undecidedDown undecidedAcross : list nat) (parity pos : nat) :
  searchDirs recurse root undecidedDown undecidedAcross parity [0; 1]%nat pos =
  let first := firstDir parity in
  let second := flip first in
  if negb (isEmpty (undecidedOf undecidedDown undecidedAcross first))
  then AllPossibleGrids_in recurse root (undecidedOf undecidedDown undecidedAcross first)
                           first pos
  else if negb (isEmpty (undecidedOf undecidedDown undecidedAcross second))
       then AllPossibleGrids_in recurse root
                                (undecidedOf undecidedDown undecidedAcross second) second pos
       else (yieldBreak, pos).
Proof.
  cbn [searchDirs]. unfold firstDir.
  rewrite Nat.add_0_r.
  replace ((parity + 1) mod 2)%nat with (match (parity mod 2)%nat with O => 1 | _ => 0 end)%nat.
  - pose proof (Nat.mod_upper_bound parity 2 ltac:(lia)) as Hb.
    destruct (parity mod 2)%nat as [|[|k]]; [| |lia]; cbn [dirs nth_error flip undecidedOf];
      destruct (isEmpty _); cbn [negb]; try reflexivity;
      destruct (isEmpty _); reflexivity.
  - rewrite (Nat.Div0.add_mod parity 1 2).
    pose proof (Nat.mod_upper_bound parity 2 ltac:(lia)) as Hb.
    destruct (parity mod 2)%nat as [|[|k]]; [reflexivity | reflexivity | lia].
Qed.

(** *** The draws that a search depends on *)
Section Draws.
Variables draws draws' : Draws.
Local Abbreviation sameRun := (GridSpec.sameRun draws draws').

Lemma sameRun_const {A : Type} (e : Enumeration A) :
  sameRun (fun pos => (e, pos)) (fun pos => (e, pos)).
Proof. intros pos. cbn [snd]. split; [lia | reflexivity]. Qed.

Lemma sameRun_andThenS {A : Type} (a a' b b' : Search A) :
  sameRun a a' -> sameRun b b' ->
  sameRun (fun pos => andThenS (a pos) b) (fun pos => andThenS (a' pos) b').
Proof.
  intros Ha Hb pos. destruct (Ha pos) as [Hle Hsame].
  unfold andThenS. destruct (status (fst (a pos))) eqn:Hs.
  - destruct (Hb (snd (a pos))) as [Hle' Hsame']. cbn [snd]. split; [lia|].
    intros Hk. rewrite Hsame by (intros k Hr; apply Hk; lia). rewrite Hs.
    rewrite Hsame' by (intros k Hr; apply Hk; lia). reflexivity.
  - split; [exact Hle|]. intros Hk. rewrite Hsame by exact Hk. rewrite Hs. reflexivity.
  - split; [exact Hle|]. intros Hk. rewrite Hsame by exact Hk. rewrite Hs. reflexivity.
Qed.

Lemma sameRun_foreachS {A B : Type} (body body' : A -> Search B) (items : list A) :
  (forall x, sameRun (body x) (body' x)) ->
  sameRun (foreachS items body) (foreachS items body').
Proof.
  intros Hbody. induction items as [|x items IH].
  - apply (sameRun_const yieldBreak).
  - apply (sameRun_andThenS (body x) (body' x)); auto.
Qed.

Variables recurse recurse' : GridState -> Search FinalGrid.
Hypothesis sameRun_recurse : forall root, sameRun (recurse root) (recurse' root).

Lemma sameRun_attemptAt (optionAxis oppositeAxis : list (list ScoredLine))
      (dir : Direction) (index : nat) (attempt : ScoredLine) :
  sameRun (attemptAt recurse optionAxis oppositeAxis dir index attempt)
          (attemptAt recurse' optionAxis oppositeAxis dir index attempt).
Proof.
  intros pos. unfold attemptAt.
  destruct (restrictOpposite _ _ _ _); [|apply (sameRun_const thrown)].
  destruct (forallb _ _); [apply sameRun_recurse | apply (sameRun_const yieldBreak)].
Qed.

Lemma sameRun_choicesAt (optionAxis oppositeAxis : list (list ScoredLine))
      (dir : Direction) (index : nat) :
  sameRun (choicesAt recurse optionAxis oppositeAxis dir index)
          (choicesAt recurse' optionAxis oppositeAxis dir index).
Proof.
  intros pos. unfold choicesAt.
  destruct (nth_error optionAxis index); [|apply (sameRun_const thrown)].
  destruct (_ =? 1)%nat; [apply (sameRun_const yieldBreak)|].
  apply sameRun_foreachS. intros attempt. apply sameRun_attemptAt.
Qed.

Lemma sameRun_AllPossibleGrids_in (root : GridState) (undecided : list nat)
      (dir : Direction) :
  sameRun (AllPossibleGrids_in recurse root undecided dir)
          (AllPossibleGrids_in recurse' root undecided dir).
Proof.
  intros pos. unfold AllPossibleGrids_in.
  destruct (sameLineFrom _ _ _ _) as [[|]|];
    [apply (sameRun_const yieldBreak) | | apply (sameRun_const thrown)].
  apply sameRun_foreachS. intros index. apply sameRun_choicesAt.
Qed.

Lemma sameRun_searchDirs (root : GridState) (undecidedDown undecidedAcross : list nat)
      (parity : nat) (steps : list nat) :
  sameRun (searchDirs recurse root undecidedDown undecidedAcross parity steps)
          (searchDirs recurse' root undecidedDown undecidedAcross parity steps).
Proof.
  induction steps as [|i steps IH]; intros pos; cbn [searchDirs].
  - apply (sameRun_const yieldBreak).
  - destruct (nth_error dirs _) as [dir|]; [|apply (sameRun_const thrown)].
    destruct (isEmpty _); [apply IH | apply sameRun_AllPossibleGrids_in].
Qed.
End Draws.

Lemma sameRun_AllPossibleGrids (draws draws' : Draws) (fuel : nat) :
  forall root,
    GridSpec.sameRun draws draws' (AllPossibleGrids draws fuel root) (AllPossibleGrids draws' fuel root).
Proof.
  induction fuel as [|fuel IH]; intros root pos; cbn [AllPossibleGrids].
  - apply (sameRun_const draws draws' pending).
  - destruct (existsb isEmpty (Down root)); [apply (sameRun_const draws draws' yieldBreak)|].
    destruct (existsb isEmpty (Across root)); [apply (sameRun_const draws draws' yieldBreak)|].
    destruct (propagate root) as [root'|]; [|apply (sameRun_const draws draws' thrown)].
    destruct (existsb isEmpty (Down root')); [apply (sameRun_const draws draws' yieldBreak)|].
    destruct (existsb isEmpty (Across root')); [apply (sameRun_const draws draws' yieldBreak)|].
    destruct (isEmpty _ && isEmpty _).
    { destruct (firsts (Down root')); [|apply (sameRun_const draws draws' thrown)].
      destruct (firsts (Across root')); [|apply (sameRun_const draws draws' thrown)].
      apply (sameRun_const draws draws'). }
    pose proof (sameRun_searchDirs draws draws' _ _ IH root'
                  (Undecided (Down root')) (Undecided (Across root'))
                  (Next2 draws pos) [0; 1]%nat (S pos)) as [Hle Hsame].
    split; [lia|]. intros Hk.
    assert (Hparity : Next2 draws' pos = Next2 draws pos).
    { unfold Next2. rewrite Hk by lia. reflexivity. }
    rewrite Hparity. apply Hsame. intros k Hr. apply Hk. lia.
Qed.
End SearchFacts.

(** ** The depth of the search *)
Module SearchEnds.
Import WordGenLib GridSpec.
Import LinesFacts PropagatorFacts SearchFacts.
Local Open Scope nat_scope.

(** *** The search ends *)

Lemma fewer_refl (axis : list (list ScoredLine)) : fewer axis axis.
Proof. induction axis; constructor; auto. Qed.

Lemma fewer_options (out inp : list (list ScoredLine)) :
  fewer out inp -> options out <= options inp.
Proof.
  induction 1 as [|o i out inp Hoi _ IH]; cbn [options]; [lia|].
  cbv beta in Hoi. lia.
Qed.

Lemma whereM_length {A : Type} (f : A -> option bool) (l : list A) :
  forall kept, whereM f l = Some kept -> List.length kept <= List.length l.
Proof.
  induction l as [|a l IH]; intros kept H; cbn [whereM] in H.
  - apply Some_inj in H. subst kept. auto.
  - bind_inv H. bind_inv H. apply Some_inj in H. subst kept.
    specialize (IH _ Ha0). destruct a0; cbn [List.length]; lia.
Qed.

Lemma Prefilter_size (state : GridState) (direction : Direction) (out : GridState) :
  Prefilter state direction = Some out -> size out <= size state.
Proof.
  unfold Prefilter. intros H.
  destruct (existsb isEmpty _ || existsb isEmpty _).
  { apply Some_inj in H. subst out. auto. }
  bind_inv H. bind_inv H.
  apply selectM_Forall2 with (R := fun o i : list ScoredLine => List.length o <= List.length i)
    in Ha0; [|intros possibles y kept Hk; apply (whereM_length _ _ _ Hk)].
  apply fewer_options in Ha0.
  destruct direction; apply Some_inj in H; subst out; unfold size; cbn [Down Across]; lia.
Qed.

Lemma propagateFrom_size (passes : nat) :
  forall tries root direction out,
    propagateFrom passes tries root direction = Some out -> size out <= size root.
Proof.
  induction passes as [|passes IH]; intros tries root direction out H;
    cbn [propagateFrom] in H.
  - apply Some_inj in H. subst out. auto.
  - destruct (tries <? 4)%Z; [|apply Some_inj in H; subst out; auto].
    bind_inv H. bind_inv H.
    destruct (negb a0 && (1 <? tries + 1)%Z).
    + apply Some_inj in H. subst out. auto.
    + apply IH in H. apply Prefilter_size in Ha. lia.
Qed.

Lemma setNth_options (i : nat) (kept : list ScoredLine) (axis : list (list ScoredLine)) :
  forall entry,
    nth_error axis i = Some entry -> List.length kept <= List.length entry ->
    options (setNth i kept axis) <= options axis.
Proof.
  revert i. induction axis as [|e axis IH]; intros [|i] entry Hnth Hlen;
    cbn [nth_error] in Hnth; try discriminate; cbn [setNth options].
  - apply Some_inj in Hnth. subst e. lia.
  - specialize (IH _ _ Hnth Hlen). lia.
Qed.

Lemma restrictOpposite_options (index : nat) (line : list ascii) :
  forall i attemptOpposite out,
    restrictOpposite index i line attemptOpposite = Some out ->
    options out <= options attemptOpposite.
Proof.
  induction line as [|c line IH]; intros i attemptOpposite out H;
    cbn [restrictOpposite] in H.
  - apply Some_inj in H. subst out. auto.
  - bind_inv H. bind_inv H. apply IH in H. apply whereM_length in Ha0.
    pose proof (setNth_options i a0 attemptOpposite a Ha Ha0). lia.
Qed.

Lemma replaceFrom_options (x : list ScoredLine) (axis : list (list ScoredLine)) :
  forall start index entry,
    nth_error axis index = Some entry ->
    options (map (fun ri => if (snd ri =? start + index) then x else fst ri)
                 (combine axis (seq start (List.length axis))))
    + List.length entry
    = options axis + List.length x.
Proof.
  induction axis as [|e axis IH]; intros start [|index] entry Hnth;
    cbn [nth_error] in Hnth; try discriminate;
    cbn [List.length seq combine map options fst snd].
  - apply Some_inj in Hnth. subst e. rewrite Nat.add_0_r, Nat.eqb_refl.
    assert (Hrest : forall l k, start < k ->
               map (fun ri : list ScoredLine * nat =>
                      if (snd ri =? start) then x else fst ri)
                   (combine l (seq k (List.length l))) = l).
    { induction l as [|y l IHl]; intros k Hk; cbn [List.length seq combine map fst snd];
        [reflexivity|].
      destruct (Nat.eqb_spec k start); [lia|]. rewrite IHl by lia. reflexivity. }
    rewrite Hrest by lia. lia.
  - destruct (Nat.eqb_spec start (start + S index)); [lia|].
    specialize (IH (S start) index entry Hnth).
    replace (S start + index) with (start + S index) in IH by lia. lia.
Qed.

Lemma replaceAt_options (index : nat) (attempt : ScoredLine) (axis : list (list ScoredLine))
      (entry : list ScoredLine) :
  nth_error axis index = Some entry ->
  options (replaceAt index [attempt] axis) + List.length entry = options axis + 1.
Proof. intros H. apply (replaceFrom_options [attempt] axis 0 index entry H). Qed.

Lemma andThenS_ends {A : Type} (first : Enumeration A * nat) (rest : Search A) :
  status (fst first) <> Pending -> (forall pos, status (fst (rest pos)) <> Pending) ->
  status (fst (andThenS first rest)) <> Pending.
Proof.
  intros Hfirst Hrest. unfold andThenS. destruct (status (fst first)) eqn:Hs; rewrite ?Hs;
    [cbn [fst status]; apply Hrest | discriminate | congruence].
Qed.

Lemma foreachS_ends {A B : Type} (items : list A) (body : A -> Search B) :
  (forall x pos, status (fst (body x pos)) <> Pending) ->
  forall pos, status (fst (foreachS items body pos)) <> Pending.
Proof.
  intros Hbody. induction items as [|x items IH]; intros pos; cbn [foreachS];
    [discriminate|].
  apply andThenS_ends; auto.
Qed.

Section Ends.
Variable recurse : GridState -> Search FinalGrid.
Variable root : GridState.
Hypothesis recurse_ends :
  forall newRoot pos, size newRoot < size root -> status (fst (recurse newRoot pos)) <> Pending.

Lemma AllPossibleGrids_in_ends (undecided : list nat) (dir : Direction) (pos : nat) :
  status (fst (AllPossibleGrids_in recurse root undecided dir pos)) <> Pending.
Proof.
  unfold AllPossibleGrids_in. fold (optionAxisOf root dir). fold (oppositeAxisOf root dir).
  destruct (sameLineFrom _ _ _ _) as [[|]|]; try discriminate.
  apply foreachS_ends. clear pos. intros index pos. unfold choicesAt.
  destruct (nth_error (optionAxisOf root dir) index) as [entry|] eqn:Hentry;
    [|discriminate].
  destruct (Nat.eqb_spec (List.length entry) 1) as [|Hmany]; [discriminate|].
  destruct entry as [|first entry]; [discriminate|].
  apply foreachS_ends. clear pos. intros attempt pos. unfold attemptAt.
  destruct (restrictOpposite _ _ _ _) as [attemptOpposite|] eqn:Hopp; [|discriminate].
  destruct (forallb _ _); [|discriminate].
  apply restrictOpposite_options in Hopp.
  pose proof (replaceAt_options index attempt _ _ Hentry) as Hopt.
  cbn [List.length] in Hopt, Hmany.
  apply recurse_ends. unfold size.
  destruct dir; cbn [Down Across optionAxisOf oppositeAxisOf] in *; lia.
Qed.

Lemma searchDirs_ends (undecidedDown undecidedAcross : list nat) (parity : nat)
      (steps : list nat) (pos : nat) :
  status (fst (searchDirs recurse root undecidedDown undecidedAcross parity steps pos))
  <> Pending.
Proof.
  induction steps as [|i steps IH]; cbn [searchDirs]; [discriminate|].
  destruct (nth_error dirs _) as [dir|]; [|discriminate].
  destruct (isEmpty _); [apply IH | apply AllPossibleGrids_in_ends].
Qed.
End Ends.

(** With more fuel than the grid state has options, the search is
    followed to its end. *)
Lemma AllPossibleGrids_ends (draws : Draws) (fuel : nat) :
  forall root pos,
    size root < fuel -> status (fst (AllPossibleGrids draws fuel root pos)) <> Pending.
Proof.
  induction fuel as [|fuel IH]; intros root pos Hfuel; [lia|].
  cbn [AllPossibleGrids].
  destruct (existsb isEmpty (Down root)); [discriminate|].
  destruct (existsb isEmpty (Across root)); [discriminate|].
  destruct (propagate root) as [root'|] eqn:Hprop; [|discriminate].
  apply propagateFrom_size in Hprop.
  destruct (existsb isEmpty (Down root')); [discriminate|].
  destruct (existsb isEmpty (Across root')); [discriminate|].
  destruct (isEmpty _ && isEmpty _).
  { destruct (firsts (Down root')); [|discriminate].
    destruct (firsts (Across root')); discriminate. }
  apply searchDirs_ends. intros newRoot pos' Hless. apply IH. lia.
Qed.

(** *** More fuel does not change a search that was followed to its end *)
Lemma settled_refl {A : Type} (s : Search A) : settled s s.
Proof. intros pos _. reflexivity. Qed.

Lemma settled_andThenS {A : Type} (a a' b b' : Search A) :
settled a a' -> settled b b' ->
settled (fun pos => andThenS (a pos) b) (fun pos => andThenS (a' pos) b').
Proof.
intros Ha Hb pos. unfold andThenS. destruct (status (fst (a pos))) eqn:Hs.
- cbn [fst status]. intros Hrest. rewrite Ha by congruence. rewrite Hs.
  rewrite Hb by exact Hrest. reflexivity.
- intros _. rewrite Ha by congruence. rewrite Hs. reflexivity.
- intros H. congruence.
Qed.

Lemma settled_foreachS {A B : Type} (body body' : A -> Search B) (items : list A) :
(forall x, settled (body x) (body' x)) ->
settled (foreachS items body) (foreachS items body').
Proof.
intros Hbody. induction items as [|x items IH].
- apply settled_refl.
- apply (settled_andThenS (body x) (body' x)); auto.
Qed.

Section Settled.
Variables recurse recurse' : GridState -> Search FinalGrid.
Hypothesis settled_recurse : forall root, settled (recurse root) (recurse' root).

Lemma settled_AllPossibleGrids_in (root : GridState) (undecided : list nat)
  (dir : Direction) :
settled (AllPossibleGrids_in recurse root undecided dir)
      (AllPossibleGrids_in recurse' root undecided dir).
Proof.
intros pos. unfold AllPossibleGrids_in.
destruct (sameLineFrom _ _ _ _) as [[|]|]; try reflexivity.
revert pos. apply settled_foreachS. intros index pos. unfold choicesAt.
destruct (nth_error _ index); [|reflexivity].
destruct (_ =? 1); [reflexivity|].
revert pos. apply settled_foreachS. intros attempt pos. unfold attemptAt.
destruct (restrictOpposite _ _ _ _); [|reflexivity].
destruct (forallb _ _); [apply settled_recurse | reflexivity].
Qed.

Lemma settled_searchDirs (root : GridState) (undecidedDown undecidedAcross : list nat)
  (parity : nat) (steps : list nat) :
settled (searchDirs recurse root undecidedDown undecidedAcross parity steps)
      (searchDirs recurse' root undecidedDown undecidedAcross parity steps).
Proof.
induction steps as [|i steps IH]; intros pos; cbn [searchDirs]; [reflexivity|].
destruct (nth_error dirs _) as [dir|]; [|reflexivity].
destruct (isEmpty _); [apply IH | apply settled_AllPossibleGrids_in].
Qed.
End Settled.

Lemma AllPossibleGrids_settled (draws : Draws) (fuel : nat) :
forall root,
  settled (AllPossibleGrids draws fuel root) (AllPossibleGrids draws (S fuel) root).
Proof.
induction fuel as [|fuel IH]; intros root pos.
- intros H. contradiction H. reflexivity.
- change (status (fst (AllPossibleGrids draws (S fuel) root pos)) <> Pending ->
          AllPossibleGrids draws (S (S fuel)) root pos
          = AllPossibleGrids draws (S fuel) root pos).
  cbn [AllPossibleGrids].
  destruct (existsb isEmpty (Down root)); [reflexivity|].
  destruct (existsb isEmpty (Across root)); [reflexivity|].
  destruct (propagate root) as [root'|]; [|reflexivity].
  destruct (existsb isEmpty (Down root')); [reflexivity|].
  destruct (existsb isEmpty (Across root')); [reflexivity|].
  destruct (isEmpty _ && isEmpty _); [reflexivity|].
  apply settled_searchDirs. exact IH.
Qed.

(** X19.  The search ends: with more fuel than the grid state has options
    it is followed to its end, and any further fuel gives the same
    enumeration. *)
Lemma AllPossibleGrids_enough_fuel (draws : Draws) (root : GridState) (pos fuel : nat) :
size root < fuel ->
status (fst (AllPossibleGrids draws fuel root pos)) <> Pending
/\ forall more, AllPossibleGrids draws (more + fuel) root pos
                = AllPossibleGrids draws fuel root pos.
Proof.
intros Hfuel. split; [apply AllPossibleGrids_ends, Hfuel|].
induction more as [|more IH]; [reflexivity|].
cbn [Nat.add]. rewrite <- IH. apply AllPossibleGrids_settled.
rewrite IH. apply AllPossibleGrids_ends, Hfuel.
Qed.
End SearchEnds.

(** ** The claims about Gen.cs *)
Module GridClaims.
Import WordGenLib GridExamples GridSpec.
Import LinesFacts PropagatorFacts EnumeratorFacts SearchFacts.














(** Past these sizes the loop over two segments runs to the grid size and
    not to the length asked for: with grid size 7 and the words cat and
    dog, [AllPossibleLines(3)] yields the seven cells cat`cat, and with
    words of every length [AllPossibleLines(7)] yields the eleven cells
    ````cat`cat.  No call of the program gets there. *)
Lemma AllPossibleLines_fills_the_grid_size :
  (3 <= 3 <= gridSize smallZoo
   /\ produces smallZoo 3 (mkScoredLine "cat`cat" 3 6 6)
   /\ Length "cat`cat" = 7)
  /\ (3 <= 7 <= gridSize zoo
      /\ produces zoo 7 (mkScoredLine "````cat`cat" 3 6 6)
      /\ Length "````cat`cat" = 11).
Proof.
  split; (split; [vm_compute; split; discriminate|]); (split; [|reflexivity]).
  - exists 3%nat. vm_compute. repeat (first [left; reflexivity | right]).
  - exists 6%nat. vm_compute. repeat (first [left; reflexivity | right]).
Qed.
(** C3.  The propagator is monotone.  A tightening pass (Prefilter) and the
    propagation loop return, for every grid state on which they return,
    a state whose axes have the entries of the input in the same places,
    every line of an output entry being a line of the matching input
    entry; on the square grids that the generator builds they do return. *)
Theorem propagator_never_looser (state : GridState) :
  (forall direction out, Prefilter state direction = Some out -> noLooser out state)
  /\ (forall out, propagate state = Some out -> noLooser out state)
  /\ (squareGrid state = true ->
      (forall direction, exists out, Prefilter state direction = Some out)
      /\ exists out, propagate state = Some out).
Proof.
  split; [|split].
  - intros direction out. apply Prefilter_noLooser.
  - intros out. apply propagateFrom_noLooser.
  - intros Hsq. split.
    + intros direction. apply Prefilter_total, Hsq.
    + apply propagateFrom_total, Hsq.
Qed.

Lemma propagator_never_looser_witness :
  squareGrid loose = true
  /\ exists out, propagate loose = Some out /\ out <> loose /\ noLooser out loose.
Proof.
  split; [reflexivity|].
  destruct (propagator_never_looser loose) as (_ & Hloop & _).
  exists twoByTwo. split; [reflexivity|]. split; [discriminate|].
  apply Hloop. reflexivity.
Defined.

End GridClaims.

Module SearchClaims.
Import WordGenLib GridExamples GridSpec.
Import LinesFacts SearchFacts.
Local Open Scope nat_scope.

(** C5, as stated, fails: at [twoByTwo] the search along the rows has the
    undecided indices 0 and 1; the first yields two grids, and the search
    goes on to make choices at the second, which yields two more. *)
Lemma search_goes_on_after_first_index :
  let recurse := AllPossibleGrids (fun _ => false) 4 in
  AllPossibleGrids (fun _ => false) 5 twoByTwo 0
  = AllPossibleGrids_in recurse twoByTwo (Undecided (Across twoByTwo)) Horizontal 1
  /\ ~ returnsAfterFirstYield recurse twoByTwo (Undecided (Across twoByTwo)) Horizontal 1.
Proof.
  split; [vm_compute; reflexivity|].
  intros H. vm_compute in H.
  assert (Hyes : forall A (x : A) l, x :: l <> []) by (intros; discriminate).
  specialize (H (Hyes _ _ _)). discriminate H.
Qed.

(** C5, amended.  In the search driver, for every grid state that has an
    undecided index: the search is made along one axis only, that of the first
    direction in the drawn order that has an undecided index, and the driver
    returns after it without searching the other direction; along that
    axis, unless a decided row equals the column of its index, choices are
    made at every undecided index in turn: the grids found at an index are
    yielded once the indices before it have been enumerated, whether or
    not those yielded grids. *)
Theorem search_returns_after_first_direction
        (recurse : GridState -> Search FinalGrid) (root : GridState)
        (undecidedDown undecidedAcross : list nat) (parity pos : nat) :
  let dir := chosenDir undecidedDown undecidedAcross parity in
  let undecided := undecidedOf undecidedDown undecidedAcross dir in
  let choices := choicesAt recurse (optionAxisOf root dir) (oppositeAxisOf root dir) dir in
  undecided <> [] ->
  searchDirs recurse root undecidedDown undecidedAcross parity [0; 1]%nat pos
  = AllPossibleGrids_in recurse root undecided dir pos
  /\ (sameLineFrom 0 (optionAxisOf root dir) (oppositeAxisOf root dir) (optionAxisOf root dir)
      = Some false ->
      forall before index after grid,
        undecided = before ++ index :: after ->
        status (fst (foreachS before choices pos)) = Done ->
        In grid (yielded (fst (choices index (snd (foreachS before choices pos))))) ->
        In grid (yielded (fst (searchDirs recurse root undecidedDown undecidedAcross
                                          parity [0; 1]%nat pos)))).
Proof.
  intros dir undecided choices Hsome.
  assert (Hdirs : searchDirs recurse root undecidedDown undecidedAcross parity [0; 1]%nat pos
                  = AllPossibleGrids_in recurse root undecided dir pos).
  { rewrite searchDirs_one_direction. cbv zeta.
    unfold undecided, dir, chosenDir in *.
    destruct (isEmpty (undecidedOf undecidedDown undecidedAcross (firstDir parity))) eqn:He1;
      cbn [negb]; [|reflexivity].
    destruct (isEmpty (undecidedOf undecidedDown undecidedAcross (flip (firstDir parity))))
             eqn:He2; cbn [negb]; [|reflexivity].
    exfalso. apply Hsome. unfold isEmpty in He2.
    destruct (undecidedOf undecidedDown undecidedAcross (flip (firstDir parity)));
      [reflexivity | discriminate]. }
  split; [exact Hdirs|].
  intros Hsame before index after grid Hsplit Hdone Hin.
  rewrite Hdirs, Hsplit. apply AllPossibleGrids_in_every_index; assumption.
Qed.

Lemma search_returns_after_first_direction_witness :
  let recurse := AllPossibleGrids (fun _ => false) 4 in
  let choices := choicesAt recurse (Across twoByTwo) (Down twoByTwo) Horizontal in
  searchDirs recurse twoByTwo (Undecided (Down twoByTwo)) (Undecided (Across twoByTwo))
             0 [0; 1]%nat 1
  = AllPossibleGrids_in recurse twoByTwo [0; 1]%nat Horizontal 1
  /\ forall grid,
      In grid (yielded (fst (choices 1%nat 1%nat))) ->
      In grid (yielded (fst (searchDirs recurse twoByTwo (Undecided (Down twoByTwo))
                                        (Undecided (Across twoByTwo)) 0 [0; 1]%nat 1))).
Proof.
  intros recurse choices.
  destruct (search_returns_after_first_direction
              recurse twoByTwo (Undecided (Down twoByTwo)) (Undecided (Across twoByTwo))
              0%nat 1%nat) as [Hdir Hevery].
  { vm_compute. discriminate. }
  split; [exact Hdir|].
  intros grid Hin.
  apply (Hevery ltac:(reflexivity) [0%nat] 1%nat [] grid);
    [reflexivity | reflexivity | exact Hin].
Defined.

(** C6, as stated, fails: the generator has no random source of its own,
    and the same grid state yields its grids in another order when
    [Random.Shared] returns 1 and not 0 to the first draw; both
    enumerations are complete. *)
Lemma stream_follows_the_shared_draws :
  status (fst (AllPossibleGrids (fun _ => false) 5 twoByTwo 0)) = Done
  /\ status (fst (AllPossibleGrids (fun _ => true) 5 twoByTwo 0)) = Done
  /\ ~ reproducible 5 twoByTwo.
Proof.
  split; [reflexivity|]. split; [reflexivity|].
  intros H. specialize (H (fun _ => false) (fun _ => true)). vm_compute in H.
  discriminate H.
Qed.

(** C6, amended.  The stream of a search is a function of the grid state
    it starts from and of the values that the process-wide
    [Random.Shared] returns to the draws made during the search: two runs
    that start from the same state with the same number of earlier draws
    and that receive the same values for the draws they make yield the
    same grids in the same order, end in the same way and make the same
    number of draws. *)
Theorem AllPossibleGrids_same_draws_same_stream
        (draws draws' : Draws) (fuel : nat) (root : GridState) (pos : nat) :
  (forall k, (pos <= k < snd (AllPossibleGrids draws fuel root pos))%nat ->
             draws' k = draws k) ->
  AllPossibleGrids draws' fuel root pos = AllPossibleGrids draws fuel root pos.
Proof.
  intros Hsame. apply (sameRun_AllPossibleGrids draws draws' fuel root pos). exact Hsame.
Qed.

Lemma AllPossibleGrids_same_draws_same_stream_witness :
  AllPossibleGrids (fun k => (0 <? k)%nat) 5 twoByTwo 0
  = AllPossibleGrids (fun _ => false) 5 twoByTwo 0.
Proof.
  apply (AllPossibleGrids_same_draws_same_stream (fun _ => false) (fun k => (0 <? k)%nat)
                                                  5 twoByTwo 0).
  intros k Hk. vm_compute in Hk. destruct k as [|k]; [reflexivity | lia].
Defined.
End SearchClaims.

(** * Lemmas on the remaining functions *)

(** ** The members of a character set *)
Module CharSetMore.
Import LinesFacts CharSetGo LinesSpec CharSetSpec CharSetFacts.

Lemma count_fold (f : nat -> bool) (l : list nat) (a : Z) :
  fold_left (fun n i => if f i then n + 1 else n) l a
  = a + Z.of_nat (List.length (filter f l)).
Proof.
  revert a. induction l as [|i l IH]; intros a; cbn [fold_left filter List.length]; [lia|].
  rewrite IH. destruct (f i); cbn [List.length]; lia.
Qed.

Lemma OnesCount32_filter (b : Z) :
  OnesCount32 b
  = Z.of_nat (List.length (filter (fun i => Z.testbit b (Z.of_nat i)) (seq 0 32))).
Proof. unfold OnesCount32. rewrite count_fold. lia. Qed.

Lemma high_bits (b : Z) (k : Z) : 0 <= b < 2 ^ 27 -> 27 <= k -> Z.testbit b k = false.
Proof.
  intros Hb Hk. destruct (Z.eq_dec b 0) as [->|Hne]; [apply Z.bits_0|].
  apply Z.bits_above_log2; [lia|].
  apply Z.lt_le_trans with 27; [|exact Hk]. apply Z.log2_lt_pow2; lia.
Qed.

Lemma Contains_alphabet (c : CharSet) (k : nat) :
  (k < 27)%nat -> Contains c (minChar + Z.of_nat k) = Z.testbit (bits c) (Z.of_nat k).
Proof.
  intros Hk. rewrite Contains_testbit. unfold inRange, minChar, maxChar.
  replace (96 + Z.of_nat k - 96) with (Z.of_nat k) by lia.
  destruct (Z.ltb_spec (96 + Z.of_nat k) 96); [lia|].
  rewrite Z.gtb_ltb. destruct (Z.ltb_spec 122 (96 + Z.of_nat k)); [lia | reflexivity].
Qed.

(** The number of bits set is the number of runes of the alphabet in the
    set. *)
Lemma OnesCount32_alphabet (c : CharSet) :
  0 <= bits c < 2 ^ 27 ->
  OnesCount32 (bits c) = Z.of_nat (List.length (filter (Contains c) alphabet)).
Proof.
  intros Hb. rewrite OnesCount32_filter.
  change (seq 0 32) with (seq 0 27 ++ seq 27 5). rewrite filter_app, length_app.
  rewrite (filter_none _ (seq 27 5)).
  2:{ intros i Hi. apply in_seq in Hi. apply high_bits; [exact Hb | lia]. }
  cbn [List.length]. rewrite Nat.add_0_r. f_equal. unfold alphabet.
  generalize (seq 0 27) (fun i => proj1 (in_seq 27 0 i)).
  intros l Hl. induction l as [|i l IH]; [reflexivity|].
  cbn [map filter]. rewrite Contains_alphabet by (specialize (Hl i (or_introl eq_refl)); lia).
  destruct (Z.testbit (bits c) (Z.of_nat i)); cbn [List.length]; rewrite IH; auto;
    intros j Hj; apply Hl; right; exact Hj.
Qed.

Lemma land_range (a b : Z) : 0 <= a < 2 ^ 27 -> 0 <= b -> 0 <= Z.land a b < 2 ^ 27.
Proof.
  intros Ha Hb. split; [apply Z.land_nonneg; lia|].
  destruct (Z.eq_dec (Z.land a b) 0) as [->|Hne]; [lia|].
  apply Z.log2_lt_pow2.
  - assert (0 <= Z.land a b) by (apply Z.land_nonneg; lia). lia.
  - destruct (Z.eq_dec a 0) as [->|Ha0]; [rewrite Z.land_0_l in Hne; lia|].
    apply Z.le_lt_trans with (Z.log2 a).
    + pose proof (Z.log2_land a b ltac:(lia) Hb). lia.
    + apply Z.log2_lt_pow2; lia.
Qed.

Lemma lor_range (a b : Z) : 0 <= a < 2 ^ 27 -> 0 <= b < 2 ^ 27 -> 0 <= Z.lor a b < 2 ^ 27.
Proof.
  intros Ha Hb. split; [apply Z.lor_nonneg; lia|].
  destruct (Z.eq_dec (Z.lor a b) 0) as [->|Hne]; [lia|].
  assert (0 <= Z.lor a b) by (apply Z.lor_nonneg; lia).
  apply Z.log2_lt_pow2; [lia|]. rewrite Z.log2_lor by lia.
  apply Z.max_lub_lt.
  - destruct (Z.eq_dec a 0) as [->|Ha0]; [cbn; lia | apply Z.log2_lt_pow2; lia].
  - destruct (Z.eq_dec b 0) as [->|Hb0]; [cbn; lia | apply Z.log2_lt_pow2; lia].
Qed.

Lemma valid_New : valid NewCharSet.
Proof. split; [cbn; lia | reflexivity]. Qed.

Lemma valid_Add (c : CharSet) (r : rune) : valid c -> valid (fst (Add c r)).
Proof.
  intros [Hb Hc]. unfold Add.
  destruct ((r <? minChar) || (r >? maxChar)) eqn:Hr; [split; assumption|].
  apply orb_false_elim in Hr as [H1 H2]. apply Z.ltb_ge in H1.
  rewrite Z.gtb_ltb in H2. apply Z.ltb_ge in H2. unfold minChar, maxChar in *.
  destruct (Z.land _ _ =? 0); [|split; assumption].
  cbn [fst bits count]. split; [|reflexivity].
  rewrite wrap32_bit by lia. apply lor_range; [exact Hb|].
  split; [apply Z.pow_nonneg; lia | apply Z.pow_lt_mono_r; lia].
Qed.

Lemma valid_AddAll (c other : CharSet) : valid c -> valid other -> valid (AddAll c other).
Proof.
  intros [Hb Hc] [Hb' _]. unfold AddAll. cbv zeta.
  destruct (Z.eqb_spec (Z.lor (bits c) (bits other)) (bits c)) as [Heq|Hne]; cbn [negb].
  - split; cbn [bits count]; [apply lor_range; assumption | rewrite Heq; exact Hc].
  - split; cbn [bits count]; [apply lor_range; assumption | reflexivity].
Qed.

Lemma valid_Intersect (c other : CharSet) :
  valid c -> valid other -> valid (Intersect c other).
Proof.
  intros [Hb Hc] [Hb' _]. unfold Intersect. cbv zeta.
  destruct (Z.eqb_spec (Z.land (bits c) (bits other)) (bits c)) as [Heq|Hne]; cbn [negb].
  - split; cbn [bits count]; [apply land_range; lia | rewrite Heq; exact Hc].
  - split; cbn [bits count]; [apply land_range; lia | reflexivity].
Qed.

Lemma built_valid (c : CharSet) : built c -> valid c.
Proof.
  induction 1.
  - apply valid_New.
  - apply valid_Add. assumption.
  - apply valid_AddAll; assumption.
  - apply valid_Intersect; assumption.
  - apply valid_New.
  - destruct IHbuilt. split; assumption.
Qed.

Lemma valid_Count (c : CharSet) :
  valid c -> Count c = Z.of_nat (List.length (filter (Contains c) alphabet)).
Proof. intros [Hb Hc]. unfold Count. rewrite Hc. apply OnesCount32_alphabet, Hb. Qed.

Lemma filter_all_length {A : Type} (f : A -> bool) (l : list A) :
  List.length (filter f l) = List.length l <-> forall x, In x l -> f x = true.
Proof.
  induction l as [|x l IH]; cbn [filter List.length]; [split; [intros _ x [] | reflexivity]|].
  pose proof (filter_length_le f l) as Hle.
  destruct (f x) eqn:Hx; cbn [List.length].
  - split.
    + intros H y [<-|Hy]; [exact Hx | apply IH; [lia | exact Hy]].
    + intros H. f_equal. apply IH. intros y Hy. apply H. right. exact Hy.
  - split; [lia|]. intros H. specialize (H x (or_introl eq_refl)). congruence.
Qed.

Lemma In_alphabet (r : rune) : In r alphabet <-> minChar <= r <= maxChar.
Proof.
  unfold alphabet, minChar, maxChar. rewrite in_map_iff. split.
  - intros (k & <- & Hk). apply in_seq in Hk. lia.
  - intros Hr. exists (Z.to_nat (r - 96)). split; [lia | apply in_seq; lia].
Qed.

Lemma valid_IsFull (c : CharSet) :
  valid c -> (IsFull c = true <-> forall r, minChar <= r <= maxChar -> Contains c r = true).
Proof.
  intros Hv. unfold IsFull. fold (Count c). rewrite (valid_Count c Hv).
  change numChars with (Z.of_nat (List.length alphabet)).
  rewrite Z.eqb_eq, Nat2Z.inj_iff, filter_all_length.
  split; intros H r Hr; apply H; apply In_alphabet; exact Hr.
Qed.
(** *** Membership after the operations *)
Lemma Add_Contains (c : CharSet) (x r : rune) :
  inRange r = true -> Contains (fst (Add c x)) r = Contains c r || (x =? r).
Proof.
  intros Hr. unfold Add.
  destruct ((x <? minChar) || (x >? maxChar)) eqn:Hx.
  - cbn [fst]. destruct (Z.eqb_spec x r) as [->|Hne]; [|rewrite orb_false_r; reflexivity].
    unfold inRange in Hr. rewrite Hx in Hr. discriminate.
  - assert (Hin : 96 <= x <= 122).
    { apply orb_false_elim in Hx as [H1 H2]. apply Z.ltb_ge in H1.
      rewrite Z.gtb_ltb in H2. apply Z.ltb_ge in H2. unfold minChar, maxChar in *. lia. }
    assert (Hrin : 96 <= r <= 122).
    { unfold inRange in Hr. apply negb_true_iff, orb_false_elim in Hr as [H1 H2].
      apply Z.ltb_ge in H1. rewrite Z.gtb_ltb in H2. apply Z.ltb_ge in H2.
      unfold minChar, maxChar in *. lia. }
    unfold minChar. rewrite wrap32_bit by lia. rewrite land_pow2_testbit by lia.
    destruct (Z.testbit (bits c) (x - 96)) eqn:Hbit; cbn [negb fst].
    + rewrite (Contains_testbit c r), Hr. cbn [andb]. unfold minChar.
      destruct (Z.eqb_spec x r) as [->|Hne]; [rewrite Hbit | rewrite orb_false_r]; reflexivity.
    + rewrite !Contains_testbit, Hr. cbn [andb bits]. unfold minChar.
      rewrite Z.lor_spec. f_equal.
      destruct (Z.eqb_spec x r) as [->|Hne].
      * apply Z.pow2_bits_true. lia.
      * apply Z.pow2_bits_false. lia.
Qed.

Lemma bits_AddAll (c other : CharSet) : bits (AddAll c other) = Z.lor (bits c) (bits other).
Proof. unfold AddAll. cbv zeta. destruct (negb _); reflexivity. Qed.

Lemma bits_Intersect (c other : CharSet) :
  bits (Intersect c other) = Z.land (bits c) (bits other).
Proof. unfold Intersect. cbv zeta. destruct (negb _); reflexivity. Qed.

Lemma AddAll_Contains (c other : CharSet) (r : rune) :
  Contains (AddAll c other) r = Contains c r || Contains other r.
Proof.
  rewrite !Contains_testbit, bits_AddAll, Z.lor_spec.
  destruct (inRange r); reflexivity.
Qed.

Lemma Intersect_Contains (c other : CharSet) (r : rune) :
  Contains (Intersect c other) r = Contains c r && Contains other r.
Proof.
  rewrite !Contains_testbit, bits_Intersect, Z.land_spec.
  destruct (inRange r); [reflexivity|]. reflexivity.
Qed.

Lemma inRange_iff (r : rune) : inRange r = true <-> minChar <= r <= maxChar.
Proof.
  unfold inRange. rewrite negb_true_iff, orb_false_iff, Z.ltb_ge, Z.gtb_ltb, Z.ltb_ge. lia.
Qed.

Lemma valid_full (c : CharSet) (r : rune) :
  valid c -> IsFull c = true -> inRange r = true -> Contains c r = true.
Proof. intros Hv Hfull Hr. apply (valid_IsFull c Hv); [exact Hfull | apply inRange_iff, Hr]. Qed.

Lemma alphabet_cons : alphabet = 96 :: map (fun k => 97 + Z.of_nat k) (seq 0 26).
Proof. reflexivity. Qed.

(** A set of 26 runes without ['`'] holds every letter. *)
Lemma valid_letters (c : CharSet) (r : rune) :
  valid c -> Contains c 96 = false -> Count c + 1 = Capacity c ->
  97 <= r <= 122 -> Contains c r = true.
Proof.
  intros Hv Hblocked Hcount Hr. rewrite (valid_Count c Hv) in Hcount.
  rewrite alphabet_cons in Hcount. cbn [filter] in Hcount. rewrite Hblocked in Hcount.
  change (Capacity c) with 27 in Hcount.
  assert (Hall : List.length (filter (Contains c) (map (fun k => 97 + Z.of_nat k) (seq 0 26)))
                 = List.length (map (fun k => 97 + Z.of_nat k) (seq 0 26))).
  { rewrite length_map, length_seq. lia. }
  apply filter_all_length with (x := r) in Hall; [exact Hall|].
  apply in_map_iff. exists (Z.to_nat (r - 97)). split; [lia | apply in_seq; lia].
Qed.
End CharSetMore.

(** ** The constructors and the first line *)
Module LinesMore.
Import CharSetGo Primitives LinesSpec LinesFacts LinesMoreSpec.

(** *** [FirstOrNull] *)
Lemma hd_error_app {A : Type} (l l' : list A) :
  hd_error (l ++ l') = match hd_error l with
                       | Some x => Some x
                       | None => hd_error l'
                       end.
Proof. destruct l; reflexivity. Qed.

Lemma hd_error_map {A B : Type} (f : A -> B) (l : list A) :
  hd_error (map f l) = option_map f (hd_error l).
Proof. destruct l; reflexivity. Qed.

Lemma hd_error_product (fs ss : list ConcreteLine) :
  hd_error (product fs ss) = match hd_error fs, hd_error ss with
                             | Some f, Some s => Some (blockBetween f s)
                             | _, _ => None
                             end.
Proof.
  unfold product. destruct ss as [|s ss].
  - cbn [map]. rewrite flat_map_nil. destruct (hd_error fs); reflexivity.
  - destruct fs as [|f fs]; reflexivity.
Qed.

(** X9.  [FirstOrNull] is the first line that [Iterate] yields, nil when
    there is none. *)
Theorem FirstOrNull_is_first_line (p : PossibleLines) : FirstOrNull p = hd_error (Iterate p).
Proof.
  induction p as [n|ws oi masks|l IH|l IH|f s IHf IHs|ps IH|d] using lines_ind;
    cbn [FirstOrNull Iterate].
  - reflexivity.
  - destruct ws; reflexivity.
  - rewrite IH, hd_error_map. destruct (hd_error (Iterate l)); reflexivity.
  - rewrite IH, hd_error_map. destruct (hd_error (Iterate l)); reflexivity.
  - rewrite IHf, IHs. fold (product (Iterate f) (Iterate s)). symmetry.
    apply hd_error_product.
  - induction IH as [|q ps Hq _ IHps]; [reflexivity|].
    cbn [flat_map]. rewrite hd_error_app, <- Hq.
    destruct (FirstOrNull q); [reflexivity | exact IHps].
  - reflexivity.
Qed.

(** *** [DefiniteWords] *)
(** X10.  A word that [DefiniteWords] reports is among the words of every
    line of the value. *)
Theorem DefiniteWords_in_every_line (p : PossibleLines) :
  forall w l, In w (DefiniteWords p) -> In l (Iterate p) -> In w (ConcreteLine.Words l).
Proof.
  induction p as [n|ws oi masks|l IH|l IH|f s IHf IHs|ps IH|d] using lines_ind;
    intros w x Hw Hx; cbn [DefiniteWords Iterate] in *.
  - destruct Hx.
  - destruct ws as [|w0 [|w1 ws]]; [destruct Hw | | destruct Hw].
    cbn [map] in Hx. destruct Hx as [<-|[]]. exact Hw.
  - apply in_map_iff in Hx as (y & <- & Hy). cbn [blockBefore ConcreteLine.Words]. eauto.
  - apply in_map_iff in Hx as (y & <- & Hy). cbn [blockAfter ConcreteLine.Words]. eauto.
  - apply in_flat_map in Hx as (y & Hy & Hx). apply in_map_iff in Hx as (z & <- & Hz).
    cbn [blockBetween ConcreteLine.Words]. apply in_or_app.
    apply in_app_or in Hw as [Hw|Hw]; [left | right]; eauto.
  - destruct Hw.
  - destruct Hx as [<-|[]]. exact Hw.
Qed.

(** *** The constructors *)
Lemma MakeWordsFromPreferredAndObscure_MakeWords (preferred obscure : list string) (n : Z) :
  MakeWordsFromPreferredAndObscure preferred obscure n
  = MakeWords (preferred ++ obscure) (slen preferred) n.
Proof.
  unfold MakeWordsFromPreferredAndObscure, MakeWords.
  destruct preferred as [|p [|p' preferred]], obscure as [|o [|o' obscure]]; reflexivity.
Qed.
Lemma MakeBlockBefore_ok (l : PossibleLines) (n : Z) :
  wellFormed l = true -> NumLetters l = Some n -> n + 1 < 25 ->
  exists q, MakeBlockBefore l = Some q /\ wellFormed q = true
            /\ NumLetters q = Some (n + 1) /\ Iterate q = map blockBefore (Iterate l).
Proof.
  intros Hwf Hn H25. destruct (wellFormed_NumLetters l Hwf) as (m & Hm & Hrange).
  rewrite Hn in Hm. apply Some_inj in Hm. subst m. unfold MakeBlockBefore.
  destruct (isImpossible l) eqn:Hi.
  - rewrite Hn. cbn [bind]. rewrite MakeImpossible_ok by lia. eexists. split; [reflexivity|].
    split; [apply wellFormed_Impossible; lia|]. split; [reflexivity|].
    rewrite (isImpossible_Iterate l Hi). reflexivity.
  - eexists. split; [reflexivity|]. cbn [wellFormed NumLetters Iterate].
    rewrite Hn, Hwf, Hi. cbn [bind]. split; [|split; [f_equal; lia | reflexivity]].
    rewrite (fits_of (BlockBefore l) (1 + n)); [reflexivity | | lia].
    cbn [NumLetters]. rewrite Hn. reflexivity.
Qed.

Lemma MakeBlockAfter_ok (l : PossibleLines) (n : Z) :
  wellFormed l = true -> NumLetters l = Some n -> n + 1 < 25 ->
  exists q, MakeBlockAfter l = Some q /\ wellFormed q = true
            /\ NumLetters q = Some (n + 1) /\ Iterate q = map blockAfter (Iterate l).
Proof.
  intros Hwf Hn H25. destruct (wellFormed_NumLetters l Hwf) as (m & Hm & Hrange).
  rewrite Hn in Hm. apply Some_inj in Hm. subst m. unfold MakeBlockAfter.
  destruct (isImpossible l) eqn:Hi.
  - rewrite Hn. cbn [bind]. rewrite MakeImpossible_ok by lia. eexists. split; [reflexivity|].
    split; [apply wellFormed_Impossible; lia|]. split; [reflexivity|].
    rewrite (isImpossible_Iterate l Hi). reflexivity.
  - eexists. split; [reflexivity|]. cbn [wellFormed NumLetters Iterate].
    rewrite Hn, Hwf, Hi. cbn [bind]. split; [|split; [f_equal; lia | reflexivity]].
    rewrite (fits_of (BlockAfter l) (1 + n)); [reflexivity | | lia].
    cbn [NumLetters]. rewrite Hn. reflexivity.
Qed.

Lemma product_nil_l (ss : list ConcreteLine) : product [] ss = [].
Proof. reflexivity. Qed.

Lemma MakeBlockBetween_ok (f s : PossibleLines) (nf ns : Z) :
  wellFormed f = true -> wellFormed s = true ->
  NumLetters f = Some nf -> NumLetters s = Some ns -> nf + ns + 1 < 25 ->
  exists q, MakeBlockBetween f s = Some q /\ wellFormed q = true
            /\ NumLetters q = Some (nf + ns + 1)
            /\ Iterate q = product (Iterate f) (Iterate s).
Proof.
  intros Hwf Hws Hnf Hns H25.
  destruct (wellFormed_NumLetters f Hwf) as (m & Hm & Hrange).
  rewrite Hnf in Hm. apply Some_inj in Hm. subst m.
  destruct (wellFormed_NumLetters s Hws) as (m & Hm & Hrange').
  rewrite Hns in Hm. apply Some_inj in Hm. subst m. unfold MakeBlockBetween.
  destruct (isImpossible f || isImpossible s) eqn:Hi.
  - rewrite Hnf, Hns. cbn [bind]. rewrite MakeImpossible_ok by lia.
    eexists. split; [reflexivity|].
    split; [apply wellFormed_Impossible; lia|]. split; [reflexivity|].
    apply orb_true_iff in Hi as [Hi|Hi]; rewrite (isImpossible_Iterate _ Hi);
      [reflexivity | symmetry; apply product_nil_r].
  - apply orb_false_elim in Hi as [Hif His].
    eexists. split; [reflexivity|]. cbn [wellFormed NumLetters Iterate].
    rewrite Hnf, Hns, Hwf, Hws, Hif, His. cbn [bind].
    split; [|split; [f_equal; lia | reflexivity]].
    rewrite (fits_of (BlockBetween f s) (1 + nf + ns)); [reflexivity | | lia].
    cbn [NumLetters]. rewrite Hnf, Hns. reflexivity.
Qed.

(** *** [MakeCompound] on any list of values of one length *)
Lemma Compound_children (p : PossibleLines) :
  wellFormed p = true ->
  forall cs n, p = Compound cs -> NumLetters p = Some n -> Forall (child n) cs.
Proof.
  revert p. wf_induction; try (intros; discriminate).
  intros ps n _ Hlen _ Hall cs m Heq Hm. injection Heq as <-.
  destruct ps as [|q ps]; [discriminate|]. cbn [NumLetters] in Hm.
  pose proof (Forall_inv Hall) as (_ & _ & _ & Hq & _). rewrite Hq in Hm.
  apply Some_inj in Hm. subst m. revert Hall. apply Forall_impl.
  intros x (H1 & H2 & H3 & H4 & _). repeat split; assumption.
Qed.

Lemma flatten_children (n : Z) (ps : list PossibleLines) :
  Forall (fun q => wellFormed q = true /\ NumLetters q = Some n) ps ->
  Forall (child n) (flatten ps).
Proof.
  induction 1 as [|q ps [Hwf Hn] _ IH]; [constructor|].
  unfold flatten. cbn [flat_map]. apply Forall_app. split; [|exact IH].
  destruct q; try (constructor; [repeat split; auto | constructor]).
  - constructor.
  - apply (Compound_children _ Hwf _ _ eq_refl Hn).
Qed.

(** X7.  [MakeCompound] of well-formed values of [numLetters] cells
    returns a well-formed value of that length which yields the lines of
    the values in order: children that are [Impossible] are dropped and
    children that are [Compound] are spliced in. *)
Theorem MakeCompound_yields_all_lines (ps : list PossibleLines) (n : Z) :
  0 <= n < 25 ->
  Forall (fun q => wellFormed q = true /\ NumLetters q = Some n) ps ->
  exists q, MakeCompound ps n = Some q /\ wellFormed q = true
            /\ NumLetters q = Some n /\ Iterate q = flat_map Iterate ps.
Proof.
  intros Hn Hall. pose proof (flatten_children n ps Hall) as Hflat.
  rewrite MakeCompound_eq.
  destruct ps as [|p [|p' ps]].
  - rewrite MakeImpossible_ok by lia. eexists. split; [reflexivity|].
    split; [apply wellFormed_Impossible; lia|]. split; reflexivity.
  - pose proof (Forall_inv Hall) as [Hwf Hp]. exists p. split; [reflexivity|].
    split; [exact Hwf|]. split; [exact Hp|]. cbn [flat_map]. rewrite app_nil_r. reflexivity.
  - destruct (existsb _ (p :: p' :: ps)) eqn:Hany.
    + destruct (MakeCompound_total _ n Hflat Hn) as (q & Hq). exists q.
      destruct (MakeCompound_sound _ n q Hflat Hn Hq) as (Hwf & Hnq & _).
      split; [exact Hq|]. split; [exact Hwf|]. split; [exact Hnq|].
      rewrite (Iterate_MakeCompound _ _ _ Hq). apply Iterate_flatten.
    + assert (Hchild : Forall (child n) (p :: p' :: ps)).
      { apply Forall_forall. intros q Hq. rewrite Forall_forall in Hall.
        destruct (Hall q Hq) as [Hwf Hnq].
        assert (Hno : isImpossible q || isCompound q = false).
        { destruct (isImpossible q || isCompound q) eqn:E; [|reflexivity].
          assert (existsb (fun p => isImpossible p || isCompound p) (p :: p' :: ps) = true)
            by (apply existsb_exists; eauto).
          congruence. }
        apply orb_false_elim in Hno as [H1 H2]. repeat split; assumption. }
      eexists. split; [reflexivity|].
      split.
      { apply (wellFormed_Compound _ n);
          [rewrite !slen_cons; pose proof (slen_nonneg ps); lia | lia | exact Hchild]. }
      split; [|reflexivity]. cbn [NumLetters]. apply (Forall_inv Hall).
Qed.

(** *** When [MakeChoice] panics *)
(** X8.  [MakeChoice] panics on a well-formed value that has at most one
    line. *)
Theorem MakeChoice_panics_without_choice (p : PossibleLines) :
  wellFormed p = true ->
  slen (Iterate p) < 2 ^ 63 -> MaxPossibilities p <= 1 -> MakeChoice p = None.
Proof.
  revert p. wf_induction.
  - reflexivity.
  - intros w ws oi masks _ _ _ _ _ _ Hmax. cbn [MakeChoice]. unfold Words_MakeChoice.
    destruct (Z.leb_spec (MaxPossibilities (Words (w :: ws) oi masks)) 1); [reflexivity | lia].
  - intros l n _ _ _ _ _ _ IH Hfit Hmax. cbn [MakeChoice Iterate MaxPossibilities] in *.
    rewrite slen_map in Hfit. rewrite (IH Hfit Hmax). reflexivity.
  - intros l n _ _ _ _ _ _ IH Hfit Hmax. cbn [MakeChoice Iterate MaxPossibilities] in *.
    rewrite slen_map in Hfit. rewrite (IH Hfit Hmax). reflexivity.
  - intros f s nf ns _ Hwf Hws Hif His _ _ _ _ _ IHf IHs Hfit Hmax.
    cbn [MakeChoice Iterate MaxPossibilities] in *.
    fold (product (Iterate f) (Iterate s)) in Hfit. rewrite slen_product in Hfit.
    pose proof (Iterate_nonempty f Hwf Hif) as H1f.
    pose proof (Iterate_nonempty s Hws His) as H1s.
    assert (Hf63 : slen (Iterate f) < 2 ^ 63) by nia.
    assert (Hs63 : slen (Iterate s) < 2 ^ 63) by nia.
    rewrite (MaxPossibilities_exact f Hwf Hf63), (MaxPossibilities_exact s Hws Hs63) in *.
    rewrite wrap64_small in Hmax by nia.
    assert (slen (Iterate f) = 1) by nia. assert (slen (Iterate s) = 1) by nia.
    destruct (Z.ltb_spec (slen (Iterate s)) (slen (Iterate f))); [lia|].
    rewrite IHs; [reflexivity | lia | lia].
  - intros ps n _ _ _ _ _ Hmax. cbn [MakeChoice].
    destruct (slen ps <=? 1); [reflexivity|].
    destruct (Z.leb_spec (MaxPossibilities (Compound ps)) 1); [reflexivity | lia].
  - reflexivity.
Qed.
End LinesMore.

(** ** The lines that [RemoveWordOptions] keeps *)
Module RemoveMore.
Import CharSetGo Primitives LinesSpec LinesFacts LinesMoreSpec LinesMore.

(** *** The lines that [RemoveWordOptions] keeps *)
Lemma sameRunes_eq (a b : list rune) : sameRunes a b = true -> a = b.
Proof.
  revert b. induction a as [|x a IH]; intros [|y b] H; cbn [sameRunes] in H;
    try discriminate; [reflexivity|].
  apply andb_true_iff in H as [Hxy H]. apply Z.eqb_eq in Hxy. subst y.
  rewrite (IH b H). reflexivity.
Qed.

Lemma oneWordLine_wordLine (d : ConcreteLine) :
  oneWordLine d = true -> exists w, d = wordLine w.
Proof.
  destruct d as [line ws]. unfold oneWordLine. cbn [ConcreteLine.Words ConcreteLine.Line].
  destruct ws as [|w [|w' ws]]; try discriminate. intros H. apply sameRunes_eq in H.
  subst line. exists w. reflexivity.
Qed.

Lemma unlisted_wordLine (words : list string) (x : string) :
  unlisted words (wordLine x) = negb (Contains words x).
Proof.
  unfold unlisted, wordLine. cbn [ConcreteLine.Words existsb]. rewrite orb_false_r.
  reflexivity.
Qed.

Lemma unlisted_blockBetween (words : list string) (x y : ConcreteLine) :
  unlisted words (blockBetween x y) = unlisted words x && unlisted words y.
Proof.
  unfold unlisted, blockBetween. cbn [ConcreteLine.Words].
  rewrite existsb_app. apply negb_orb.
Qed.

Lemma filter_product (P P1 P2 : ConcreteLine -> bool) (fs ss : list ConcreteLine) :
  (forall x y, P (blockBetween x y) = P1 x && P2 y) ->
  filter P (product fs ss) = product (filter P1 fs) (filter P2 ss).
Proof.
  intros HP. unfold product. induction fs as [|x fs IH]; [reflexivity|].
  cbn [flat_map filter]. rewrite filter_app, IH, filter_map_comm.
  destruct (P1 x) eqn:H1.
  - cbn [flat_map]. f_equal. f_equal. apply filter_ext. intros y. rewrite HP, H1. reflexivity.
  - rewrite (filter_none _ ss); [reflexivity|]. intros y _. rewrite HP, H1. reflexivity.
Qed.

Lemma Remove_loop_Iterate (todo : list (PossibleLines * Result)) :
  forall seen maybeFiltered any,
    snd (Compound_Remove_loop seen todo maybeFiltered any) = true ->
    (any = false -> maybeFiltered = []) ->
    flat_map Iterate (fst (Compound_Remove_loop seen todo maybeFiltered any)) =
    flat_map Iterate maybeFiltered
    ++ (if any then [] else flat_map Iterate seen)
    ++ flat_map (fun pf => Iterate (valueOf pf)) todo.
Proof.
  induction todo as [|[p f] todo IH]; intros seen mf any H Hinit;
    cbn [Compound_Remove_loop] in *.
  - cbn [snd] in H. subst any. cbn [flat_map fst]. rewrite !app_nil_r. reflexivity.
  - cbn [flat_map]. unfold valueOf at 1. cbn [fst snd].
    destruct any; cbn [negb andb] in *.
    + rewrite !andb_false_r in *.
      destruct (isImpossible (value p f)) eqn:Hi; cbn [negb] in *.
      * rewrite (IH _ _ _ H) by discriminate.
        rewrite (isImpossible_Iterate _ Hi). reflexivity.
      * rewrite (IH _ _ _ H) by discriminate.
        rewrite flat_map_app. cbn [flat_map]. rewrite app_nil_r, <- !app_assoc. reflexivity.
    + rewrite (Hinit eq_refl) in *. rewrite !andb_true_r in *. cbn [app flat_map] in *.
      destruct f as [|q]; cbn [isNew value negb] in *.
      * rewrite (IH _ _ _ H) by reflexivity.
        cbn [flat_map app]. rewrite flat_map_app. cbn [flat_map].
        rewrite app_nil_r, <- app_assoc. reflexivity.
      * destruct (isImpossible q) eqn:Hi; cbn [negb] in *.
        -- rewrite (IH _ _ _ H) by discriminate.
           rewrite (isImpossible_Iterate _ Hi). cbn [app]. rewrite ?app_nil_r. reflexivity.
        -- rewrite (IH _ _ _ H) by discriminate.
           rewrite flat_map_app. cbn [flat_map app]. rewrite !app_nil_r, <- !app_assoc.
           reflexivity.
Qed.

Lemma RemoveWordOptions_Iterate (words : list string) (p : PossibleLines) :
  wellFormed p = true -> singleWords p = true ->
  forall r, RemoveWordOptions p words = Some r ->
            Iterate (value p r) = filter (unlisted words) (Iterate p).
Proof.
  revert p. wf_induction.
  - intros n _ _ _ r H. apply Some_inj in H. subst r. reflexivity.
  - intros w ws oi masks Hwf _ H25 Hall _ _ r H.
    cbn [RemoveWordOptions] in H. cbn [Iterate]. bind_inv H.
    destruct a; cbn [negb] in H.
    + bind_inv H. destruct a as [fl k]. bind_inv H. bind_inv H.
      apply Some_inj in H. subst r. cbn [value].
      rewrite (Iterate_MakeWords _ _ _ _ Ha2).
      apply keepWords_Some in Ha0. subst fl.
      rewrite filter_map_comm. f_equal. apply filter_ext. intros x.
      rewrite unlisted_wordLine. unfold kept. destruct (Contains words x); reflexivity.
    + apply Some_inj in H. subst r. cbn [value Iterate].
      apply ContainsFunc_false in Ha. rewrite Forall_forall in Ha.
      symmetry. apply filter_all. intros l Hl.
      apply in_map_iff in Hl as (x & <- & Hx). rewrite unlisted_wordLine.
      destruct (Contains words x) eqn:Hc; [|reflexivity]. exfalso.
      apply Contains_In in Hc. specialize (Ha x Hc). cbn [NumLetters bind] in Ha.
      rewrite Forall_forall in Hall. destruct (Hall x Hx) as [Hlen _].
      rewrite Hlen, Z.eqb_refl in Ha. cbn [negb] in Ha. apply Some_inj in Ha.
      assert (Contains (w :: ws) x = true) by (apply Contains_In; exact Hx). congruence.
  - intros l n Hwf Hwl _ Hn H0 H25 IH Hs r H.
    cbn [RemoveWordOptions] in H. cbn [Iterate singleWords] in *. bind_inv H.
    rewrite (Iterate_BlockBefore_build _ _ _ H), (IH Hs _ Ha).
    rewrite filter_map_comm. reflexivity.
  - intros l n Hwf Hwl _ Hn H0 H25 IH Hs r H.
    cbn [RemoveWordOptions] in H. cbn [Iterate singleWords] in *. bind_inv H.
    rewrite (Iterate_BlockAfter_build _ _ _ H), (IH Hs _ Ha).
    rewrite filter_map_comm. reflexivity.
  - intros f s nf ns Hwf Hwf1 Hwf2 _ _ Hnf Hns H0 H0' H25 IHf IHs Hs r H.
    cbn [RemoveWordOptions] in H. cbn [Iterate singleWords] in *.
    apply andb_true_iff in Hs as [Hsf Hss]. bind_inv H. bind_inv H.
    fold (product (Iterate f) (Iterate s)).
    rewrite (Iterate_BlockBetween_build _ _ _ _ _ H), (IHf Hsf _ Ha), (IHs Hss _ Ha0).
    symmetry. apply filter_product. intros x y. apply unlisted_blockBetween.
  - intros ps n Hwf Hlen Hn Hall Hs r H.
    cbn [RemoveWordOptions] in H. bind_inv H. cbn [Iterate singleWords] in *.
    rewrite filter_flat_map. rewrite forallb_forall in Hs.
    pose proof (mapM_Some _ _ _ Ha) as Hfs.
    assert (Hvals : flat_map (fun pf => Iterate (valueOf pf)) (combine ps a)
                    = flat_map (fun q => filter (unlisted words) (Iterate q)) ps).
    { clear - Hall Hfs Hs. induction Hfs as [|q f ps fs Hq _ IH]; [reflexivity|].
      cbn [combine flat_map]. unfold valueOf at 1. cbn [fst snd].
      pose proof (Forall_inv Hall) as (_ & _ & _ & _ & IHq).
      rewrite (IHq (Hs q (or_introl eq_refl)) _ Hq). f_equal.
      apply IH; [apply (Forall_inv_tail Hall) | intros x Hx; apply Hs; right; exact Hx]. }
    destruct (Compound_Remove_loop [] (combine ps a) [] false) as [filtered any] eqn:Hloop.
    destruct any; cbn [negb] in H.
    + bind_inv H. bind_inv H. apply Some_inj in H. subst r. cbn [value].
      rewrite (Iterate_MakeCompound _ _ _ Ha1).
      change filtered with (fst (filtered, true)). rewrite <- Hloop.
      rewrite Remove_loop_Iterate; [exact Hvals | rewrite Hloop; reflexivity | reflexivity].
    + apply Some_inj in H. subst r. cbn [value Iterate]. rewrite <- Hvals.
      assert (Hsame : Forall (fun pf => snd pf = Same) (combine ps a)).
      { apply (Remove_loop_unchanged (combine ps a) [] [] false). rewrite Hloop. reflexivity. }
      clear - Hsame Hfs. induction Hfs as [|q f ps fs _ _ IH]; [reflexivity|].
      cbn [combine flat_map]. unfold valueOf at 1. cbn [fst snd].
      pose proof (Forall_inv Hsame) as Hf. cbn [snd] in Hf. subst f. cbn [value].
      f_equal. apply IH. apply (Forall_inv_tail Hsame).
  - intros d Hwf H25 Hs r H. cbn [singleWords] in Hs.
    destruct (oneWordLine_wordLine d Hs) as (w & ->).
    cbn [RemoveWordOptions] in H. bind_inv H. cbn [Iterate filter].
    rewrite unlisted_wordLine.
    cbn [NumLetters wordLine ConcreteLine.Line ConcreteLine.Words bind] in Ha.
    rewrite length_runes in Ha.
    destruct a.
    + apply newImpossible_Some in H as (k & _ & -> & _). cbn [value Iterate].
      apply ContainsFunc_true in Ha as (x & Hx & Hhit).
      destruct (len x =? len w); cbn [negb] in Hhit; [|discriminate].
      apply Some_inj in Hhit. apply Contains_In in Hhit. destruct Hhit as [->|[]].
      assert (Hc : Contains words x = true) by (apply Contains_In; exact Hx).
      rewrite Hc. reflexivity.
    + apply Some_inj in H. subst r. cbn [value Iterate].
      destruct (Contains words w) eqn:Hc; [|reflexivity]. exfalso.
      apply Contains_In in Hc. apply ContainsFunc_false in Ha. rewrite Forall_forall in Ha.
      specialize (Ha w Hc). rewrite Z.eqb_refl in Ha. cbn [negb] in Ha.
      apply Some_inj in Ha. cbn [Contains existsb] in Ha. rewrite String.eqb_refl in Ha.
      discriminate.
Qed.
End RemoveMore.

Module SharedFacts.
Import CharSetGo Primitives LinesSpec LinesFacts SharedSpec.

Scheme tree_mut := Minimality for tree Sort Prop
  with trees_mut := Minimality for trees Sort Prop.
Combined Scheme tree_trees_ind from tree_mut, trees_mut.

(** *** Arrays and stores *)
Lemma length_written (i : nat) (x : Shared.PossibleLines) (a : list Shared.PossibleLines) :
  List.length (Shared.writeAt i x a) = List.length a.
Proof.
  revert i. induction a as [|y a IH]; intros [|i]; cbn [Shared.writeAt List.length]; auto.
Qed.

Lemma nth_error_writeAt (i : nat) (x : Shared.PossibleLines) (a : list Shared.PossibleLines)
      (j : nat) :
  (i < List.length a)%nat ->
  nth_error (Shared.writeAt i x a) j = if (j =? i)%nat then Some x else nth_error a j.
Proof.
  revert i j. induction a as [|y a IH]; intros i j Hi; cbn [List.length] in Hi; [lia|].
  destruct i as [|i], j as [|j]; cbn [Shared.writeAt nth_error Nat.eqb]; auto.
  apply IH. lia.
Qed.

Lemma length_write (st : Shared.Store) (a i : nat) (x : Shared.PossibleLines) :
  List.length (Shared.write st a i x) = List.length st.
Proof.
  revert a. induction st as [|y st IH]; intros [|a]; cbn [Shared.write List.length]; auto.
Qed.

Lemma nth_error_write (st : Shared.Store) (a i : nat) (x : Shared.PossibleLines) (b : nat) :
  nth_error (Shared.write st a i x) b
  = if (b =? a)%nat then option_map (Shared.writeAt i x) (nth_error st b)
    else nth_error st b.
Proof.
  revert a b. induction st as [|y st IH]; intros a b.
  - destruct a, b; cbn [Shared.write nth_error option_map]; destruct (_ =? _)%nat; reflexivity.
  - destruct a as [|a], b as [|b]; cbn [Shared.write nth_error Nat.eqb option_map]; auto.
Qed.

(** The slice [a[off : off + k]]. *)
Lemma nth_error_slice (off k : nat) (a : list Shared.PossibleLines) (j : nat) :
  nth_error (firstn k (skipn off a)) j
  = if (j <? k)%nat then nth_error a (off + j) else None.
Proof. rewrite nth_error_firstn, nth_error_skipn. reflexivity. Qed.

Lemma slice_ext (off k : nat) (a a' : list Shared.PossibleLines) :
  (forall j, (off <= j < off + k)%nat -> nth_error a' j = nth_error a j) ->
  firstn k (skipn off a') = firstn k (skipn off a).
Proof.
  intros H. apply nth_error_ext. intros j. rewrite !nth_error_slice.
  destruct (Nat.ltb_spec j k); [|reflexivity]. apply H. lia.
Qed.

Lemma slice_snoc (off k : nat) (a : list Shared.PossibleLines) (x : Shared.PossibleLines) :
  nth_error a (off + k) = Some x ->
  firstn (S k) (skipn off a) = firstn k (skipn off a) ++ [x].
Proof.
  intros Hx. apply nth_error_ext. intros j. rewrite nth_error_slice.
  assert (Hlen : List.length (firstn k (skipn off a)) = k).
  { rewrite length_firstn, length_skipn.
    assert (off + k < List.length a)%nat by (apply nth_error_Some; congruence). lia. }
  destruct (Nat.ltb_spec j (S k)).
  - destruct (Nat.eq_dec j k) as [->|Hne].
    + rewrite nth_error_app2 by lia. rewrite Hlen, Nat.sub_diag. exact Hx.
    + rewrite nth_error_app1 by lia. rewrite nth_error_slice.
      destruct (Nat.ltb_spec j k); [reflexivity | lia].
  - symmetry. apply nth_error_None. rewrite length_app, Hlen. cbn [List.length]. lia.
Qed.

Lemma slice_cons (off k : nat) (a : list Shared.PossibleLines) (x : Shared.PossibleLines)
      (l : list Shared.PossibleLines) :
  firstn k (skipn off a) = x :: l ->
  nth_error a off = Some x
  /\ exists k', k = S k' /\ firstn k' (skipn (S off) a) = l.
Proof.
  intros H. split.
  - pose proof (nth_error_slice off k a 0) as H0. rewrite H in H0. cbn [nth_error] in H0.
    destruct (0 <? k)%nat; [|discriminate]. rewrite Nat.add_0_r in H0. auto.
  - destruct k as [|k']; [discriminate|]. exists k'. split; [reflexivity|].
    apply nth_error_ext. intros j. rewrite nth_error_slice.
    pose proof (nth_error_slice off (S k') a (S j)) as Hj. rewrite H in Hj.
    cbn [nth_error] in Hj. rewrite Hj.
    replace (S off + j)%nat with (off + S j)%nat by lia.
    destruct (Nat.ltb_spec j k'), (Nat.ltb_spec (S j) (S k')); try lia; reflexivity.
Qed.

Lemma elements_Some (st : Shared.Store) (c : Shared.Slice) (hs : list Shared.PossibleLines) :
  Shared.elements st c = Some hs ->
  exists a, nth_error st (Shared.array c) = Some a
            /\ (Shared.offset c + Shared.count c <= List.length a)%nat
            /\ hs = firstn (Shared.count c) (skipn (Shared.offset c) a).
Proof.
  unfold Shared.elements. intros H. bind_inv H. exists a. split; [exact Ha|].
  destruct (Nat.leb_spec (Shared.offset c + Shared.count c) (List.length a));
    [|discriminate].
  apply Some_inj in H. auto.
Qed.

Lemma elements_ok (st : Shared.Store) (c : Shared.Slice) (a : list Shared.PossibleLines) :
  nth_error st (Shared.array c) = Some a ->
  (Shared.offset c + Shared.count c <= List.length a)%nat ->
  Shared.elements st c = Some (firstn (Shared.count c) (skipn (Shared.offset c) a)).
Proof.
  intros Ha Hle. unfold Shared.elements. rewrite Ha. cbn [bind].
  destruct (Nat.leb_spec (Shared.offset c + Shared.count c) (List.length a)); [reflexivity | lia].
Qed.

Lemma element_ok (st : Shared.Store) (c : Shared.Slice) (a : list Shared.PossibleLines)
      (i : nat) :
  nth_error st (Shared.array c) = Some a -> (i < Shared.count c)%nat ->
  Shared.element st c i = nth_error a (Shared.offset c + i).
Proof.
  intros Ha Hi. unfold Shared.element. rewrite Ha. cbn [bind].
  destruct (Nat.ltb_spec i (Shared.count c)); [reflexivity | lia].
Qed.

(** *** Values that are trees *)
Lemma agree_app (F G : list nat) (st st' : Shared.Store) :
  agree (F ++ G) st st' -> agree F st st' /\ agree G st st'.
Proof. intros H. split; intros a Ha; apply H, in_or_app; auto. Qed.

Lemma tree_trees_frame (st : Shared.Store) :
  (forall h t F, tree st h t F -> forall st', agree F st st' -> tree st' h t F)
  /\ (forall hs ts F, trees st hs ts F -> forall st', agree F st st' -> trees st' hs ts F).
Proof.
  apply tree_trees_ind.
  - constructor.
  - constructor.
  - intros h t F _ IH st' Hag. constructor. auto.
  - intros h t F _ IH st' Hag. constructor. auto.
  - intros hf hs tf ts Ff Fs _ IHf _ IHs Hd st' Hag. apply agree_app in Hag as [H1 H2].
    constructor; auto.
  - intros c hs ts F He _ IH Hn st' Hag. apply tree_Compound with (hs := hs); [|apply IH|exact Hn].
    + unfold Shared.elements in *. rewrite (Hag (Shared.array c)) by (left; reflexivity).
      exact He.
    + intros a Ha. apply Hag. right. exact Ha.
  - constructor.
  - constructor.
  - intros h t F hs ts Fs _ IHh _ IHs Hd st' Hag. apply agree_app in Hag as [H1 H2].
    constructor; auto.
Qed.

Lemma tree_frame (st st' : Shared.Store) h t F :
  tree st h t F -> agree F st st' -> tree st' h t F.
Proof. intros H. apply (proj1 (tree_trees_frame st) h t F H). Qed.

Lemma trees_frame (st st' : Shared.Store) hs ts F :
  trees st hs ts F -> agree F st st' -> trees st' hs ts F.
Proof. intros H. apply (proj2 (tree_trees_frame st) hs ts F H). Qed.

Lemma tree_trees_bound (st : Shared.Store) :
  (forall h t F, tree st h t F -> forall a, In a F -> (a < List.length st)%nat)
  /\ (forall hs ts F, trees st hs ts F -> forall a, In a F -> (a < List.length st)%nat).
Proof.
  apply tree_trees_ind; try (intros; contradiction); auto.
  - intros hf hs tf ts Ff Fs _ IHf _ IHs _ a Ha. apply in_app_or in Ha as [Ha|Ha]; auto.
  - intros c hs ts F He _ IH _ a [<-|Ha]; [|auto].
    apply elements_Some in He as (arr & Harr & _). apply nth_error_Some. congruence.
  - intros h t F hs ts Fs _ IHh _ IHs _ a Ha. apply in_app_or in Ha as [Ha|Ha]; auto.
Qed.

Lemma tree_bound (st : Shared.Store) h t F (a : nat) :
  tree st h t F -> In a F -> (a < List.length st)%nat.
Proof. intros H. apply (proj1 (tree_trees_bound st) h t F H). Qed.

Lemma trees_bound (st : Shared.Store) hs ts F (a : nat) :
  trees st hs ts F -> In a F -> (a < List.length st)%nat.
Proof. intros H. apply (proj2 (tree_trees_bound st) hs ts F H). Qed.

Lemma tree_kind (st : Shared.Store) h t F :
  tree st h t F ->
  Shared.isImpossible h = isImpossible t /\ Shared.isCompound h = isCompound t.
Proof. intros H. destruct H; auto. Qed.

Lemma trees_length (st : Shared.Store) hs ts F :
  trees st hs ts F -> List.length hs = List.length ts.
Proof. induction 1; cbn [List.length]; auto. Qed.

Lemma trees_snoc (st : Shared.Store) hs ts F h t G :
  trees st hs ts F -> tree st h t G -> disjoint F G ->
  trees st (hs ++ [h]) (ts ++ [t]) (F ++ G).
Proof.
  intros Hs Ht. induction Hs as [|h0 t0 F0 hs ts Fs Hh Hs IH Hd0]; intros Hd.
  - cbn [app]. rewrite <- (app_nil_r G). constructor; [exact Ht | constructor |].
    intros a _ [].
  - cbn [app]. rewrite <- app_assoc. constructor; [exact Hh | |].
    + apply IH. intros a Ha. apply Hd, in_or_app. auto.
    + intros a Ha Hin. apply in_app_or in Hin as [Hin|Hin].
      * exact (Hd0 a Ha Hin).
      * apply (Hd a); [apply in_or_app; auto | exact Hin].
Qed.

Lemma trees_kinds (st : Shared.Store) hs ts F (P : bool -> bool -> bool) :
  trees st hs ts F ->
  existsb (fun p => P (Shared.isImpossible p) (Shared.isCompound p)) hs
  = existsb (fun p => P (isImpossible p) (isCompound p)) ts.
Proof.
  induction 1 as [|h t F hs ts Fs Hh _ IH _]; cbn [existsb]; [reflexivity|].
  destruct (tree_kind _ _ _ _ Hh) as [-> ->]. rewrite IH. reflexivity.
Qed.

Lemma elements_head (st : Shared.Store) (c : Shared.Slice) h hs :
  Shared.elements st c = Some (h :: hs) -> Shared.element st c 0 = Some h.
Proof.
  intros H. apply elements_Some in H as (a & Ha & Hle & Hhs). symmetry in Hhs.
  apply slice_cons in Hhs as (Hh & k' & Hk & _).
  rewrite (element_ok st c a 0 Ha) by lia. rewrite Nat.add_0_r. exact Hh.
Qed.

(** The methods that only read give on a tree what they give in
    [Primitives]. *)
Lemma tree_trees_NumLetters (st : Shared.Store) :
  (forall h t F, tree st h t F ->
     forall n fuel, NumLetters t = Some n -> (weight t <= fuel)%nat ->
                    Shared.NumLetters fuel st h = Some n)
  /\ (forall hs ts F, trees st hs ts F ->
        match hs, ts with
        | h :: _, t :: _ =>
            forall n fuel, NumLetters t = Some n -> (weight t <= fuel)%nat ->
                           Shared.NumLetters fuel st h = Some n
        | _, _ => True
        end).
Proof.
  apply tree_trees_ind.
  - intros n m [|fuel] Hn Hf; cbn [weight] in Hf; [lia|]. exact Hn.
  - intros ws oi masks m [|fuel] Hn Hf; cbn [weight] in Hf; [lia|]. exact Hn.
  - intros h t F _ IH n [|fuel] Hn Hf; cbn [weight] in Hf; [lia|].
    cbn [NumLetters] in Hn. bind_inv Hn. cbn [Shared.NumLetters].
    rewrite (IH a fuel Ha) by lia. exact Hn.
  - intros h t F _ IH n [|fuel] Hn Hf; cbn [weight] in Hf; [lia|].
    cbn [NumLetters] in Hn. bind_inv Hn. cbn [Shared.NumLetters].
    rewrite (IH a fuel Ha) by lia. exact Hn.
  - intros hf hs tf ts Ff Fs _ IHf _ IHs _ n [|fuel] Hn Hf; cbn [weight] in Hf; [lia|].
    cbn [NumLetters] in Hn. bind_inv Hn. bind_inv Hn. cbn [Shared.NumLetters].
    rewrite (IHf a fuel Ha) by lia. rewrite (IHs a0 fuel Ha0) by lia. exact Hn.
  - intros c hs ts F He Hts IH _ n [|fuel] Hn Hf; [pose proof (weight_pos (Compound ts)); lia|].
    rewrite weight_Compound in Hf. cbn [NumLetters] in Hn.
    destruct Hts as [|h t F0 hs ts Fs Hh Hs Hd]; [discriminate|].
    cbn [Shared.NumLetters]. rewrite (elements_head _ _ _ _ He). cbn [bind].
    apply IH; [exact Hn|]. rewrite weights_cons in Hf. lia.
  - intros d n [|fuel] Hn Hf; cbn [weight] in Hf; [lia|]. exact Hn.
  - exact I.
  - intros h t F hs ts Fs _ IH _ _ _. exact IH.
Qed.

Lemma tree_NumLetters (st : Shared.Store) h t F (n : Z) (fuel : nat) :
  tree st h t F -> NumLetters t = Some n -> (weight t <= fuel)%nat ->
  Shared.NumLetters fuel st h = Some n.
Proof. intros H. apply (proj1 (tree_trees_NumLetters st) h t F H). Qed.

Lemma mapM_pure {A B : Type} (g : A -> B) (l : list A) :
  mapM (fun x => Some (g x)) l = Some (map g l).
Proof. induction l as [|x l IH]; cbn [mapM map bind]; [|rewrite IH]; reflexivity. Qed.

Lemma tree_trees_Iterate (st : Shared.Store) :
  (forall h t F, tree st h t F ->
     forall fuel, (weight t <= fuel)%nat -> Shared.Iterate fuel st h = Some (Iterate t))
  /\ (forall hs ts F, trees st hs ts F ->
        forall fuel, (weights ts <= fuel)%nat ->
                     mapM (Shared.Iterate fuel st) hs = Some (map Iterate ts)).
Proof.
  apply tree_trees_ind.
  - intros n [|fuel] Hf; cbn [weight] in Hf; [lia|]. reflexivity.
  - intros ws oi masks [|fuel] Hf; cbn [weight] in Hf; [lia|]. reflexivity.
  - intros h t F _ IH [|fuel] Hf; cbn [weight] in Hf; [lia|].
    cbn [Shared.Iterate Iterate]. rewrite IH by lia. reflexivity.
  - intros h t F _ IH [|fuel] Hf; cbn [weight] in Hf; [lia|].
    cbn [Shared.Iterate Iterate]. rewrite IH by lia. reflexivity.
  - intros hf hs tf ts Ff Fs _ IHf _ IHs _ [|fuel] Hf; cbn [weight] in Hf; [lia|].
    cbn [Shared.Iterate Iterate]. rewrite IHf by lia. rewrite IHs by lia. cbn [bind].
    rewrite mapM_pure. cbn [bind]. rewrite flat_map_concat_map. reflexivity.
  - intros c hs ts F He _ IH _ [|fuel] Hf; [pose proof (weight_pos (Compound ts)); lia|].
    rewrite weight_Compound in Hf. cbn [Shared.Iterate Iterate]. rewrite He. cbn [bind].
    rewrite IH by lia. cbn [bind]. rewrite flat_map_concat_map. reflexivity.
  - intros d [|fuel] Hf; cbn [weight] in Hf; [lia|]. reflexivity.
  - reflexivity.
  - intros h t F hs ts Fs _ IHh _ IHs _ fuel Hf. rewrite weights_cons in Hf.
    cbn [mapM map]. rewrite IHh by lia. rewrite IHs by lia. reflexivity.
Qed.

Lemma tree_Iterate (st : Shared.Store) h t F (fuel : nat) :
  tree st h t F -> (weight t <= fuel)%nat -> Shared.Iterate fuel st h = Some (Iterate t).
Proof. intros H. apply (proj1 (tree_trees_Iterate st) h t F H). Qed.

(** *** The letters of a receiver after the call *)
Lemma keeps_tree (st : Shared.Store) h t F (n : Z) :
  tree st h t F -> NumLetters t = Some n -> keeps st (weight t) (fun a => In a F) h n.
Proof.
  intros Ht Hn st' fuel Hag Hf. apply (tree_NumLetters st' h t F); auto.
  apply (tree_frame st); auto.
Qed.

Lemma keeps_weaken (st : Shared.Store) (k k' : nat) (D D' : nat -> Prop) h (n : Z) :
  keeps st k D h n -> (forall a, D a -> D' a) -> (k <= k')%nat -> keeps st k' D' h n.
Proof. intros H HD Hk st' fuel Hag Hf. apply H; [auto | lia]. Qed.

Lemma keeps_move (st st' : Shared.Store) (k : nat) (D : nat -> Prop) h (n : Z) :
  keeps st k D h n -> (forall a, D a -> nth_error st' a = nth_error st a) ->
  keeps st' k D h n.
Proof.
  intros H Hag st'' fuel Hag' Hf. apply H; [|exact Hf].
  intros a Ha. rewrite (Hag' a Ha). auto.
Qed.

Lemma keeps_here (st : Shared.Store) (k : nat) (D : nat -> Prop) h (n : Z) (fuel : nat) :
  keeps st k D h n -> (k <= fuel)%nat -> Shared.NumLetters fuel st h = Some n.
Proof. intros H Hf. apply H; auto. Qed.

(** *** The variants without parts *)
Lemma MakeImpossible_tree (st : Shared.Store) (n : Z) (q : PossibleLines) :
  MakeImpossible n = Some q ->
  exists hq, Shared.MakeImpossible n = Some hq /\ tree st hq q [].
Proof.
  unfold MakeImpossible, Shared.MakeImpossible.
  destruct ((0 <=? n) && (n <? 25)); [|discriminate].
  intros H. apply Some_inj in H. subst q. eexists. split; [reflexivity | constructor].
Qed.

Lemma MakeWords_tree (st : Shared.Store) (l : list string) (oi n : Z) (q : PossibleLines) :
  MakeWords l oi n = Some q ->
  exists hq, Shared.MakeWords l oi n = Some hq /\ tree st hq q [].
Proof.
  unfold MakeWords, Shared.MakeWords. destruct l as [|w [|w' l]].
  - apply MakeImpossible_tree.
  - intros H. apply Some_inj in H. subst q. eexists. split; [reflexivity | constructor].
  - intros H. apply Some_inj in H. subst q. eexists. split; [reflexivity | constructor].
Qed.

Lemma newImpossible_tree (st : Shared.Store) (n : option Z) (rp : Result) :
  newImpossible n = Some rp ->
  exists hq q, rp = New q /\ Shared.newImpossible n = Some (Shared.New hq)
               /\ tree st hq q [] /\ isImpossible q = true.
Proof.
  unfold newImpossible, Shared.newImpossible. intros H. bind_inv H. bind_inv H.
  apply Some_inj in H. subst rp. subst n. cbn [bind].
  destruct (MakeImpossible_tree st a a0 Ha0) as (hq & Hhq & Ht). rewrite Hhq. cbn [bind].
  apply MakeImpossible_Some in Ha0 as [-> _].
  exists hq, (Impossible a). auto.
Qed.

Lemma changes_refl (F : list nat) (st : Shared.Store) : changes F st st.
Proof. split; auto. Qed.

Lemma Words_asOnTree (words : list string) (st : Shared.Store) ws oi masks (rp : Result) :
  RemoveWordOptions (Words ws oi masks) words = Some rp ->
  exists r, asOnTree words st (Shared.Words ws oi masks) (Words ws oi masks) [] rp st r.
Proof.
  intros H. cbn [RemoveWordOptions] in H. bind_inv H.
  destruct a; cbn [negb] in H.
  - bind_inv H. destruct a as [fp fPreferred]. bind_inv H. bind_inv H.
    apply Some_inj in H. subst rp.
    destruct (MakeWords_tree st _ _ _ _ Ha2) as (hq & Hhq & Ht).
    exists (Shared.New hq). split; [|split; [reflexivity|split; [discriminate|split]]].
    + intros [|fuel] Hf; [lia|]. cbn [Shared.RemoveWordOptions Shared.NumLetters].
      cbn [NumLetters] in Ha, Ha1. rewrite Ha. cbn [bind negb]. rewrite Ha0. cbn [bind].
      rewrite Ha1. cbn [bind]. rewrite Hhq. reflexivity.
    + exists []. split; [exact Ht | intros b []].
    + apply changes_refl.
  - apply Some_inj in H. subst rp.
    exists Shared.Same. split; [|split; [reflexivity|split; [reflexivity|split]]].
    + intros [|fuel] Hf; [lia|]. cbn [Shared.RemoveWordOptions Shared.NumLetters].
      cbn [NumLetters] in Ha. rewrite Ha. reflexivity.
    + exists []. split; [constructor | intros b []].
    + apply changes_refl.
Qed.

Lemma Definite_asOnTree (words : list string) (st : Shared.Store) d (rp : Result) :
  RemoveWordOptions (Definite d) words = Some rp ->
  exists r, asOnTree words st (Shared.Definite d) (Definite d) [] rp st r.
Proof.
  intros H. cbn [RemoveWordOptions] in H. bind_inv H.
  destruct a.
  - destruct (newImpossible_tree st _ _ H) as (hq & q & -> & Hhq & Ht & _).
    exists (Shared.New hq). split; [|split; [reflexivity|split; [discriminate|split]]].
    + intros [|fuel] Hf; [lia|]. cbn [Shared.RemoveWordOptions Shared.NumLetters].
      cbn [NumLetters] in Ha, Hhq. rewrite Ha. cbn [bind]. rewrite Hhq. reflexivity.
    + exists []. split; [exact Ht | intros b []].
    + apply changes_refl.
  - apply Some_inj in H. subst rp.
    exists Shared.Same. split; [|split; [reflexivity|split; [reflexivity|split]]].
    + intros [|fuel] Hf; [lia|]. cbn [Shared.RemoveWordOptions Shared.NumLetters].
      cbn [NumLetters] in Ha. rewrite Ha. reflexivity.
    + exists []. split; [constructor | intros b []].
    + apply changes_refl.
Qed.

Lemma leaf_simulates (words : list string) (t : PossibleLines) :
  (forall st h F rp, tree st h t F -> RemoveWordOptions t words = Some rp ->
                     exists r, asOnTree words st h t F rp st r) ->
  simulates words t.
Proof.
  intros H st h F rp n Ht Hn Hr. destruct (H st h F rp Ht Hr) as (r & Hsim).
  exists st, r. split; [exact Hsim|].
  apply (keeps_weaken st (weight t) (weight t) (fun a => In a F)); [|left; assumption|lia].
  apply keeps_tree; assumption.
Qed.

Lemma Impossible_simulates (words : list string) (n : Z) : simulates words (Impossible n).
Proof.
  apply leaf_simulates. intros st h F rp Ht Hr. inversion Ht; subst.
  cbn [RemoveWordOptions] in Hr. apply Some_inj in Hr. subst rp.
  exists Shared.Same. split; [|split; [reflexivity|split; [reflexivity|split]]].
  - intros [|fuel] Hf; [lia|]. reflexivity.
  - exists []. split; [constructor | intros b []].
  - apply changes_refl.
Qed.

Lemma Words_simulates (words : list string) ws oi masks :
  simulates words (Words ws oi masks).
Proof.
  apply leaf_simulates. intros st h F rp Ht Hr. inversion Ht; subst.
  apply Words_asOnTree, Hr.
Qed.

Lemma Definite_simulates (words : list string) d : simulates words (Definite d).
Proof.
  apply leaf_simulates. intros st h F rp Ht Hr. inversion Ht; subst.
  apply Definite_asOnTree, Hr.
Qed.

(** *** [BlockBefore], [BlockAfter] and [BlockBetween] *)
Lemma Before_simulates (words : list string) (t : PossibleLines) :
  simulates words t -> simulates words (BlockBefore t).
Proof.
  intros IH st hh F rp m Ht Hm Hr.
  inversion Ht as [| |h t0 F0 Hh| | | |]; subst.
  cbn [NumLetters] in Hm. bind_inv Hm. apply Some_inj in Hm. subst m. rename a into n.
  cbn [RemoveWordOptions] in Hr. bind_inv Hr. rename a into rp1.
  destruct (IH st h F rp1 n Hh Ha Ha0)
    as (st1 & r1 & (Hcall & Hnew & Hsame & (F' & Ht' & Hsub) & Hch) & Hkeep).
  assert (Hkeep' : keeps st1 (weight (BlockBefore t)) (reach F st st1)
                         (Shared.BlockBefore h) (1 + n)).
  { intros st'' [|fuel] Hag Hf; cbn [weight] in Hf; [lia|]. cbn [Shared.NumLetters].
    rewrite (Hkeep st'' fuel Hag) by lia. reflexivity. }
  unfold BlockBefore_build in Hr.
  destruct (tree_kind _ _ _ _ Ht') as [Hki _].
  exists st1. destruct (isImpossible (value t rp1)) eqn:Himp.
  - destruct (newImpossible_tree st1 _ _ Hr) as (hq & q & -> & Hhq & Htq & _).
    cbn [NumLetters] in Hhq. rewrite Ha in Hhq. cbn [bind] in Hhq.
    exists (Shared.New hq).
    split; [split; [|split; [reflexivity | split; [discriminate | split]]]|exact Hkeep'].
    + intros [|fuel] Hf; cbn [weight] in Hf; [lia|]. cbn [Shared.RemoveWordOptions].
      rewrite Hcall by lia. cbn [bind]. unfold Shared.BlockBefore_build. rewrite Hki.
      rewrite (keeps_here _ _ _ _ _ fuel Hkeep') by (cbn [weight]; lia).
      rewrite Hhq. reflexivity.
    + exists []. split; [exact Htq | intros b []].
    + exact Hch.
  - destruct rp1 as [|tp], r1 as [|hp]; try discriminate; apply Some_inj in Hr; subst rp.
    + exists Shared.Same.
      split; [split; [|split; [reflexivity | split; [exact Hsame | split]]]|exact Hkeep'].
      * intros [|fuel] Hf; cbn [weight] in Hf; [lia|]. cbn [Shared.RemoveWordOptions].
        rewrite Hcall by lia. cbn [bind]. unfold Shared.BlockBefore_build. rewrite Hki.
        reflexivity.
      * exists F'. split; [constructor; exact Ht' | exact Hsub].
      * exact Hch.
    + exists (Shared.New (Shared.BlockBefore hp)).
      split; [split; [|split; [reflexivity | split; [discriminate | split]]]|exact Hkeep'].
      * intros [|fuel] Hf; cbn [weight] in Hf; [lia|]. cbn [Shared.RemoveWordOptions].
        rewrite Hcall by lia. cbn [bind]. unfold Shared.BlockBefore_build. rewrite Hki.
        reflexivity.
      * exists F'. split; [constructor; exact Ht' | exact Hsub].
      * exact Hch.
Qed.

Lemma After_simulates (words : list string) (t : PossibleLines) :
  simulates words t -> simulates words (BlockAfter t).
Proof.
  intros IH st hh F rp m Ht Hm Hr.
  inversion Ht as [| | |h t0 F0 Hh| | |]; subst.
  cbn [NumLetters] in Hm. bind_inv Hm. apply Some_inj in Hm. subst m. rename a into n.
  cbn [RemoveWordOptions] in Hr. bind_inv Hr. rename a into rp1.
  destruct (IH st h F rp1 n Hh Ha Ha0)
    as (st1 & r1 & (Hcall & Hnew & Hsame & (F' & Ht' & Hsub) & Hch) & Hkeep).
  assert (Hkeep' : keeps st1 (weight (BlockAfter t)) (reach F st st1)
                         (Shared.BlockAfter h) (1 + n)).
  { intros st'' [|fuel] Hag Hf; cbn [weight] in Hf; [lia|]. cbn [Shared.NumLetters].
    rewrite (Hkeep st'' fuel Hag) by lia. reflexivity. }
  unfold BlockAfter_build in Hr.
  destruct (tree_kind _ _ _ _ Ht') as [Hki _].
  exists st1. destruct (isImpossible (value t rp1)) eqn:Himp.
  - destruct (newImpossible_tree st1 _ _ Hr) as (hq & q & -> & Hhq & Htq & _).
    cbn [NumLetters] in Hhq. rewrite Ha in Hhq. cbn [bind] in Hhq.
    exists (Shared.New hq).
    split; [split; [|split; [reflexivity | split; [discriminate | split]]]|exact Hkeep'].
    + intros [|fuel] Hf; cbn [weight] in Hf; [lia|]. cbn [Shared.RemoveWordOptions].
      rewrite Hcall by lia. cbn [bind]. unfold Shared.BlockAfter_build. rewrite Hki.
      rewrite (keeps_here _ _ _ _ _ fuel Hkeep') by (cbn [weight]; lia).
      rewrite Hhq. reflexivity.
    + exists []. split; [exact Htq | intros b []].
    + exact Hch.
  - destruct rp1 as [|tp], r1 as [|hp]; try discriminate; apply Some_inj in Hr; subst rp.
    + exists Shared.Same.
      split; [split; [|split; [reflexivity | split; [exact Hsame | split]]]|exact Hkeep'].
      * intros [|fuel] Hf; cbn [weight] in Hf; [lia|]. cbn [Shared.RemoveWordOptions].
        rewrite Hcall by lia. cbn [bind]. unfold Shared.BlockAfter_build. rewrite Hki.
        reflexivity.
      * exists F'. split; [constructor; exact Ht' | exact Hsub].
      * exact Hch.
    + exists (Shared.New (Shared.BlockAfter hp)).
      split; [split; [|split; [reflexivity | split; [discriminate | split]]]|exact Hkeep'].
      * intros [|fuel] Hf; cbn [weight] in Hf; [lia|]. cbn [Shared.RemoveWordOptions].
        rewrite Hcall by lia. cbn [bind]. unfold Shared.BlockAfter_build. rewrite Hki.
        reflexivity.
      * exists F'. split; [constructor; exact Ht' | exact Hsub].
      * exact Hch.
Qed.

Lemma Between_simulates (words : list string) (tf ts : PossibleLines) :
  simulates words tf -> simulates words ts -> simulates words (BlockBetween tf ts).
Proof.
  intros IHf IHs st hh F rp m Ht Hm Hr.
  inversion Ht as [| | | |hf hs tf0 ts0 Ff Fs Hf Hs Hd| |]; subst.
  cbn [NumLetters] in Hm. bind_inv Hm. bind_inv Hm. apply Some_inj in Hm. subst m.
  rename a into nf, a0 into ns, Ha into Hnf, Ha0 into Hns.
  cbn [RemoveWordOptions] in Hr. bind_inv Hr. bind_inv Hr.
  rename a into rpf, a0 into rps, Ha into Hrf, Ha0 into Hrs.
  destruct (IHf st hf Ff rpf nf Hf Hnf Hrf)
    as (st1 & r1 & (Hcall1 & Hnew1 & Hsame1 & (F1 & Ht1 & Hsub1) & Hlen1 & Hch1) & Hkeep1).
  assert (Hs1 : tree st1 hs ts Fs).
  { apply (tree_frame st); [exact Hs|]. intros a Ha. apply Hch1.
    - apply (tree_bound st hs ts Fs); assumption.
    - intros Hin. exact (Hd a Hin Ha). }
  destruct (IHs st1 hs Fs rps ns Hs1 Hns Hrs)
    as (st2 & r2 & (Hcall2 & Hnew2 & Hsame2 & (F2 & Ht2 & Hsub2) & Hlen2 & Hch2) & Hkeep2).
  assert (HFs : forall a, In a Fs -> (a < List.length st)%nat)
    by (intros a; apply (tree_bound st hs ts Fs a Hs)).
  assert (HFf : forall a, In a Ff -> (a < List.length st)%nat)
    by (intros a; apply (tree_bound st hf tf Ff a Hf)).
  assert (HF1 : forall a, In a F1 -> (a < List.length st1)%nat)
    by (intros a; apply (tree_bound st1 _ _ F1 a Ht1)).
  assert (Ht1' : tree st2 (Shared.value hf r1) (value tf rpf) F1).
  { apply (tree_frame st1); [exact Ht1|]. intros a Ha. apply Hch2; [auto|].
    intros Hin. destruct (Hsub1 a Ha) as [H|H]; [exact (Hd a H Hin)|].
    specialize (HFs a Hin). lia. }
  assert (Hd12 : disjoint F1 F2).
  { intros a Ha Hin. specialize (HF1 a Ha).
    destruct (Hsub2 a Hin) as [H|H]; [|lia].
    destruct (Hsub1 a Ha) as [H'|H']; [exact (Hd a H' H)|]. specialize (HFs a H). lia. }
  assert (Hk1 : keeps st2 (weight tf) (reach (Ff ++ Fs) st st2) hf nf).
  { apply (keeps_weaken st2 (weight tf) (weight tf) (reach Ff st st1)); [| |lia].
    - apply (keeps_move st1); [exact Hkeep1|]. intros a [Ha|Ha].
      + apply Hch2; [specialize (HFf a Ha); lia|]. intros Hin. exact (Hd a Ha Hin).
      + apply Hch2; [lia|]. intros Hin. specialize (HFs a Hin). lia.
    - intros a [Ha|Ha]; [left; apply in_or_app; auto | right; lia]. }
  assert (Hk2 : keeps st2 (weight ts) (reach (Ff ++ Fs) st st2) hs ns).
  { apply (keeps_weaken st2 (weight ts) (weight ts) (reach Fs st1 st2)); [exact Hkeep2| |lia].
    intros a [Ha|Ha]; [left; apply in_or_app; auto | right; lia]. }
  assert (Hkeep : keeps st2 (weight (BlockBetween tf ts)) (reach (Ff ++ Fs) st st2)
                        (Shared.BlockBetween hf hs) (1 + nf + ns)).
  { intros st'' [|fuel] Hag Hfu; cbn [weight] in Hfu; [lia|]. cbn [Shared.NumLetters].
    rewrite (Hk1 st'' fuel Hag) by lia. rewrite (Hk2 st'' fuel Hag) by lia. reflexivity. }
  assert (Hch : changes (Ff ++ Fs) st st2).
  { split; [lia|]. intros a Ha Hnot. rewrite Hch2.
    - apply Hch1; [exact Ha|]. intros Hin. apply Hnot, in_or_app. auto.
    - lia.
    - intros Hin. apply Hnot, in_or_app. auto. }
  assert (Hsub : forall a, In a (F1 ++ F2) -> In a (Ff ++ Fs) \/ (List.length st <= a)%nat).
  { intros a Ha. apply in_app_or in Ha as [Ha|Ha].
    - destruct (Hsub1 a Ha); [left; apply in_or_app|]; auto.
    - destruct (Hsub2 a Ha); [left; apply in_or_app; auto | right; lia]. }
  assert (Hrun : forall fuel, (weight (BlockBetween tf ts) < S fuel)%nat ->
            Shared.RemoveWordOptions (S fuel) st (Shared.BlockBetween hf hs) words
            = r <- Shared.BlockBetween_build fuel st2 hf hs r1 r2 ;; Some (st2, r)).
  { intros fuel Hfu. cbn [weight] in Hfu. cbn [Shared.RemoveWordOptions].
    rewrite Hcall1 by lia. cbn [bind]. rewrite Hcall2 by lia. reflexivity. }
  destruct (tree_kind _ _ _ _ Ht1') as [Hki1 _]. destruct (tree_kind _ _ _ _ Ht2) as [Hki2 _].
  unfold BlockBetween_build in Hr. exists st2.
  destruct (isImpossible (value tf rpf) || isImpossible (value ts rps)) eqn:Himp.
  - destruct (newImpossible_tree st2 _ _ Hr) as (hq & q & -> & Hhq & Htq & _).
    cbn [NumLetters] in Hhq. rewrite Hnf, Hns in Hhq. cbn [bind] in Hhq.
    exists (Shared.New hq).
    split; [split; [|split; [reflexivity | split; [discriminate | split]]]|exact Hkeep].
    + intros [|fuel] Hfu; [lia|]. rewrite Hrun by exact Hfu.
      unfold Shared.BlockBetween_build. rewrite Hki1, Hki2, Himp.
      rewrite (keeps_here _ _ _ _ _ fuel Hkeep) by (cbn [weight] in *; lia).
      rewrite Hhq. reflexivity.
    + exists []. split; [exact Htq | intros b []].
    + exact Hch.
  - rewrite <- Hnew1, <- Hnew2 in Hr.
    destruct (negb (Shared.isNew r1) && negb (Shared.isNew r2)) eqn:Hboth;
      apply Some_inj in Hr; subst rp.
    + exists Shared.Same.
      split; [split; [|split; [reflexivity | split; [|split]]]|exact Hkeep].
      * intros [|fuel] Hfu; [lia|]. rewrite Hrun by exact Hfu.
        unfold Shared.BlockBetween_build. rewrite Hki1, Hki2, Himp, Hboth. reflexivity.
      * intros _. apply andb_true_iff in Hboth as [H1 H2].
        apply negb_true_iff in H1, H2. rewrite Hnew1 in H1. rewrite Hnew2 in H2.
        rewrite (Hsame2 H2). exact (Hsame1 H1).
      * exists (F1 ++ F2). split; [|exact Hsub].
        apply andb_true_iff in Hboth as [H1 H2]. apply negb_true_iff in H1, H2.
        destruct r1, r2; try discriminate. destruct rpf, rps; try discriminate.
        cbn [Shared.value value] in *. constructor; assumption.
      * exact Hch.
    + exists (Shared.New (Shared.BlockBetween (Shared.value hf r1) (Shared.value hs r2))).
      split; [split; [|split; [reflexivity | split; [discriminate | split]]]|exact Hkeep].
      * intros [|fuel] Hfu; [lia|]. rewrite Hrun by exact Hfu.
        unfold Shared.BlockBetween_build. rewrite Hki1, Hki2, Himp, Hboth. reflexivity.
      * exists (F1 ++ F2). split; [|exact Hsub]. constructor; assumption.
      * exact Hch.
Qed.

(** *** [Compound] *)
Lemma append_held (st : Shared.Store) (a off m i : nat) (arr : list Shared.PossibleLines)
      (mf : Shared.Local) (mfp : list PossibleLines) (Facc : list nat)
      (hv : Shared.PossibleLines) (tv : PossibleLines) (F' : list nat) :
  nth_error st a = Some arr -> (off + m <= List.length arr)%nat -> (i < m)%nat ->
  held st a off i mf mfp Facc -> tree st hv tv F' ->
  disjoint Facc F' -> ~ In a Facc -> ~ In a F' ->
  exists st2 mf2 arr2,
    Shared.append st mf hv = Some (st2, mf2)
    /\ held st2 a off (S i) mf2 (mfp ++ [tv]) (Facc ++ F')
    /\ List.length st2 = List.length st
    /\ (forall b, b <> a -> nth_error st2 b = nth_error st b)
    /\ nth_error st2 a = Some arr2 /\ List.length arr2 = List.length arr
    /\ (forall j, (j <= off \/ off + i < j)%nat -> nth_error arr2 j = nth_error arr j).
Proof.
  intros Harr Hle Hi [(mhs & Hc & Hts) Hview] Hv Hd Hna Hna'.
  destruct mf as [l|[va vo vk]].
  - cbn [Shared.contents] in Hc. apply Some_inj in Hc. subst mhs.
    exists st, (Shared.Fresh (l ++ [hv])), arr. split; [reflexivity|].
    split; [|auto 10]. split; [|exact I].
    exists (l ++ [hv]). split; [reflexivity|]. apply trees_snoc; assumption.
  - cbn [Shared.array Shared.offset Shared.count] in Hview.
    destruct Hview as (-> & -> & Hk1 & Hk2). cbn [Shared.contents] in Hc.
    pose proof Hc as Hel. apply elements_Some in Hel as (arr0 & Harr0 & _ & Hmhs).
    cbn [Shared.array Shared.offset Shared.count] in Harr0, Hmhs.
    rewrite Harr in Harr0. apply Some_inj in Harr0. subst arr0.
    set (arr2 := Shared.writeAt (off + vk) hv arr).
    set (st2 := Shared.write st a (off + vk) hv).
    assert (Hst2 : forall b, nth_error st2 b = if (b =? a)%nat then Some arr2 else nth_error st b).
    { intros b. unfold st2. rewrite nth_error_write.
      destruct (Nat.eqb_spec b a) as [->|]; [rewrite Harr|]; reflexivity. }
    assert (Harr2 : forall j, nth_error arr2 j
                              = if (j =? off + vk)%nat then Some hv else nth_error arr j)
      by (intros j; apply nth_error_writeAt; lia).
    assert (Ha2 : nth_error st2 a = Some arr2) by (rewrite Hst2, Nat.eqb_refl; reflexivity).
    assert (Hother : forall b, b <> a -> nth_error st2 b = nth_error st b).
    { intros b Hb. rewrite Hst2. destruct (Nat.eqb_spec b a); [contradiction | reflexivity]. }
    exists st2, (Shared.View (Shared.mkSlice a off (S vk))), arr2.
    split; [|split; [|split; [apply length_write|split; [exact Hother|split; [exact Ha2|split]]]]].
    + unfold Shared.append. rewrite Hc. cbn [bind Shared.array Shared.offset Shared.count].
      rewrite Harr. cbn [bind].
      destruct (Nat.ltb_spec (off + vk) (List.length arr)); [reflexivity | lia].
    + split; [|cbn [Shared.array Shared.offset Shared.count]; repeat split; lia].
      exists (mhs ++ [hv]). split.
      * cbn [Shared.contents].
        rewrite (elements_ok st2 (Shared.mkSlice a off (S vk)) arr2 Ha2)
          by (cbn [Shared.offset Shared.count]; unfold arr2; rewrite length_written; lia).
        cbn [Shared.offset Shared.count]. f_equal.
        rewrite (slice_snoc off vk arr2 hv)
          by (rewrite Harr2, Nat.eqb_refl; reflexivity).
        f_equal. rewrite Hmhs. apply slice_ext. intros j Hj. rewrite Harr2.
        destruct (Nat.eqb_spec j (off + vk)); [lia | reflexivity].
      * apply trees_snoc; [| |exact Hd].
        -- apply (trees_frame st); [exact Hts|]. intros b Hb. apply Hother.
           intros ->. contradiction.
        -- apply (tree_frame st); [exact Hv|]. intros b Hb. apply Hother.
           intros ->. contradiction.
    + unfold arr2. apply length_written.
    + intros j Hj. rewrite Harr2. destruct (Nat.eqb_spec j (off + vk)); [lia | reflexivity].
Qed.

Lemma held_frame (st st1 : Shared.Store) (a off i : nat) mf mfp Facc :
  held st a off i mf mfp Facc -> agree Facc st st1 ->
  nth_error st1 a = nth_error st a ->
  held st1 a off i mf mfp Facc.
Proof.
  intros [(mhs & Hc & Hts) Hview] Hag Ha. split; [|exact Hview].
  exists mhs. split; [|apply (trees_frame st); assumption].
  destruct mf as [l|v]; [exact Hc|]. destruct Hview as (Hv & _).
  cbn [Shared.contents] in *. unfold Shared.elements in *. rewrite Hv, Ha. rewrite Hv in Hc.
  exact Hc.
Qed.

Lemma held_later (st : Shared.Store) (a off i j : nat) mf mfp Facc :
  held st a off i mf mfp Facc -> (i <= j)%nat -> held st a off j mf mfp Facc.
Proof.
  intros [Hc Hview] Hij. split; [exact Hc|]. destruct mf as [l|v]; [exact I|].
  destruct Hview as (H1 & H2 & H3). repeat split; auto; lia.
Qed.

Lemma push_held (st : Shared.Store) (a off m i : nat) (arr : list Shared.PossibleLines)
      (mf : Shared.Local) (mfp : list PossibleLines) (Facc : list nat)
      (hv : Shared.PossibleLines) (tv : PossibleLines) (F' : list nat) :
  nth_error st a = Some arr -> (off + m <= List.length arr)%nat -> (i < m)%nat ->
  held st a off i mf mfp Facc -> tree st hv tv F' ->
  disjoint Facc F' -> ~ In a Facc -> ~ In a F' ->
  exists st2 mf2 Facc2 arr2,
    (if negb (Shared.isImpossible hv) then Shared.append st mf hv else Some (st, mf))
    = Some (st2, mf2)
    /\ held st2 a off (S i) mf2 (if negb (isImpossible tv) then mfp ++ [tv] else mfp) Facc2
    /\ List.length st2 = List.length st
    /\ (forall b, b <> a -> nth_error st2 b = nth_error st b)
    /\ nth_error st2 a = Some arr2 /\ List.length arr2 = List.length arr
    /\ (forall j, (j <= off \/ off + i < j)%nat -> nth_error arr2 j = nth_error arr j)
    /\ (forall b, In b Facc2 -> In b Facc \/ In b F')
    /\ ~ In a Facc2.
Proof.
  intros Harr Hle Hi Hheld Hv Hd Hna Hna'.
  destruct (tree_kind _ _ _ _ Hv) as [-> _].
  destruct (isImpossible tv); cbn [negb].
  - exists st, mf, Facc, arr. split; [reflexivity|].
    split; [apply (held_later st a off i); [exact Hheld | lia]|]. auto 10.
  - destruct (append_held st a off m i arr mf mfp Facc hv tv F' Harr Hle Hi Hheld Hv Hd Hna Hna')
      as (st2 & mf2 & arr2 & Happ & Hheld2 & Hlen & Hother & Ha2 & Hlen2 & Hpos).
    exists st2, mf2, (Facc ++ F'), arr2. split; [exact Happ|]. split; [exact Hheld2|].
    repeat (split; [assumption|]). split.
    + intros b Hb. apply in_app_or in Hb. exact Hb.
    + intros Hin. apply in_app_or in Hin as [Hin|Hin]; contradiction.
Qed.

Section Loop.
Variable words : list string.
Variables a off m : nat.
Variable n : Z.

Local Abbreviation remove fuel := (fun st q => Shared.RemoveWordOptions fuel st q words).
Local Abbreviation c := (Shared.mkSlice a off m).

Lemma step_simulates (t : PossibleLines) (rp : Result) (h : Shared.PossibleLines)
      (F : list nat) (st : Shared.Store) (i : nat) (arr : list Shared.PossibleLines)
      (mf : Shared.Local) (any : bool) (seen mfp : list PossibleLines) (Facc : list nat) :
  simulates words t -> NumLetters t = Some n -> RemoveWordOptions t words = Some rp ->
  tree st h t F ->
  nth_error st a = Some arr -> (off + m <= List.length arr)%nat -> (i < m)%nat ->
  nth_error arr (off + i) = Some h ->
  ~ In a F ->
  accumulated st a off i arr mf any seen mfp Facc ->
  disjoint Facc F -> ~ In a Facc -> (forall b, In b Facc -> (b < List.length st)%nat) ->
  exists st2 mf2 any2 mfp2 Facc2 arr2,
    (forall fuel k, (weight t < fuel)%nat ->
        Shared.Compound_Remove_loop (remove fuel) c (S k) i st mf any
        = Shared.Compound_Remove_loop (remove fuel) c k (S i) st2 mf2 any2)
    /\ (forall todo, Compound_Remove_loop seen ((t, rp) :: todo) mfp any
                     = Compound_Remove_loop (seen ++ [t]) todo mfp2 any2)
    /\ changes (a :: F) st st2
    /\ (any2 = false -> st2 = st)
    /\ nth_error st2 a = Some arr2 /\ List.length arr2 = List.length arr
    /\ (forall j, (j <= off \/ off + i < j)%nat -> nth_error arr2 j = nth_error arr j)
    /\ accumulated st2 a off (S i) arr2 mf2 any2 (seen ++ [t]) mfp2 Facc2
    /\ ~ In a Facc2 /\ (forall b, In b Facc2 -> (b < List.length st2)%nat)
    /\ (forall b, In b Facc2 -> In b Facc \/ In b F \/ (List.length st <= b)%nat)
    /\ keeps st2 (weight t) (reach F st st2) h n.
Proof.
  intros Hsim Hn Hrp Ht Harr Hle Hi Hh HnaF Hacc Hd Hna Hb.
  destruct (Hsim st h F rp n Ht Hn Hrp)
    as (st1 & r & (Hcall & Hnew & Hsame & (F' & Ht' & Hsub) & Hlen & Hch) & Hkeep).
  assert (Ha : (a < List.length st)%nat) by (apply nth_error_Some; congruence).
  assert (Harr1 : nth_error st1 a = Some arr) by (rewrite Hch; auto).
  assert (HFb : forall b, In b F -> (b < List.length st)%nat)
    by (intros b; apply (tree_bound st h t F b Ht)).
  assert (HF'b : forall b, In b F' -> (b < List.length st1)%nat)
    by (intros b; apply (tree_bound st1 _ _ F' b Ht')).
  assert (Hagree : agree Facc st st1).
  { intros b Hb0. apply Hch; [auto|]. intros Hin. exact (Hd b Hb0 Hin). }
  assert (Hel : Shared.element st c i = Some h).
  { rewrite (element_ok st c arr i Harr) by exact Hi. exact Hh. }
  assert (Hd' : disjoint Facc F').
  { intros b Hb0 Hin. destruct (Hsub b Hin) as [H|H]; [exact (Hd b Hb0 H)|].
    specialize (Hb b Hb0). lia. }
  assert (Hna' : ~ In a F').
  { intros Hin. destruct (Hsub a Hin) as [H|H]; [contradiction | lia]. }
  assert (Hpush : forall mf1 mfp1,
             held st1 a off i mf1 mfp1 Facc ->
             exists st2 mf2 Facc2 arr2,
               (if negb (Shared.isImpossible (Shared.value h r))
                then Shared.append st1 mf1 (Shared.value h r) else Some (st1, mf1))
               = Some (st2, mf2)
               /\ changes (a :: F) st st2
               /\ nth_error st2 a = Some arr2 /\ List.length arr2 = List.length arr
               /\ (forall j, (j <= off \/ off + i < j)%nat ->
                             nth_error arr2 j = nth_error arr j)
               /\ accumulated st2 a off (S i) arr2 mf2 true (seen ++ [t])
                              (if negb (isImpossible (value t rp))
                               then mfp1 ++ [value t rp] else mfp1) Facc2
               /\ ~ In a Facc2 /\ (forall b, In b Facc2 -> (b < List.length st2)%nat)
               /\ (forall b, In b Facc2 -> In b Facc \/ In b F \/ (List.length st <= b)%nat)
               /\ keeps st2 (weight t) (reach F st st2) h n).
  { intros mf1 mfp1 Hheld.
    destruct (push_held st1 a off m i arr mf1 mfp1 Facc _ _ F' Harr1 Hle Hi Hheld Ht' Hd' Hna Hna')
      as (st2 & mf2 & Facc2 & arr2 & Happ & Hheld2 & Hlen2 & Hother & Ha2 & Hlarr & Hpos
          & Hsub2 & Hna2).
    exists st2, mf2, Facc2, arr2. split; [exact Happ|]. split.
    { split; [lia|]. intros b Hb0 Hnot. rewrite Hother.
      - apply Hch; [exact Hb0|]. intros Hin. apply Hnot. right. exact Hin.
      - intros ->. apply Hnot. left. reflexivity. }
    split; [exact Ha2|]. split; [exact Hlarr|]. split; [exact Hpos|].
    split; [exact Hheld2|]. split; [exact Hna2|]. split.
    { intros b Hb0.
      destruct (Hsub2 b Hb0) as [H|H]; [specialize (Hb b H)|specialize (HF'b b H)]; lia. }
    split.
    { intros b Hb0. destruct (Hsub2 b Hb0) as [H|H]; [auto|].
      destruct (Hsub b H); auto. }
    apply (keeps_weaken st2 (weight t) (weight t) (reach F st st1)); [| |lia].
    - apply (keeps_move st1); [exact Hkeep|]. intros b Hb0. apply Hother.
      intros ->. destruct Hb0 as [H|H]; [contradiction | lia].
    - intros b [H|H]; [left; exact H | right; lia]. }
  destruct any.
  - (* a change was seen before *)
    assert (Hheld1 : held st1 a off i mf mfp Facc).
    { apply (held_frame st); [exact Hacc | exact Hagree | congruence]. }
    destruct (Hpush mf mfp Hheld1)
      as (st2 & mf2 & Facc2 & arr2 & Happ & Hrest).
    exists st2, mf2, true,
      (if negb (isImpossible (value t rp)) then mfp ++ [value t rp] else mfp), Facc2, arr2.
    split; [|split; [|split; [apply Hrest|split; [discriminate|apply Hrest]]]].
    + intros fuel k Hf. cbn [Shared.Compound_Remove_loop]. rewrite Hel. cbn [bind].
      rewrite (Hcall fuel Hf). cbn [bind negb andb]. rewrite !andb_false_r.
      rewrite Happ. reflexivity.
    + intros todo. cbn [Compound_Remove_loop negb andb]. rewrite !andb_false_r. reflexivity.
  - destruct Hacc as [-> Hseen].
    destruct rp as [|tp], r as [|hp]; try discriminate.
    + (* no change yet *)
      specialize (Hsame eq_refl). subst st1. cbn [Shared.value value] in *.
      exists st, (Shared.Fresh []), false, mfp, (Facc ++ F), arr.
      split; [|split; [|split; [apply changes_refl|]]].
      3: split; [reflexivity|]; split; [exact Harr|]; split; [reflexivity|];
           split; [reflexivity|]; split; [|split; [|split; [|split]]].
      * intros fuel k Hf. cbn [Shared.Compound_Remove_loop]. rewrite Hel. cbn [bind].
        rewrite (Hcall fuel Hf). reflexivity.
      * intros todo. reflexivity.
      * split; [reflexivity|]. rewrite (slice_snoc off i arr h Hh).
        apply trees_snoc; assumption.
      * intros Hin. apply in_app_or in Hin as [Hin|Hin]; contradiction.
      * intros b Hb0. apply in_app_or in Hb0 as [H|H]; auto.
      * intros b Hb0. apply in_app_or in Hb0 as [H|H]; auto.
      * exact Hkeep.
    + (* the first change *)
      assert (Hheld1 : held st1 a off i
                            (if (0 <? i)%nat then Shared.View (Shared.mkSlice a off i)
                             else Shared.Fresh []) seen Facc).
      { destruct i as [|i0].
        - cbn [Nat.ltb Nat.leb firstn] in *. split; [|exact I]. exists [].
          split; [reflexivity|]. apply (trees_frame st); assumption.
        - replace (0 <? S i0)%nat with true by reflexivity. split.
          + exists (firstn (S i0) (skipn off arr)). split.
            * cbn [Shared.contents].
              rewrite (elements_ok st1 (Shared.mkSlice a off (S i0)) arr Harr1)
                by (cbn [Shared.offset Shared.count]; lia).
              reflexivity.
            * apply (trees_frame st); assumption.
          + cbn [Shared.array Shared.offset Shared.count]. repeat split; lia. }
      destruct (Hpush _ seen Hheld1)
        as (st2 & mf2 & Facc2 & arr2 & Happ & Hrest).
      exists st2, mf2, true,
        (if negb (isImpossible (value t (New tp))) then seen ++ [value t (New tp)] else seen),
        Facc2, arr2.
      split; [|split; [|split; [apply Hrest|split; [discriminate|apply Hrest]]]].
      * intros fuel k Hf. cbn [Shared.Compound_Remove_loop]. rewrite Hel. cbn [bind].
        rewrite (Hcall fuel Hf). cbn [bind Shared.isNew negb andb].
        cbn [Shared.array Shared.offset]. rewrite Happ. reflexivity.
      * intros todo. cbn [Compound_Remove_loop isNew negb andb]. reflexivity.
Qed.

Lemma loop_simulates (ts : list PossibleLines) (frs : list Result) :
  Forall2 (fun t rp => RemoveWordOptions t words = Some rp) ts frs ->
  Forall (fun t => simulates words t /\ NumLetters t = Some n) ts ->
  forall st hs Fs i arr mf any seen mfp Facc,
    trees st hs ts Fs ->
    nth_error st a = Some arr -> (off + m <= List.length arr)%nat ->
    m = (i + List.length hs)%nat ->
    firstn (List.length hs) (skipn (off + i) arr) = hs ->
    ~ In a Fs ->
    accumulated st a off i arr mf any seen mfp Facc ->
    disjoint Facc Fs -> ~ In a Facc -> (forall b, In b Facc -> (b < List.length st)%nat) ->
    exists st' mf' any' mfp' Facc' arr',
      (forall fuel, (weights ts < fuel)%nat ->
          Shared.Compound_Remove_loop (remove fuel) c (List.length hs) i st mf any
          = Some (st', mf', any'))
      /\ Compound_Remove_loop seen (combine ts frs) mfp any = (mfp', any')
      /\ changes (a :: Fs) st st'
      /\ (any' = false -> st' = st)
      /\ nth_error st' a = Some arr' /\ List.length arr' = List.length arr
      /\ nth_error arr' off = nth_error arr off
      /\ accumulated st' a off m arr' mf' any' (seen ++ ts) mfp' Facc'
      /\ ~ In a Facc'
      /\ (forall b, In b Facc' -> In b Facc \/ In b Fs \/ (List.length st <= b)%nat)
      /\ match hs, ts with
         | h :: _, t :: _ => keeps st' (weight t) (reach Fs st st') h n
         | _, _ => True
         end.
Proof.
  induction 1 as [|t rp ts frs Hrp _ IH]; intros Hall st hs Fs i arr mf any seen mfp Facc
    Hts Harr Hle Hm Hhs HnaF Hacc Hd Hna Hb;
    assert (Hm' : (m <= i + List.length hs <= m)%nat) by lia; clear Hm.
  - inversion Hts; subst. cbn [List.length] in *. rewrite Nat.add_0_r in *.
    assert (i = m) by lia. subst i.
    exists st, mf, any, mfp, Facc, arr. rewrite app_nil_r.
    split; [reflexivity|]. split; [reflexivity|]. split; [apply changes_refl|].
    repeat (split; auto).
  - apply Forall_cons_iff in Hall as [[Hsim Hn] Hall].
    inversion Hts as [|h t0 F hs' ts0 Fs' Hh Hts' HdF]; subst. cbn [List.length] in *.
    apply slice_cons in Hhs as (Hnth & k' & Hk & Hrest). apply Nat.succ_inj in Hk. subst k'.
    assert (HnaF1 : ~ In a F) by (intros Hin; apply HnaF, in_or_app; auto).
    assert (HnaF2 : ~ In a Fs') by (intros Hin; apply HnaF, in_or_app; auto).
    assert (Hd1 : disjoint Facc F) by (intros b Hb0 Hin; apply (Hd b Hb0), in_or_app; auto).
    assert (Hd2 : disjoint Facc Fs') by (intros b Hb0 Hin; apply (Hd b Hb0), in_or_app; auto).
    assert (Ha : (a < List.length st)%nat) by (apply nth_error_Some; congruence).
    assert (HFb : forall b, In b F -> (b < List.length st)%nat)
      by (intros b; apply (tree_bound st h t F b Hh)).
    assert (HFsb : forall b, In b Fs' -> (b < List.length st)%nat)
      by (intros b; apply (trees_bound st hs' ts Fs' b Hts')).
    destruct (step_simulates t rp h F st i arr mf any seen mfp Facc Hsim Hn Hrp Hh Harr Hle
                ltac:(lia) Hnth HnaF1 Hacc Hd1 Hna Hb)
      as (st2 & mf2 & any2 & mfp2 & Facc2 & arr2 & Hstep & Hpure & [Hlen2 Hch2] & Hsame2 & Ha2
          & Hlarr2 & Hpos2 & Hacc2 & Hna2 & Hb2 & Hsub2 & Hkeep2).
    assert (Hts2 : trees st2 hs' ts Fs').
    { apply (trees_frame st); [exact Hts'|]. intros b Hb0. apply Hch2; [auto|].
      intros [<-|Hin]; [contradiction | exact (HdF b Hin Hb0)]. }
    assert (Hrest2 : firstn (List.length hs') (skipn (off + S i) arr2) = hs').
    { rewrite Nat.add_succ_r.
      transitivity (firstn (List.length hs') (skipn (S (off + i)) arr)); [|exact Hrest].
      apply slice_ext. intros j Hj. apply Hpos2. lia. }
    assert (Hd3 : disjoint Facc2 Fs').
    { intros b Hb0 Hin. destruct (Hsub2 b Hb0) as [H|[H|H]].
      - exact (Hd2 b H Hin).
      - exact (HdF b H Hin).
      - specialize (HFsb b Hin). lia. }
    destruct (IH Hall st2 hs' Fs' (S i) arr2 mf2 any2 (seen ++ [t]) mfp2 Facc2 Hts2 Ha2
                ltac:(lia) ltac:(lia) Hrest2 HnaF2 Hacc2 Hd3 Hna2 Hb2)
      as (st' & mf' & any' & mfp' & Facc' & arr' & Hloop & Hpure' & [Hlen' Hch'] & Hsame' & Ha'
          & Hlarr' & Hoff' & Hacc' & Hna' & Hsub' & _).
    exists st', mf', any', mfp', Facc', arr'.
    split; [|split; [|split; [|split; [|split; [exact Ha'|split; [lia|]]]]]].
    5: split; [|split; [|split; [exact Hna'|split]]].
    + intros fuel Hf. rewrite weights_cons in Hf. rewrite Hstep by lia. apply Hloop. lia.
    + cbn [combine]. rewrite Hpure. exact Hpure'.
    + split; [lia|]. intros b Hb0 Hnot. rewrite Hch'.
      * apply Hch2; [exact Hb0|]. intros [<-|Hin]; apply Hnot; [left; reflexivity|].
        right. apply in_or_app. auto.
      * lia.
      * intros [<-|Hin]; apply Hnot; [left; reflexivity|]. right. apply in_or_app. auto.
    + intros Hany. rewrite (Hsame' Hany). apply Hsame2.
      pose proof (Remove_loop_unchanged (combine ts frs) (seen ++ [t]) mfp2 any2) as Hun.
      rewrite Hpure' in Hun. exact (proj1 (Hun Hany)).
    + rewrite Hoff'. apply Hpos2. lia.
    + rewrite <- app_assoc in Hacc'. exact Hacc'.
    + intros b Hb0. destruct (Hsub' b Hb0) as [H|[H|H]].
      * destruct (Hsub2 b H) as [H'|[H'|H']]; auto. right. left. apply in_or_app. auto.
      * right. left. apply in_or_app. auto.
      * right. right. lia.
    + apply (keeps_weaken st' (weight t) (weight t) (reach F st st2)); [| |lia].
      * apply (keeps_move st2); [exact Hkeep2|]. intros b Hb0. apply Hch'.
        -- destruct Hb0 as [H|H]; [specialize (HFb b H)|]; lia.
        -- intros [<-|Hin]; destruct Hb0 as [H|H]; try contradiction; try lia.
           ++ exact (HdF b H Hin).
           ++ specialize (HFsb b Hin). lia.
      * intros b [H|H]; [left; apply in_or_app; auto | right; lia].
Qed.
End Loop.

Lemma nth_error_alloc (st : Shared.Store) (l : list Shared.PossibleLines) (b : nat) :
  (b < List.length st)%nat -> nth_error (st ++ [l]) b = nth_error st b.
Proof. intros Hb. apply nth_error_app1, Hb. Qed.

Lemma MakeCompound_held (st : Shared.Store) (a off i : nat) mf mfp Facc (n : Z)
      (tp : PossibleLines) :
  held st a off i mf mfp Facc -> ~ In a Facc ->
  Forall (fun q => isImpossible q = false /\ isCompound q = false) mfp ->
  MakeCompound mfp n = Some tp ->
  exists stf hp F',
    (forall fuel, (0 < fuel)%nat -> Shared.MakeCompound fuel st mf n = Some (stf, hp))
    /\ tree stf hp tp F'
    /\ (forall b, In b F' -> b = a \/ In b Facc \/ (List.length st <= b)%nat)
    /\ (List.length st <= List.length stf)%nat
    /\ (forall b, (b < List.length st)%nat -> nth_error stf b = nth_error st b).
Proof.
  intros [(mhs & Hc & Hts) Hview] Hna Hplain Hmk.
  rewrite (MakeCompound_plain mfp n Hplain) in Hmk.
  assert (Hex : existsb (fun p => Shared.isImpossible p || Shared.isCompound p) mhs = false).
  { rewrite (trees_kinds st mhs mfp Facc orb Hts). apply not_true_is_false. intros He.
    apply existsb_exists in He as (x & Hx & Hk). rewrite Forall_forall in Hplain.
    destruct (Hplain x Hx) as [H1 H2]. rewrite H1, H2 in Hk. discriminate. }
  pose proof Hts as Hts0.
  destruct Hts as [|h t F hs ts Fs Hh Hts HdF].
  - destruct (MakeImpossible_tree st n tp Hmk) as (hq & Hhq & Htq).
    exists st, hq, []. split; [|split; [exact Htq|split; [intros b []|auto]]].
    intros [|fuel] Hf; [lia|]. cbn [Shared.MakeCompound]. rewrite Hc. cbn [bind].
    rewrite Hhq. reflexivity.
  - destruct Hts as [|h2 t2 F2 hs ts Fs2 Hh2 Hts HdF2].
    + apply Some_inj in Hmk. subst tp. exists st, h, F.
      split; [|split; [exact Hh|split; [|auto]]].
      * intros [|fuel] Hf; [lia|]. cbn [Shared.MakeCompound]. rewrite Hc. reflexivity.
      * intros b Hb. right. left. apply in_or_app. auto.
    + apply Some_inj in Hmk. subst tp.
      set (Facc := F ++ F2 ++ Fs2) in *.
      set (mhs := h :: h2 :: hs) in *. set (mfp := t :: t2 :: ts) in *.
      destruct mf as [l|v].
      * cbn [Shared.contents] in Hc. apply Some_inj in Hc. subst l.
        exists (st ++ [mhs]),
          (Shared.Compound (Shared.mkSlice (List.length st) 0 (List.length mhs))),
          (List.length st :: Facc).
        assert (Hb : forall b, In b Facc -> (b < List.length st)%nat)
          by (intros b; apply (trees_bound st mhs mfp Facc b Hts0)).
        split; [|split; [|split; [|split]]].
        -- intros [|fuel] Hf; [lia|]. cbn [Shared.MakeCompound Shared.contents bind].
           unfold mhs at 1. fold mhs. rewrite Hex. reflexivity.
        -- apply tree_Compound with (hs := mhs).
           ++ unfold Shared.elements. cbn [Shared.array Shared.offset Shared.count].
              rewrite nth_error_app2 by lia. rewrite Nat.sub_diag. cbn [nth_error bind].
              rewrite Nat.leb_refl. cbn [skipn]. rewrite firstn_all. reflexivity.
           ++ apply (trees_frame st); [exact Hts0|]. intros b Hb0.
              apply nth_error_alloc. auto.
           ++ cbn [Shared.array]. intros Hin. specialize (Hb _ Hin). lia.
        -- cbn [Shared.array]. intros b [<-|Hin]; [right; right; lia | auto].
        -- rewrite length_app. cbn [List.length]. lia.
        -- intros b Hb0. apply nth_error_alloc, Hb0.
      * destruct Hview as (Hva & _). cbn [Shared.contents] in Hc.
        exists st, (Shared.Compound v), (Shared.array v :: Facc).
        split; [|split; [|split; [|auto]]].
        -- intros [|fuel] Hf; [lia|]. cbn [Shared.MakeCompound Shared.contents].
           rewrite Hc. cbn [bind]. unfold mhs at 1. fold mhs. rewrite Hex. reflexivity.
        -- apply tree_Compound with (hs := mhs); [exact Hc | exact Hts0 | rewrite Hva; exact Hna].
        -- intros b [<-|Hin]; auto.
Qed.

Lemma Compound_simulates (words : list string) (ps : list PossibleLines) (n : Z) :
  2 <= slen ps ->
  Forall (fun q => wellFormed q = true /\ isImpossible q = false
                   /\ isCompound q = false /\ NumLetters q = Some n
                   /\ simulates words q) ps ->
  simulates words (Compound ps).
Proof.
  intros Hlen Hall st hh F rp m0 Ht Hm Hr.
  inversion Ht as [| | | | |c hs ts F0 He Hts Hna|]; subst.
  destruct c as [a off m]. cbn [Shared.array] in *.
  assert (Hchild : Forall (child n) ps).
  { revert Hall. apply Forall_impl. intros q (H1 & H2 & H3 & H4 & _). repeat split; auto. }
  assert (Hsims : Forall (fun t => simulates words t /\ NumLetters t = Some n) ps).
  { revert Hall. apply Forall_impl. intros q (H1 & H2 & H3 & H4 & H5). auto. }
  assert (Hkeep0 : forall s, tree s (Shared.Compound (Shared.mkSlice a off m)) (Compound ps)
                                  (a :: F0) ->
                             keeps s (weight (Compound ps)) (reach (a :: F0) st s)
                                   (Shared.Compound (Shared.mkSlice a off m)) m0).
  { intros s Hs.
    apply (keeps_weaken s (weight (Compound ps)) (weight (Compound ps))
             (fun b => In b (a :: F0)));
      [apply (keeps_tree s _ _ _ _ Hs Hm) | intros b Hb; left; exact Hb | lia]. }
  cbn [RemoveWordOptions] in Hr. bind_inv Hr. rename a0 into fs, Ha into Hfs.
  destruct (Compound_Remove_loop [] (combine ps fs) [] false) as [mfp' anyp] eqn:Hloop.
  pose proof (RemoveWordOptions_children_sound words n ps fs Hchild Hfs) as Hkids.
  rewrite Hloop in Hkids. cbn [fst] in Hkids.
  apply elements_Some in He as (arr & Harr & Hle & Hhs).
  cbn [Shared.array Shared.offset Shared.count] in Harr, Hle, Hhs.
  assert (Hlhs : List.length hs = m).
  { rewrite Hhs, length_firstn, length_skipn. lia. }
  destruct (loop_simulates words a off m n ps fs (mapM_Some _ _ _ Hfs) Hsims
              st hs F0 0 arr (Shared.Fresh []) false [] [] [])
    as (st' & mf' & any' & mfp2 & Facc' & arr' & Hrun & Hpure & [Hlen' Hch'] & Hsame & Ha'
        & Hlarr' & Hoff' & Hacc' & Hna' & Hsub' & Hhead); try assumption.
  { lia. }
  { rewrite Nat.add_0_r, Hlhs. symmetry. exact Hhs. }
  { split; [reflexivity | constructor]. }
  { intros b []. }
  { intros []. }
  { intros b []. }
  rewrite Hloop in Hpure. injection Hpure as <- <-.
  assert (Hcallloop : forall fuel, (weight (Compound ps) < S fuel)%nat ->
            Shared.Compound_Remove_loop
              (fun st q => Shared.RemoveWordOptions fuel st q words)
              (Shared.mkSlice a off m) m 0 st (Shared.Fresh []) false
            = Some (st', mf', anyp)).
  { intros fuel Hf. rewrite weight_Compound in Hf.
    pose proof (Hrun fuel ltac:(lia)) as H. rewrite Hlhs in H. exact H. }
  destruct anyp; cbn [negb] in Hr.
  - (* some child changed *)
    bind_inv Hr. rewrite Hm in Ha. apply Some_inj in Ha. subst a0.
    bind_inv Hr. rename a0 into tp, Ha into Hmk. apply Some_inj in Hr. subst rp.
    cbn [accumulated] in Hacc'.
    assert (Hm0 : m0 = n).
    { destruct Hchild as [|q qs (_ & _ & _ & Hq) _]; [discriminate Hm|].
      cbn [NumLetters] in Hm. congruence. }
    subst m0.
    destruct (MakeCompound_held st' a off m mf' mfp' Facc' n tp Hacc' Hna'
                (child_plain n mfp' Hkids) Hmk)
      as (stf & hp & F' & Hmake & Htp & HsubF & Hlenf & Hchf).
    assert (Ha : (a < List.length st)%nat) by (apply nth_error_Some; congruence).
    assert (Hrecv : forall s fuel,
               nth_error s a = Some arr' ->
               (forall b, reach F0 st st' b -> nth_error s b = nth_error st' b) ->
               (weight (Compound ps) <= fuel)%nat ->
               Shared.NumLetters fuel s (Shared.Compound (Shared.mkSlice a off m)) = Some n).
    { intros s [|fuel] Hsa Hsb Hf; [pose proof (weight_pos (Compound ps)); lia|].
      rewrite weight_Compound in Hf. cbn [Shared.NumLetters].
      destruct Hts as [|h0 t0 Fh hs' ts' Fs' Hh0 Hts' Hd0];
        [unfold slen in Hlen; simpl in Hlen; lia|].
      cbn [List.length] in Hlhs.
      rewrite (element_ok s (Shared.mkSlice a off m) arr' 0 Hsa)
        by (cbn [Shared.count]; lia).
      cbn [Shared.offset]. rewrite Nat.add_0_r, Hoff'.
      symmetry in Hhs. apply slice_cons in Hhs as (Hnth & _). rewrite Hnth. cbn [bind].
      apply (keeps_move st' s) in Hhead; [|exact Hsb].
      apply (keeps_here s _ _ _ _ fuel Hhead). rewrite weights_cons in Hf. lia. }
    exists stf, (Shared.New hp).
    split; [split; [|split; [reflexivity|split; [discriminate|split]]]|].
    + intros [|fuel] Hf; [lia|]. cbn [Shared.RemoveWordOptions Shared.count].
      rewrite (Hcallloop fuel Hf). cbn [bind negb].
      rewrite (Hrecv st' fuel Ha') by (auto; rewrite weight_Compound in *; lia).
      cbn [bind]. rewrite Hmake by (pose proof (weight_pos (Compound ps)); lia).
      reflexivity.
    + exists F'. split; [exact Htp|]. intros b Hb. destruct (HsubF b Hb) as [->|[H|H]].
      * left. left. reflexivity.
      * destruct (Hsub' b H) as [[]|[H'|H']]; [left; right; exact H' | right; exact H'].
      * right. lia.
    + split; [lia|]. intros b Hb Hnot. rewrite Hchf by lia. apply Hch'; assumption.
    + intros s fuel Hag Hf. apply Hrecv; [| |exact Hf].
      * rewrite Hag by (left; left; reflexivity). rewrite Hchf by lia. exact Ha'.
      * intros b Hb. rewrite Hag.
        -- apply Hchf. destruct Hb as [Hb|Hb]; [|lia].
           pose proof (trees_bound st hs ps F0 b Hts Hb). lia.
        -- destruct Hb as [Hb|Hb]; [left; right; exact Hb | right; lia].
  - (* no child changed *)
    apply Some_inj in Hr. subst rp. specialize (Hsame eq_refl). subst st'.
    exists st, Shared.Same. split; [split; [|split; [reflexivity|split; [reflexivity|split]]]|].
    + intros [|fuel] Hf; [lia|]. cbn [Shared.RemoveWordOptions Shared.count].
      rewrite (Hcallloop fuel Hf). reflexivity.
    + exists (a :: F0). split; [exact Ht | intros b Hb; left; exact Hb].
    + apply changes_refl.
    + apply Hkeep0. exact Ht.
Qed.

(** On a value that is a well-formed tree, [RemoveWordOptions] does in the
    store what it does on the tree. *)
Lemma RemoveWordOptions_simulates (words : list string) (t : PossibleLines) :
  wellFormed t = true -> simulates words t.
Proof.
  revert t. wf_induction.
  - intros n _ _. apply Impossible_simulates.
  - intros w ws oi masks _ _ _ _ _. apply Words_simulates.
  - intros l n _ _ _ _ _ _ IH. apply Before_simulates, IH.
  - intros l n _ _ _ _ _ _ IH. apply After_simulates, IH.
  - intros f s nf ns _ _ _ _ _ _ _ _ _ _ IHf IHs. apply Between_simulates; assumption.
  - intros ps n _ Hlen _ Hall. apply (Compound_simulates words ps n Hlen Hall).
  - intros d _ _. apply Definite_simulates.
Qed.
End SharedFacts.

(** ** [CharsAt] and the mask caches *)
Module CharsAtFacts.
Import Primitives LinesSpec LinesFacts CharSetSpec CharSetFacts CharSetMore.
Import CacheSpec CharSetGo.

(** *** What the caches do not change *)
Lemma forget_NumLetters (p : PossibleLines) : NumLetters (forget p) = NumLetters p.
Proof.
  induction p as [n|ws oi masks|l IH|l IH|f s IHf IHs|ps IH|d] using lines_ind;
    cbn [forget NumLetters]; try reflexivity.
  - rewrite IH. reflexivity.
  - rewrite IH. reflexivity.
  - rewrite IHf, IHs. reflexivity.
  - destruct IH as [|q ps Hq _]; [reflexivity | exact Hq].
Qed.

Lemma forget_Iterate (p : PossibleLines) : Iterate (forget p) = Iterate p.
Proof.
  induction p as [n|ws oi masks|l IH|l IH|f s IHf IHs|ps IH|d] using lines_ind;
    cbn [forget Iterate]; try reflexivity.
  - rewrite IH. reflexivity.
  - rewrite IH. reflexivity.
  - rewrite IHf, IHs. reflexivity.
  - induction IH as [|q ps Hq _ IHps]; [reflexivity|].
    cbn [map flat_map]. rewrite Hq, IHps. reflexivity.
Qed.

Lemma forget_isImpossible (p : PossibleLines) : isImpossible (forget p) = isImpossible p.
Proof. destruct p; reflexivity. Qed.

Lemma forget_isCompound (p : PossibleLines) : isCompound (forget p) = isCompound p.
Proof. destruct p; reflexivity. Qed.

Section SameButCache.
Variables p p' : PossibleLines.
Hypothesis sameForget : forget p' = forget p.

Lemma same_NumLetters : NumLetters p' = NumLetters p.
Proof. rewrite <- (forget_NumLetters p'), sameForget. apply forget_NumLetters. Qed.

Lemma same_Iterate : Iterate p' = Iterate p.
Proof. rewrite <- (forget_Iterate p'), sameForget. apply forget_Iterate. Qed.

Lemma same_isImpossible : isImpossible p' = isImpossible p.
Proof. rewrite <- (forget_isImpossible p'), sameForget. apply forget_isImpossible. Qed.

Lemma same_isCompound : isCompound p' = isCompound p.
Proof. rewrite <- (forget_isCompound p'), sameForget. apply forget_isCompound. Qed.
End SameButCache.

(** *** The masks *)
Lemma maskOf_Contains (i : Z) (ws : list string) :
  forall m0 m, maskOf m0 i ws = Some m -> valid m0 ->
    valid m /\ forall r, inRange r = true -> Contains m r = Contains m0 r || existsb (has i r) ws.
Proof.
  induction ws as [|w ws IH]; intros m0 m H Hv; cbn [maskOf] in H.
  - apply Some_inj in H. subst m. split; [exact Hv|]. intros r _. cbn [existsb].
    rewrite orb_false_r. reflexivity.
  - bind_inv H. destruct (IH _ _ H (valid_Add m0 a Hv)) as [Hvm Hc]. split; [exact Hvm|].
    intros r Hr. rewrite (Hc r Hr), (Add_Contains m0 a r Hr). cbn [existsb].
    unfold has at 2. rewrite Ha, orb_assoc. reflexivity.
Qed.

Lemma maskOf_total (i : Z) (ws : list string) :
  Forall (fun w => 0 <= i < len w) ws -> forall m0, exists m, maskOf m0 i ws = Some m.
Proof.
  induction 1 as [|w ws Hw _ IH]; intros m0; cbn [maskOf]; [eauto|].
  destruct (byteAt_Some w i Hw) as (c & ->). cbn [bind]. apply IH.
Qed.

Lemma existsb_map {A B : Type} (f : B -> bool) (g : A -> B) (l : list A) :
  existsb f (map g l) = existsb (fun x => f (g x)) l.
Proof. induction l as [|x l IH]; cbn [map existsb]; congruence. Qed.

Lemma existsb_ext_in {A : Type} (f g : A -> bool) (l : list A) :
  (forall x, In x l -> f x = g x) -> existsb f l = existsb g l.
Proof.
  induction l as [|x l IH]; intros H; cbn [existsb]; [reflexivity|].
  rewrite (H x (or_introl eq_refl)), IH; [reflexivity|]. intros y Hy. apply H. right. exact Hy.
Qed.

Lemma existsb_const {A : Type} (b : bool) (l : list A) :
  l <> [] -> existsb (fun _ => b) l = b.
Proof.
  destruct l as [|x l]; [congruence|]. intros _. cbn [existsb].
  destruct b; [reflexivity|]. induction l; [reflexivity | assumption].
Qed.

Lemma existsb_flat_map {A B : Type} (f : B -> bool) (g : A -> list B) (l : list A) :
  existsb f (flat_map g l) = existsb (fun x => existsb f (g x)) l.
Proof.
  induction l as [|x l IH]; cbn [flat_map existsb]; [reflexivity|].
  rewrite existsb_app, IH. reflexivity.
Qed.

Lemma cellIs_has (r : rune) (i : Z) (ws : list string) :
  existsb (cellIs r i) (map wordLine ws) = existsb (has i r) ws.
Proof.
  rewrite existsb_map. apply existsb_ext_in. intros w _.
  rewrite cellIs_wordLine. unfold kept, has.
  destruct (byteAt w i) as [c|]; cbn [bind]; [|reflexivity]. destruct (c =? r); reflexivity.
Qed.

Lemma has_letter (n i : Z) (r : rune) (ws : list string) :
  wordsOf n ws -> existsb (has i r) ws = true -> 97 <= r <= 122.
Proof.
  intros Hall H. apply existsb_exists in H as (w & Hw & Hhas).
  unfold wordsOf in Hall. rewrite Forall_forall in Hall. destruct (Hall w Hw) as [_ Hletters].
  unfold has in Hhas. destruct (byteAt w i) as [c|] eqn:Hc; [|discriminate].
  apply Z.eqb_eq in Hhas. subst c. rewrite <- index_runes in Hc. apply index_In in Hc.
  rewrite forallb_forall in Hletters. specialize (Hletters r Hc). unfold isLetter in Hletters.
  apply andb_true_iff in Hletters as [H1 H2]. apply Z.leb_le in H1, H2. lia.
Qed.

(** *** Assignment to a slice *)
Lemma length_assign {A : Type} (l : list A) (i : nat) (x : A) :
  List.length (assign l i x) = List.length l.
Proof. revert i. induction l as [|y l IH]; intros [|i]; cbn [assign List.length]; auto. Qed.

Lemma masksOk_assign (ws : list string) (ms : list CharSet) :
  forall s k x,
    masksOk ws s ms = true -> maskOk ws (s + Z.of_nat k) x = true ->
    masksOk ws s (assign ms k x) = true.
Proof.
  induction ms as [|m ms IH]; intros s k x Hms Hx; [destruct k; reflexivity|].
  cbn [masksOk] in Hms. apply andb_true_iff in Hms as [Hm Hms].
  destruct k as [|k]; cbn [assign masksOk].
  - rewrite Z.add_0_r in Hx. rewrite Hx, Hms. reflexivity.
  - rewrite Hm. cbn [andb]. apply IH; [exact Hms|].
    replace (s + 1 + Z.of_nat k) with (s + Z.of_nat (S k)) by lia. exact Hx.
Qed.

Lemma masksOk_index (ws : list string) (ms : list CharSet) :
  forall s k m,
    masksOk ws s ms = true -> nth_error ms k = Some m -> maskOk ws (s + Z.of_nat k) m = true.
Proof.
  induction ms as [|m0 ms IH]; intros s k m Hms Hk; [destruct k; discriminate|].
  cbn [masksOk] in Hms. apply andb_true_iff in Hms as [Hm Hms].
  destruct k as [|k]; cbn [nth_error] in Hk.
  - apply Some_inj in Hk. subst m0. rewrite Z.add_0_r. exact Hm.
  - replace (s + Z.of_nat (S k)) with (s + 1 + Z.of_nat k) by lia. apply IH; assumption.
Qed.

Lemma masksOk_repeat (ws : list string) (n : nat) :
  forall s, masksOk ws s (repeat (mkCharSet 0 0) n) = true.
Proof. induction n as [|n IH]; intros s; cbn [repeat masksOk]; [reflexivity | apply IH]. Qed.

Lemma maskOk_cached (ws : list string) (i : Z) (m : CharSet) :
  maskOk ws i m = true -> (bits m =? 0) = false -> maskOf (mkCharSet 0 0) i ws = Some m.
Proof.
  unfold maskOk. intros H Hb. rewrite Hb in H. cbn [orb] in H.
  destruct (maskOf _ i ws) as [m'|]; [|discriminate].
  apply andb_true_iff in H as [H1 H2]. apply Z.eqb_eq in H1, H2.
  destruct m, m'. cbn [bits count] in *. subst. reflexivity.
Qed.

Lemma maskOk_computed (ws : list string) (i : Z) (m : CharSet) :
  maskOf (mkCharSet 0 0) i ws = Some m -> maskOk ws i m = true.
Proof. unfold maskOk. intros ->. rewrite !Z.eqb_refl. apply orb_true_r. Qed.
(** *** [CharsAt] *)
Lemma same_refl (p : PossibleLines) : wellFormed p = true -> cacheOk p = true -> same p p.
Proof. intros H1 H2. repeat split; assumption. Qed.

Lemma fits_same (p p' : PossibleLines) :
  NumLetters p' = NumLetters p -> fits p = true -> fits p' = true.
Proof. unfold fits. intros ->. auto. Qed.

Lemma same_BlockBefore (l l' : PossibleLines) :
  wellFormed (BlockBefore l) = true -> same l l' -> same (BlockBefore l) (BlockBefore l').
Proof.
  intros Hwf (Hwl & Hcl & Hfl). cbn [wellFormed] in Hwf.
  apply andb_true_iff in Hwf as [Hfits Hwf]. apply andb_true_iff in Hwf as [_ Hi].
  split; [|split].
  - cbn [wellFormed]. rewrite Hwl, (same_isImpossible _ _ Hfl), Hi.
    rewrite (fits_same (BlockBefore l)); [reflexivity | | exact Hfits].
    cbn [NumLetters]. rewrite (same_NumLetters _ _ Hfl). reflexivity.
  - exact Hcl.
  - cbn [forget]. rewrite Hfl. reflexivity.
Qed.

Lemma same_BlockAfter (l l' : PossibleLines) :
  wellFormed (BlockAfter l) = true -> same l l' -> same (BlockAfter l) (BlockAfter l').
Proof.
  intros Hwf (Hwl & Hcl & Hfl). cbn [wellFormed] in Hwf.
  apply andb_true_iff in Hwf as [Hfits Hwf]. apply andb_true_iff in Hwf as [_ Hi].
  split; [|split].
  - cbn [wellFormed]. rewrite Hwl, (same_isImpossible _ _ Hfl), Hi.
    rewrite (fits_same (BlockAfter l)); [reflexivity | | exact Hfits].
    cbn [NumLetters]. rewrite (same_NumLetters _ _ Hfl). reflexivity.
  - exact Hcl.
  - cbn [forget]. rewrite Hfl. reflexivity.
Qed.

Lemma same_BlockBetween (f f' s s' : PossibleLines) :
  wellFormed (BlockBetween f s) = true -> same f f' -> same s s' ->
  same (BlockBetween f s) (BlockBetween f' s').
Proof.
  intros Hwf (Hwf' & Hcf & Hff) (Hws' & Hcs & Hfs). cbn [wellFormed] in Hwf.
  apply andb_true_iff in Hwf as [Hfits Hwf]. apply andb_true_iff in Hwf as [Hwf His].
  apply andb_true_iff in Hwf as [_ Hif].
  split; [|split].
  - cbn [wellFormed].
    rewrite Hwf', Hws', (same_isImpossible _ _ Hff), (same_isImpossible _ _ Hfs), Hif, His.
    rewrite (fits_same (BlockBetween f s)); [reflexivity | | exact Hfits].
    cbn [NumLetters]. rewrite (same_NumLetters _ _ Hff), (same_NumLetters _ _ Hfs). reflexivity.
  - cbn [cacheOk]. rewrite Hcf, Hcs. reflexivity.
  - cbn [forget]. rewrite Hff, Hfs. reflexivity.
Qed.

Lemma same_Compound (ps ps' : list PossibleLines) (n : Z) :
  2 <= slen ps -> 0 <= n < 25 -> Forall (child n) ps -> Forall2 same ps ps' ->
  same (Compound ps) (Compound ps').
Proof.
  intros Hlen Hn Hall Hsame.
  assert (Hchild : Forall (child n) ps' /\ forallb cacheOk ps' = true
                   /\ map forget ps' = map forget ps).
  { clear Hlen. induction Hsame as [|q q' ps ps' (Hw & Hc & Hf) _ IH].
    - repeat split; constructor.
    - pose proof (Forall_inv Hall) as (_ & Hi & Hco & Hnq).
      destruct (IH (Forall_inv_tail Hall)) as (IH1 & IH2 & IH3). split; [|split].
      + constructor; [|exact IH1]. split; [exact Hw|].
        rewrite (same_isImpossible _ _ Hf), (same_isCompound _ _ Hf), (same_NumLetters _ _ Hf).
        auto.
      + cbn [forallb]. rewrite Hc, IH2. reflexivity.
      + cbn [map]. rewrite Hf, IH3. reflexivity. }
  destruct Hchild as (Hchild & Hcache & Hforget). split; [|split].
  - apply (wellFormed_Compound ps' n); [|exact Hn | exact Hchild].
    unfold slen in *. rewrite <- (Forall2_length Hsame). exact Hlen.
  - exact Hcache.
  - cbn [forget]. rewrite Hforget. reflexivity.
Qed.

Lemma adds_full (acc : CharSet) (i : Z) (lines : list ConcreteLine) :
  valid acc -> IsFull acc = true -> adds acc acc i lines.
Proof. intros Hv Hfull r Hr. rewrite (valid_full acc r Hv Hfull Hr). reflexivity. Qed.

Lemma adds_blocked (acc : CharSet) (i : Z) (lines : list ConcreteLine) :
  lines <> [] -> (forall r l, In l lines -> cellIs r i l = (kBlocked =? r)) ->
  adds acc (fst (Add acc kBlocked)) i lines.
Proof.
  intros Hne Hcell r Hr. rewrite (Add_Contains acc kBlocked r Hr). f_equal.
  rewrite (existsb_ext_in _ (fun _ => kBlocked =? r)) by (intros l Hl; apply Hcell, Hl).
  symmetry. apply existsb_const, Hne.
Qed.

Lemma Iterate_not_nil (p : PossibleLines) :
  wellFormed p = true -> isImpossible p = false -> Iterate p <> [].
Proof.
  intros Hwf Hi Hnil. pose proof (Iterate_nonempty p Hwf Hi) as H. rewrite Hnil in H.
  unfold slen in H. cbn in H. lia.
Qed.

Lemma index_repeat {A : Type} (x : A) (n : nat) (i : Z) :
  0 <= i < Z.of_nat n -> index (repeat x n) i = Some x.
Proof.
  intros Hi. unfold index. destruct (Z.ltb_spec i 0); [lia|].
  apply nth_error_repeat. lia.
Qed.

Lemma wellFormed_masks (w : string) (ws : list string) (oi : Z)
      (masks : option (list CharSet)) (ms : list CharSet) :
  wellFormed (Words (w :: ws) oi masks) = true -> slen ms = len w ->
  wellFormed (Words (w :: ws) oi (Some ms)) = true.
Proof.
  intros Hwf Hms. cbn [wellFormed] in *.
  apply andb_true_iff in Hwf as [Hfits Hwf]. apply andb_true_iff in Hwf as [Hlen Hwf].
  apply andb_true_iff in Hwf as [Hwords _].
  change (fits (Words (w :: ws) oi (Some ms))) with (fits (Words (w :: ws) oi masks)).
  rewrite Hfits, Hlen, Hwords. cbn [andb]. apply Z.eqb_eq, Hms.
Qed.

Lemma CharsAt_Compound_cons (q : PossibleLines) (l : list PossibleLines)
      (acc : CharSet) (i : Z) :
  CharsAt (Compound (q :: l)) acc i =
  (' (q', acc') <- CharsAt q acc i ;;
   if IsFull acc' then Some (Compound (q' :: l), acc')
   else
     ' (rest, acc'') <- CharsAt (Compound l) acc' i ;;
     match rest with
     | Compound rest' => Some (Compound (q' :: rest'), acc'')
     | _ => None
     end).
Proof.
  cbn [CharsAt]. destruct (CharsAt q acc i) as [[q' acc']|]; cbn [bind]; [|reflexivity].
  destruct (IsFull acc'); [reflexivity|].
  match goal with
  | |- context [bind (?f l acc') _] => destruct (f l acc') as [[rest acc'']|]
  end; reflexivity.
Qed.

Lemma CharsAt_spec (p : PossibleLines) :
  wellFormed p = true -> cacheOk p = true ->
  forall acc n i,
    valid acc -> NumLetters p = Some n -> 0 <= i < n ->
    exists p' acc',
      CharsAt p acc i = Some (p', acc') /\ same p p' /\ valid acc'
      /\ adds acc acc' i (Iterate p).
Proof.
  revert p. wf_induction.
  - intros n Hwf _ Hc acc m i Hv _ _. exists (Impossible n), acc.
    split; [reflexivity|]. split; [apply same_refl; assumption|]. split; [exact Hv|].
    intros r _. cbn [Iterate existsb]. rewrite orb_false_r. reflexivity.
  - intros w ws oi masks Hwf _ H25 Hall Hmasks Hc acc m i Hv Hm Hi.
    cbn [NumLetters] in Hm. apply Some_inj in Hm. subst m. cbn [CharsAt Iterate].
    destruct (skipsFilter acc) eqn:Hskip.
    { eexists _, acc. split; [reflexivity|]. split; [apply same_refl; assumption|].
      split; [exact Hv|]. intros r Hr. rewrite cellIs_has.
      unfold skipsFilter in Hskip. apply orb_true_iff in Hskip as [Hfull|Hskip].
      - rewrite (valid_full acc r Hv Hfull Hr). reflexivity.
      - apply andb_true_iff in Hskip as [Hb Hcount]. apply negb_true_iff in Hb.
        apply Z.eqb_eq in Hcount.
        destruct (existsb (has i r) (w :: ws)) eqn:Hhas; [|rewrite orb_false_r; reflexivity].
        apply (has_letter (len w)) in Hhas; [|exact Hall].
        rewrite (valid_letters acc r Hv Hb Hcount Hhas). reflexivity. }
    assert (Hbytes : Forall (fun x => 0 <= i < len x) (w :: ws)).
    { revert Hall. apply Forall_impl. intros x [Hx _]. lia. }
    assert (Hcached : exists ms mask mask',
               match masks with
               | None => n <- Some (len w) ;; Some (repeat (mkCharSet 0 0) (Z.to_nat n))
               | Some masks => Some masks
               end = Some ms
               /\ slen ms = len w /\ masksOk (w :: ws) 0 ms = true
               /\ index ms i = Some mask
               /\ (if bits mask =? 0 then maskOf (mkCharSet 0 0) i (w :: ws) else Some mask)
                  = Some mask'
               /\ maskOf (mkCharSet 0 0) i (w :: ws) = Some mask').
    { destruct (maskOf_total i (w :: ws) Hbytes (mkCharSet 0 0)) as (fresh & Hfresh).
      destruct masks as [ms|].
      - pose proof (Hmasks ms eq_refl) as Hlen. cbn [cacheOk] in Hc.
        destruct (index_Some ms i ltac:(lia)) as (mask & Hmask).
        destruct (bits mask =? 0) eqn:Hb.
        + exists ms, mask, fresh. rewrite Hb. repeat split; auto.
        + exists ms, mask, mask. rewrite Hb. repeat split; auto.
          assert (Hnth : nth_error ms (Z.to_nat i) = Some mask).
          { unfold index in Hmask. destruct (i <? 0); [discriminate | exact Hmask]. }
          pose proof (masksOk_index _ _ 0 (Z.to_nat i) mask Hc Hnth) as Hok.
          replace (0 + Z.of_nat (Z.to_nat i)) with i in Hok by lia.
          apply maskOk_cached; assumption.
      - exists (repeat (mkCharSet 0 0) (Z.to_nat (len w))), (mkCharSet 0 0), fresh.
        cbn [bind bits]. repeat split; auto.
        + unfold slen. rewrite repeat_length. lia.
        + apply masksOk_repeat.
        + apply index_repeat. lia. }
    change (NumLetters (Words (w :: ws) oi masks)) with (Some (len w)).
    destruct Hcached as (ms & mask & mask' & Hms & Hlen & Hok & Hmask & Hif & Hmask').
    rewrite Hms. cbn [bind]. rewrite Hmask. cbn [bind]. rewrite Hif.
    cbn [bind]. eexists _, _. split; [reflexivity|].
    destruct (maskOf_Contains _ _ _ _ Hmask' valid_New) as [Hvm Hcm].
    split; [|split].
    + split; [|split].
      * apply (wellFormed_masks _ _ _ masks); [exact Hwf|].
        unfold slen in *. rewrite length_assign. exact Hlen.
      * cbn [cacheOk]. apply masksOk_assign; [exact Hok|].
        replace (0 + Z.of_nat (Z.to_nat i)) with i by lia. apply maskOk_computed, Hmask'.
      * reflexivity.
    + apply valid_AddAll; assumption.
    + intros r Hr. rewrite AddAll_Contains, (Hcm r Hr), cellIs_has.
      replace (CharSetGo.Contains (mkCharSet 0 0) r) with false; [reflexivity|].
      unfold CharSetGo.Contains. cbn [bits]. rewrite Z.land_0_l.
      destruct ((r <? minChar) || (r >? maxChar)); reflexivity.
  - intros l n Hwf Hwl Hil Hn H0 H25 IH Hc acc m i Hv Hm Hi.
    cbn [NumLetters] in Hm. rewrite Hn in Hm. apply Some_inj in Hm. subst m.
    cbn [CharsAt Iterate cacheOk] in *.
    destruct (IsFull acc) eqn:Hfull.
    { eexists _, acc. split; [reflexivity|]. split; [apply same_refl; assumption|].
      split; [exact Hv | apply adds_full; assumption]. }
    destruct (Z.eqb_spec i 0) as [->|Hi0].
    { eexists _, _. split; [reflexivity|]. split; [apply same_refl; assumption|].
      split; [apply valid_Add, Hv|]. apply adds_blocked.
      - intros Hnil. apply map_eq_nil in Hnil. apply (Iterate_not_nil l Hwl Hil Hnil).
      - intros r x Hx. apply in_map_iff in Hx as (y & <- & _). apply cellIs_blockBefore_0. }
    destruct (IH Hc acc n (i - 1) Hv Hn ltac:(lia)) as (l' & acc' & -> & Hsame & Hv' & Hadds).
    cbn [bind]. eexists _, _. split; [reflexivity|].
    split; [apply same_BlockBefore; assumption|]. split; [exact Hv'|].
    intros r Hr. rewrite (Hadds r Hr), existsb_map. f_equal.
    apply existsb_ext_in. intros x _. symmetry. apply cellIs_blockBefore, Hi0.
  - intros l n Hwf Hwl Hil Hn H0 H25 IH Hc acc m i Hv Hm Hi.
    cbn [NumLetters] in Hm. rewrite Hn in Hm. apply Some_inj in Hm. subst m.
    cbn [CharsAt Iterate cacheOk] in *. pose proof (Iterate_length l Hwl n Hn) as Hlen.
    destruct (IsFull acc) eqn:Hfull.
    { eexists _, acc. split; [reflexivity|]. split; [apply same_refl; assumption|].
      split; [exact Hv | apply adds_full; assumption]. }
    rewrite Hn. cbn [bind].
    destruct (Z.eqb_spec i n) as [->|Hin].
    { eexists _, _. split; [reflexivity|]. split; [apply same_refl; assumption|].
      split; [apply valid_Add, Hv|]. apply adds_blocked.
      - intros Hnil. apply map_eq_nil in Hnil. apply (Iterate_not_nil l Hwl Hil Hnil).
      - intros r x Hx. apply in_map_iff in Hx as (y & <- & Hy). rewrite <- (Hlen y Hy).
        apply cellIs_blockAfter_end. }
    destruct (IH Hc acc n i Hv Hn ltac:(lia)) as (l' & acc' & -> & Hsame & Hv' & Hadds).
    cbn [bind]. eexists _, _. split; [reflexivity|].
    split; [apply same_BlockAfter; assumption|]. split; [exact Hv'|].
    intros r Hr. rewrite (Hadds r Hr), existsb_map. f_equal.
    apply existsb_ext_in. intros x Hx. symmetry. apply cellIs_blockAfter.
    rewrite (Hlen x Hx). exact Hin.
  - intros f s nf ns Hwf Hwf1 Hwf2 Hif His Hnf Hns H0 H0' H25 IHf IHs Hc acc m i Hv Hm Hi.
    cbn [NumLetters] in Hm. rewrite Hnf, Hns in Hm. apply Some_inj in Hm. subst m.
    cbn [CharsAt Iterate cacheOk] in *. apply andb_true_iff in Hc as [Hcf Hcs].
    fold (product (Iterate f) (Iterate s)).
    pose proof (Iterate_length f Hwf1 nf Hnf) as Hlen.
    pose proof (Iterate_not_nil f Hwf1 Hif) as Hnef.
    pose proof (Iterate_not_nil s Hwf2 His) as Hnes.
    assert (Hc : cacheOk (BlockBetween f s) = true) by (cbn [cacheOk]; rewrite Hcf, Hcs; auto).
    destruct (IsFull acc) eqn:Hfull.
    { eexists _, acc. split; [reflexivity|]. split; [apply same_refl; assumption|].
      split; [exact Hv | apply adds_full; assumption]. }
    rewrite Hnf. cbn [bind].
    destruct (Z.eqb_spec i nf) as [->|Hin].
    { eexists _, _. split; [reflexivity|]. split; [apply same_refl; assumption|].
      split; [apply valid_Add, Hv|]. apply adds_blocked.
      - unfold product. destruct (Iterate f) as [|x fs]; [congruence|].
        destruct (Iterate s) as [|y ss]; [congruence|]. discriminate.
      - intros r x Hx. apply in_flat_map in Hx as (y & Hy & Hx).
        apply in_map_iff in Hx as (z & <- & _). rewrite <- (Hlen y Hy).
        apply cellIs_blockBetween_mid. }
    destruct (Z.ltb_spec i nf) as [Hlt|Hge].
    + destruct (IHf Hcf acc nf i Hv Hnf ltac:(lia)) as (f' & acc' & -> & Hsame & Hv' & Hadds).
      cbn [bind]. eexists _, _. split; [reflexivity|].
      split; [apply same_BlockBetween; [assumption | assumption | apply same_refl; assumption]|].
      split; [exact Hv'|].
      intros r Hr. rewrite (Hadds r Hr). f_equal. unfold product.
      rewrite existsb_flat_map. apply existsb_ext_in. intros x Hx.
      rewrite existsb_map.
      transitivity (existsb (fun _ : ConcreteLine => cellIs r i x) (Iterate s)).
      * symmetry. apply existsb_const, Hnes.
      * symmetry. apply existsb_ext_in. intros y _. apply cellIs_blockBetween_first.
        rewrite (Hlen x Hx). exact Hlt.
    + destruct (IHs Hcs acc ns (i - nf - 1) Hv Hns ltac:(lia))
        as (s' & acc' & -> & Hsame & Hv' & Hadds).
      cbn [bind]. eexists _, _. split; [reflexivity|].
      split; [apply same_BlockBetween; [assumption | apply same_refl; assumption | assumption]|].
      split; [exact Hv'|].
      intros r Hr. rewrite (Hadds r Hr). f_equal. unfold product.
      rewrite existsb_flat_map.
      transitivity (existsb (fun _ : ConcreteLine => existsb (cellIs r (i - nf - 1)) (Iterate s))
                            (Iterate f)).
      * symmetry. apply existsb_const, Hnef.
      * symmetry. apply existsb_ext_in. intros x Hx. rewrite existsb_map.
        apply existsb_ext_in. intros y _.
        rewrite cellIs_blockBetween_second by (rewrite (Hlen x Hx); lia).
        rewrite (Hlen x Hx). reflexivity.
  - intros ps n Hwf Hlen Hn Hall Hc acc m i Hv Hm Hi.
    assert (Hnm : m = n).
    { destruct ps as [|q ps]; [discriminate|]. cbn [NumLetters] in Hm.
      pose proof (Forall_inv Hall) as (_ & _ & _ & Hq & _). congruence. }
    subst m. cbn [cacheOk] in Hc. rewrite forallb_forall in Hc.
    assert (Hloop : forall acc, valid acc -> exists ps' acc',
               CharsAt (Compound ps) acc i = Some (Compound ps', acc')
               /\ Forall2 same ps ps' /\ valid acc'
               /\ adds acc acc' i (flat_map Iterate ps)).
    { clear Hwf Hlen Hm Hv acc.
      induction ps as [|q ps IHps]; intros acc Hv.
      - exists [], acc. split; [reflexivity|]. split; [constructor|]. split; [exact Hv|].
        intros r _. cbn [flat_map existsb]. rewrite orb_false_r. reflexivity.
      - pose proof (Forall_inv Hall) as (Hwq & Hiq & Hcq & Hnq & IHq).
        pose proof (Forall_inv_tail Hall) as Hall'.
        assert (Hrest : forall x, In x ps -> cacheOk x = true)
          by (intros x Hx; apply Hc; right; exact Hx).
        specialize (IHps Hall' Hrest).
        rewrite CharsAt_Compound_cons.
        destruct (IHq (Hc q (or_introl eq_refl)) acc n i Hv Hnq Hi)
          as (q' & acc1 & -> & Hsame & Hv1 & Hadds1).
        cbn [bind flat_map].
        assert (Hps : Forall2 same ps ps).
        { clear - Hall' Hrest. induction Hall' as [|x ps (Hwx & _) _ IH]; constructor.
          - apply same_refl; [exact Hwx | apply Hrest; left; reflexivity].
          - apply IH. intros y Hy. apply Hrest. right. exact Hy. }
        destruct (IsFull acc1) eqn:Hfull.
        + exists (q' :: ps), acc1. split; [reflexivity|].
          split; [constructor; assumption|]. split; [exact Hv1|].
          intros r Hr. rewrite (valid_full acc1 r Hv1 Hfull Hr).
          rewrite existsb_app, orb_assoc, <- (Hadds1 r Hr), (valid_full acc1 r Hv1 Hfull Hr).
          reflexivity.
        + destruct (IHps acc1 Hv1) as (ps' & acc2 & -> & Hsame2 & Hv2 & Hadds2).
          cbn [bind]. exists (q' :: ps'), acc2. split; [reflexivity|].
          split; [constructor; assumption|]. split; [exact Hv2|].
          intros r Hr. rewrite (Hadds2 r Hr), (Hadds1 r Hr), existsb_app, orb_assoc.
          reflexivity. }
    destruct (Hloop acc Hv) as (ps' & acc' & Heq & Hsame & Hv' & Hadds).
    exists (Compound ps'), acc'. split; [exact Heq|].
    split; [|split; [exact Hv' | exact Hadds]].
    apply (same_Compound ps ps' n); [exact Hlen | exact Hn | | exact Hsame].
    revert Hall. apply Forall_impl. intros q (H1 & H2 & H3 & H4 & _). repeat split; assumption.
  - intros d Hwf H25 Hc acc m i Hv Hm Hi.
    cbn [NumLetters] in Hm. apply Some_inj in Hm. subst m. cbn [CharsAt Iterate].
    destruct (index_Some (ConcreteLine.Line d) i Hi) as (c & Hcell). rewrite Hcell.
    cbn [bind]. eexists _, _. split; [reflexivity|].
    split; [apply same_refl; assumption|]. split; [apply valid_Add, Hv|].
    intros r Hr. rewrite (Add_Contains acc c r Hr). cbn [existsb]. rewrite orb_false_r.
    unfold cellIs, cell. rewrite Hcell. reflexivity.
Qed.
End CharsAtFacts.

(** ** The lines that [FilterAny] keeps *)
Module FilterAnyFacts.
Import Primitives LinesSpec LinesFacts CharSetSpec CharSetFacts CharSetMore.
Import CacheSpec CharsAtFacts FilterAnySpec CharSetGo.

Lemma ContainsAll_Contains (c m : CharSet) (r : rune) :
  ContainsAll c m = true -> Contains m r = true -> Contains c r = true.
Proof.
  unfold ContainsAll, Contains. intros Hall Hm. apply Z.eqb_eq in Hall.
  destruct ((r <? minChar) || (r >? maxChar)); [discriminate|].
  cbv zeta in *. apply negb_true_iff in Hm. apply Z.eqb_neq in Hm.
  apply negb_true_iff. apply Z.eqb_neq. intros Hc. apply Hm.
  rewrite <- Hall, (Z.land_comm (bits c)), <- Z.land_assoc, Hc. apply Z.land_0_r.
Qed.

Lemma allowedAt_wordLine (cs : CharSet) (i : Z) (x : string) :
  allowedAt cs i (wordLine x) =
  kept (fun word => c <- byteAt word i ;; Some (Contains cs c)) x.
Proof.
  unfold allowedAt, cell, kept, wordLine. cbn [ConcreteLine.Line]. rewrite index_runes.
  destruct (byteAt x i) as [c|]; cbn [bind]; [|reflexivity].
  destruct (Contains cs c); reflexivity.
Qed.

Lemma allowedAt_blockBefore_0 (cs : CharSet) (l : ConcreteLine) :
  allowedAt cs 0 (blockBefore l) = Contains cs kBlocked.
Proof. reflexivity. Qed.

Lemma allowedAt_blockBefore (cs : CharSet) (i : Z) (l : ConcreteLine) :
  i <> 0 -> allowedAt cs i (blockBefore l) = allowedAt cs (i - 1) l.
Proof.
  intros Hi. unfold allowedAt, cell, blockBefore. cbn [ConcreteLine.Line].
  destruct (Z.lt_ge_cases 0 i) as [Hpos|Hneg].
  - rewrite index_cons by assumption. reflexivity.
  - rewrite !index_out by (left; lia). reflexivity.
Qed.

Lemma allowedAt_blockAfter_end (cs : CharSet) (l : ConcreteLine) :
  allowedAt cs (slen (ConcreteLine.Line l)) (blockAfter l) = Contains cs kBlocked.
Proof. unfold allowedAt. rewrite cell_blockAfter_end. reflexivity. Qed.

Lemma allowedAt_blockAfter (cs : CharSet) (i : Z) (l : ConcreteLine) :
  i <> slen (ConcreteLine.Line l) -> allowedAt cs i (blockAfter l) = allowedAt cs i l.
Proof.
  intros Hi. unfold allowedAt, cell, blockAfter. cbn [ConcreteLine.Line].
  destruct (Z.lt_ge_cases i (slen (ConcreteLine.Line l))) as [Hlt|Hge].
  - rewrite index_app_l by assumption. reflexivity.
  - rewrite !index_out; [reflexivity | right; lia |].
    right. rewrite slen_app, slen_cons, slen_nil. lia.
Qed.

Lemma allowedAt_blockBetween_mid (cs : CharSet) (f s : ConcreteLine) :
  allowedAt cs (slen (ConcreteLine.Line f)) (blockBetween f s) = Contains cs kBlocked.
Proof. unfold allowedAt. rewrite cell_blockBetween_mid. reflexivity. Qed.

Lemma allowedAt_blockBetween_first (cs : CharSet) (i : Z) (f s : ConcreteLine) :
  i < slen (ConcreteLine.Line f) -> allowedAt cs i (blockBetween f s) = allowedAt cs i f.
Proof. intros Hi. unfold allowedAt. rewrite cell_blockBetween_first by exact Hi. reflexivity. Qed.

Lemma allowedAt_blockBetween_second (cs : CharSet) (i : Z) (f s : ConcreteLine) :
  slen (ConcreteLine.Line f) < i ->
  allowedAt cs i (blockBetween f s) = allowedAt cs (i - slen (ConcreteLine.Line f) - 1) s.
Proof. intros Hi. unfold allowedAt. rewrite cell_blockBetween_second by exact Hi. reflexivity. Qed.

(** The lines of what the loop of [Compound.FilterAny] collects. *)
Lemma FilterAny_loop_unchanged (todo : list (PossibleLines * Result)) :
  forall seen filtered any,
    snd (Compound_FilterAny_loop seen todo filtered any) = false ->
    any = false /\ Forall (fun pf => snd pf = Same) todo.
Proof.
  induction todo as [|[p f] todo IH]; intros seen filtered any H;
    cbn [Compound_FilterAny_loop] in H; [auto|].
  destruct any; cbn [negb andb] in H.
  - destruct (isImpossible (value p f)); [|destruct (value p f)];
      apply IH in H as [H _]; discriminate.
  - destruct f as [|q]; cbn [isNew] in H.
    + destruct (isImpossible (value p Same)); cbn [negb] in H; apply IH in H as [_ H]; auto.
    + destruct (isImpossible (value p (New q))); [|destruct (value p (New q))];
        apply IH in H as [H _]; discriminate.
Qed.

Lemma Iterate_spliced (filtered : list PossibleLines) (v : PossibleLines) :
  flat_map Iterate (match v with
                    | Impossible n => filtered ++ [Impossible n]
                    | Words ws oi masks => filtered ++ [Words ws oi masks]
                    | BlockBefore l => filtered ++ [BlockBefore l]
                    | BlockAfter l => filtered ++ [BlockAfter l]
                    | BlockBetween f s => filtered ++ [BlockBetween f s]
                    | Compound cs => filtered ++ cs
                    | Definite d => filtered ++ [Definite d]
                    end)
  = flat_map Iterate filtered ++ Iterate v.
Proof.
  destruct v; rewrite flat_map_app; cbn [flat_map Iterate]; rewrite ?app_nil_r; reflexivity.
Qed.

Lemma FilterAny_loop_Iterate (todo : list (PossibleLines * Result)) :
  forall seen filtered any,
    snd (Compound_FilterAny_loop seen todo filtered any) = true ->
    (any = false -> filtered = []) ->
    flat_map Iterate (fst (Compound_FilterAny_loop seen todo filtered any)) =
    flat_map Iterate filtered
    ++ (if any then [] else flat_map Iterate seen)
    ++ flat_map (fun pf => Iterate (valueOf pf)) todo.
Proof.
  induction todo as [|[p f] todo IH]; intros seen filtered any H Hinit;
    cbn [Compound_FilterAny_loop] in *.
  - cbn [snd] in H. subst any. cbn [flat_map fst]. rewrite !app_nil_r. reflexivity.
  - cbn [flat_map]. unfold valueOf at 1. cbn [fst snd].
    destruct any; cbn [negb andb] in *.
    + destruct (isImpossible (value p f)) eqn:Hi.
      * rewrite (IH _ _ _ H) by discriminate.
        rewrite (isImpossible_Iterate _ Hi). reflexivity.
      * rewrite (IH _ _ _ H) by discriminate.
        rewrite Iterate_spliced, <- !app_assoc. reflexivity.
    + rewrite (Hinit eq_refl) in *. cbn [app flat_map] in *.
      destruct f as [|q]; cbn [isNew value] in *.
      * destruct (isImpossible p); cbn [negb] in *;
          rewrite (IH _ _ _ H) by reflexivity;
          cbn [flat_map app]; rewrite flat_map_app; cbn [flat_map];
          rewrite app_nil_r, <- app_assoc; reflexivity.
      * destruct (isImpossible q) eqn:Hi; cbn [negb app] in *.
        -- rewrite (IH _ _ _ H) by discriminate.
           rewrite (isImpossible_Iterate _ Hi). cbn [app]. reflexivity.
        -- rewrite (IH _ _ _ H) by discriminate.
           rewrite Iterate_spliced, <- !app_assoc. reflexivity.
Qed.

(** A full constraint filters nothing. *)
Lemma FilterAny_full (cs : CharSet) (p : PossibleLines) (i : Z) (r : Result) :
  IsFull cs = true -> FilterAny p cs i = Some r -> r = Same.
Proof.
  intros Hfull H. destruct p; cbn [FilterAny] in H; unfold skipsFilter in H;
    rewrite ?Hfull in H; cbn [orb] in H; congruence.
Qed.

(** The letters of the words of a well-formed [Words] at an index. *)
Lemma word_letter (n i : Z) (ws : list string) (x : string) :
  wordsOf n ws -> In x ws -> 0 <= i < n ->
  exists c, byteAt x i = Some c /\ 97 <= c <= 122.
Proof.
  intros Hall Hx Hi. unfold wordsOf in Hall. rewrite Forall_forall in Hall.
  destruct (Hall x Hx) as [Hlen Hletters].
  destruct (byteAt_Some x i ltac:(lia)) as (c & Hc). exists c. split; [exact Hc|].
  rewrite <- index_runes in Hc. apply index_In in Hc.
  rewrite forallb_forall in Hletters. specialize (Hletters c Hc). unfold isLetter in Hletters.
  apply andb_true_iff in Hletters as [H1 H2]. apply Z.leb_le in H1, H2. lia.
Qed.

Lemma letter_inRange (c : rune) : 97 <= c <= 122 -> inRange c = true.
Proof.
  intros Hc. unfold inRange, minChar, maxChar, kBlocked.
  destruct (Z.ltb_spec c 96); [lia|]. destruct (Z.gtb_spec c 122); [lia|]. reflexivity.
Qed.

Lemma FilterAny_Iterate (cs : CharSet) (p : PossibleLines) :
  valid cs -> IsFull cs = false ->
  wellFormed p = true -> cacheOk p = true ->
  forall n i r, NumLetters p = Some n -> 0 <= i < n -> FilterAny p cs i = Some r ->
  Iterate (value p r) = filter (allowedAt cs i) (Iterate p).
Proof.
  intros Hv Hfull. revert p. wf_induction.
  - intros n _ _ _ m i r _ _ H. apply Some_inj in H. subst r. reflexivity.
  - intros w ws oi masks Hwf _ H25 Hall Hmasks Hc m i r Hm Hi H.
    cbn [NumLetters] in Hm. apply Some_inj in Hm. subst m.
    cbn [FilterAny] in H. cbn [Iterate].
    assert (Hsame : (forall x c, In x (w :: ws) -> byteAt x i = Some c -> Contains cs c = true) ->
                    map wordLine (w :: ws)
                    = filter (allowedAt cs i) (map wordLine (w :: ws))).
    { intros Hin. symmetry. apply filter_all. intros l Hl.
      apply in_map_iff in Hl as (x & <- & Hx). rewrite allowedAt_wordLine. unfold kept.
      destruct (word_letter _ i _ x Hall Hx Hi) as (c & Hbyte & _).
      rewrite Hbyte. cbn [bind]. rewrite (Hin x c Hx Hbyte). reflexivity. }
    destruct (skipsFilter cs) eqn:Hskip.
    { apply Some_inj in H. subst r. cbn [value Iterate]. apply Hsame.
      intros x c Hx Hbyte. unfold skipsFilter in Hskip. rewrite Hfull in Hskip.
      cbn [orb] in Hskip. apply andb_true_iff in Hskip as [Hb Hcount].
      apply negb_true_iff in Hb. apply Z.eqb_eq in Hcount.
      destruct (word_letter _ i _ x Hall Hx Hi) as (c' & Hbyte' & Hletter).
      assert (c' = c) by congruence. subst c'.
      apply (valid_letters cs c Hv Hb Hcount Hletter). }
    bind_inv H. destruct a.
    { apply Some_inj in H. subst r. cbn [value Iterate]. apply Hsame.
      intros x c Hx Hbyte.
      destruct masks as [ms|]; [|discriminate]. bind_inv Ha.
      destruct (bits a =? 0) eqn:Hbits; cbn [negb] in Ha; [discriminate|].
      apply Some_inj in Ha. cbn [cacheOk] in Hc.
      assert (Hnth : nth_error ms (Z.to_nat i) = Some a).
      { unfold index in Ha0. destruct (i <? 0); [discriminate | exact Ha0]. }
      pose proof (masksOk_index _ _ 0 (Z.to_nat i) a Hc Hnth) as Hok.
      replace (0 + Z.of_nat (Z.to_nat i)) with i in Hok by lia.
      pose proof (maskOk_cached _ _ _ Hok Hbits) as Hmask.
      destruct (maskOf_Contains _ _ _ _ Hmask valid_New) as [_ Hcm].
      destruct (word_letter _ i _ x Hall Hx Hi) as (c' & Hbyte' & Hletter).
      assert (c' = c) by congruence. subst c'.
      apply (ContainsAll_Contains cs a c Ha). rewrite (Hcm c (letter_inRange c Hletter)).
      apply orb_true_iff. right. apply existsb_exists. exists x. split; [exact Hx|].
      unfold has. rewrite Hbyte. apply Z.eqb_refl. }
    clear Ha. bind_inv H. destruct a; cbn [negb] in H.
    + bind_inv H. destruct a as [fl k]. bind_inv H. bind_inv H.
      apply Some_inj in H. subst r. cbn [value].
      rewrite (Iterate_MakeWords _ _ _ _ Ha2).
      apply keepWords_Some in Ha0. subst fl.
      rewrite filter_map_comm. f_equal. apply filter_ext. intros x.
      symmetry. apply allowedAt_wordLine.
    + apply Some_inj in H. subst r. cbn [value Iterate]. apply Hsame.
      intros x c Hx Hbyte. apply ContainsFunc_false in Ha. rewrite Forall_forall in Ha.
      specialize (Ha x Hx). cbv beta in Ha. rewrite Hbyte in Ha. cbn [bind] in Ha.
      apply Some_inj in Ha. apply negb_false_iff in Ha. exact Ha.
  - intros l n Hwf Hwl _ Hn H0 H25 IH Hc m i r Hm Hi H.
    cbn [NumLetters] in Hm. rewrite Hn in Hm. apply Some_inj in Hm. subst m.
    cbn [FilterAny] in H. rewrite Hfull in H. cbn [Iterate cacheOk] in *.
    destruct (i =? 0) eqn:Hi0.
    + apply Z.eqb_eq in Hi0. subst i.
      destruct (Contains cs kBlocked) eqn:Hch.
      * apply Some_inj in H. subst r. cbn [value Iterate].
        symmetry. apply filter_all. intros x Hx.
        apply in_map_iff in Hx as (y & <- & _). rewrite allowedAt_blockBefore_0. exact Hch.
      * apply newImpossible_Some in H as (k & _ & -> & _). cbn [value Iterate].
        symmetry. apply filter_none. intros x Hx.
        apply in_map_iff in Hx as (y & <- & _). rewrite allowedAt_blockBefore_0. exact Hch.
    + apply Zeqb_false_neq in Hi0. bind_inv H.
      rewrite (Iterate_BlockBefore_build _ _ _ H), (IH Hc n (i - 1) a Hn ltac:(lia) Ha).
      rewrite filter_map_comm. f_equal. apply filter_ext. intros x.
      symmetry. apply allowedAt_blockBefore. exact Hi0.
  - intros l n Hwf Hwl _ Hn H0 H25 IH Hc m i r Hm Hi H.
    cbn [NumLetters] in Hm. rewrite Hn in Hm. apply Some_inj in Hm. subst m.
    cbn [FilterAny] in H. rewrite Hfull, Hn in H. cbn [bind] in H. cbn [Iterate cacheOk] in *.
    pose proof (Iterate_length l Hwl n Hn) as Hlen.
    destruct (i =? n) eqn:Hin.
    + apply Z.eqb_eq in Hin. subst i.
      destruct (Contains cs kBlocked) eqn:Hch.
      * apply Some_inj in H. subst r. cbn [value Iterate].
        symmetry. apply filter_all. intros x Hx.
        apply in_map_iff in Hx as (y & <- & Hy). rewrite <- (Hlen y Hy).
        rewrite allowedAt_blockAfter_end. exact Hch.
      * apply newImpossible_Some in H as (k & _ & -> & _). cbn [value Iterate].
        symmetry. apply filter_none. intros x Hx.
        apply in_map_iff in Hx as (y & <- & Hy). rewrite <- (Hlen y Hy).
        rewrite allowedAt_blockAfter_end. exact Hch.
    + apply Zeqb_false_neq in Hin. bind_inv H.
      rewrite (Iterate_BlockAfter_build _ _ _ H), (IH Hc n i a Hn ltac:(lia) Ha).
      rewrite filter_map_comm. f_equal. apply filter_ext_in. intros x Hx.
      symmetry. apply allowedAt_blockAfter. rewrite (Hlen x Hx). exact Hin.
  - intros f s nf ns Hwf Hwf1 Hwf2 _ _ Hnf Hns H0 H0' H25 IHf IHs Hc m i r Hm Hi H.
    cbn [NumLetters] in Hm. rewrite Hnf, Hns in Hm. apply Some_inj in Hm. subst m.
    cbn [FilterAny] in H. rewrite Hfull, Hnf in H. cbn [bind] in H. cbn [Iterate cacheOk] in *.
    apply andb_true_iff in Hc as [Hcf Hcs].
    fold (product (Iterate f) (Iterate s)).
    pose proof (Iterate_length f Hwf1 nf Hnf) as Hlen.
    destruct (i =? nf) eqn:Hin.
    + apply Z.eqb_eq in Hin. subst i.
      destruct (Contains cs kBlocked) eqn:Hch.
      * apply Some_inj in H. subst r. cbn [value Iterate].
        fold (product (Iterate f) (Iterate s)).
        symmetry. apply filter_all. intros x Hx.
        apply in_flat_map in Hx as (y & Hy & Hx). apply in_map_iff in Hx as (z & <- & Hz).
        rewrite <- (Hlen y Hy). rewrite allowedAt_blockBetween_mid. exact Hch.
      * apply newImpossible_Some in H as (k & _ & -> & _). cbn [value Iterate].
        symmetry. apply filter_none. intros x Hx.
        apply in_flat_map in Hx as (y & Hy & Hx). apply in_map_iff in Hx as (z & <- & Hz).
        rewrite <- (Hlen y Hy). rewrite allowedAt_blockBetween_mid. exact Hch.
    + apply Zeqb_false_neq in Hin. destruct (i <? nf) eqn:Hlt; bind_inv H.
      * apply Z.ltb_lt in Hlt.
        rewrite (Iterate_BlockBetween_build _ _ _ _ _ H), (IHf Hcf nf i a Hnf ltac:(lia) Ha).
        cbn [value].
        symmetry. apply filter_product_first. intros x y Hx Hy.
        apply allowedAt_blockBetween_first. rewrite (Hlen x Hx). exact Hlt.
      * apply Z.ltb_ge in Hlt.
        rewrite (Iterate_BlockBetween_build _ _ _ _ _ H).
        rewrite (IHs Hcs ns (i - nf - 1) a Hns ltac:(lia) Ha).
        cbn [value].
        symmetry. apply filter_product_second. intros x y Hx Hy.
        rewrite allowedAt_blockBetween_second by (rewrite (Hlen x Hx); lia).
        rewrite (Hlen x Hx). reflexivity.
  - intros ps n Hwf Hlen Hn Hall Hc m i r Hm Hi H.
    assert (Hnm : m = n).
    { destruct ps as [|q ps]; [discriminate|]. cbn [NumLetters] in Hm.
      pose proof (Forall_inv Hall) as (_ & _ & _ & Hq & _). congruence. }
    subst m. cbn [cacheOk] in Hc. rewrite forallb_forall in Hc.
    cbn [FilterAny] in H. rewrite Hfull in H. bind_inv H. cbn [Iterate].
    rewrite filter_flat_map.
    pose proof (mapM_Some _ _ _ Ha) as Hfs.
    assert (Hvals : flat_map (fun pf => Iterate (valueOf pf)) (combine ps a)
                    = flat_map (fun q => filter (allowedAt cs i) (Iterate q)) ps).
    { clear - Hall Hfs Hc Hi. induction Hfs as [|q f ps fs Hq _ IH]; [reflexivity|].
      cbn [combine flat_map]. unfold valueOf at 1. cbn [fst snd].
      pose proof (Forall_inv Hall) as (_ & _ & _ & Hnq & IHq).
      rewrite (IHq (Hc q (or_introl eq_refl)) _ _ _ Hnq Hi Hq). f_equal.
      apply IH; [apply (Forall_inv_tail Hall)|]. intros x Hx. apply Hc. right. exact Hx. }
    destruct (Compound_FilterAny_loop [] (combine ps a) [] false) as [filtered any] eqn:Hloop.
    destruct any; cbn [negb] in H.
    + assert (Hlines : flat_map Iterate filtered
                       = flat_map (fun q => filter (allowedAt cs i) (Iterate q)) ps).
      { change filtered with (fst (filtered, true)). rewrite <- Hloop.
        rewrite FilterAny_loop_Iterate; [exact Hvals | rewrite Hloop; reflexivity | reflexivity]. }
      rewrite <- Hlines. destruct filtered as [|q [|q' filtered]].
      * apply newImpossible_Some in H as (k & _ & -> & _). reflexivity.
      * apply Some_inj in H. subst r. cbn [value flat_map]. rewrite app_nil_r. reflexivity.
      * bind_inv H. bind_inv H. apply Some_inj in H. subst r. cbn [value].
        apply (Iterate_MakeCompound _ _ _ Ha1).
    + apply Some_inj in H. subst r. cbn [value Iterate]. rewrite <- Hvals.
      assert (Hsame : Forall (fun pf => snd pf = Same) (combine ps a)).
      { apply (FilterAny_loop_unchanged (combine ps a) [] [] false). rewrite Hloop. reflexivity. }
      clear - Hsame Hfs. induction Hfs as [|q f ps fs _ _ IH]; [reflexivity|].
      cbn [combine flat_map]. unfold valueOf at 1. cbn [fst snd].
      pose proof (Forall_inv Hsame) as Hf. cbn [snd] in Hf. subst f. cbn [value].
      f_equal. apply IH. apply (Forall_inv_tail Hsame).
  - intros d Hwf H25 _ m i r Hm Hi H. cbn [FilterAny] in H. rewrite Hfull in H.
    bind_inv H. cbn [Iterate filter]. unfold allowedAt, cell. rewrite Ha.
    destruct (Contains cs a).
    + apply Some_inj in H. subst r. reflexivity.
    + apply newImpossible_Some in H as (k & _ & -> & _). reflexivity.
Qed.
End FilterAnyFacts.

(** ** What [Prefilter] keeps *)
Module PrefilterFacts.
Import WordGenLib GridSpec CrossingSpec.
Import LinesFacts PropagatorFacts.
Local Open Scope nat_scope.

Lemma code_inj (c c' : ascii) : code c = code c' -> c = c'.
Proof.
  unfold code. intros H. apply N2Z.inj in H.
  rewrite <- (ascii_N_embedding c), <- (ascii_N_embedding c'), H. reflexivity.
Qed.

Lemma slot_inj (s : CharSet) (c c' : ascii) (k : nat) :
  slot s c = Some k -> slot s c' = Some k -> c = c'.
Proof.
  unfold slot. intros H H'.
  destruct ((0 <=? code c - code BLOCKED)%Z && _) eqn:Hc; [|discriminate].
  destruct ((0 <=? code c' - code BLOCKED)%Z && _) eqn:Hc'; [|discriminate].
  apply andb_true_iff in Hc as [Hc _]. apply andb_true_iff in Hc' as [Hc' _].
  apply Z.leb_le in Hc, Hc'. apply Some_inj in H, H'. apply code_inj. lia.
Qed.

Lemma slot_length (s s' : CharSet) (c : ascii) :
  List.length s' = List.length s -> slot s' c = slot s c.
Proof. unfold slot. intros ->. reflexivity. Qed.

Lemma Contains_Add (s s' : CharSet) (c c' : ascii) :
  List.length s = 27 -> inAlphabet c = true -> inAlphabet c' = true ->
  CharSet_Add s c = Some s' ->
  (CharSet_Contains s' c' = Some true <-> c' = c \/ CharSet_Contains s c' = Some true).
Proof.
  intros Hs Hc Hc' H. destruct (slot_ok s c Hs Hc) as (k & Hk & Hlt).
  destruct (slot_ok s c' Hs Hc') as (k' & Hk' & Hlt').
  unfold CharSet_Add in H. rewrite Hk in H. cbn [bind] in H. apply Some_inj in H. subst s'.
  unfold CharSet_Contains. rewrite (slot_length s) by apply length_setNth.
  rewrite Hk'. cbn [bind]. destruct (Nat.eq_dec k k') as [<-|Hne].
  - rewrite nth_error_setNth_eq by exact Hlt. split; [|reflexivity].
    intros _. left. apply (slot_inj s c' c k); assumption.
  - rewrite nth_error_setNth_neq by exact Hne. split; [auto|].
    intros [->|H]; [congruence | exact H].
Qed.

Lemma Contains_new (c : ascii) : CharSet_Contains CharSet_new c <> Some true.
Proof.
  unfold CharSet_Contains. destruct (slot CharSet_new c) as [k|]; cbn [bind]; [|discriminate].
  intros H. apply nth_error_In in H. apply repeat_spec in H. discriminate.
Qed.

Lemma holds_new (n x y : nat) (c : ascii) : ~ holds (GridDictionary_new n) x y c.
Proof.
  intros (s & He & _). unfold entry, GridDictionary_new in He. bind_inv He.
  apply nth_error_In in Ha. apply repeat_spec in Ha. subst a.
  apply nth_error_In in He. apply repeat_spec in He. discriminate.
Qed.

Lemma holds_store (n : nat) (d : GridDictionary) (x y : nat) (e : option CharSet)
      (set' : CharSet) (c0 : ascii) :
  shaped n d -> x < n -> y < n -> entry d x y = Some e -> setOk e ->
  inAlphabet c0 = true ->
  CharSet_Add (match e with Some s => s | None => CharSet_new end) c0 = Some set' ->
  forall x' y' c, inAlphabet c = true ->
    (holds (store d x y set') x' y' c
     <-> holds d x' y' c \/ (x' = x /\ y' = y /\ c = c0)).
Proof.
  intros Hd Hx Hy He Hok Hc0 Hadd x' y' c Hc.
  assert (Hlen : List.length (match e with Some s => s | None => CharSet_new end) = 27).
  { destruct e as [s|]; [apply Hok; reflexivity | apply length_CharSet_new]. }
  pose proof (Contains_Add _ _ c0 c Hlen Hc0 Hc Hadd) as Hiff.
  destruct (Nat.eq_dec x' x) as [->|Hnx]; [destruct (Nat.eq_dec y' y) as [->|Hny]|].
  - unfold holds. rewrite (entry_store_eq n) by assumption. rewrite He. split.
    + intros (s & Hs & Hcont). apply Some_inj in Hs. apply Some_inj in Hs. subst s.
      apply Hiff in Hcont as [->|Hcont]; [right; auto|].
      destruct e as [s|]; [left; eauto | destruct (Contains_new c Hcont)].
    + intros [(s & Hs & Hcont)|(_ & _ & ->)].
      * apply Some_inj in Hs. subst e. exists set'. split; [reflexivity|].
        apply Hiff. right. exact Hcont.
      * exists set'. split; [reflexivity|]. apply Hiff. left. reflexivity.
  - unfold holds. rewrite entry_store_other by auto. split; [auto|].
    intros [H|(_ & Hy' & _)]; [exact H | congruence].
  - unfold holds. rewrite entry_store_other by auto. split; [auto|].
    intros [H|(Hx' & _)]; [exact H | congruence].
Qed.

Lemma addChars_holds (n x : nat) (arr : list ascii) :
  x < n -> forallb inAlphabet arr = true ->
  forall d y d', shaped n d -> y + List.length arr <= n ->
  addChars d x y arr = Some d' ->
  shaped n d'
  /\ forall x' y' c, inAlphabet c = true ->
       (holds d' x' y' c
        <-> holds d x' y' c \/ (x' = x /\ exists k, nth_error arr k = Some c /\ y' = y + k)).
Proof.
  intros Hx. induction arr as [|c0 arr IH]; intros Harr d y d' Hd Hy H; cbn [addChars] in H.
  - apply Some_inj in H. subst d'. split; [exact Hd|]. intros x' y' c _. split; [auto|].
    intros [H|(_ & k & Hk & _)]; [exact H | destruct k; discriminate].
  - cbn [forallb List.length] in *. apply andb_true_iff in Harr as [Hc0 Harr].
    bind_inv H. bind_inv H.
    destruct (shaped_entry n d x y Hd Hx ltac:(lia)) as (e & He & Hok).
    unfold GetOrAddDefault in Ha. rewrite He in Ha. cbn [bind] in Ha.
    assert (Hset : a = match e with Some s => s | None => CharSet_new end)
      by (destruct e; apply Some_inj in Ha; congruence).
    subst a.
    assert (Hlen : List.length (match e with Some s => s | None => CharSet_new end) = 27).
    { destruct e as [s|]; [apply Hok; reflexivity | apply length_CharSet_new]. }
    destruct (CharSet_Add_ok _ c0 Hlen Hc0) as (s' & Hs' & Hlen').
    assert (Heq : Some s' = Some a0) by exact (eq_trans (eq_sym Hs') Ha0).
    apply Some_inj in Heq. subst s'.
    destruct (IH Harr (store d x y a0) (S y) d' (shaped_store n d x y a0 Hd Hlen')
                 ltac:(lia) H) as [Hd' Hiff].
    split; [exact Hd'|]. intros x' y' c Hc. rewrite (Hiff x' y' c Hc).
    rewrite (holds_store n d x y e a0 c0 Hd Hx ltac:(lia) He Hok Hc0 Hs' x' y' c Hc).
    split.
    + intros [[H1|(-> & -> & ->)]|(-> & k & Hk & ->)].
      * left. exact H1.
      * right. split; [reflexivity|]. exists 0. split; [reflexivity | lia].
      * right. split; [reflexivity|]. exists (S k). split; [exact Hk | lia].
    + intros [H1|(-> & [|k] & Hk & ->)].
      * left. left. exact H1.
      * cbn [nth_error] in Hk. apply Some_inj in Hk. subst c0.
        left. right. repeat split. lia.
      * right. split; [reflexivity|]. exists k. split; [exact Hk | lia].
Qed.

Lemma addLines_holds (n x : nat) (lines : list ScoredLine) :
  x < n -> linesOk n lines ->
  forall d d', shaped n d -> addLines d x lines = Some d' ->
  shaped n d'
  /\ forall x' y' c, inAlphabet c = true ->
       (holds d' x' y' c
        <-> holds d x' y' c
            \/ (x' = x /\ exists line, In line lines /\ letterAt line y' = Some c)).
Proof.
  intros Hx. induction lines as [|line lines IH]; intros Hlines d d' Hd H; cbn [addLines] in H.
  - apply Some_inj in H. subst d'. split; [exact Hd|]. intros x' y' c _. split; [auto|].
    intros [H|(_ & l & [] & _)]. exact H.
  - bind_inv H. destruct (lineOk_chars n line (Forall_inv Hlines)) as [Hlen Hchars].
    destruct (addChars_holds n x _ Hx Hchars d 0 a Hd ltac:(lia) Ha) as [Hda Hiff].
    destruct (IH (Forall_inv_tail Hlines) a d' Hda H) as [Hd' Hiff'].
    split; [exact Hd'|]. intros x' y' c Hc. rewrite (Hiff' x' y' c Hc), (Hiff x' y' c Hc).
    split.
    + intros [[H1|(-> & k & Hk & ->)]|(-> & l & Hl & Hy)].
      * left. exact H1.
      * right. split; [reflexivity|]. exists line. split; [left; reflexivity | exact Hk].
      * right. split; [reflexivity|]. exists l. split; [right; exact Hl | exact Hy].
    + intros [H1|(-> & l & [<-|Hl] & Hy)].
      * left. left. exact H1.
      * left. right. split; [reflexivity|]. exists y'. split; [exact Hy | reflexivity].
      * right. split; [reflexivity|]. exists l. split; assumption.
Qed.

Lemma addConstraint_holds (n : nat) (constraint : list (list ScoredLine)) :
  Forall (linesOk n) constraint ->
  forall d x d', shaped n d -> x + List.length constraint <= n ->
  addConstraint d x constraint = Some d' ->
  shaped n d'
  /\ forall x' y' c, inAlphabet c = true ->
       (holds d' x' y' c
        <-> holds d x' y' c
            \/ exists k options line,
                 nth_error constraint k = Some options /\ x' = x + k
                 /\ In line options /\ letterAt line y' = Some c).
Proof.
  induction constraint as [|opts constraint IH]; intros Hall d x d' Hd Hx H;
    cbn [addConstraint] in H.
  - apply Some_inj in H. subst d'. split; [exact Hd|]. intros x' y' c _. split; [auto|].
    intros [H|(k & o & l & Hk & _)]; [exact H | destruct k; discriminate].
  - cbn [List.length] in Hx. bind_inv H.
    destruct (addLines_holds n x opts ltac:(lia) (Forall_inv Hall) d a Hd Ha) as [Hda Hiff].
    destruct (IH (Forall_inv_tail Hall) a (S x) d' Hda ltac:(lia) H) as [Hd' Hiff'].
    split; [exact Hd'|]. intros x' y' c Hc. rewrite (Hiff' x' y' c Hc), (Hiff x' y' c Hc).
    split.
    + intros [[H1|(-> & l & Hl & Hy)]|(k & o & l & Hk & -> & Hl & Hy)].
      * left. exact H1.
      * right. exists 0, opts, l. repeat split; auto.
      * right. exists (S k), o, l. repeat split; auto; lia.
    + intros [H1|([|k] & o & l & Hk & -> & Hl & Hy)].
      * left. left. exact H1.
      * cbn [nth_error] in Hk. apply Some_inj in Hk. subst o.
        left. right. split; [lia|]. exists l. split; assumption.
      * right. exists k, o, l. repeat split; auto; lia.
Qed.

Lemma offers_iff (options : list ScoredLine) (y : nat) (c : ascii) :
  offers options y c = true <-> exists line, In line options /\ letterAt line y = Some c.
Proof.
  unfold offers. rewrite existsb_exists. split; intros (line & Hl & H); exists line;
    (split; [exact Hl|]).
  - destruct (letterAt line y) as [c'|]; [|discriminate]. apply Ascii.eqb_eq in H. congruence.
  - rewrite H. apply Ascii.eqb_refl.
Qed.

Lemma offeredAt_iff (constraint : list (list ScoredLine)) (x y : nat) (c : ascii) :
  offeredAt constraint x y c = true
  <-> exists options line,
        nth_error constraint x = Some options /\ In line options /\ letterAt line y = Some c.
Proof.
  unfold offeredAt. destruct (nth_error constraint x) as [options|].
  - rewrite offers_iff. split.
    + intros (line & Hl & H). eauto.
    + intros (o & line & Ho & Hl & H). apply Some_inj in Ho. subst o. eauto.
  - split; [discriminate | intros (o & line & Ho & _); discriminate].
Qed.

Lemma allowed_crossesFrom (n : nat) (d : GridDictionary)
      (constraint : list (list ScoredLine)) (y : nat) (line : list ascii) :
  shaped n d -> (forall x' y', x' < n -> y' < n -> filledAt d x' y') ->
  (forall x' c, inAlphabet c = true ->
                (holds d x' y c <-> offeredAt constraint x' y c = true)) ->
  y < n -> forallb inAlphabet line = true ->
  forall x, x + List.length line <= n ->
            allowed d y x line = Some (crossesFrom constraint y x line).
Proof.
  intros Hd Hfull Hiff Hy. induction line as [|c line IH]; intros Hline x Hx;
    cbn [allowed crossesFrom]; [reflexivity|].
  cbn [forallb List.length] in *. apply andb_true_iff in Hline as [Hc Hline].
  destruct (Hfull x y ltac:(lia) Hy) as (s & Hs).
  destruct (shaped_entry n d x y Hd ltac:(lia) Hy) as (e & He & Hok).
  rewrite Hs in He. apply Some_inj in He. subst e.
  unfold item. rewrite Hs. cbn [bind].
  destruct (CharSet_Contains_ok s c (Hok s eq_refl) Hc) as (b & Hb). rewrite Hb. cbn [bind].
  assert (Hsame : offeredAt constraint x y c = b).
  { destruct b.
    - apply (Hiff x c Hc). exists s. split; assumption.
    - destruct (offeredAt constraint x y c) eqn:Ho; [|reflexivity].
      apply (Hiff x c Hc) in Ho as (s' & Hs' & Hcont). congruence. }
  rewrite Hsame. destruct b; cbn [andb]; [apply IH; [assumption | lia] | reflexivity].
Qed.

Lemma whereM_filter {A : Type} (f : A -> option bool) (g : A -> bool) (l : list A) :
  (forall a, In a l -> f a = Some (g a)) -> whereM f l = Some (filter g l).
Proof.
  induction l as [|a l IH]; intros H; cbn [whereM filter]; [reflexivity|].
  rewrite (H a (or_introl eq_refl)), IH by (intros b Hb; apply H; right; exact Hb).
  cbn [bind]. destruct (g a); reflexivity.
Qed.

Lemma selectM_filterFrom (n : nat) (available : GridDictionary)
      (constraint toFilter : list (list ScoredLine)) :
  shaped n available -> (forall x' y', x' < n -> y' < n -> filledAt available x' y') ->
  (forall x' y' c, inAlphabet c = true ->
                   (holds available x' y' c <-> offeredAt constraint x' y' c = true)) ->
  Forall (linesOk n) toFilter ->
  forall y, y + List.length toFilter <= n ->
    selectM (fun possibles y =>
               whereM (fun line => allowed available y 0 (chars (Line line))) possibles)
            y toFilter
    = Some (filterFrom constraint y toFilter).
Proof.
  intros Hd Hfull Hiff. induction toFilter as [|possibles toFilter IH]; intros Hall y Hy;
    cbn [selectM filterFrom]; [reflexivity|].
  cbn [List.length] in Hy.
  rewrite (whereM_filter _ (crosses constraint y)).
  - cbn [bind]. rewrite IH by (try apply (Forall_inv_tail Hall); lia). reflexivity.
  - intros line Hline. pose proof (Forall_inv Hall) as Hp. unfold linesOk in Hp.
    rewrite Forall_forall in Hp. destruct (lineOk_chars n line (Hp line Hline)) as [Hlen Hc].
    apply (allowed_crossesFrom n); auto; lia.
Qed.

(** What a pass of [Prefilter] returns. *)
Lemma Prefilter_tightened (state : GridState) (direction : Direction) :
  squareGrid state = true ->
  Prefilter state direction
  = Some (if existsb isEmpty (Down state) || existsb isEmpty (Across state)
          then state else tightened state direction).
Proof.
  intros Hsq. apply squareGrid_axes in Hsq as [[HlenD HD] [_ HA]].
  set (n := List.length (Across state)) in *.
  unfold Prefilter.
  set (toFilter := match direction with Horizontal => Across state | Vertical => Down state end).
  set (constraint := match direction with Horizontal => Down state | Vertical => Across state end).
  assert (Hsame : existsb isEmpty toFilter || existsb isEmpty constraint
                  = existsb isEmpty (Down state) || existsb isEmpty (Across state)).
  { destruct direction; [apply orb_comm | reflexivity]. }
  rewrite Hsame.
  destruct (existsb isEmpty (Down state) || existsb isEmpty (Across state)) eqn:Hempty;
    [reflexivity|].
  apply orb_false_iff in Hsame as [He1 He2].
  assert (Hto : axisOk n toFilter) by (destruct direction; split; auto).
  assert (Hco : axisOk n constraint) by (destruct direction; split; auto).
  destruct Hto as [HlenT HT]. destruct Hco as [HlenC HC].
  destruct (addConstraint_ok n constraint) with (d := GridDictionary_new n) (x := 0)
    as (available & Hav & Hshape & _ & Hfull).
  { apply existsb_isEmpty_false in He2. rewrite Forall_forall in *. auto. }
  { apply shaped_new. }
  { lia. }
  destruct (addConstraint_holds n constraint HC _ 0 available (shaped_new n) ltac:(lia) Hav)
    as [_ Hholds].
  fold n. rewrite Hav. cbn [bind].
  rewrite (selectM_filterFrom n available constraint toFilter); auto.
  - cbn [bind]. subst toFilter constraint. destruct direction; reflexivity.
  - intros; apply Hfull; lia.
  - intros x' y' c Hc. rewrite (Hholds x' y' c Hc), offeredAt_iff. split.
    + intros [H|(k & o & l & Hk & -> & Hl & Hy)]; [destruct (holds_new _ _ _ _ H)|].
      exists o, l. auto.
    + intros (o & l & Ho & Hl & Hy). right. exists x', o, l. auto.
  - lia.
Qed.
End PrefilterFacts.

(** ** The grids that the search yields *)
Module SearchSound.
Import WordGenLib GridSpec CrossingSpec.
Import LinesFacts PropagatorFacts SearchFacts PrefilterFacts.
Local Open Scope nat_scope.

(** *** Where the grids of a search come from *)
Lemma In_andThenS_inv {A : Type} (first : Enumeration A * nat) (rest : Search A) (x : A) :
  In x (yielded (fst (andThenS first rest))) ->
  In x (yielded (fst first)) \/ In x (yielded (fst (rest (snd first)))).
Proof.
  unfold andThenS. destruct (status (fst first)); auto.
  cbn [fst yielded]. apply in_app_or.
Qed.

Lemma In_foreachS_inv {A B : Type} (items : list A) (body : A -> Search B) (g : B) :
  forall pos, In g (yielded (fst (foreachS items body pos))) ->
              exists x pos', In x items /\ In g (yielded (fst (body x pos'))).
Proof.
  induction items as [|x items IH]; intros pos H; cbn [foreachS] in H; [destruct H|].
  apply In_andThenS_inv in H as [H|H].
  - exists x, pos. split; [left; reflexivity | exact H].
  - destruct (IH _ H) as (x' & pos' & Hx & Hg). exists x', pos'. split; [right|]; assumption.
Qed.

Lemma setNth_incl (i : nat) (kept : list ScoredLine) (axis : list (list ScoredLine)) :
  forall entry,
    nth_error axis i = Some entry -> incl kept entry ->
    Forall2 (@incl ScoredLine) (setNth i kept axis) axis.
Proof.
  revert i. induction axis as [|e axis IH]; intros [|i] entry Hnth Hincl;
    cbn [nth_error] in Hnth; try discriminate; cbn [setNth].
  - apply Some_inj in Hnth. subst e. constructor; [exact Hincl | apply Forall2_incl_refl].
  - constructor; [apply incl_refl | apply (IH _ _ Hnth Hincl)].
Qed.

Lemma restrictOpposite_incl (index : nat) (line : list ascii) :
  forall i attemptOpposite out,
    restrictOpposite index i line attemptOpposite = Some out ->
    Forall2 (@incl ScoredLine) out attemptOpposite.
Proof.
  induction line as [|c line IH]; intros i attemptOpposite out H;
    cbn [restrictOpposite] in H.
  - apply Some_inj in H. subst out. apply Forall2_incl_refl.
  - bind_inv H. bind_inv H. apply IH in H. apply whereM_incl in Ha0.
    apply (Forall2_incl_trans _ _ _ H). apply (setNth_incl i a0 attemptOpposite a Ha Ha0).
Qed.

Lemma replaceFrom_incl (x : list ScoredLine) (target : nat) (axis : list (list ScoredLine)) :
  forall start,
    (forall k entry, nth_error axis k = Some entry -> start + k = target -> incl x entry) ->
    Forall2 (@incl ScoredLine)
            (map (fun ri => if (snd ri =? target) then x else fst ri)
                 (combine axis (seq start (List.length axis))))
            axis.
Proof.
  induction axis as [|e axis IH]; intros start H;
    cbn [List.length seq combine map fst snd]; constructor.
  - destruct (Nat.eqb_spec start target) as [Heq|_]; [|apply incl_refl].
    apply (H 0 e eq_refl). lia.
  - apply IH. intros k entry Hk Hs. apply (H (S k) entry Hk). lia.
Qed.

Lemma replaceAt_incl (index : nat) (attempt : ScoredLine) (axis : list (list ScoredLine))
      (options : list ScoredLine) :
  nth_error axis index = Some options -> In attempt options ->
  Forall2 (@incl ScoredLine) (replaceAt index [attempt] axis) axis.
Proof.
  intros Hnth Hin. apply (replaceFrom_incl [attempt] index axis 0).
  intros k entry Hk Heq. cbn [Nat.add] in Heq. subst k.
  assert (entry = options) by congruence. subst entry.
  intros l [<-|[]]. exact Hin.
Qed.

(** The states on which the search calls itself. *)
Lemma AllPossibleGrids_in_from (recurse : GridState -> Search FinalGrid)
      (root : GridState) (undecided : list nat) (dir : Direction) (pos : nat) (g : FinalGrid) :
  In g (yielded (fst (AllPossibleGrids_in recurse root undecided dir pos))) ->
  exists newRoot pos', noLooser newRoot root /\ In g (yielded (fst (recurse newRoot pos'))).
Proof.
  unfold AllPossibleGrids_in.
  set (optionAxis := match dir with Horizontal => Across root | Vertical => Down root end).
  set (oppositeAxis := match dir with Horizontal => Down root | Vertical => Across root end).
  destruct (sameLineFrom 0 optionAxis oppositeAxis optionAxis) as [[|]|];
    try (intros []; fail).
  intros H. apply In_foreachS_inv in H as (index & pos1 & _ & H).
  unfold choicesAt in H. destruct (nth_error optionAxis index) as [options|] eqn:Hopts;
    [|destruct H].
  destruct (List.length options =? 1); [destruct H|].
  apply In_foreachS_inv in H as (attempt & pos2 & Hattempt & H).
  unfold attemptAt in H.
  destruct (restrictOpposite index 0 (chars (Line attempt)) oppositeAxis)
    as [attemptOpposite|] eqn:Hrestrict; [|destruct H].
  destruct (forallb _ attemptOpposite); [|destruct H].
  pose proof (restrictOpposite_incl _ _ _ _ _ Hrestrict) as Hopp.
  pose proof (replaceAt_incl index attempt optionAxis options Hopts Hattempt) as Hopt.
  eexists _, pos2. split; [|exact H].
  subst optionAxis oppositeAxis. destruct dir; split; cbn [Down Across]; assumption.
Qed.

Lemma searchDirs_from (recurse : GridState -> Search FinalGrid) (root : GridState)
      (undecidedDown undecidedAcross : list nat) (parity : nat) (steps : list nat)
      (g : FinalGrid) :
  forall pos,
    In g (yielded (fst (searchDirs recurse root undecidedDown undecidedAcross parity steps pos))) ->
    exists newRoot pos', noLooser newRoot root /\ In g (yielded (fst (recurse newRoot pos'))).
Proof.
  induction steps as [|i steps IH]; intros pos H; cbn [searchDirs] in H; [destruct H|].
  destruct (nth_error dirs ((parity + i) mod 2)) as [dir|]; [|destruct H].
  destruct (isEmpty _); [apply (IH _ H) | apply (AllPossibleGrids_in_from _ _ _ _ _ _ H)].
Qed.

(** *** The propagator returns the result of a pass *)
Lemma propagateFrom_filtered (passes : nat) :
  forall tries root direction out,
    propagateFrom passes tries root direction = Some out ->
    out = root
    \/ exists prev d, noLooser prev root /\ Prefilter prev d = Some out.
Proof.
  induction passes as [|passes IH]; intros tries root direction out H;
    cbn [propagateFrom] in H.
  - apply Some_inj in H. left. congruence.
  - destruct (tries <? 4)%Z; [|apply Some_inj in H; left; congruence].
    bind_inv H. bind_inv H.
    destruct (negb a0 && (1 <? tries + 1)%Z).
    + apply Some_inj in H. left. congruence.
    + right. destruct (IH _ _ _ _ H) as [->|(prev & d & Hle & Hpre)].
      * exists root, direction. split; [apply noLooser_refl | exact Ha].
      * exists prev, d. split; [|exact Hpre].
        apply (noLooser_trans _ _ _ Hle). apply (Prefilter_noLooser _ _ _ Ha).
Qed.

Lemma propagateFrom_first (passes : nat) (root : GridState) (direction : Direction) :
  propagateFrom (S passes) 0 root direction
  = (newState <- Prefilter root direction ;;
     changed <- Changed root newState ;;
     propagateFrom passes 1 newState (flip direction)).
Proof.
  cbn [propagateFrom]. change (0 <? 4)%Z with true. cbv iota.
  destruct (Prefilter root direction) as [newState|]; [|reflexivity]. cbn [bind].
  destruct (Changed root newState) as [changed|]; [|reflexivity]. cbn [bind].
  change (1 <? 0 + 1)%Z with false. rewrite andb_false_r. reflexivity.
Qed.

Lemma propagate_filtered (root out : GridState) :
  propagate root = Some out ->
  exists prev d, noLooser prev root /\ Prefilter prev d = Some out.
Proof.
  unfold propagate. rewrite propagateFrom_first.
  intros H. bind_inv H. bind_inv H.
  destruct (propagateFrom_filtered _ _ _ _ _ H) as [->|(prev & d & Hle & Hpre)].
  - exists root, Horizontal. split; [apply noLooser_refl | exact Ha].
  - exists prev, d. split; [|exact Hpre].
    apply (noLooser_trans _ _ _ Hle). apply (Prefilter_noLooser _ _ _ Ha).
Qed.

(** *** A decided state that a pass returns *)
Lemma In_combine_seq {A : Type} (l : list A) :
  forall start k x,
    nth_error l k = Some x -> In (x, start + k) (combine l (seq start (List.length l))).
Proof.
  induction l as [|y l IH]; intros start [|k] x H; cbn [nth_error] in H; try discriminate;
    cbn [List.length seq combine].
  - apply Some_inj in H. subst y. left. f_equal. lia.
  - right. replace (start + S k) with (S start + k) by lia. apply IH, H.
Qed.

Lemma Undecided_nil (axis : list (list ScoredLine)) (k : nat) (options : list ScoredLine) :
  isEmpty (Undecided axis) = true -> nth_error axis k = Some options ->
  List.length options <= 1.
Proof.
  unfold Undecided. intros He Hk.
  destruct (map snd _) eqn:Hmap; [|discriminate]. apply map_eq_nil in Hmap.
  pose proof (In_combine_seq axis 0 k options Hk) as Hin. cbn [Nat.add] in Hin.
  destruct (1 <? List.length options) eqn:Hlt; [|apply Nat.ltb_ge in Hlt; exact Hlt].
  assert (Hf : In (options, k)
                  (filter (fun oi : list ScoredLine * nat => 1 <? List.length (fst oi))
                          (combine axis (seq 0 (List.length axis)))))
    by (apply filter_In; split; [exact Hin | exact Hlt]).
  rewrite Hmap in Hf. destruct Hf.
Qed.

Lemma firsts_nth (axis : list (list ScoredLine)) (lines : list ScoredLine) :
  firsts axis = Some lines ->
  Forall2 (fun options line => nth_error options 0 = Some line) axis lines.
Proof. unfold firsts. apply mapM_Some. Qed.

Lemma Forall2_nth {A B : Type} (R : A -> B -> Prop) (l : list A) (l' : list B) :
  Forall2 R l l' ->
  forall k y, nth_error l' k = Some y -> exists x, nth_error l k = Some x /\ R x y.
Proof.
  induction 1 as [|x y l l' Hxy _ IH]; intros [|k] z Hk; cbn [nth_error] in *;
    try discriminate.
  - apply Some_inj in Hk. subst z. eauto.
  - apply IH, Hk.
Qed.

(** The only option of a decided entry. *)
Lemma decided_entry (axis : list (list ScoredLine)) (lines : list ScoredLine)
      (k : nat) (line : ScoredLine) :
  isEmpty (Undecided axis) = true -> firsts axis = Some lines ->
  nth_error lines k = Some line -> nth_error axis k = Some [line].
Proof.
  intros Hu Hf Hk. destruct (Forall2_nth _ _ _ (firsts_nth _ _ Hf) k line Hk)
    as (options & Ho & Hline).
  pose proof (Undecided_nil axis k options Hu Ho) as Hlen.
  destruct options as [|l [|l' options]]; cbn [List.length nth_error] in *;
    [discriminate | | lia].
  apply Some_inj in Hline. subst l. exact Ho.
Qed.

Lemma filterFrom_nth (constraint toFilter : list (list ScoredLine)) :
  forall y k options line,
    nth_error (filterFrom constraint y toFilter) k = Some options -> In line options ->
    crosses constraint (y + k) line = true.
Proof.
  induction toFilter as [|possibles toFilter IH]; intros y [|k] options line Hk Hin;
    cbn [filterFrom nth_error] in Hk; try discriminate.
  - apply Some_inj in Hk. subst options. apply filter_In in Hin as [_ H].
    rewrite Nat.add_0_r. exact H.
  - replace (y + S k) with (S y + k) by lia. apply (IH _ _ _ _ Hk Hin).
Qed.

Lemma crossesFrom_nth (constraint : list (list ScoredLine)) (y : nat) (line : list ascii) :
  forall x k c,
    crossesFrom constraint y x line = true -> nth_error line k = Some c ->
    offeredAt constraint (x + k) y c = true.
Proof.
  induction line as [|c0 line IH]; intros x [|k] c H Hk; cbn [nth_error] in Hk;
    try discriminate; cbn [crossesFrom] in H; apply andb_true_iff in H as [H0 H].
  - apply Some_inj in Hk. subst c0. rewrite Nat.add_0_r. exact H0.
  - replace (x + S k) with (S x + k) by lia. apply (IH _ _ _ H Hk).
Qed.

(** A line of a filtered entry and the only line of the entry that
    crosses it agree on the cell they share. *)
Lemma crosses_decided (constraint : list (list ScoredLine)) (x y : nat)
      (line other : ScoredLine) (c : ascii) :
  crosses constraint y line = true -> letterAt line x = Some c ->
  nth_error constraint x = Some [other] -> letterAt other y = Some c.
Proof.
  intros Hcross Hc Hother. unfold crosses in Hcross.
  pose proof (crossesFrom_nth constraint y _ 0 x c Hcross Hc) as Ho.
  cbn [Nat.add] in Ho. apply offeredAt_iff in Ho as (options & l & Hopts & Hl & Hy).
  rewrite Hother in Hopts. apply Some_inj in Hopts. subst options.
  destruct Hl as [<-|[]]. exact Hy.
Qed.

Lemma letterAt_Some (n : nat) (line : ScoredLine) (k : nat) :
  lineOk n line = true -> k < n -> exists c, letterAt line k = Some c.
Proof.
  intros Hok Hk. destruct (lineOk_chars n line Hok) as [Hlen _]. unfold letterAt.
  destruct (nth_error (chars (Line line)) k) as [c|] eqn:Hc; [eauto|].
  apply nth_error_None in Hc. lia.
Qed.

Lemma axisOk_nth (n : nat) (axis : list (list ScoredLine)) (k : nat)
      (options : list ScoredLine) (line : ScoredLine) :
  axisOk n axis -> nth_error axis k = Some options -> In line options ->
  k < n /\ lineOk n line = true.
Proof.
  intros [Hlen Hall] Hk Hin. split.
  - rewrite <- Hlen. apply nth_error_Some. congruence.
  - rewrite Forall_forall in Hall. specialize (Hall options (nth_error_In _ _ Hk)).
    unfold linesOk in Hall. rewrite Forall_forall in Hall. auto.
Qed.

Lemma decided_crossing (prev out : GridState) (d : Direction)
      (down across : list ScoredLine) :
  squareGrid prev = true -> Prefilter prev d = Some out ->
  existsb isEmpty (Down out) = false -> existsb isEmpty (Across out) = false ->
  isEmpty (Undecided (Down out)) = true -> isEmpty (Undecided (Across out)) = true ->
  firsts (Down out) = Some down -> firsts (Across out) = Some across ->
  crossing (mkFinalGrid down across).
Proof.
  intros Hsq Hpre HeD HeA HuD HuA Hdown Hacross x y dl al Hx Hy.
  cbn [FinalDown FinalAcross] in Hx, Hy.
  pose proof (noLooser_squareGrid _ _ (Prefilter_noLooser _ _ _ Hpre) Hsq) as Hsq'.
  apply squareGrid_axes in Hsq' as [HD HA].
  rewrite (Prefilter_tightened prev d Hsq) in Hpre. apply Some_inj in Hpre.
  destruct (existsb isEmpty (Down prev) || existsb isEmpty (Across prev)) eqn:Hempty.
  { subst out. rewrite HeD, HeA in Hempty. discriminate. }
  pose proof (decided_entry _ _ _ _ HuD Hdown Hx) as HDx.
  pose proof (decided_entry _ _ _ _ HuA Hacross Hy) as HAy.
  destruct (axisOk_nth _ _ _ _ dl HD HDx (or_introl eq_refl)) as [Hxn Hdl].
  destruct (axisOk_nth _ _ _ _ al HA HAy (or_introl eq_refl)) as [Hyn Hal].
  destruct d; subst out; cbn [tightened Down Across] in *.
  - destruct (letterAt_Some _ al x Hal Hxn) as (c & Hc). rewrite Hc.
    pose proof (filterFrom_nth _ _ 0 y [al] al HAy (or_introl eq_refl)) as Hcross.
    cbn [Nat.add] in Hcross. apply (crosses_decided _ x y al dl c Hcross Hc HDx).
  - destruct (letterAt_Some _ dl y Hdl Hyn) as (c & Hc). rewrite Hc. symmetry.
    pose proof (filterFrom_nth _ _ 0 x [dl] dl HDx (or_introl eq_refl)) as Hcross.
    cbn [Nat.add] in Hcross. apply (crosses_decided _ y x dl al c Hcross Hc HAy).
Qed.

(** *** The grids are made of the options of the state *)
Lemma Forall2_In_incl (lines : list ScoredLine) (out axis : list (list ScoredLine)) :
  Forall2 (fun line options => In line options) lines out ->
  Forall2 (@incl ScoredLine) out axis ->
  Forall2 (fun line options => In line options) lines axis.
Proof.
  intros H. revert axis. induction H as [|l o lines out Hlo _ IH]; intros axis Hincl;
    inversion Hincl; subst; constructor; auto.
Qed.

Lemma fromOptions_looser (out root : GridState) (g : FinalGrid) :
  noLooser out root -> fromOptions out g -> fromOptions root g.
Proof. intros [H1 H2] [H3 H4]. split; eapply Forall2_In_incl; eauto. Qed.

Lemma firsts_In (axis : list (list ScoredLine)) (lines : list ScoredLine) :
  firsts axis = Some lines ->
  Forall2 (fun line options => In line options) lines axis.
Proof.
  intros H. apply firsts_nth in H. induction H as [|o l axis lines Hol _ IH]; constructor.
  - apply (nth_error_In _ _ Hol).
  - exact IH.
Qed.

(** X18.  Every grid that the search yields from a square grid state is
    made of options of that state, index by index, and its lines agree on
    the cells where they cross: cell [y] of the line [x] down is cell [x]
    of the line [y] across. *)
Theorem AllPossibleGrids_yields_crossing_lines (draws : Draws) (fuel : nat) :
  forall root pos g,
    squareGrid root = true ->
    In g (yielded (fst (AllPossibleGrids draws fuel root pos))) ->
    fromOptions root g /\ crossing g.
Proof.
  induction fuel as [|fuel IH]; intros root pos g Hsq H; cbn [AllPossibleGrids] in H;
    [destruct H|].
  destruct (existsb isEmpty (Down root)); [destruct H|].
  destruct (existsb isEmpty (Across root)); [destruct H|].
  destruct (propagate root) as [out|] eqn:Hprop; [|destruct H].
  pose proof (propagateFrom_noLooser _ _ _ _ _ Hprop) as Hle.
  pose proof (noLooser_squareGrid _ _ Hle Hsq) as Hsq'.
  destruct (existsb isEmpty (Down out)) eqn:HeD; [destruct H|].
  destruct (existsb isEmpty (Across out)) eqn:HeA; [destruct H|].
  destruct (isEmpty (Undecided (Down out)) && isEmpty (Undecided (Across out))) eqn:Hu.
  - apply andb_true_iff in Hu as [HuD HuA].
    destruct (firsts (Down out)) as [down|] eqn:Hdown; [|destruct H].
    destruct (firsts (Across out)) as [across|] eqn:Hacross; [|destruct H].
    destruct H as [<-|[]]. split.
    + apply (fromOptions_looser out root _ Hle).
      split; cbn [FinalDown FinalAcross]; apply firsts_In; assumption.
    + destruct (propagate_filtered _ _ Hprop) as (prev & d & Hprev & Hpre).
      apply (decided_crossing prev out d down across); auto.
      apply (noLooser_squareGrid _ _ Hprev Hsq).
  - apply searchDirs_from in H as (newRoot & pos' & Hnew & H).
    destruct (IH newRoot pos' g (noLooser_squareGrid _ _ Hnew Hsq') H) as [Hfrom Hcross].
    split; [|exact Hcross].
    apply (fromOptions_looser out root _ Hle). apply (fromOptions_looser newRoot out _ Hnew).
    exact Hfrom.
Qed.
End SearchSound.

(** ** The grid array *)
Module GenHelperFacts.
Import WordGenLib GenHelper GenHelperSpec.
Import LinesFacts PropagatorFacts.

Lemma element_Some {A : Type} (l : list A) (i : Z) :
  0 <= i < Z.of_nat (List.length l) -> exists x, element l i = Some x.
Proof.
  intros Hi. unfold element. destruct (Z.ltb_spec i 0); [lia|].
  destruct (nth_error l (Z.to_nat i)) as [x|] eqn:Hx; [eauto|].
  apply nth_error_None in Hx. lia.
Qed.

Lemma element_bound {A : Type} (l : list A) (i : Z) (x : A) :
  element l i = Some x -> 0 <= i < Z.of_nat (List.length l).
Proof.
  unfold element. destruct (Z.ltb_spec i 0); [discriminate|]. intros Hx.
  assert (Hlt : (Z.to_nat i < List.length l)%nat) by (apply nth_error_Some; congruence).
  lia.
Qed.

Lemma element_cons {A : Type} (x : A) (l : list A) (i : Z) :
  0 < i -> element (x :: l) i = element l (i - 1).
Proof.
  intros Hi. unfold element. destruct (Z.ltb_spec i 0); [lia|].
  destruct (Z.ltb_spec (i - 1) 0); [lia|].
  replace (Z.to_nat i) with (S (Z.to_nat (i - 1))) by lia. reflexivity.
Qed.

Lemma element_setNth_eq {A : Type} (l : list A) (i : Z) (x y : A) :
  element l i = Some y -> element (setNth (Z.to_nat i) x l) i = Some x.
Proof.
  intros H. apply element_bound in H. unfold element.
  destruct (Z.ltb_spec i 0); [lia|]. apply nth_error_setNth_eq. lia.
Qed.

Lemma element_setNth_neq {A : Type} (l : list A) (i j : Z) (x : A) :
  0 <= i -> i <> j -> element (setNth (Z.to_nat i) x l) j = element l j.
Proof.
  intros Hi Hne. unfold element. destruct (Z.ltb_spec j 0); [reflexivity|].
  apply nth_error_setNth_neq. lia.
Qed.

Lemma square_rows (n : Z) (grid : Grid) :
  square n grid = true <->
  GetLength0 grid = n /\ forall row, In row grid -> Z.of_nat (List.length row) = n.
Proof.
  unfold square. rewrite andb_true_iff, Z.eqb_eq, forallb_forall.
  split; intros [H1 H2]; (split; [exact H1|]); intros row Hrow;
    [apply Z.eqb_eq | apply Z.eqb_eq]; auto.
Qed.

Lemma get_Some (n : Z) (grid : Grid) (a b : Z) :
  square n grid = true -> 0 <= a < n -> 0 <= b < n -> exists c, get grid a b = Some c.
Proof.
  intros Hsq Ha Hb. apply square_rows in Hsq as [Hlen Hrows]. unfold GetLength0 in Hlen.
  unfold get. destruct (element_Some grid a ltac:(lia)) as (row & Hrow). rewrite Hrow.
  cbn [bind]. apply element_Some. unfold element in Hrow.
  destruct (a <? 0); [discriminate|]. rewrite (Hrows row (nth_error_In _ _ Hrow)). exact Hb.
Qed.

Lemma set_get (grid grid' : Grid) (a b : Z) (v : option ascii) :
  set grid a b v = Some grid' ->
  forall a' b', get grid' a' b' = if (a' =? a) && (b' =? b) then Some v else get grid a' b'.
Proof.
  unfold set. intros H a' b'. bind_inv H. bind_inv H. apply Some_inj in H. subst grid'.
  pose proof (element_bound _ _ _ Ha) as Hab. pose proof (element_bound _ _ _ Ha0) as Hbb.
  unfold get. destruct (Z.eqb_spec a' a) as [->|Hne]; cbn [andb].
  - rewrite (element_setNth_eq grid a _ a0 Ha). cbn [bind].
    destruct (Z.eqb_spec b' b) as [->|Hnb].
    + apply (element_setNth_eq a0 b v a1 Ha0).
    + rewrite element_setNth_neq by lia. rewrite Ha. reflexivity.
  - rewrite element_setNth_neq by lia. reflexivity.
Qed.

Lemma In_setNth_grid {A : Type} (k : nat) (x z : A) (l : list A) :
  In z (setNth k x l) -> z = x \/ In z l.
Proof. apply In_setNth. Qed.

Lemma set_square (n : Z) (grid grid' : Grid) (a b : Z) (v : option ascii) :
  square n grid = true -> set grid a b v = Some grid' -> square n grid' = true.
Proof.
  intros Hsq H. apply square_rows in Hsq as [Hlen Hrows]. apply square_rows.
  unfold set in H. bind_inv H. bind_inv H. apply Some_inj in H. subst grid'.
  unfold GetLength0 in *. split; [rewrite length_setNth; exact Hlen|].
  intros row Hrow. apply In_setNth in Hrow as [->|Hrow]; [|auto].
  rewrite length_setNth. apply Hrows. unfold element in Ha.
  destruct (a <? 0); [discriminate|]. apply (nth_error_In _ _ Ha).
Qed.

Lemma set_Some (n : Z) (grid : Grid) (a b : Z) (v : option ascii) :
  square n grid = true -> 0 <= a < n -> 0 <= b < n -> exists grid', set grid a b v = Some grid'.
Proof.
  intros Hsq Ha Hb. destruct (get_Some n grid a b Hsq Ha Hb) as (c & Hc).
  unfold get in Hc. bind_inv Hc. unfold set. rewrite Ha0. cbn [bind]. rewrite Hc.
  cbn [bind]. eauto.
Qed.

(** *** [Fill] *)
Lemma fillLoop_spec (n : Z) (write : Grid -> Z -> option ascii -> option Grid)
      (read : Grid -> Z -> Z -> option (option ascii)) (rowOrCol : Z) (word : Text) :
  (forall g pos v, square n g = true -> 0 <= pos < n ->
     exists g', write g pos v = Some g' /\ square n g' = true
                /\ forall line p, read g' line p
                                  = if (line =? rowOrCol) && (p =? pos) then Some v
                                    else read g line p) ->
  forall grid start,
    square n grid = true -> 0 <= start -> start + Z.of_nat (List.length word) <= n ->
    exists grid',
      fillLoop write grid start word = Some grid' /\ square n grid' = true
      /\ forall line pos,
           read grid' line pos
           = if line =? rowOrCol then
               match element word (pos - start) with
               | Some c => if Ascii.eqb c blank then read grid line pos else Some (Some c)
               | None => read grid line pos
               end
             else read grid line pos.
Proof.
  intros Hwrite. induction word as [|c word IH]; intros grid start Hsq H0 Hlen;
    cbn [fillLoop].
  - exists grid. split; [reflexivity|]. split; [exact Hsq|]. intros line pos.
    unfold element. destruct (line =? rowOrCol); [|reflexivity].
    destruct (pos - start <? 0); [reflexivity|]. destruct (Z.to_nat (pos - start)); reflexivity.
  - cbn [List.length] in Hlen.
    assert (Hhead : forall pos, element (c :: word) (pos - start)
                                = if pos =? start then Some c
                                  else element word (pos - (start + 1))).
    { intros pos. destruct (Z.eqb_spec pos start) as [->|Hne].
      - rewrite Z.sub_diag. reflexivity.
      - destruct (Z.lt_ge_cases start pos).
        + rewrite element_cons by lia. f_equal. lia.
        + unfold element. destruct (Z.ltb_spec (pos - start) 0); [|lia].
          destruct (Z.ltb_spec (pos - (start + 1)) 0); [reflexivity | lia]. }
    destruct (Ascii.eqb c blank) eqn:Hblank.
    + destruct (IH grid (start + 1) Hsq ltac:(lia) ltac:(lia)) as (grid' & Hfill & Hsq' & Hread).
      exists grid'. split; [exact Hfill|]. split; [exact Hsq'|]. intros line pos.
      rewrite Hread, Hhead. destruct (line =? rowOrCol); [|reflexivity].
      destruct (Z.eqb_spec pos start) as [->|Hne]; [|reflexivity].
      rewrite Hblank. unfold element. destruct (Z.ltb_spec (start - (start + 1)) 0); [|lia].
      reflexivity.
    + destruct (Hwrite grid start (Some c) Hsq ltac:(lia)) as (g1 & Hg1 & Hsq1 & Hread1).
      rewrite Hg1. cbn [bind].
      destruct (IH g1 (start + 1) Hsq1 ltac:(lia) ltac:(lia)) as (grid' & Hfill & Hsq' & Hread).
      exists grid'. split; [exact Hfill|]. split; [exact Hsq'|]. intros line pos.
      rewrite Hread, Hhead, !Hread1. destruct (Z.eqb_spec line rowOrCol) as [->|Hl];
        cbn [andb]; [|reflexivity].
      destruct (Z.eqb_spec pos start) as [->|Hne].
      * rewrite Hblank. unfold element. destruct (Z.ltb_spec (start - (start + 1)) 0); [|lia].
        reflexivity.
      * reflexivity.
Qed.

(** X23.  On a square grid, [Fill] of a word that fits in the line writes
    the characters of the word other than blanks to the cells from
    [start] on and changes no other cell: [AtPosition] reads them back. *)
Theorem Fill_then_AtPosition (n : Z) (grid : Grid) (rowOrCol : Z) (dir : Direction) (start : Z)
      (word : Text) :
  square n grid = true -> 0 <= rowOrCol < n ->
  0 <= start -> start + Z.of_nat (List.length word) <= n ->
  exists grid',
    Fill grid rowOrCol dir start word = Some grid' /\ square n grid' = true
    /\ forall line pos,
         AtPosition grid' line pos dir = filled grid rowOrCol dir start word line pos.
Proof.
  intros Hsq Hrow H0 Hlen. unfold Fill, filled. destruct dir.
  - apply (fillLoop_spec n _ (fun g line pos => AtPosition g line pos Horizontal));
      [|assumption..].
    intros g pos v Hg Hpos. destruct (set_Some n g pos rowOrCol v Hg Hpos Hrow) as (g' & Hg').
    exists g'. split; [exact Hg'|]. split; [apply (set_square n g g' _ _ _ Hg Hg')|].
    intros line p. cbn [AtPosition]. rewrite (set_get _ _ _ _ _ Hg'). rewrite andb_comm.
    reflexivity.
  - apply (fillLoop_spec n _ (fun g line pos => AtPosition g line pos Vertical));
      [|assumption..].
    intros g pos v Hg Hpos. destruct (set_Some n g rowOrCol pos v Hg Hrow Hpos) as (g' & Hg').
    exists g'. split; [exact Hg'|]. split; [apply (set_square n g g' _ _ _ Hg Hg')|].
    intros line p. cbn [AtPosition]. rewrite (set_get _ _ _ _ _ Hg'). reflexivity.
Qed.
(** *** [WordsCompatible] *)
Lemma compatibleFrom_iff (word : Text) :
  forall template,
    compatibleFrom word template = true <->
    (List.length word <= List.length template)%nat
    /\ forall i w t, nth_error word i = Some w -> nth_error template i = Some t ->
                     t = w \/ t = blank.
Proof.
  induction word as [|w0 word IH]; intros [|t0 template]; cbn [compatibleFrom List.length].
  - split; [|reflexivity]. intros _. split; [lia|]. intros [|i] w t H; discriminate.
  - split; [|reflexivity]. intros _. split; [lia|]. intros [|i] w t H; discriminate.
  - split; [discriminate | intros [H _]; lia].
  - destruct (Ascii.eqb_spec t0 w0) as [->|Hw]; cbn [negb andb];
      [|destruct (Ascii.eqb_spec t0 blank) as [->|Hb]; cbn [negb]].
    + rewrite IH. split; intros [Hlen Hall]; (split; [lia|]).
      * intros [|i] w t Hw Ht; cbn [nth_error] in *; [left; congruence | eauto].
      * intros i w t Hw Ht. apply (Hall (S i)); assumption.
    + rewrite IH. split; intros [Hlen Hall]; (split; [lia|]).
      * intros [|i] w t Hw' Ht; cbn [nth_error] in *; [right; congruence | eauto].
      * intros i w t Hw' Ht. apply (Hall (S i)); assumption.
    + split; [discriminate|]. intros [_ Hall].
      destruct (Hall 0%nat w0 t0 eq_refl eq_refl); contradiction.
Qed.

(** X30.  [WordsCompatible(word, template)] holds exactly when the word is
    no longer than the template and the template has, at every index of
    the word, the character of the word or a blank. *)
Theorem WordsCompatible_iff (word template : Text) :
  WordsCompatible word template = true <->
  (List.length word <= List.length template)%nat
  /\ forall i w t, nth_error word i = Some w -> nth_error template i = Some t ->
                   t = w \/ t = blank.
Proof.
  unfold WordsCompatible.
  destruct (Z.ltb_spec (Z.of_nat (List.length template)) (Z.of_nat (List.length word))).
  - split; [discriminate | intros [Hlen _]; lia].
  - apply compatibleFrom_iff.
Qed.
End GenHelperFacts.

(** ** The lines of the grid array *)
Module ReadLineFacts.
Import WordGenLib GenHelper GenHelperSpec.
Import LinesFacts PropagatorFacts GenHelperFacts.

Lemma AtPosition_Some (n : Z) (grid : Grid) (rowOrCol pos : Z) (dir : Direction) :
  square n grid = true -> 0 <= rowOrCol < n -> 0 <= pos < n ->
  exists c, AtPosition grid rowOrCol pos dir = Some c.
Proof. intros Hsq Hr Hp. destruct dir; cbn [AtPosition]; apply (get_Some n); assumption. Qed.

(** *** The clearances *)
Lemma endLoop_spec (n : Z) (grid : Grid) (rowOrCol : Z) (dir : Direction) :
  square n grid = true -> 0 <= rowOrCol < n ->
  forall count pos,
    0 <= pos -> pos + Z.of_nat count <= n ->
    exists stop,
      endLoop grid rowOrCol dir pos count = Some stop
      /\ pos <= stop <= pos + Z.of_nat count
      /\ clearBetween grid rowOrCol dir pos stop
      /\ (stop = pos + Z.of_nat count \/ blockedAt grid rowOrCol dir stop = true).
Proof.
  intros Hsq Hrow. induction count as [|count IH]; intros pos H0 Hn; cbn [endLoop].
  - exists pos. split; [reflexivity|]. split; [lia|]. split; [intros p Hp; lia | left; lia].
  - destruct (AtPosition_Some n grid rowOrCol pos dir Hsq Hrow ltac:(lia)) as (c & Hc).
    rewrite Hc. cbn [bind]. destruct (isBlocked c) eqn:Hb.
    + exists pos. split; [reflexivity|]. split; [lia|]. split; [intros p Hp; lia|].
      right. unfold blockedAt. rewrite Hc. exact Hb.
    + destruct (IH (pos + 1) ltac:(lia) ltac:(lia)) as (stop & Hstop & Hle & Hclear & Hend).
      exists stop. split; [exact Hstop|]. split; [lia|]. split.
      * intros p Hp. destruct (Z.eq_dec p pos) as [->|Hne]; [eauto|]. apply Hclear. lia.
      * destruct Hend as [->|Hend]; [left; lia | right; exact Hend].
Qed.

(** X24.  [ClearanceFromEnd] on a square grid returns the number of cells
    from the position on up to the next blocked cell or the end of the
    line. *)
Theorem ClearanceFromEnd_is_room_after (n : Z) (grid : Grid) (rowOrCol posWithinLine : Z)
      (dir : Direction) :
  square n grid = true -> 0 <= rowOrCol < n -> 0 <= posWithinLine <= n ->
  exists room,
    ClearanceFromEnd grid rowOrCol posWithinLine dir = Some room
    /\ 0 <= room <= n - posWithinLine
    /\ clearBetween grid rowOrCol dir posWithinLine (posWithinLine + room)
    /\ (posWithinLine + room = n
        \/ blockedAt grid rowOrCol dir (posWithinLine + room) = true).
Proof.
  intros Hsq Hrow Hpos. unfold ClearanceFromEnd.
  pose proof Hsq as Hlen. apply square_rows in Hlen as [Hlen _]. rewrite Hlen.
  destruct (endLoop_spec n grid rowOrCol dir Hsq Hrow (Z.to_nat (n - posWithinLine))
                         posWithinLine ltac:(lia) ltac:(lia))
    as (stop & Hstop & Hle & Hclear & Hend).
  rewrite Hstop. cbn [bind]. exists (stop - posWithinLine). split; [reflexivity|].
  replace (posWithinLine + (stop - posWithinLine)) with stop by lia.
  split; [lia|]. split; [exact Hclear|].
  destruct Hend as [->|Hend]; [left; lia | right; exact Hend].
Qed.

Lemma clearanceLoop_spec (n : Z) (grid : Grid) (rowOrCol : Z) (dir : Direction) :
  square n grid = true -> 0 <= rowOrCol < n ->
  forall count pos room,
    0 <= room <= pos -> pos + Z.of_nat count <= n ->
    clearBetween grid rowOrCol dir (pos - room) pos ->
    (room = pos \/ blockedAt grid rowOrCol dir (pos - room - 1) = true) ->
    exists r,
      clearanceLoop grid rowOrCol dir pos count room = Some r
      /\ 0 <= r <= pos + Z.of_nat count
      /\ clearBetween grid rowOrCol dir (pos + Z.of_nat count - r) (pos + Z.of_nat count)
      /\ (r = pos + Z.of_nat count
          \/ blockedAt grid rowOrCol dir (pos + Z.of_nat count - r - 1) = true).
Proof.
  intros Hsq Hrow. induction count as [|count IH]; intros pos room Hroom Hn Hclear Hstart;
    cbn [clearanceLoop].
  - exists room. split; [reflexivity|]. rewrite Z.add_0_r. split; [lia|]. split; assumption.
  - destruct (AtPosition_Some n grid rowOrCol pos dir Hsq Hrow ltac:(lia)) as (c & Hc).
    rewrite Hc. cbn [bind].
    replace (pos + Z.of_nat (S count)) with (pos + 1 + Z.of_nat count) by lia.
    destruct (isBlocked c) eqn:Hb.
    + apply IH; [lia | lia | intros p Hp; lia |].
      right. replace (pos + 1 - 0 - 1) with pos by lia. unfold blockedAt. rewrite Hc. exact Hb.
    + apply IH; [lia | lia | |].
      * intros p Hp. destruct (Z.eq_dec p pos) as [->|Hne]; [eauto|]. apply Hclear. lia.
      * destruct Hstart as [->|Hstart]; [left; lia|]. right.
        replace (pos + 1 - (room + 1) - 1) with (pos - room - 1) by lia. exact Hstart.
Qed.

(** X25.  [ClearanceFromStart] on a square grid returns the number of
    cells before the position back to the last blocked cell or the start
    of the line. *)
Theorem ClearanceFromStart_is_room_before (n : Z) (grid : Grid) (rowOrCol posWithinLine : Z)
      (dir : Direction) :
  square n grid = true -> 0 <= rowOrCol < n -> 0 <= posWithinLine <= n ->
  exists room,
    ClearanceFromStart grid rowOrCol posWithinLine dir = Some room
    /\ 0 <= room <= posWithinLine
    /\ clearBetween grid rowOrCol dir (posWithinLine - room) posWithinLine
    /\ (room = posWithinLine
        \/ blockedAt grid rowOrCol dir (posWithinLine - room - 1) = true).
Proof.
  intros Hsq Hrow Hpos. unfold ClearanceFromStart.
  destruct (clearanceLoop_spec n grid rowOrCol dir Hsq Hrow (Z.to_nat posWithinLine) 0 0)
    as (r & Hr & Hle & Hclear & Hstart);
    [lia | lia | intros p Hp; lia | left; reflexivity |].
  replace (0 + Z.of_nat (Z.to_nat posWithinLine)) with posWithinLine in * by lia.
  exists r. auto.
Qed.

(** *** [GetConstraints] *)
Lemma GetConstraints_loop_spec (n : Z) (grid : Grid) (rowOrCol : Z) (dir : Direction) :
  square n grid = true -> 0 <= rowOrCol < n ->
  forall count pos,
    0 <= pos -> pos + Z.of_nat count <= n ->
    exists cs,
      GetConstraints_loop grid rowOrCol dir pos count = Some cs
      /\ Z.of_nat (List.length cs) <= Z.of_nat count
      /\ (forall i, 0 <= i < Z.of_nat (List.length cs) ->
            exists c, AtPosition grid rowOrCol (pos + i) dir = Some c
                      /\ isBlocked c = false /\ element cs i = Some c)
      /\ (Z.of_nat (List.length cs) = Z.of_nat count
          \/ blockedAt grid rowOrCol dir (pos + Z.of_nat (List.length cs)) = true).
Proof.
  intros Hsq Hrow. induction count as [|count IH]; intros pos H0 Hn;
    cbn [GetConstraints_loop].
  - exists []. split; [reflexivity|]. cbn [List.length]. split; [lia|].
    split; [intros i Hi; lia | left; reflexivity].
  - destruct (AtPosition_Some n grid rowOrCol pos dir Hsq Hrow ltac:(lia)) as (c & Hc).
    rewrite Hc. cbn [bind]. destruct (isBlocked c) eqn:Hb.
    + exists []. split; [reflexivity|]. cbn [List.length]. split; [lia|].
      split; [intros i Hi; lia|]. right. rewrite Z.add_0_r. unfold blockedAt.
      rewrite Hc. exact Hb.
    + destruct (IH (pos + 1) ltac:(lia) ltac:(lia)) as (cs & Hcs & Hlen & Hcells & Hend).
      rewrite Hcs. cbn [bind]. exists (c :: cs). split; [reflexivity|].
      cbn [List.length]. split; [lia|]. split.
      * intros i Hi. destruct (Z.eq_dec i 0) as [->|Hne].
        -- exists c. rewrite Z.add_0_r. auto.
        -- destruct (Hcells (i - 1) ltac:(lia)) as (c' & Hc' & Hb' & He).
           exists c'. replace (pos + i) with (pos + 1 + (i - 1)) by lia.
           rewrite element_cons by lia. auto.
      * destruct Hend as [Hend|Hend]; [left; lia|]. right.
        replace (pos + Z.of_nat (S (List.length cs)))
          with (pos + 1 + Z.of_nat (List.length cs)) by lia.
        exact Hend.
Qed.

(** *** [Split] and [Join] *)
Lemma Split_not_nil (sep : ascii) (s : Text) : Split sep s <> [].
Proof.
  destruct s as [|c s]; cbn [Split]; [discriminate|].
  destruct (Ascii.eqb c sep); [discriminate|]. destruct (Split sep s); discriminate.
Qed.

Lemma Join_Split (sep : ascii) (s : Text) : Join sep (Split sep s) = s.
Proof.
  induction s as [|c s IH]; cbn [Split]; [reflexivity|].
  pose proof (Split_not_nil sep s) as Hne.
  destruct (Ascii.eqb_spec c sep) as [->|Hc].
  - destruct (Split sep s) as [|seg rest]; [congruence|].
    cbn [Join app] in *. rewrite IH. reflexivity.
  - destruct (Split sep s) as [|seg rest]; [congruence|].
    destruct rest as [|seg' rest]; cbn [Join app] in *; rewrite IH; reflexivity.
Qed.

Lemma Split_segments (sep : ascii) (s : Text) :
  Forall (fun segment => ~ In sep segment) (Split sep s).
Proof.
  induction s as [|c s IH]; cbn [Split]; [constructor; [intros [] | constructor]|].
  destruct (Ascii.eqb_spec c sep) as [->|Hc].
  - constructor; [intros [] | exact IH].
  - destruct (Split sep s) as [|seg rest]; [constructor; [|constructor]|].
    + intros [H|[]]. congruence.
    + constructor; [|apply (Forall_inv_tail IH)].
      intros [H|H]; [congruence | apply (Forall_inv IH H)].
Qed.

(** The place of a segment in the joined line. *)
Lemma Join_nth (sep : ascii) (segments : list Text) :
  forall k segment,
    nth_error segments k = Some segment ->
    exists pre post,
      Join sep segments = pre ++ segment ++ post
      /\ Z.of_nat (List.length pre) = offset segments k
      /\ (pre = [] \/ exists pre', pre = pre' ++ [sep])
      /\ (post = [] \/ exists post', post = sep :: post').
Proof.
  induction segments as [|seg segments IH]; intros [|k] segment Hk; cbn [nth_error] in Hk;
    try discriminate.
  - apply Some_inj in Hk. subst seg. exists []. cbn [app List.length offset].
    destruct segments as [|seg' rest]; cbn [Join].
    + exists []. rewrite app_nil_r. auto.
    + exists (sep :: Join sep (seg' :: rest)). split; [reflexivity|].
      split; [reflexivity|]. split; [left; reflexivity | right; eauto].
  - destruct (IH k segment Hk) as (pre & post & Hjoin & Hlen & Hpre & Hpost).
    destruct segments as [|seg' rest]; [destruct k; discriminate|].
    exists (seg ++ sep :: pre), post.
    change (offset (seg :: seg' :: rest) (S k))
      with (1 + Z.of_nat (List.length seg) + offset (seg' :: rest) k).
    change (Join sep (seg :: seg' :: rest)) with (seg ++ sep :: Join sep (seg' :: rest)).
    split; [rewrite Hjoin, <- app_assoc; reflexivity|].
    split; [rewrite length_app; cbn [List.length]; lia|].
    split; [|exact Hpost]. right. destruct Hpre as [->|(pre' & ->)].
    + exists seg. reflexivity.
    + exists (seg ++ sep :: pre'). rewrite <- app_assoc. reflexivity.
Qed.

Lemma element_app_l {A : Type} (l l' : list A) (i : Z) :
  i < Z.of_nat (List.length l) -> element (l ++ l') i = element l i.
Proof.
  unfold element. intros Hi. destruct (Z.ltb_spec i 0); [reflexivity|].
  apply nth_error_app1. lia.
Qed.

Lemma element_app_r {A : Type} (l l' : list A) (i : Z) :
  Z.of_nat (List.length l) <= i ->
  element (l ++ l') i = element l' (i - Z.of_nat (List.length l)).
Proof.
  unfold element. intros Hi. destruct (Z.ltb_spec i 0); [lia|].
  destruct (Z.ltb_spec (i - Z.of_nat (List.length l)) 0); [lia|].
  rewrite nth_error_app2 by lia. f_equal. lia.
Qed.

(** *** [ReadLine] *)
Lemma readLoop_spec (read : Z -> option (option ascii)) :
  forall count lo,
    (forall i, lo <= i < lo + Z.of_nat count -> exists c, read i = Some c) ->
    exists line,
      readLoop read lo count = Some line
      /\ List.length line = count
      /\ forall k, 0 <= k < Z.of_nat count ->
           exists c, read (lo + k) = Some c /\ element line k = Some (shown c).
Proof.
  induction count as [|count IH]; intros lo Hread; cbn [readLoop].
  - exists []. split; [reflexivity|]. split; [reflexivity|]. intros k Hk. cbn in Hk. lia.
  - destruct (Hread lo ltac:(lia)) as (c & Hc). rewrite Hc. cbn [bind].
    destruct (IH (lo + 1)) as (line & Hline & Hlen & Hcells).
    { intros i Hi. apply Hread. lia. }
    rewrite Hline. cbn [bind]. eexists. split; [reflexivity|].
    split; [cbn [List.length]; rewrite Hlen; reflexivity|].
    intros k Hk. destruct (Z.eq_dec k 0) as [->|Hne].
    + exists c. rewrite Z.add_0_r. split; [exact Hc | reflexivity].
    + destruct (Hcells (k - 1) ltac:(lia)) as (c' & Hc' & He).
      exists c'. replace (lo + k) with (lo + 1 + (k - 1)) by lia.
      rewrite element_cons by lia. auto.
Qed.

(** The line that [ReadLine] splits. *)
Lemma ReadLine_line (n : Z) (grid : Grid) (rowOrCol : Z) (dir : Direction) :
  square n grid = true -> 0 <= rowOrCol < n ->
  exists line,
    ReadLine grid rowOrCol dir = Some (Split BLOCKED line)
    /\ Z.of_nat (List.length line) = n
    /\ forall pos, 0 <= pos < n ->
         exists c, AtPosition grid rowOrCol pos dir = Some c
                   /\ element line pos = Some (shown c).
Proof.
  intros Hsq Hrow. unfold ReadLine.
  pose proof Hsq as Hlen. apply square_rows in Hlen as [Hlen _]. rewrite Hlen.
  destruct (readLoop_spec (fun i => AtPosition grid rowOrCol i dir) (Z.to_nat n) 0)
    as (line & Hline & Hcount & Hcells).
  { intros i Hi. apply (AtPosition_Some n); [assumption | assumption | lia]. }
  exists line.
  assert (Hsame : match dir with
                  | Horizontal => readLoop (fun i => get grid i rowOrCol) 0 (Z.to_nat n)
                  | Vertical => readLoop (fun i => get grid rowOrCol i) 0 (Z.to_nat n)
                  end = Some line) by (destruct dir; exact Hline).
  rewrite Hsame. cbn [bind]. split; [reflexivity|]. split; [lia|].
  intros pos Hpos. destruct (Hcells pos ltac:(lia)) as (c & Hc & He).
  exists c. rewrite Z.add_0_l in Hc. auto.
Qed.

Lemma shown_blocked (c : option ascii) : shown c = BLOCKED <-> isBlocked c = true.
Proof.
  destruct c as [c|]; cbn [shown isBlocked].
  - rewrite Ascii.eqb_eq. split; congruence.
  - split; [discriminate | discriminate].
Qed.

(** *** [FindStartPositionAndLength] *)
Lemma findLoop_nth (segments : list Text) :
  forall k i start segment,
    nth_error segments k = Some segment ->
    findLoop segments i start (i + Z.of_nat k)
    = Some (start + offset segments k, Z.of_nat (List.length segment), template segment).
Proof.
  induction segments as [|seg segments IH]; intros [|k] i start segment Hk;
    cbn [nth_error] in Hk; try discriminate; cbn [findLoop offset].
  - apply Some_inj in Hk. subst seg. rewrite Z.add_0_r, Z.eqb_refl, Z.add_0_r. reflexivity.
  - destruct (Z.eqb_spec i (i + Z.of_nat (S k))); [lia|].
    replace (i + Z.of_nat (S k)) with (i + 1 + Z.of_nat k) by lia.
    rewrite (IH k (i + 1) _ segment Hk). f_equal. f_equal. f_equal. lia.
Qed.

Lemma In_indexed {A : Type} (l : list A) (x : A) (i : Z) :
  forall start,
    In (x, i) (combine l (map Z.of_nat (seq start (List.length l)))) ->
    exists k, i = Z.of_nat (start + k) /\ nth_error l k = Some x.
Proof.
  induction l as [|y l IH]; intros start H; cbn [List.length seq map combine] in H;
    [destruct H|].
  destruct H as [H|H].
  - inversion H; subst. exists 0%nat. split; [f_equal; lia | reflexivity].
  - destruct (IH _ H) as (k & -> & Hk). exists (S k). split; [f_equal; lia | exact Hk].
Qed.

Lemma viableSegmentIndices_In (segments : list Text) (i : Z) :
  In i (viableSegmentIndices segments) ->
  exists k segment, i = Z.of_nat k /\ nth_error segments k = Some segment
                    /\ viable segment = true.
Proof.
  unfold viableSegmentIndices. intros H. apply in_map_iff in H as ([seg j] & Hj & H).
  cbn [snd] in Hj. subst j. apply filter_In in H as [H Hv]. cbn [fst] in Hv.
  apply In_indexed in H as (k & -> & Hk). exists k, seg. auto.
Qed.

Lemma template_length (word : Text) : List.length (template word) = List.length word.
Proof. apply length_map. Qed.

Lemma viable_blank (segment : Text) :
  viable segment = true -> In None (template segment) /\ 2 < Z.of_nat (List.length segment).
Proof.
  unfold viable. intros H. apply andb_true_iff in H as [Hb Hlen]. apply Z.ltb_lt in Hlen.
  split; [|exact Hlen]. apply existsb_exists in Hb as (c & Hc & Heq).
  apply Ascii.eqb_eq in Heq. subst c. unfold template. apply in_map_iff.
  exists blank. split; [rewrite Ascii.eqb_refl; reflexivity | exact Hc].
Qed.

Lemma element_In {A : Type} (l : list A) (i : Z) (x : A) : element l i = Some x -> In x l.
Proof. unfold element. destruct (i <? 0); [discriminate|]. apply nth_error_In. Qed.

Lemma element_map {A B : Type} (f : A -> B) (l : list A) (i : Z) :
  element (map f l) i = option_map f (element l i).
Proof. unfold element. destruct (i <? 0); [reflexivity|]. apply nth_error_map. Qed.

Lemma emptied_shown (c : option ascii) :
  (if Ascii.eqb (shown c) blank then None else Some (shown c)) = emptied c.
Proof.
  destruct c as [c|]; cbn [shown emptied]; [reflexivity|]. rewrite Ascii.eqb_refl. reflexivity.
Qed.

(** X27.  [FindStartPositionAndLength] on a square grid, with a random
    source that keeps to its bound, does not throw, and a triple it
    returns delimits a run of at least three cells of the line, with an
    empty cell, that reaches on both sides to a blocked cell or to the end
    of the line; the third component is the cells of the run. *)
Theorem FindStartPositionAndLength_finds_a_run (next : Z -> Z) (n : Z) (grid : Grid) (rowOrCol : Z)
      (dir : Direction) :
  square n grid = true -> 0 <= rowOrCol < n ->
  (forall bound, 0 < bound -> 0 <= next bound < bound) ->
  exists found,
    FindStartPositionAndLength next grid rowOrCol dir = Some found
    /\ forall start length cells,
         found = Some (start, length, cells) ->
         isRun n grid rowOrCol dir start length cells
         /\ 2 < length /\ In None cells.
Proof.
  intros Hsq Hrow Hnext. unfold FindStartPositionAndLength.
  destruct (ReadLine_line n grid rowOrCol dir Hsq Hrow) as (line & Hread & Hlen & Hcells).
  rewrite Hread. cbn [bind]. set (segments := Split BLOCKED line).
  destruct (Z.eqb_spec (Z.of_nat (List.length (viableSegmentIndices segments))) 0) as [_|Hne].
  { exists None. split; [reflexivity|]. intros start length cells H. discriminate. }
  destruct (element_Some (viableSegmentIndices segments)
                         (next (Z.of_nat (List.length (viableSegmentIndices segments)))))
    as (segmentIndex & Hindex); [apply Hnext; lia|].
  rewrite Hindex. cbn [bind]. eexists. split; [reflexivity|].
  intros start length cells Hfound.
  destruct (viableSegmentIndices_In segments segmentIndex (element_In _ _ _ Hindex))
    as (k & segment & -> & Hk & Hv).
  change (Z.of_nat k) with (0 + Z.of_nat k) in Hfound.
  rewrite (findLoop_nth segments k 0 0 segment Hk) in Hfound. apply Some_inj in Hfound.
  inversion Hfound; subst start length cells. clear Hfound.
  destruct (viable_blank segment Hv) as [Hblank Hlong].
  split; [|split; [exact Hlong | exact Hblank]].
  destruct (Join_nth BLOCKED segments k segment Hk) as (pre & post & Hjoin & Hoff & Hpre & Hpost).
  subst segments. rewrite Join_Split in Hjoin.
  pose proof (Split_segments BLOCKED line) as Hfree. rewrite Forall_forall in Hfree.
  specialize (Hfree segment (nth_error_In _ _ Hk)).
  change (0 + offset (Split BLOCKED line) k) with (offset (Split BLOCKED line) k).
  rewrite <- Hoff.
  assert (Htotal : n = Z.of_nat (List.length pre) + Z.of_nat (List.length segment)
                       + Z.of_nat (List.length post)).
  { rewrite <- Hlen, Hjoin, !length_app. lia. }
  unfold isRun. split; [lia|]. split; [lia|].
  split; [rewrite template_length; reflexivity|]. split; [|split].
  - intros i Hi. destruct (Hcells (Z.of_nat (List.length pre) + i) ltac:(lia)) as (c & Hc & He).
    exists c. split; [exact Hc|].
    rewrite Hjoin, element_app_r, element_app_l in He by lia.
    replace (Z.of_nat (List.length pre) + i - Z.of_nat (List.length pre)) with i in He by lia.
    split.
    + destruct (isBlocked c) eqn:Hb; [|reflexivity]. apply shown_blocked in Hb.
      apply element_In in He. rewrite Hb in He. destruct (Hfree He).
    + unfold template. rewrite element_map, He. cbn [option_map]. f_equal.
      apply emptied_shown.
  - destruct Hpre as [->|(pre' & ->)]; [left; reflexivity|]. right.
    rewrite length_app in *. cbn [List.length] in *.
    destruct (Hcells (Z.of_nat (List.length pre')) ltac:(lia)) as (c & Hc & He).
    replace (Z.of_nat (List.length pre' + 1) - 1) with (Z.of_nat (List.length pre')) by lia.
    unfold blockedAt. rewrite Hc. apply shown_blocked.
    rewrite Hjoin, <- app_assoc, element_app_r in He by lia.
    rewrite Z.sub_diag in He. cbn in He. congruence.
  - destruct Hpost as [->|(post' & ->)]; [left; cbn [List.length] in Htotal; lia|]. right.
    cbn [List.length] in Htotal.
    destruct (Hcells (Z.of_nat (List.length pre) + Z.of_nat (List.length segment))
                     ltac:(lia)) as (c & Hc & He).
    unfold blockedAt. rewrite Hc. apply shown_blocked.
    rewrite Hjoin, element_app_r, element_app_r in He by lia.
    replace (Z.of_nat (List.length pre) + Z.of_nat (List.length segment)
             - Z.of_nat (List.length pre) - Z.of_nat (List.length segment)) with 0 in He by lia.
    cbn in He. congruence.
Qed.
End ReadLineFacts.

(** * Further properties *)

(** ** The character set *)
Module CharSetProperties.
Import LinesSpec CharSetSpec CharSetFacts CharSetMore MoreExamples CharSetGo.

(** X1.  [Count] is the number of members: for every set built with
    [NewCharSet], [Add], [AddAll], [Intersect], [Clear] and [Clone],
    [Count()] is the number of the 27 runes from ['`'] to ['z'] that
    [Contains] reports. *)
Theorem Count_counts_members (c : CharSet) :
  built c -> Count c = Z.of_nat (List.length (filter (Contains c) alphabet)).
Proof. intros H. apply valid_Count, built_valid, H. Qed.

Lemma Count_counts_members_witness :
  built ac /\ Count ac = Z.of_nat (List.length (filter (Contains ac) alphabet)).
Proof.
  assert (H : built ac) by (unfold ac; repeat constructor).
  split; [exact H | apply (Count_counts_members ac H)].
Defined.

(** X2.  [IsFull] of a set built with the operations of the file is true
    exactly when the set has every rune from ['`'] to ['z']. *)
Theorem IsFull_iff_every_rune (c : CharSet) :
  built c ->
  (IsFull c = true <-> forall r, minChar <= r <= maxChar -> Contains c r = true).
Proof. intros H. apply valid_IsFull, built_valid, H. Qed.

Lemma IsFull_iff_every_rune_witness :
  built ac
  /\ (IsFull ac = true <-> forall r, minChar <= r <= maxChar -> Contains ac r = true).
Proof.
  assert (H : built ac) by (unfold ac; repeat constructor).
  split; [exact H | apply (IsFull_iff_every_rune ac H)].
Defined.

(** X3.  [AddAll] is the union and [Intersect] the intersection of the
    members; [Clone] has the members of its receiver and [Clear] leaves
    none. *)
Theorem AddAll_Intersect_members (c other : CharSet) (r : rune) :
  Contains (AddAll c other) r = Contains c r || Contains other r
  /\ Contains (Intersect c other) r = Contains c r && Contains other r
  /\ Contains (Clone c) r = Contains c r
  /\ Contains (Clear c) r = false.
Proof.
  split; [apply AddAll_Contains|]. split; [apply Intersect_Contains|].
  split; [reflexivity|]. unfold Contains, Clear. cbn [bits]. rewrite Z.land_0_l.
  destruct ((r <? minChar) || (r >? maxChar)); reflexivity.
Qed.
End CharSetProperties.

(** ** The lines *)
Module LineProperties.
Import Primitives LinesSpec LinesFacts LinesMoreSpec LinesMore RemoveMore.
Import CharSetSpec CharSetMore CacheSpec CharsAtFacts FilterAnySpec FilterAnyFacts.
Import LineExamples MoreExamples CharSetGo.
Import SharedSpec SharedFacts SharedExamples.
Local Open Scope string_scope.

(** X4.  Every line that a well-formed value yields has [NumLetters]
    cells. *)
Theorem lines_have_NumLetters_cells (p : PossibleLines) (n : Z) (l : ConcreteLine) :
  wellFormed p = true -> NumLetters p = Some n -> In l (Iterate p) ->
  slen (ConcreteLine.Line l) = n.
Proof. intros Hwf Hn Hl. apply (Iterate_length p Hwf n Hn l Hl). Qed.

Lemma lines_have_NumLetters_cells_witness :
  wellFormed (BlockBefore catsAndDogs) = true
  /\ NumLetters (BlockBefore catsAndDogs) = Some 4
  /\ In (blockBefore (wordLine "cat")) (Iterate (BlockBefore catsAndDogs))
  /\ slen (ConcreteLine.Line (blockBefore (wordLine "cat"))) = 4.
Proof.
  split; [reflexivity|]. split; [reflexivity|]. split; [left; reflexivity|].
  apply (lines_have_NumLetters_cells (BlockBefore catsAndDogs) 4);
    [reflexivity | reflexivity | left; reflexivity].
Defined.

(** X5.  A well-formed value yields no line exactly when it is
    [Impossible]. *)
Theorem no_lines_iff_Impossible (p : PossibleLines) :
  wellFormed p = true -> (Iterate p = [] <-> isImpossible p = true).
Proof.
  intros Hwf. split; [|apply isImpossible_Iterate].
  intros Hnil. destruct (isImpossible p) eqn:Hi; [reflexivity|].
  pose proof (Iterate_nonempty p Hwf Hi) as H. rewrite Hnil in H. cbn in H. lia.
Qed.

Lemma no_lines_iff_Impossible_witness :
  wellFormed catsAndDogs = true
  /\ (Iterate catsAndDogs = [] <-> isImpossible catsAndDogs = true).
Proof. split; [reflexivity | apply (no_lines_iff_Impossible catsAndDogs); reflexivity]. Defined.

(** X6.  [MaxPossibilities] of a well-formed value is the number of lines
    it yields, as long as that number is below [2^63]. *)
Theorem MaxPossibilities_counts_lines (p : PossibleLines) :
  wellFormed p = true -> slen (Iterate p) < 2 ^ 63 ->
  MaxPossibilities p = slen (Iterate p).
Proof. apply MaxPossibilities_exact. Qed.

Lemma MaxPossibilities_counts_lines_witness :
  wellFormed (BlockBetween catsAndDogs pigsAndHens) = true
  /\ slen (Iterate (BlockBetween catsAndDogs pigsAndHens)) < 2 ^ 63
  /\ MaxPossibilities (BlockBetween catsAndDogs pigsAndHens)
     = slen (Iterate (BlockBetween catsAndDogs pigsAndHens)).
Proof.
  split; [reflexivity|]. split; [vm_compute; reflexivity|].
  apply (MaxPossibilities_counts_lines (BlockBetween catsAndDogs pigsAndHens));
    [reflexivity | vm_compute; reflexivity].
Defined.

Lemma MakeCompound_yields_all_lines_witness :
  0 <= 3 < 25
  /\ Forall (fun q => wellFormed q = true /\ NumLetters q = Some 3)
            [catsAndDogs; Impossible 3; pigsAndHens]
  /\ exists q, MakeCompound [catsAndDogs; Impossible 3; pigsAndHens] 3 = Some q
               /\ wellFormed q = true /\ NumLetters q = Some 3
               /\ Iterate q = flat_map Iterate [catsAndDogs; Impossible 3; pigsAndHens].
Proof.
  assert (H : Forall (fun q => wellFormed q = true /\ NumLetters q = Some 3)
                     [catsAndDogs; Impossible 3; pigsAndHens])
    by (repeat (constructor; [split; reflexivity|]); constructor).
  split; [lia|]. split; [exact H|].
  apply (MakeCompound_yields_all_lines [catsAndDogs; Impossible 3; pigsAndHens] 3);
    [lia | exact H].
Defined.

Lemma MakeChoice_panics_without_choice_witness :
  wellFormed (BlockAfter cat) = true /\ slen (Iterate (BlockAfter cat)) < 2 ^ 63
  /\ MaxPossibilities (BlockAfter cat) <= 1 /\ MakeChoice (BlockAfter cat) = None.
Proof.
  split; [reflexivity|]. split; [vm_compute; reflexivity|].
  split; [vm_compute; discriminate|].
  apply (MakeChoice_panics_without_choice (BlockAfter cat));
    [reflexivity | vm_compute; reflexivity | vm_compute; discriminate].
Defined.

Lemma DefiniteWords_in_every_line_witness :
  In "cat" (DefiniteWords (BlockBetween cat pigsAndHens))
  /\ In (blockBetween (wordLine "cat") (wordLine "hen"))
        (Iterate (BlockBetween cat pigsAndHens))
  /\ In "cat" (ConcreteLine.Words (blockBetween (wordLine "cat") (wordLine "hen"))).
Proof.
  split; [left; reflexivity|]. split; [right; left; reflexivity|].
  apply (DefiniteWords_in_every_line (BlockBetween cat pigsAndHens));
    [left; reflexivity | right; left; reflexivity].
Defined.

(** X11.  [MakeBlockBefore] and [MakeBlockAfter] of a well-formed value
    of fewer than 24 cells return a well-formed value with one cell more
    whose lines are those of the value with the blocked cell put before,
    or after, each. *)
Theorem MakeBlockBefore_After_lines (l : PossibleLines) (n : Z) :
  wellFormed l = true -> NumLetters l = Some n -> n + 1 < 25 ->
  (exists q, MakeBlockBefore l = Some q /\ wellFormed q = true
             /\ NumLetters q = Some (n + 1) /\ Iterate q = map blockBefore (Iterate l))
  /\ (exists q, MakeBlockAfter l = Some q /\ wellFormed q = true
                /\ NumLetters q = Some (n + 1) /\ Iterate q = map blockAfter (Iterate l)).
Proof.
  intros Hwf Hn Hlen. split; [apply MakeBlockBefore_ok | apply MakeBlockAfter_ok]; assumption.
Qed.

Lemma MakeBlockBefore_After_lines_witness :
  wellFormed catsAndDogs = true /\ NumLetters catsAndDogs = Some 3 /\ 3 + 1 < 25
  /\ (exists q, MakeBlockBefore catsAndDogs = Some q /\ wellFormed q = true
                /\ NumLetters q = Some (3 + 1)
                /\ Iterate q = map blockBefore (Iterate catsAndDogs))
  /\ (exists q, MakeBlockAfter catsAndDogs = Some q /\ wellFormed q = true
                /\ NumLetters q = Some (3 + 1)
                /\ Iterate q = map blockAfter (Iterate catsAndDogs)).
Proof.
  split; [reflexivity|]. split; [reflexivity|]. split; [lia|].
  apply (MakeBlockBefore_After_lines catsAndDogs 3); [reflexivity | reflexivity | lia].
Defined.

(** X12.  [MakeBlockBetween] of two well-formed values whose cells and
    the blocked cell make fewer than 25 returns a well-formed value that
    yields, for every line of the first in order, its joins with the lines
    of the second; it is [Impossible] when either is. *)
Theorem MakeBlockBetween_lines (f s : PossibleLines) (nf ns : Z) :
  wellFormed f = true -> wellFormed s = true ->
  NumLetters f = Some nf -> NumLetters s = Some ns -> nf + ns + 1 < 25 ->
  exists q, MakeBlockBetween f s = Some q /\ wellFormed q = true
            /\ NumLetters q = Some (nf + ns + 1)
            /\ Iterate q = product (Iterate f) (Iterate s)
            /\ (isImpossible q = true <-> isImpossible f || isImpossible s = true).
Proof.
  intros Hf Hs Hnf Hns Hlen.
  destruct (MakeBlockBetween_ok f s nf ns Hf Hs Hnf Hns Hlen) as (q & Hq & Hwq & Hnq & Hlines).
  exists q. repeat (split; [assumption|]).
  unfold MakeBlockBetween in Hq. destruct (isImpossible f || isImpossible s).
  - rewrite Hnf, Hns in Hq. cbn [bind] in Hq. apply MakeImpossible_Some in Hq as [-> _].
    split; reflexivity.
  - apply Some_inj in Hq. subst q. split; discriminate.
Qed.

Lemma MakeBlockBetween_lines_witness :
  wellFormed catsAndDogs = true /\ wellFormed pigsAndHens = true
  /\ NumLetters catsAndDogs = Some 3 /\ NumLetters pigsAndHens = Some 3 /\ 3 + 3 + 1 < 25
  /\ exists q, MakeBlockBetween catsAndDogs pigsAndHens = Some q /\ wellFormed q = true
               /\ NumLetters q = Some (3 + 3 + 1)
               /\ Iterate q = product (Iterate catsAndDogs) (Iterate pigsAndHens)
               /\ (isImpossible q = true
                   <-> isImpossible catsAndDogs || isImpossible pigsAndHens = true).
Proof.
  split; [reflexivity|]. split; [reflexivity|]. split; [reflexivity|].
  split; [reflexivity|]. split; [lia|].
  apply (MakeBlockBetween_lines catsAndDogs pigsAndHens 3 3);
    [reflexivity | reflexivity | reflexivity | reflexivity | lia].
Defined.

(** X13.  The value that [MakeWordsFromPreferredAndObscure] returns yields
    one line for each word, the preferred words first and then the
    obscure ones, each in the order given. *)
Theorem MakeWordsFromPreferredAndObscure_lines (preferred obscure : list string) (n : Z)
        (q : PossibleLines) :
  MakeWordsFromPreferredAndObscure preferred obscure n = Some q ->
  Iterate q = map wordLine (preferred ++ obscure).
Proof.
  rewrite MakeWordsFromPreferredAndObscure_MakeWords. apply Iterate_MakeWords.
Qed.

Lemma MakeWordsFromPreferredAndObscure_lines_witness :
  MakeWordsFromPreferredAndObscure ["cat"] ["dog"; "cow"] 3
  = Some (Words ["cat"; "dog"; "cow"] 1 None)
  /\ Iterate (Words ["cat"; "dog"; "cow"] 1 None) = map wordLine (["cat"] ++ ["dog"; "cow"]).
Proof.
  split; [reflexivity|].
  apply (MakeWordsFromPreferredAndObscure_lines ["cat"] ["dog"; "cow"] 3). reflexivity.
Defined.

(** X14.  In a store where the value [h] is a well-formed tree [t] (it
    reaches no backing array twice) whose [Definite] lines are lines of
    one word, [RemoveWordOptions] returns with enough fuel, and what it
    returns yields, in the store after the call, the lines that [h]
    yielded before the call and that contain none of the words, in
    order. *)
Theorem RemoveWordOptions_drops_listed_words (st : Shared.Store) (h : Shared.PossibleLines)
        (t : PossibleLines) (F : list nat) (words : list string) :
  tree st h t F -> wellFormed t = true -> singleWords t = true ->
  exists st' r before,
    (forall fuel, (weight t <= fuel)%nat -> Shared.Iterate fuel st h = Some before)
    /\ (forall fuel, (weight t < fuel)%nat ->
                     Shared.RemoveWordOptions fuel st h words = Some (st', r))
    /\ exists k, forall fuel, (k <= fuel)%nat ->
         Shared.Iterate fuel st' (Shared.value h r)
         = Some (filter (unlisted words) before).
Proof.
  intros Ht Hwf Hsingle.
  destruct (RemoveWordOptions_total words t Hwf) as (rp & Hrp).
  destruct (wellFormed_NumLetters t Hwf) as (n & Hn & _).
  destruct (RemoveWordOptions_simulates words t Hwf st h F rp n Ht Hn Hrp)
    as (st' & r & (Hcall & _ & _ & (F' & Ht' & _) & _) & _).
  exists st', r, (Iterate t). split; [|split; [exact Hcall|]].
  - intros fuel Hf. apply (tree_Iterate st h t F fuel Ht Hf).
  - exists (weight (value t rp)). intros fuel Hf.
    rewrite (tree_Iterate st' _ _ F' fuel Ht' Hf).
    rewrite (RemoveWordOptions_Iterate words t Hwf Hsingle rp Hrp). reflexivity.
Qed.

Lemma RemoveWordOptions_drops_listed_words_witness :
  tree pens apart (BlockBetween catDogCow catDogCow) ([0%nat] ++ [1%nat])
  /\ wellFormed (BlockBetween catDogCow catDogCow) = true
  /\ singleWords (BlockBetween catDogCow catDogCow) = true
  /\ exists st' r before,
       (forall fuel, (weight (BlockBetween catDogCow catDogCow) <= fuel)%nat ->
                     Shared.Iterate fuel pens apart = Some before)
       /\ (forall fuel, (weight (BlockBetween catDogCow catDogCow) < fuel)%nat ->
                        Shared.RemoveWordOptions fuel pens apart ["dog"] = Some (st', r))
       /\ exists k, forall fuel, (k <= fuel)%nat ->
            Shared.Iterate fuel st' (Shared.value apart r)
            = Some (filter (unlisted ["dog"]) before).
Proof.
  assert (Ht : tree pens apart (BlockBetween catDogCow catDogCow) ([0%nat] ++ [1%nat])).
  { apply tree_Between.
    - apply tree_Compound with (hs := [single "cat"; single "dog"; single "cow"]);
        [reflexivity | | intros []].
      repeat (apply (trees_cons pens _ _ []); [apply tree_Definite | | intros b []]).
      apply trees_nil.
    - apply tree_Compound with (hs := [single "cat"; single "dog"; single "cow"]);
        [reflexivity | | intros []].
      repeat (apply (trees_cons pens _ _ []); [apply tree_Definite | | intros b []]).
      apply trees_nil.
    - intros b [<-|[]] [H|[]]. discriminate. }
  split; [exact Ht|]. split; [reflexivity|]. split; [reflexivity|].
  apply (RemoveWordOptions_drops_listed_words pens apart (BlockBetween catDogCow catDogCow)
           ([0%nat] ++ [1%nat]) ["dog"]); [exact Ht | reflexivity | reflexivity].
Defined.

(** X31.  When a [Compound] is reached twice, the first call on it writes
    into the array that the second call reads.  On [BlockBetween(c, c)]
    with [c] the [Compound] of cat, dog and cow, removing dog leaves
    cat, cow, cow in the array of [c]; the result has the first two of
    them on one side and all three on the other, and yields six lines,
    where the value yielded four lines without dog. *)
Theorem RemoveWordOptions_on_a_shared_Compound (fuel : nat) :
  Shared.RemoveWordOptions (4 + fuel) pen twice ["dog"]
  = Some ([[single "cat"; single "cow"; single "cow"]],
          Shared.New (Shared.BlockBetween (Shared.Compound (Shared.mkSlice 0 0 2))
                                          (Shared.Compound (Shared.mkSlice 0 0 3))))
  /\ Shared.Iterate (3 + fuel) [[single "cat"; single "cow"; single "cow"]]
       (Shared.BlockBetween (Shared.Compound (Shared.mkSlice 0 0 2))
                            (Shared.Compound (Shared.mkSlice 0 0 3)))
     = Some [both "cat" "cat"; both "cat" "cow"; both "cat" "cow";
             both "cow" "cat"; both "cow" "cow"; both "cow" "cow"]
  /\ option_map (filter (unlisted ["dog"])) (Shared.Iterate (3 + fuel) pen twice)
     = Some [both "cat" "cat"; both "cat" "cow"; both "cow" "cat"; both "cow" "cow"].
Proof. repeat split. Qed.
(** X15.  [CharsAt] at an index below [NumLetters], on a well-formed value
    whose mask caches are empty or hold the masks of their words, returns
    and adds to the set exactly the runes that the lines of the value have
    at the index; the value keeps its lines and its caches stay valid. *)
Theorem CharsAt_adds_the_cells (p : PossibleLines) (acc : CharSet) (n i : Z) :
  wellFormed p = true -> cacheOk p = true -> valid acc ->
  NumLetters p = Some n -> 0 <= i < n ->
  exists p' acc',
    CharsAt p acc i = Some (p', acc')
    /\ wellFormed p' = true /\ cacheOk p' = true /\ forget p' = forget p
    /\ Iterate p' = Iterate p
    /\ valid acc'
    /\ forall r, inRange r = true ->
                 Contains acc' r = Contains acc r || existsb (cellIs r i) (Iterate p).
Proof.
  intros Hwf Hc Hv Hn Hi.
  destruct (CharsAt_spec p Hwf Hc acc n i Hv Hn Hi)
    as (p' & acc' & Hchars & (Hwf' & Hc' & Hforget) & Hv' & Hadds).
  exists p', acc'. repeat (split; [assumption|]).
  split; [apply (same_Iterate _ _ Hforget)|]. split; [exact Hv' | exact Hadds].
Qed.

Lemma CharsAt_adds_the_cells_witness :
  wellFormed (BlockBefore catsAndDogs) = true /\ cacheOk (BlockBefore catsAndDogs) = true
  /\ valid NewCharSet /\ NumLetters (BlockBefore catsAndDogs) = Some 4 /\ 0 <= 2 < 4
  /\ exists p' acc',
       CharsAt (BlockBefore catsAndDogs) NewCharSet 2 = Some (p', acc')
       /\ wellFormed p' = true /\ cacheOk p' = true
       /\ forget p' = forget (BlockBefore catsAndDogs)
       /\ Iterate p' = Iterate (BlockBefore catsAndDogs)
       /\ valid acc'
       /\ forall r, inRange r = true ->
                    Contains acc' r
                    = Contains NewCharSet r
                      || existsb (cellIs r 2) (Iterate (BlockBefore catsAndDogs)).
Proof.
  assert (Hv : valid NewCharSet) by (split; [cbn; lia | reflexivity]).
  split; [reflexivity|]. split; [reflexivity|]. split; [exact Hv|].
  split; [reflexivity|]. split; [lia|].
  apply (CharsAt_adds_the_cells (BlockBefore catsAndDogs) NewCharSet 4 2);
    [reflexivity | reflexivity | exact Hv | reflexivity | lia].
Defined.

(** X16.  [FilterAny] at an index below [NumLetters], on a well-formed
    value with valid mask caches, returns; a full constraint leaves the
    lines as they are, and any other keeps exactly the lines whose cell at
    the index is a rune of the constraint, in order. *)
Theorem FilterAny_keeps_allowed_lines (p : PossibleLines) (cs : CharSet) (n i : Z) :
  wellFormed p = true -> cacheOk p = true -> valid cs ->
  NumLetters p = Some n -> 0 <= i < n ->
  exists r, FilterAny p cs i = Some r
            /\ Iterate (value p r)
               = if IsFull cs then Iterate p else filter (allowedAt cs i) (Iterate p).
Proof.
  intros Hwf Hc Hv Hn Hi. destruct (FilterAny_total cs p Hwf n i Hn Hi) as (r & Hr).
  exists r. split; [exact Hr|]. destruct (IsFull cs) eqn:Hfull.
  - rewrite (FilterAny_full cs p i r Hfull Hr). reflexivity.
  - apply (FilterAny_Iterate cs p Hv Hfull Hwf Hc n i r Hn Hi Hr).
Qed.

Lemma FilterAny_keeps_allowed_lines_witness :
  wellFormed (BlockBefore catsAndDogs) = true /\ cacheOk (BlockBefore catsAndDogs) = true
  /\ valid justO /\ NumLetters (BlockBefore catsAndDogs) = Some 4 /\ 0 <= 2 < 4
  /\ exists r, FilterAny (BlockBefore catsAndDogs) justO 2 = Some r
               /\ Iterate (value (BlockBefore catsAndDogs) r)
                  = if IsFull justO then Iterate (BlockBefore catsAndDogs)
                    else filter (allowedAt justO 2) (Iterate (BlockBefore catsAndDogs)).
Proof.
  assert (Hv : valid justO) by (split; [cbn; lia | reflexivity]).
  split; [reflexivity|]. split; [reflexivity|]. split; [exact Hv|].
  split; [reflexivity|]. split; [lia|].
  apply (FilterAny_keeps_allowed_lines (BlockBefore catsAndDogs) justO 4 2);
    [reflexivity | reflexivity | exact Hv | reflexivity | lia].
Defined.
End LineProperties.

(** ** The grid of Gen.cs *)
Module GridProperties.
Import WordGenLib GridSpec CrossingSpec.
Import LinesFacts PropagatorFacts SearchFacts SearchEnds EnumeratorFacts GridClaims.
Import PrefilterFacts SearchSound.
Import GridExamples MoreExamples.
Local Open Scope nat_scope.
Local Open Scope string_scope.

(** X17.  On a square grid state [Prefilter] returns the state itself
    when an entry of either axis is empty; otherwise it keeps, in every
    entry of the axis it filters, exactly the lines each character of
    which is offered at the crossing cell by some line of the entry that
    crosses there, and leaves the other axis as it is. *)
Theorem Prefilter_keeps_crossing_lines (state : GridState) (direction : Direction) :
  squareGrid state = true ->
  Prefilter state direction
  = Some (if existsb isEmpty (Down state) || existsb isEmpty (Across state)
          then state else tightened state direction).
Proof. apply Prefilter_tightened. Qed.

Lemma Prefilter_keeps_crossing_lines_witness :
  squareGrid loose = true
  /\ Prefilter loose Vertical
     = Some (if existsb isEmpty (Down loose) || existsb isEmpty (Across loose)
             then loose else tightened loose Vertical).
Proof.
  split; [reflexivity | apply (Prefilter_keeps_crossing_lines loose Vertical); reflexivity].
Defined.

Lemma AllPossibleGrids_yields_crossing_lines_witness :
  squareGrid loose = true
  /\ In (mkFinalGrid [twoLetters "ac"; twoLetters "bd"] [twoLetters "ab"; twoLetters "cd"])
        (yielded (fst (AllPossibleGrids (fun _ => false) 10 loose 0)))
  /\ fromOptions loose
       (mkFinalGrid [twoLetters "ac"; twoLetters "bd"] [twoLetters "ab"; twoLetters "cd"])
  /\ crossing
       (mkFinalGrid [twoLetters "ac"; twoLetters "bd"] [twoLetters "ab"; twoLetters "cd"]).
Proof.
  assert (Hin : In (mkFinalGrid [twoLetters "ac"; twoLetters "bd"]
                                [twoLetters "ab"; twoLetters "cd"])
                   (yielded (fst (AllPossibleGrids (fun _ => false) 10 loose 0))))
    by (vm_compute; repeat (first [left; reflexivity | right])).
  split; [reflexivity|]. split; [exact Hin|].
  apply (AllPossibleGrids_yields_crossing_lines (fun _ => false) 10 loose 0 _ eq_refl Hin).
Defined.
Lemma AllPossibleGrids_enough_fuel_witness :
  size loose < 10
  /\ status (fst (AllPossibleGrids (fun _ => false) 10 loose 0)) <> Pending
  /\ forall more, AllPossibleGrids (fun _ => false) (more + 10) loose 0
                  = AllPossibleGrids (fun _ => false) 10 loose 0.
Proof.
  split; [vm_compute; lia|].
  apply (AllPossibleGrids_enough_fuel (fun _ => false) loose 0 10). vm_compute. lia.
Defined.


Lemma AllPossibleLines_never_ends_witness :
  (7 <= gridSize smallZoo)%Z /\ (3 <= 3)%Z /\ status (AllPossibleLines smallZoo 5 3) <> Done.
Proof.
  split; [vm_compute; discriminate|]. split; [lia|].
  apply (AllPossibleLines_never_ends smallZoo 5); [vm_compute; discriminate | lia].
Defined.

Lemma AllPossibleLines_small_grid_ends_witness :
  (gridSize pets <= 6)%Z /\ 0 < 4 /\ (5 - 2 < Z.of_nat 4)%Z
  /\ status (AllPossibleLines pets 4 5) <> Pending.
Proof.
  split; [vm_compute; discriminate|]. split; [lia|]. split; [lia|].
  apply (AllPossibleLines_small_grid_ends pets 4); [vm_compute; discriminate | lia | lia].
Defined.
End GridProperties.

(** ** The helpers of Gen.cs *)
Module HelperProperties.
Import WordGenLib GenHelper GenHelperSpec.
Import GenHelperFacts ReadLineFacts MoreExamples.

Lemma Fill_then_AtPosition_witness :
  square 5 sketch = true /\ 0 <= 1 < 5 /\ 0 <= 2
  /\ 2 + Z.of_nat (List.length (chars "c t")) <= 5
  /\ exists grid',
       Fill sketch 1 Vertical 2 (chars "c t") = Some grid' /\ square 5 grid' = true
       /\ forall line pos,
            AtPosition grid' line pos Vertical
            = filled sketch 1 Vertical 2 (chars "c t") line pos.
Proof.
  split; [reflexivity|]. split; [lia|]. split; [lia|]. split; [cbn; lia|].
  apply (Fill_then_AtPosition 5 sketch 1 Vertical 2 (chars "c t"));
    [reflexivity | lia | lia | cbn; lia].
Defined.

Lemma ClearanceFromEnd_is_room_after_witness :
  square 5 sketch = true /\ 0 <= 0 < 5 /\ 0 <= 1 <= 5
  /\ exists room,
       ClearanceFromEnd sketch 0 1 Horizontal = Some room
       /\ 0 <= room <= 5 - 1
       /\ clearBetween sketch 0 Horizontal 1 (1 + room)
       /\ (1 + room = 5 \/ blockedAt sketch 0 Horizontal (1 + room) = true).
Proof.
  split; [reflexivity|]. split; [lia|]. split; [lia|].
  apply (ClearanceFromEnd_is_room_after 5 sketch 0 1 Horizontal); [reflexivity | lia | lia].
Defined.

Lemma ClearanceFromStart_is_room_before_witness :
  square 5 sketch = true /\ 0 <= 0 < 5 /\ 0 <= 4 <= 5
  /\ exists room,
       ClearanceFromStart sketch 0 4 Horizontal = Some room
       /\ 0 <= room <= 4
       /\ clearBetween sketch 0 Horizontal (4 - room) 4
       /\ (room = 4 \/ blockedAt sketch 0 Horizontal (4 - room - 1) = true).
Proof.
  split; [reflexivity|]. split; [lia|]. split; [lia|].
  apply (ClearanceFromStart_is_room_before 5 sketch 0 4 Horizontal); [reflexivity | lia | lia].
Defined.

(** X26.  [ReadLine] on a square grid returns segments none of which has
    the blocked character, and that joined with it give the line back:
    one character for each cell, a blank for an empty one. *)
Theorem ReadLine_segments_join_to_the_line (n : Z) (grid : Grid) (rowOrCol : Z)
        (dir : Direction) :
  square n grid = true -> 0 <= rowOrCol < n ->
  exists segments,
    ReadLine grid rowOrCol dir = Some segments
    /\ Forall (fun segment => ~ In BLOCKED segment) segments
    /\ Z.of_nat (List.length (Join BLOCKED segments)) = n
    /\ forall pos, 0 <= pos < n ->
         exists c, AtPosition grid rowOrCol pos dir = Some c
                   /\ element (Join BLOCKED segments) pos = Some (shown c).
Proof.
  intros Hsq Hrow.
  destruct (ReadLine_line n grid rowOrCol dir Hsq Hrow) as (line & Hread & Hlen & Hcells).
  exists (Split BLOCKED line). rewrite Join_Split.
  split; [exact Hread|]. split; [apply Split_segments|]. split; assumption.
Qed.

Lemma ReadLine_segments_join_to_the_line_witness :
  square 5 sketch = true /\ 0 <= 0 < 5
  /\ exists segments,
       ReadLine sketch 0 Horizontal = Some segments
       /\ Forall (fun segment => ~ In BLOCKED segment) segments
       /\ Z.of_nat (List.length (Join BLOCKED segments)) = 5
       /\ forall pos, 0 <= pos < 5 ->
            exists c, AtPosition sketch 0 pos Horizontal = Some c
                      /\ element (Join BLOCKED segments) pos = Some (shown c).
Proof.
  split; [reflexivity|]. split; [lia|].
  apply (ReadLine_segments_join_to_the_line 5 sketch 0 Horizontal); [reflexivity | lia].
Defined.

Lemma FindStartPositionAndLength_finds_a_run_witness :
  square 5 sketch = true /\ 0 <= 0 < 5
  /\ (forall bound, 0 < bound -> 0 <= (fun _ : Z => 0) bound < bound)
  /\ exists found,
       FindStartPositionAndLength (fun _ => 0) sketch 0 Horizontal = Some found
       /\ forall start length cells,
            found = Some (start, length, cells) ->
            isRun 5 sketch 0 Horizontal start length cells
            /\ 2 < length /\ In None cells.
Proof.
  split; [reflexivity|]. split; [lia|]. split; [intros bound Hb; lia|].
  apply (FindStartPositionAndLength_finds_a_run (fun _ => 0) 5 sketch 0 Horizontal);
    [reflexivity | lia | intros bound Hb; lia].
Defined.

(** X28.  [GetConstraints] on a square grid returns the cells of the line
    from [start] on, up to [length] of them, stopping before the first
    blocked one. *)
Theorem GetConstraints_reads_up_to_a_block (n : Z) (grid : Grid)
        (rowOrCol start length : Z) (dir : Direction) :
  square n grid = true -> 0 <= rowOrCol < n -> 0 <= start -> 0 <= length ->
  start + length <= n ->
  exists cs,
    GetConstraints grid rowOrCol start length dir = Some cs
    /\ Z.of_nat (List.length cs) <= length
    /\ (forall i, 0 <= i < Z.of_nat (List.length cs) ->
          exists c, AtPosition grid rowOrCol (start + i) dir = Some c
                    /\ isBlocked c = false /\ element cs i = Some c)
    /\ (Z.of_nat (List.length cs) = length
        \/ blockedAt grid rowOrCol dir (start + Z.of_nat (List.length cs)) = true).
Proof.
  intros Hsq Hrow Hstart Hlength Hfit. unfold GetConstraints.
  destruct (GetConstraints_loop_spec n grid rowOrCol dir Hsq Hrow (Z.to_nat length) start)
    as (cs & Hcs & Hlen & Hcells & Hend); [lia | lia |].
  exists cs. rewrite Z2Nat.id in * by lia. auto.
Qed.

Lemma GetConstraints_reads_up_to_a_block_witness :
  square 5 sketch = true /\ 0 <= 0 < 5 /\ 0 <= 1 /\ 0 <= 4 /\ 1 + 4 <= 5
  /\ exists cs,
       GetConstraints sketch 0 1 4 Horizontal = Some cs
       /\ Z.of_nat (List.length cs) <= 4
       /\ (forall i, 0 <= i < Z.of_nat (List.length cs) ->
             exists c, AtPosition sketch 0 (1 + i) Horizontal = Some c
                       /\ isBlocked c = false /\ element cs i = Some c)
       /\ (Z.of_nat (List.length cs) = 4
           \/ blockedAt sketch 0 Horizontal (1 + Z.of_nat (List.length cs)) = true).
Proof.
  split; [reflexivity|]. split; [lia|]. split; [lia|]. split; [lia|]. split; [lia|].
  apply (GetConstraints_reads_up_to_a_block 5 sketch 0 1 4 Horizontal);
    [reflexivity | lia | lia | lia | lia].
Defined.
End HelperProperties.
